(** * Sollumz: fragment physics derivation, cloth construction, XML variant
      dispatch and navmesh polygon attributes

    A shallow embedding of the parts of the Sollumz exporter that the
    specification makes claims about:

    - [yft/yftexport.py]: [sort_cols_and_children],
      [calculate_physics_lod_transforms], [calculate_archetype_mass_inertia],
      [create_frag_env_cloth];
    - [resources/drawable.py]: [ParametersListProperty.from_xml],
      [Drawable.from_xml];
    - [ynv/navmesh_attributes.py]: [mesh_get_navmesh_poly_attributes],
      [mesh_set_navmesh_poly_attributes].

    Conventions.  Python lists are Rocq lists; an operation that raises in
    Python (an index out of range, a division by zero, a failed [next])
    returns [None].  Python integers are [Z]; list positions produced by
    [enumerate] or [len] are [nat].  Python floats are modelled by exact
    rationals [Q]: the theorems are about which quantities are combined and
    how, not about rounding. *)

From Stdlib Require Import ZArith QArith Qround Qabs Lia.
From stdpp Require Import base list sorting strings gmap.

(** ** Python list indexing *)

Module Py.

(** [l[i]] for a Python integer [i]: a negative index counts from the end,
    an index outside [-len, len) raises [IndexError]. *)
Definition norm_index (len : nat) (i : Z) : option nat :=
  if (0 <=? i)%Z then
    if (i <? Z.of_nat len)%Z then Some (Z.to_nat i) else None
  else
    if (- Z.of_nat len <=? i)%Z then Some (Z.to_nat (Z.of_nat len + i)) else None.

Definition getitem {A} (l : list A) (i : Z) : option A :=
  match norm_index (length l) i with
  | Some n => l !! n
  | None => None
  end.

(** [l[i] = x] for a position [i] that is a natural number. *)
Definition setitem {A} (l : list A) (i : nat) (x : A) : option (list A) :=
  if decide (i < length l) then Some (<[i:=x]> l) else None.

Lemma norm_index_nat len (i : nat) :
  i < len → norm_index len (Z.of_nat i) = Some i.
Proof.
  intros Hi. unfold norm_index.
  destruct (Z.leb_spec 0 (Z.of_nat i)); [|lia].
  destruct (Z.ltb_spec (Z.of_nat i) (Z.of_nat len)); [|lia].
  by rewrite Nat2Z.id.
Qed.

Lemma norm_index_lt len i n : norm_index len i = Some n → n < len.
Proof.
  unfold norm_index.
  destruct (Z.leb_spec 0 i).
  - destruct (Z.ltb_spec i (Z.of_nat len)); intros [= <-]; lia.
  - destruct (Z.leb_spec (- Z.of_nat len) i); intros [= <-]; lia.
Qed.

Lemma getitem_nat {A} (l : list A) (i : nat) :
  i < length l → getitem l (Z.of_nat i) = l !! i.
Proof. intros Hi. unfold getitem. by rewrite norm_index_nat. Qed.

Lemma setitem_Some {A} (l : list A) i x :
  i < length l → setitem l i x = Some (<[i:=x]> l).
Proof. intros Hi. unfold setitem. by rewrite decide_True. Qed.

(** A loop whose body may raise. *)
Fixpoint fold_leftM {A B} (f : A → B → option A) (l : list B) (a : A) : option A :=
  match l with
  | [] => Some a
  | x :: l' => a' ← f a x; fold_leftM f l' a'
  end.

Lemma fold_leftM_app {A B} (f : A → B → option A) l1 l2 a :
  fold_leftM f (l1 ++ l2) a = fold_leftM f l1 a ≫= fold_leftM f l2.
Proof.
  revert a. induction l1 as [|x l1 IH]; intros a; simpl; [done|].
  destruct (f a x) as [a'|]; simpl; [apply IH|done].
Qed.

(** A nested loop is one loop over the concatenation. *)
Lemma fold_leftM_concat {A B} (f : A → B → option A) (ls : list (list B)) a :
  fold_leftM (λ st l, fold_leftM f l st) ls a = fold_leftM f (concat ls) a.
Proof.
  revert a. induction ls as [|l ls IH]; intros a; simpl; [done|].
  rewrite fold_leftM_app. destruct (fold_leftM f l a); simpl; [apply IH|done].
Qed.

Lemma filter_fmap {A B} (f : A → B) (P : B → Prop) `{!∀ y, Decision (P y)} (l : list A) :
  filter P (f <$> l) = f <$> filter (λ x, P (f x)) l.
Proof.
  induction l as [|x l IH]; [done|].
  rewrite fmap_cons, !filter_cons. case_decide; by rewrite ?fmap_cons, IH.
Qed.

Lemma filter_ext_elem {A} (P Q : A → Prop)
    `{!∀ x, Decision (P x), !∀ x, Decision (Q x)} (l : list A) :
  (∀ x, x ∈ l → P x ↔ Q x) → filter P l = filter Q l.
Proof.
  induction l as [|x l IH]; intros Hl; [done|].
  rewrite !filter_cons, IH by (intros; apply Hl; by right).
  apply decide_ext, Hl. by left.
Qed.

Lemma elem_of_concat {A} (ls : list (list A)) x :
  x ∈ concat ls ↔ ∃ l, l ∈ ls ∧ x ∈ l.
Proof.
  induction ls as [|l ls IH]; simpl.
  - split; [by intros ?%elem_of_nil|by intros (? & ?%elem_of_nil & _)].
  - rewrite elem_of_app, IH. split.
    + intros [?|(l' & ? & ?)]; [exists l; split; [by left|done]|].
      exists l'. split; [by right|done].
    + intros (l' & [->|?]%elem_of_cons & ?); [by left|]. right. by exists l'.
Qed.

Lemma concat_insert_snoc {A} (ls : list (list A)) k l x :
  ls !! k = Some l → concat (<[k := l ++ [x]]> ls) ≡ₚ x :: concat ls.
Proof.
  revert k. induction ls as [|l0 ls IH]; intros [|k] Hk; simplify_eq/=.
  - rewrite <- app_assoc. simpl. by rewrite <- Permutation_middle.
  - rewrite (IH k Hk). by rewrite <- Permutation_middle.
Qed.

Lemma alter_lookup_insert {A} (f : A → A) (l : list A) i x :
  l !! i = Some x → alter f i l = <[i := f x]> l.
Proof.
  revert i. induction l as [|y l IH]; intros [|i] Hi; simplify_eq/=; [done|].
  f_equal. by apply IH.
Qed.

(** [enumerate(l)] *)
Definition enumerate {A} (l : list A) : list (nat * A) :=
  zip (seq 0 (length l)) l.

Lemma enumerate_fst {A} (l : list A) : (enumerate l).*1 = seq 0 (length l).
Proof. unfold enumerate. apply fst_zip. by rewrite length_seq. Qed.

Lemma enumerate_snd {A} (l : list A) : (enumerate l).*2 = l.
Proof. unfold enumerate. apply snd_zip. by rewrite length_seq. Qed.

Lemma enumerate_length {A} (l : list A) : length (enumerate l) = length l.
Proof. by rewrite <- (length_fmap snd), enumerate_snd. Qed.

Lemma enumerate_lookup_Some {A} (l : list A) i x :
  l !! i = Some x → enumerate l !! i = Some (i, x).
Proof.
  intros Hi. unfold enumerate. apply lookup_zip_with_Some.
  exists i, x. split_and!; [done| |done].
  apply lookup_seq. split; [done|]. by eapply lookup_lt_Some.
Qed.

Lemma enumerate_lookup {A} (l : list A) x : x ∈ enumerate l → l !! x.1 = Some x.2.
Proof.
  intros (i & Hi)%list_elem_of_lookup. destruct x as [j a].
  apply lookup_zip_with_Some in Hi as (j' & a' & [= -> ->] & Hj & Ha).
  apply lookup_seq in Hj as [-> _]. done.
Qed.

Lemma zip_fmap_fst {A B C} (l : list A) (k : list (B * C)) :
  zip l k.*1 = (λ x, (x.1, x.2.1)) <$> zip l k.
Proof.
  revert k. induction l as [|a l IH]; intros [|[b c] k]; simpl; [done..|].
  f_equal. apply IH.
Qed.

Lemma enumerate_zip_fst {A B} (l : list A) (k : list B) :
  length l ≤ length k →
  enumerate l = (λ x, (x.1, x.2.1)) <$> enumerate (zip l k).
Proof.
  intros Hlen. unfold enumerate. rewrite <- zip_fmap_fst.
  rewrite fst_zip by done. by rewrite length_zip_with, Nat.min_l by done.
Qed.

End Py.

(** ** Grouping a list into blocks by an integer key

    [blocks key l ks] lists, for each key of [ks] in turn, the elements of
    [l] with that key, in the order they have in [l]. *)

Section blocks.
Context {A K : Type} `{EqDecision K} (key : A → K).

Definition block (l : list A) (k : K) : list A := filter (λ x, key x = k) l.

Definition blocks (l : list A) (ks : list K) : list A := concat (block l <$> ks).

Lemma blocks_cons l k ks : blocks l (k :: ks) = block l k ++ blocks l ks.
Proof. done. Qed.

Lemma elem_of_blocks l ks x : x ∈ blocks l ks → x ∈ l ∧ key x ∈ ks.
Proof.
  induction ks as [|k ks IH]; [by intros ?%elem_of_nil|].
  rewrite blocks_cons, elem_of_app. unfold block at 1.
  rewrite list_elem_of_filter. intros [[<- ?]|[? ?]%IH]; split; auto; constructor; auto.
Qed.

Lemma block_remove_other l k k' :
  k' ≠ k → block (filter (λ x, key x ≠ k) l) k' = block l k'.
Proof.
  intros Hne. unfold block. rewrite list_filter_filter.
  apply list_filter_iff. intros x. split; [tauto|]. intros <-. auto.
Qed.

Lemma blocks_remove_other l k ks :
  k ∉ ks → blocks (filter (λ x, key x ≠ k) l) ks = blocks l ks.
Proof.
  intros Hk. unfold blocks. f_equal. apply list_fmap_ext.
  intros i k' Hk'. apply block_remove_other. intros ->.
  apply Hk. eapply list_elem_of_lookup_2; eauto.
Qed.

Lemma blocks_Permutation l ks :
  NoDup ks → (∀ x, x ∈ l → key x ∈ ks) → blocks l ks ≡ₚ l.
Proof.
  intros Hnd. revert l. induction Hnd as [|k ks Hk Hnd IH]; intros l Hl.
  - destruct l as [|x l]; [done|].
    exfalso. eapply elem_of_nil, (Hl x). by left.
  - rewrite blocks_cons, <- (blocks_remove_other l k ks Hk).
    rewrite IH.
    + apply filter_app_complement.
    + intros x [Hx Hin]%list_elem_of_filter.
      apply Hl, elem_of_cons in Hin as [?|?]; done.
Qed.

Lemma blocks_filter_keys l ks :
  blocks (filter (λ x, key x ∈ ks) l) ks = blocks l ks.
Proof.
  unfold blocks. f_equal. apply list_fmap_ext. intros i k Hk.
  unfold block. apply list_filter_filter_l. intros x <-.
  by eapply list_elem_of_lookup_2.
Qed.

(** The blocks of the keys [ks] hold the elements whose key is in [ks]. *)
Lemma blocks_Permutation_filter l ks :
  NoDup ks → blocks l ks ≡ₚ filter (λ x, key x ∈ ks) l.
Proof.
  intros Hnd. rewrite <- blocks_filter_keys.
  apply blocks_Permutation; [done|].
  by intros x [? _]%list_elem_of_filter.
Qed.

Lemma filter_block l k g :
  filter (λ x, key x = g) (block l k) = if decide (k = g) then block l g else [].
Proof.
  unfold block. rewrite list_filter_filter. case_decide as Hkg.
  - subst. apply list_filter_iff. tauto.
  - induction l as [|x l IH]; [done|].
    rewrite filter_cons_False; [done|]. intros [? ?]. congruence.
Qed.

Lemma blocks_filter_elem l ks g :
  NoDup ks →
  filter (λ x, key x = g) (blocks l ks) = if decide (g ∈ ks) then block l g else [].
Proof.
  induction 1 as [|k ks Hk Hnd IH]; [done|].
  rewrite blocks_cons, filter_app, filter_block, IH.
  destruct (decide (k = g)) as [->|Hne].
  - rewrite (decide_False (P := g ∈ ks)) by done.
    rewrite decide_True by (by left). apply app_nil_r.
  - destruct (decide (g ∈ ks)).
    + by rewrite decide_True by (by right).
    + rewrite decide_False; [done|]. intros [?|?]%elem_of_cons; done.
Qed.

(** Stability: the elements of one key keep their order. *)
Lemma blocks_filter l ks g :
  NoDup ks → (∀ x, x ∈ l → key x ∈ ks) →
  filter (λ x, key x = g) (blocks l ks) = filter (λ x, key x = g) l.
Proof.
  intros Hnd Hl. rewrite blocks_filter_elem by done.
  case_decide as Hg; [done|].
  symmetry. induction l as [|x l IH]; [done|].
  rewrite filter_cons_False.
  - apply IH. intros y Hy. apply Hl. by right.
  - intros <-. apply Hg, Hl. by left.
Qed.

End blocks.

Section blocks_sorted.
Context {A : Type} (key : A → Z).

Lemma StronglySorted_same_key (l : list A) k :
  Forall (λ x, key x = k) l → StronglySorted (λ a b, (key a ≤ key b)%Z) l.
Proof.
  induction 1 as [|x l Hx Hl IH]; constructor; [done|].
  eapply Forall_impl; [exact Hl|]. simpl. intros y Hy. lia.
Qed.

Lemma blocks_sorted l ks :
  StronglySorted Z.le ks → StronglySorted (λ a b, (key a ≤ key b)%Z) (blocks key l ks).
Proof.
  induction 1 as [|k ks Hs IH Hk]; [constructor|].
  rewrite blocks_cons. apply StronglySorted_app_2.
  - intros x1 x2 [Hx1 _]%list_elem_of_filter [_ Hx2]%elem_of_blocks.
    rewrite Forall_forall in Hk. rewrite Hx1. by apply Hk.
  - apply (StronglySorted_same_key _ k), Forall_forall.
    by intros x [? _]%list_elem_of_filter.
  - done.
Qed.

End blocks_sorted.

(** ** Navmesh polygon attributes ([ynv/navmesh_attributes.py]) *)

Module NavMesh.

Local Open Scope Z_scope.

Record NavPolyCoverDirections := mkCover {
  dir0 : bool; dir1 : bool; dir2 : bool; dir3 : bool;
  dir4 : bool; dir5 : bool; dir6 : bool; dir7 : bool }.

Record NavPolyAttributes := mkAttrs {
  is_small : bool;
  is_large : bool;
  is_pavement : bool;
  is_in_shelter : bool;
  is_too_steep_to_walk_on : bool;
  is_water : bool;
  is_near_car_node : bool;
  is_interior : bool;
  is_isolated : bool;
  is_network_spawn_candidate : bool;
  is_road : bool;
  lies_along_edge : bool;
  is_train_track : bool;
  is_shallow_water : bool;
  cover_directions : NavPolyCoverDirections;
  audio_reverb_size : Z;
  audio_reverb_wet : Z;
  ped_density : Z }.

(** The two per-polygon integer layers of a mesh.  In edit mode they are
    the BMesh face layers, otherwise the mesh attributes; either may be
    absent ([None]). *)
Record Mesh := mkMesh {
  is_editmode : bool;
  bm_data0_layer : option (list Z);
  bm_data1_layer : option (list Z);
  data0_attr : option (list Z);
  data1_attr : option (list Z) }.

(** [cover_directions[i]] on the named tuple. *)
Definition cover_dir (c : NavPolyCoverDirections) (i : nat) : bool :=
  match i with
  | 0%nat => dir0 c | 1%nat => dir1 c | 2%nat => dir2 c | 3%nat => dir3 c
  | 4%nat => dir4 c | 5%nat => dir5 c | 6%nat => dir6 c | _ => dir7 c
  end.

(** [v if b else 0] *)
Definition bit_if (v : Z) (b : bool) : Z := if b then v else 0.

(** [(x & m) != 0] *)
Definition test_mask (x m : Z) : bool := negb (Z.land x m =? 0).

Definition flags0_of (a : NavPolyAttributes) : Z :=
  let f := 0 in
  let f := Z.lor f (bit_if 1 (is_small a)) in
  let f := Z.lor f (bit_if 2 (is_large a)) in
  let f := Z.lor f (bit_if 4 (is_pavement a)) in
  let f := Z.lor f (bit_if 8 (is_in_shelter a)) in
  let f := Z.lor f (bit_if 64 (is_too_steep_to_walk_on a)) in
  Z.lor f (bit_if 128 (is_water a)).

Definition flags1_of (a : NavPolyAttributes) : Z :=
  let f := Z.land (audio_reverb_size a) 3 in
  let f := Z.lor f (Z.shiftl (Z.land (audio_reverb_wet a) 3) 2) in
  let f := Z.lor f (bit_if 32 (is_near_car_node a)) in
  let f := Z.lor f (bit_if 64 (is_interior a)) in
  Z.lor f (bit_if 128 (is_isolated a)).

Definition flags2_of (a : NavPolyAttributes) : Z :=
  let f := 0 in
  let f := Z.lor f (bit_if 1 (is_network_spawn_candidate a)) in
  let f := Z.lor f (bit_if 2 (is_road a)) in
  let f := Z.lor f (bit_if 4 (lies_along_edge a)) in
  let f := Z.lor f (bit_if 8 (is_train_track a)) in
  let f := Z.lor f (bit_if 16 (is_shallow_water a)) in
  Z.lor f (Z.shiftl (Z.land (ped_density a) 7) 5).

(** [for i in range(8): flags3 |= (1 << i) if cover_directions[i] else 0] *)
Definition flags3_of (a : NavPolyAttributes) : Z :=
  fold_left
    (fun f i => Z.lor f (bit_if (Z.shiftl 1 (Z.of_nat i)) (cover_dir (cover_directions a) i)))
    (seq 0 8) 0.

Definition data0_of (a : NavPolyAttributes) : Z :=
  Z.lor (flags0_of a) (Z.shiftl (flags1_of a) 8).

Definition data1_of (a : NavPolyAttributes) : Z :=
  Z.lor (flags2_of a) (Z.shiftl (flags3_of a) 8).

(** [0 if layer is None else layer[poly_idx]] *)
Definition read_layer (layer : option (list Z)) (poly_idx : nat) : option Z :=
  match layer with
  | None => Some 0
  | Some l => l !! poly_idx
  end.

(** [if layer is not None: layer[poly_idx] = v] *)
Definition write_layer (layer : option (list Z)) (poly_idx : nat) (v : Z)
  : option (option (list Z)) :=
  match layer with
  | None => Some None
  | Some l => l' ← Py.setitem l poly_idx v; Some (Some l')
  end.

Definition attributes_of_data (data0 data1 : Z) : NavPolyAttributes :=
  let flags0 := Z.land data0 255 in
  let flags1 := Z.land (Z.shiftr data0 8) 255 in
  let flags2 := Z.land data1 255 in
  let flags3 := Z.land (Z.shiftr data1 8) 255 in
  {| is_small := test_mask flags0 1;
     is_large := test_mask flags0 2;
     is_pavement := test_mask flags0 4;
     is_in_shelter := test_mask flags0 8;
     is_too_steep_to_walk_on := test_mask flags0 64;
     is_water := test_mask flags0 128;
     audio_reverb_size := Z.land flags1 3;
     audio_reverb_wet := Z.land (Z.shiftr flags1 2) 3;
     is_near_car_node := test_mask flags1 32;
     is_interior := test_mask flags1 64;
     is_isolated := test_mask flags1 128;
     is_network_spawn_candidate := test_mask flags2 1;
     is_road := test_mask flags2 2;
     lies_along_edge := test_mask flags2 4;
     is_train_track := test_mask flags2 8;
     is_shallow_water := test_mask flags2 16;
     ped_density := Z.land (Z.shiftr flags2 5) 7;
     cover_directions :=
       mkCover (test_mask flags3 (Z.shiftl 1 0)) (test_mask flags3 (Z.shiftl 1 1))
               (test_mask flags3 (Z.shiftl 1 2)) (test_mask flags3 (Z.shiftl 1 3))
               (test_mask flags3 (Z.shiftl 1 4)) (test_mask flags3 (Z.shiftl 1 5))
               (test_mask flags3 (Z.shiftl 1 6)) (test_mask flags3 (Z.shiftl 1 7)) |}.

Definition mesh_get_navmesh_poly_attributes (mesh : Mesh) (poly_idx : nat)
  : option NavPolyAttributes :=
  if is_editmode mesh then
    data0 ← read_layer (bm_data0_layer mesh) poly_idx;
    data1 ← read_layer (bm_data1_layer mesh) poly_idx;
    Some (attributes_of_data data0 data1)
  else
    data0 ← read_layer (data0_attr mesh) poly_idx;
    data1 ← read_layer (data1_attr mesh) poly_idx;
    Some (attributes_of_data data0 data1).

Definition mesh_set_navmesh_poly_attributes
  (mesh : Mesh) (poly_idx : nat) (poly_attrs : NavPolyAttributes) : option Mesh :=
  let data0 := data0_of poly_attrs in
  let data1 := data1_of poly_attrs in
  if is_editmode mesh then
    l0 ← write_layer (bm_data0_layer mesh) poly_idx data0;
    l1 ← write_layer (bm_data1_layer mesh) poly_idx data1;
    Some (mkMesh true l0 l1 (data0_attr mesh) (data1_attr mesh))
  else
    l0 ← write_layer (data0_attr mesh) poly_idx data0;
    l1 ← write_layer (data1_attr mesh) poly_idx data1;
    Some (mkMesh false (bm_data0_layer mesh) (bm_data1_layer mesh) l0 l1).

(** The value ranges documented on the dataclass fields. *)
Definition attrs_in_range (a : NavPolyAttributes) : Prop :=
  0 <= audio_reverb_size a <= 3 ∧ 0 <= audio_reverb_wet a <= 3 ∧
  0 <= ped_density a <= 7.

(** Both polygon data layers of the active mode exist and have an entry
    for [poly_idx]. *)
Definition has_poly_data (mesh : Mesh) (poly_idx : nat) : Prop :=
  if is_editmode mesh then
    (∃ l0, bm_data0_layer mesh = Some l0 ∧ (poly_idx < length l0)%nat) ∧
    (∃ l1, bm_data1_layer mesh = Some l1 ∧ (poly_idx < length l1)%nat)
  else
    (∃ l0, data0_attr mesh = Some l0 ∧ (poly_idx < length l0)%nat) ∧
    (∃ l1, data1_attr mesh = Some l1 ∧ (poly_idx < length l1)%nat).

Definition default_cover : NavPolyCoverDirections :=
  mkCover false false false false false false false false.

Definition small_poly : NavPolyAttributes :=
  mkAttrs true false false false false false false false false false
          false false false false default_cover 0 0 0.

Definition bare_mesh : Mesh := mkMesh false None None None None.

Definition one_poly_mesh : Mesh := mkMesh false None None (Some [0]) (Some [0]).

(** *** Byte-level facts *)

Lemma low_byte lo hi :
  0 <= lo < 256 → Z.land (Z.lor lo (Z.shiftl hi 8)) 255 = lo.
Proof.
  intros Hlo. apply Z.bits_inj'. intros n Hn.
  rewrite Z.land_spec, Z.lor_spec, Z.shiftl_spec by lia.
  change 255 with (Z.ones 8).
  destruct (Z.lt_ge_cases n 8) as [Hlt|Hge].
  - rewrite Z.ones_spec_low by lia.
    rewrite (Z.testbit_neg_r hi) by lia.
    by rewrite orb_false_r, andb_true_r.
  - rewrite Z.ones_spec_high by lia. rewrite andb_false_r.
    symmetry. destruct (Z.eq_dec lo 0) as [->|Hnz]; [apply Z.bits_0|].
    apply Z.bits_above_log2; [lia|].
    apply Z.lt_le_trans with 8; [|lia].
    apply Z.log2_lt_pow2; lia.
Qed.

Lemma high_byte lo hi :
  0 <= lo < 256 → 0 <= hi < 256 →
  Z.land (Z.shiftr (Z.lor lo (Z.shiftl hi 8)) 8) 255 = hi.
Proof.
  intros Hlo Hhi.
  rewrite Z.shiftr_lor, Z.shiftr_shiftl_l by lia.
  replace (Z.shiftr lo 8) with 0.
  - simpl. rewrite Z.shiftl_0_r.
    rewrite <- (Z.shiftl_0_r hi) at 1. change (Z.shiftl hi 0) with (Z.shiftl hi (8 - 8)).
    rewrite <- (Z.lor_0_l (Z.shiftl hi (8 - 8))).
    simpl. change 255 with (Z.ones 8). rewrite Z.land_ones by lia.
    apply Z.mod_small. lia.
  - symmetry. rewrite Z.shiftr_div_pow2 by lia. apply Z.div_small. simpl. lia.
Qed.

Lemma land3_cases x : Z.land x 3 = 0 ∨ Z.land x 3 = 1 ∨ Z.land x 3 = 2 ∨ Z.land x 3 = 3.
Proof.
  replace (Z.land x 3) with (x mod 2 ^ 2) by (symmetry; apply (Z.land_ones x 2); lia).
  pose proof (Z.mod_pos_bound x (2 ^ 2) ltac:(lia)). lia.
Qed.

Lemma land7_cases x :
  Z.land x 7 = 0 ∨ Z.land x 7 = 1 ∨ Z.land x 7 = 2 ∨ Z.land x 7 = 3 ∨
  Z.land x 7 = 4 ∨ Z.land x 7 = 5 ∨ Z.land x 7 = 6 ∨ Z.land x 7 = 7.
Proof.
  replace (Z.land x 7) with (x mod 2 ^ 3) by (symmetry; apply (Z.land_ones x 3); lia).
  pose proof (Z.mod_pos_bound x (2 ^ 3) ltac:(lia)). lia.
Qed.

Lemma land3_id x : 0 <= x <= 3 → Z.land x 3 = x.
Proof.
  intros Hx. change 3 with (Z.ones 2) at 1. rewrite Z.land_ones by lia.
  apply Z.mod_small. lia.
Qed.

Lemma land7_id x : 0 <= x <= 7 → Z.land x 7 = x.
Proof.
  intros Hx. change 7 with (Z.ones 3) at 1. rewrite Z.land_ones by lia.
  apply Z.mod_small. lia.
Qed.

Lemma flags0_range a : 0 <= flags0_of a < 256.
Proof.
  destruct a as [b0 b1 b2 b3 b4 b5 ? ? ? ? ? ? ? ? ? ? ? ?].
  unfold flags0_of; simpl. destruct b0, b1, b2, b3, b4, b5; by vm_compute.
Qed.

Lemma flags1_range a : 0 <= flags1_of a < 256.
Proof.
  destruct a as [? ? ? ? ? ? nc it iso ? ? ? ? ? ? sz wet ?].
  unfold flags1_of; simpl.
  destruct (land3_cases sz) as [-> | [-> | [-> | ->]]];
    destruct (land3_cases wet) as [-> | [-> | [-> | ->]]];
    destruct nc, it, iso; by vm_compute.
Qed.

Lemma flags2_range a : 0 <= flags2_of a < 256.
Proof.
  destruct a as [? ? ? ? ? ? ? ? ? ns rd le tt sw ? ? ? pd].
  unfold flags2_of; simpl.
  destruct (land7_cases pd) as [-> | [-> | [-> | [-> | [-> | [-> | [-> | ->]]]]]]];
    destruct ns, rd, le, tt, sw; by vm_compute.
Qed.

Lemma flags3_range a : 0 <= flags3_of a < 256.
Proof.
  destruct a as [? ? ? ? ? ? ? ? ? ? ? ? ? ? [c0 c1 c2 c3 c4 c5 c6 c7] ? ? ?].
  unfold flags3_of; simpl.
  destruct c0, c1, c2, c3, c4, c5, c6, c7; by vm_compute.
Qed.

Lemma unpack_flags0 a :
  let f := flags0_of a in
  test_mask f 1 = is_small a ∧ test_mask f 2 = is_large a ∧
  test_mask f 4 = is_pavement a ∧ test_mask f 8 = is_in_shelter a ∧
  test_mask f 64 = is_too_steep_to_walk_on a ∧ test_mask f 128 = is_water a.
Proof.
  destruct a as [b0 b1 b2 b3 b4 b5 ? ? ? ? ? ? ? ? ? ? ? ?].
  unfold flags0_of; simpl. destruct b0, b1, b2, b3, b4, b5; by vm_compute.
Qed.

Lemma unpack_flags1 a :
  attrs_in_range a →
  let f := flags1_of a in
  Z.land f 3 = audio_reverb_size a ∧
  Z.land (Z.shiftr f 2) 3 = audio_reverb_wet a ∧
  test_mask f 32 = is_near_car_node a ∧ test_mask f 64 = is_interior a ∧
  test_mask f 128 = is_isolated a.
Proof.
  destruct a as [? ? ? ? ? ? nc it iso ? ? ? ? ? ? sz wet ?].
  unfold attrs_in_range, flags1_of; simpl. intros (Hsz & Hwet & _).
  rewrite (land3_id sz), (land3_id wet) by done.
  assert (sz = 0 ∨ sz = 1 ∨ sz = 2 ∨ sz = 3) as [-> | [-> | [-> | ->]]] by lia;
    assert (wet = 0 ∨ wet = 1 ∨ wet = 2 ∨ wet = 3) as [-> | [-> | [-> | ->]]] by lia;
    destruct nc, it, iso; by vm_compute.
Qed.

Lemma unpack_flags2 a :
  attrs_in_range a →
  let f := flags2_of a in
  test_mask f 1 = is_network_spawn_candidate a ∧ test_mask f 2 = is_road a ∧
  test_mask f 4 = lies_along_edge a ∧ test_mask f 8 = is_train_track a ∧
  test_mask f 16 = is_shallow_water a ∧
  Z.land (Z.shiftr f 5) 7 = ped_density a.
Proof.
  destruct a as [? ? ? ? ? ? ? ? ? ns rd le tt sw ? ? ? pd].
  unfold attrs_in_range, flags2_of; simpl. intros (_ & _ & Hpd).
  rewrite (land7_id pd) by done.
  assert (pd = 0 ∨ pd = 1 ∨ pd = 2 ∨ pd = 3 ∨ pd = 4 ∨ pd = 5 ∨ pd = 6 ∨ pd = 7)
    as [-> | [-> | [-> | [-> | [-> | [-> | [-> | ->]]]]]]] by lia;
    destruct ns, rd, le, tt, sw; by vm_compute.
Qed.

Lemma unpack_flags3 a :
  let f := flags3_of a in
  mkCover (test_mask f (Z.shiftl 1 0)) (test_mask f (Z.shiftl 1 1))
          (test_mask f (Z.shiftl 1 2)) (test_mask f (Z.shiftl 1 3))
          (test_mask f (Z.shiftl 1 4)) (test_mask f (Z.shiftl 1 5))
          (test_mask f (Z.shiftl 1 6)) (test_mask f (Z.shiftl 1 7))
  = cover_directions a.
Proof.
  destruct a as [? ? ? ? ? ? ? ? ? ? ? ? ? ? [c0 c1 c2 c3 c4 c5 c6 c7] ? ? ?].
  unfold flags3_of; simpl.
  destruct c0, c1, c2, c3, c4, c5, c6, c7; by vm_compute.
Qed.

Lemma two_bytes_range lo hi :
  0 <= lo < 256 → 0 <= hi < 256 → 0 <= Z.lor lo (Z.shiftl hi 8) < 65536.
Proof.
  intros Hlo Hhi.
  assert (0 <= Z.lor lo (Z.shiftl hi 8)) as Hnn.
  { apply Z.lor_nonneg. split; [lia|]. apply Z.shiftl_nonneg; lia. }
  split; [done|].
  destruct (Z.eq_dec (Z.lor lo (Z.shiftl hi 8)) 0) as [->|Hnz]; [lia|].
  change 65536 with (2 ^ 16). apply Z.log2_lt_pow2; [lia|].
  rewrite Z.log2_lor by (try apply Z.shiftl_nonneg; lia).
  apply Z.max_lub_lt.
  - destruct (Z.eq_dec lo 0) as [->|?]; [simpl; lia|].
    apply Z.lt_trans with 8; [|lia]. apply Z.log2_lt_pow2; lia.
  - destruct (Z.eq_dec hi 0) as [->|?]; [simpl; lia|].
    rewrite Z.log2_shiftl by lia.
    assert (Z.log2 hi < 8); [|lia].
    apply Z.log2_lt_pow2; lia.
Qed.

Lemma data0_range a : 0 <= data0_of a < 65536.
Proof. apply two_bytes_range; [apply flags0_range | apply flags1_range]. Qed.

Lemma data1_range a : 0 <= data1_of a < 65536.
Proof. apply two_bytes_range; [apply flags2_range | apply flags3_range]. Qed.

(** Unpacking the packed pair of integers gives the attributes back. *)
Lemma attributes_of_data_pack a :
  attrs_in_range a → attributes_of_data (data0_of a) (data1_of a) = a.
Proof.
  intros Hr. unfold attributes_of_data, data0_of, data1_of. cbv zeta.
  rewrite !low_byte, !high_byte
    by first [apply flags0_range | apply flags1_range
             | apply flags2_range | apply flags3_range].
  pose proof (unpack_flags0 a) as (E1 & E2 & E3 & E4 & E5 & E6).
  pose proof (unpack_flags1 a Hr) as (F1 & F2 & F3 & F4 & F5).
  pose proof (unpack_flags2 a Hr) as (G1 & G2 & G3 & G4 & G5 & G6).
  pose proof (unpack_flags3 a) as Hc. cbv zeta in Hc.
  rewrite E1, E2, E3, E4, E5, E6, F1, F2, F3, F4, F5, G1, G2, G3, G4, G5, G6, Hc.
  by destruct a.
Qed.

Lemma read_write_layer l i v :
  (i < length l)%nat →
  ∃ l', write_layer (Some l) i v = Some (Some l') ∧ read_layer (Some l') i = Some v.
Proof.
  intros Hi. exists (<[i:=v]> l). simpl. rewrite Py.setitem_Some by done.
  split; [done|]. by apply list_lookup_insert_eq.
Qed.

(** A missing layer swallows the write ([if layer is not None]) and reads
    back as 0. *)
Lemma write_layer_absent i v : write_layer None i v = Some None.
Proof. done. Qed.

(** C10, as stated, fails on a mesh that lacks the polygon data attributes:
    the setter skips the write, and the getter then reads zeros, so a
    polygon marked [is_small] reads back with [is_small = false]. *)
Lemma set_get_dropped_without_attributes :
  attrs_in_range small_poly ∧
  mesh_set_navmesh_poly_attributes bare_mesh 0 small_poly = Some bare_mesh ∧
  (is_small <$> mesh_get_navmesh_poly_attributes bare_mesh 0) = Some false ∧
  mesh_get_navmesh_poly_attributes bare_mesh 0 ≠ Some small_poly.
Proof. repeat split; [vm_compute; congruence..|]. by vm_compute. Qed.

(** C10 (amended).  On a mesh whose two polygon data layers exist and hold an
    entry for the polygon, writing attributes whose [audio_reverb_size] and
    [audio_reverb_wet] lie in 0..3 and whose [ped_density] lies in 0..7 with
    [mesh_set_navmesh_poly_attributes] succeeds, and reading the polygon back
    with [mesh_get_navmesh_poly_attributes] returns the same attributes; the
    two packed integers lie in [0, 2^16). *)
Theorem navmesh_set_get_roundtrip mesh poly_idx a :
  attrs_in_range a →
  has_poly_data mesh poly_idx →
  ∃ mesh',
    mesh_set_navmesh_poly_attributes mesh poly_idx a = Some mesh' ∧
    mesh_get_navmesh_poly_attributes mesh' poly_idx = Some a ∧
    0 <= data0_of a < 2 ^ 16 ∧ 0 <= data1_of a < 2 ^ 16.
Proof.
  intros Hr Hd. unfold has_poly_data in Hd.
  unfold mesh_set_navmesh_poly_attributes, mesh_get_navmesh_poly_attributes.
  assert (∀ l0 l1,
    (poly_idx < length l0)%nat → (poly_idx < length l1)%nat →
    ∃ l0' l1',
      write_layer (Some l0) poly_idx (data0_of a) = Some (Some l0') ∧
      write_layer (Some l1) poly_idx (data1_of a) = Some (Some l1') ∧
      read_layer (Some l0') poly_idx = Some (data0_of a) ∧
      read_layer (Some l1') poly_idx = Some (data1_of a)) as Hrw.
  { intros l0 l1 H0 H1.
    destruct (read_write_layer l0 poly_idx (data0_of a) H0) as (l0' & W0 & R0).
    destruct (read_write_layer l1 poly_idx (data1_of a) H1) as (l1' & W1 & R1).
    by exists l0', l1'. }
  pose proof (data0_range a) as D0. pose proof (data1_range a) as D1.
  destruct mesh as [[] b0 b1 a0 a1];
    cbn [is_editmode bm_data0_layer bm_data1_layer data0_attr data1_attr] in *;
    destruct Hd as [(l0 & -> & H0) (l1 & -> & H1)];
    destruct (Hrw l0 l1 H0 H1) as (l0' & l1' & -> & -> & R0 & R1);
    eexists; (split; [reflexivity|]);
    cbn [is_editmode bm_data0_layer bm_data1_layer data0_attr data1_attr];
    rewrite R0, R1; cbn [mbind option_bind];
    by rewrite attributes_of_data_pack.
Qed.

Lemma navmesh_set_get_roundtrip_witness :
  ∃ mesh',
    mesh_set_navmesh_poly_attributes one_poly_mesh 0 small_poly = Some mesh' ∧
    mesh_get_navmesh_poly_attributes mesh' 0 = Some small_poly ∧
    0 <= data0_of small_poly < 2 ^ 16 ∧ 0 <= data1_of small_poly < 2 ^ 16.
Proof.
  apply (navmesh_set_get_roundtrip one_poly_mesh 0 small_poly).
  - unfold attrs_in_range; simpl; lia.
  - simpl. split; exists [0]; simpl; split; (reflexivity || lia).
Defined.

End NavMesh.

(** ** Python dictionaries

    A [dict] is the list of its items in insertion order. *)

Module PyDict.

Definition dict (K V : Type) := list (K * V).

Section dict.
Context {K V : Type} `{EqDecision K}.

(** [d[k].append(v)] on a [defaultdict(list)]: a missing key is inserted
    at the end with the one-element list. *)
Fixpoint dict_append (d : dict K (list V)) (k : K) (v : V) : dict K (list V) :=
  match d with
  | [] => [(k, [v])]
  | (k', l) :: d' =>
      if decide (k' = k) then (k', l ++ [v]) :: d'
      else (k', l) :: dict_append d' k v
  end.

(** [d[k]] on a [defaultdict(list)], read-only: a missing key gives [[]]. *)
Fixpoint dict_get (d : dict K (list V)) (k : K) : list V :=
  match d with
  | [] => []
  | (k', l) :: d' => if decide (k' = k) then l else dict_get d' k
  end.

(** [d[k] = v]: an existing key keeps its place, a new key goes last. *)
Fixpoint dict_set (d : dict K V) (k : K) (v : V) : dict K V :=
  match d with
  | [] => [(k, v)]
  | (k', v') :: d' =>
      if decide (k' = k) then (k', v) :: d'
      else (k', v') :: dict_set d' k v
  end.

Lemma dict_get_append d k i k' :
  dict_get (dict_append d k i) k' =
  if decide (k = k') then dict_get d k ++ [i] else dict_get d k'.
Proof.
  induction d as [|[k0 l0] d IH]; simpl.
  - repeat case_decide; simplify_eq; done.
  - repeat (case_decide; simplify_eq/=); try done; rewrite IH;
      repeat (case_decide; simplify_eq/=); done.
Qed.

Lemma dict_append_keys d k i :
  (dict_append d k i).*1 = if decide (k ∈ d.*1) then d.*1 else d.*1 ++ [k].
Proof.
  induction d as [|[k0 l0] d IH]; [done|].
  cbn [dict_append]. destruct (decide (k0 = k)) as [->|Hne]; rewrite !fmap_cons; cbn [fst].
  - by rewrite decide_True by (by left).
  - rewrite IH. destruct (decide (k ∈ d.*1)).
    + by rewrite decide_True by (by right).
    + rewrite decide_False; [done|]. intros [?|?]%elem_of_cons; done.
Qed.

Lemma dict_append_NoDup d k i : NoDup d.*1 → NoDup (dict_append d k i).*1.
Proof.
  intros Hnd. rewrite dict_append_keys. case_decide; [done|].
  apply NoDup_app. split_and!; [done| |apply NoDup_singleton].
  intros x Hx ->%list_elem_of_singleton. done.
Qed.

Lemma dict_append_nonempty d k i :
  Forall (λ kl, kl.2 ≠ []) d → Forall (λ kl, kl.2 ≠ []) (dict_append d k i).
Proof.
  induction 1 as [|[k0 l0] d H0 Hd IH]; simpl.
  - by repeat constructor.
  - case_decide; constructor; simpl in *; auto.
    by intros [? ?]%app_eq_nil.
Qed.

Lemma dict_get_notin d k : k ∉ d.*1 → dict_get d k = [].
Proof.
  induction d as [|[k0 l0] d IH]; simpl; [done|].
  intros Hk. rewrite decide_False.
  - apply IH. intros ?. apply Hk. by right.
  - intros ->. apply Hk. by left.
Qed.

Lemma dict_get_elem d k l : NoDup d.*1 → (k, l) ∈ d → dict_get d k = l.
Proof.
  induction d as [|[k0 l0] d IH]; simpl; [by intros _ ?%elem_of_nil|].
  intros [Hk0 Hnd]%NoDup_cons [Heq|Hin]%elem_of_cons.
  - simplify_eq. by rewrite decide_True.
  - rewrite decide_False; [by apply IH|].
    intros ->. apply Hk0. apply list_elem_of_fmap. by exists (k, l).
Qed.

Lemma dict_set_fresh (d : dict K V) k v : k ∉ d.*1 → dict_set d k v = d ++ [(k, v)].
Proof.
  induction d as [|[k0 v0] d IH]; simpl; [done|].
  intros Hk. rewrite decide_False.
  - f_equal. apply IH. intros ?. apply Hk. by right.
  - intros ->. apply Hk. by left.
Qed.

End dict.

(** Grouping: [for x in l: d[κ x].append(ι x)], starting from an empty
    dictionary. *)
Section group_fold.
Context {A K V : Type} `{EqDecision K} (ι : A → V) (κ : A → K).

Definition group_fold (l : list A) : dict K (list V) :=
  fold_left (λ d x, dict_append d (κ x) (ι x)) l [].

Lemma group_fold_snoc l x :
  group_fold (l ++ [x]) = dict_append (group_fold l) (κ x) (ι x).
Proof. unfold group_fold. by rewrite fold_left_app. Qed.

Lemma group_fold_spec l :
  NoDup (group_fold l).*1 ∧
  Forall (λ kl, kl.2 ≠ []) (group_fold l) ∧
  ∀ k, dict_get (group_fold l) k = ι <$> block κ l k.
Proof.
  induction l as [|x l (Hnd & Hne & Hget)] using rev_ind.
  - split_and!; [constructor|constructor|done].
  - rewrite group_fold_snoc. split_and!.
    + by apply dict_append_NoDup.
    + by apply dict_append_nonempty.
    + intros k. rewrite dict_get_append, !Hget. unfold block.
      rewrite filter_app, fmap_app.
      case_decide as Hk.
      * subst. by rewrite filter_cons_True.
      * rewrite filter_cons_False by done. by rewrite app_nil_r.
Qed.

Lemma group_fold_entry l k idxs :
  (k, idxs) ∈ group_fold l → idxs = ι <$> block κ l k.
Proof.
  destruct (group_fold_spec l) as (Hnd & _ & Hget).
  intros Hin. rewrite <- Hget. symmetry. by apply dict_get_elem.
Qed.

Lemma group_fold_complete l x : x ∈ l → κ x ∈ (group_fold l).*1.
Proof.
  destruct (group_fold_spec l) as (_ & _ & Hget).
  intros Hx. destruct (decide (κ x ∈ (group_fold l).*1)) as [|Hn]; [done|].
  apply dict_get_notin in Hn. rewrite Hget in Hn.
  apply fmap_nil_inv in Hn.
  exfalso. eapply filter_nil_not_elem_of; [exact Hn| |exact Hx]. done.
Qed.

End group_fold.

End PyDict.

(** ** Fragment physics data model ([cwxml/fragment.py], [cwxml/bound.py])

    Only the fields the derivation code reads or writes are kept. *)

Module Model.

Record Vector3 := mkV3 { vx : Q; vy : Q; vz : Q }.

Record Vector4 := mkV4 { wx : Q; wy : Q; wz : Q; ww : Q }.

(** A 4x4 [mathutils.Matrix], row by row. *)
Record Matrix := mkMatrix {
  row0 : Vector4; row1 : Vector4; row2 : Vector4; row3 : Vector4 }.

Record Bound := mkBound {
  composite_transform : Matrix;
  sphere_center : Vector3 }.

Record PhysicsChild := mkChild {
  group_index : Z;
  bone_tag : Z;
  pristine_mass : Q;
  damaged_mass : Q;
  inertia_tensor : Vector4 }.

Record PhysicsGroup := mkGroup {
  name : string;
  parent_index : Z;
  group_mass : Q }.

(** [bounds_children] is [archetype.bounds.children]; an entry may be
    [None] (see [create_phys_child_xmls]). *)
Record Archetype := mkArchetype {
  mass : Q;
  mass_inv : Q;
  arch_inertia_tensor : Vector3;
  arch_inertia_tensor_inv : Vector3;
  bounds_children : list (option Bound) }.

Record PhysicsLOD := mkLOD {
  archetype : Archetype;
  groups : list PhysicsGroup;
  children : list PhysicsChild;
  transforms : list Matrix;
  position_offset : Vector3;
  unknown_40 : Vector3;
  unknown_50 : Vector3 }.

Definition set_bounds_children (a : Archetype) (bs : list (option Bound)) : Archetype :=
  mkArchetype (mass a) (mass_inv a) (arch_inertia_tensor a)
              (arch_inertia_tensor_inv a) bs.

End Model.

(** ** [mathutils] vectors and matrices over the rationals *)

Module Vec.
Import Model.

Local Open Scope Q_scope.

Definition zero : Vector3 := mkV3 0 0 0.

Definition vadd (a b : Vector3) : Vector3 :=
  mkV3 (vx a + vx b) (vy a + vy b) (vz a + vz b).

Definition vneg (a : Vector3) : Vector3 := mkV3 (- vx a) (- vy a) (- vz a).

(** [v * s] *)
Definition vscale (a : Vector3) (s : Q) : Vector3 :=
  mkV3 (vx a * s) (vy a * s) (vz a * s).

(** [v / s]; [mathutils] raises [ZeroDivisionError] when [s == 0]. *)
Definition vdiv (a : Vector3) (s : Q) : option Vector3 :=
  if Qeq_bool s 0 then None else Some (mkV3 (vx a / s) (vy a / s) (vz a / s)).

(** [v / s] as a total function, for stating results. *)
Definition vdivq (a : Vector3) (s : Q) : Vector3 :=
  mkV3 (vx a / s) (vy a / s) (vz a / s).

(** Componentwise equality of rationals. *)
Definition veq (a b : Vector3) : Prop :=
  vx a == vx b ∧ vy a == vy b ∧ vz a == vz b.

Definition column (m : Matrix) (pick : Vector4 → Q) : Vector4 :=
  mkV4 (pick (row0 m)) (pick (row1 m)) (pick (row2 m)) (pick (row3 m)).

Definition transposed (m : Matrix) : Matrix :=
  mkMatrix (column m wx) (column m wy) (column m wz) (column m ww).

Definition dot4 (a b : Vector4) : Q :=
  wx a * wx b + wy a * wy b + wz a * wz b + ww a * ww b.

(** [m @ v] for a 4x4 matrix and a 3D vector: the vector is extended with
    [w = 1] and the first three components of the product are kept. *)
Definition mat_vec3 (m : Matrix) (v : Vector3) : Vector3 :=
  let v4 := mkV4 (vx v) (vy v) (vz v) 1 in
  mkV3 (dot4 (row0 m) v4) (dot4 (row1 m) v4) (dot4 (row2 m) v4).

(** [a @ b] *)
Definition mat_mul (a b : Matrix) : Matrix :=
  let bt := transposed b in
  let row r := mkV4 (dot4 r (row0 bt)) (dot4 r (row1 bt)) (dot4 r (row2 bt)) (dot4 r (row3 bt)) in
  mkMatrix (row (row0 a)) (row (row1 a)) (row (row2 a)) (row (row3 a)).

Definition identity : Matrix :=
  mkMatrix (mkV4 1 0 0 0) (mkV4 0 1 0 0) (mkV4 0 0 1 0) (mkV4 0 0 0 1).

(** [Matrix.Translation(v)] *)
Definition translation (v : Vector3) : Matrix :=
  mkMatrix (mkV4 1 0 0 (vx v)) (mkV4 0 1 0 (vy v)) (mkV4 0 0 1 (vz v)) (mkV4 0 0 0 1).

(** [m.col[3].zero()] *)
Definition zero_col3 (m : Matrix) : Matrix :=
  let z r := mkV4 (wx r) (wy r) (wz r) 0 in
  mkMatrix (z (row0 m)) (z (row1 m)) (z (row2 m)) (z (row3 m)).

(** [sum] of a list of vectors, from the left. *)
Definition vsum (l : list Vector3) : Vector3 := fold_left vadd l zero.

Definition qsum (l : list Q) : Q := fold_left Qplus l 0.

Global Instance veq_equiv : Equivalence veq.
Proof.
  split.
  - intros a. by repeat split.
  - intros a b (? & ? & ?). by repeat split.
  - intros a b c (H1 & H2 & H3) (H4 & H5 & H6).
    repeat split; [by rewrite H1|by rewrite H2|by rewrite H3].
Qed.

Global Instance vadd_proper : Proper (veq ==> veq ==> veq) vadd.
Proof.
  intros a a' (H1 & H2 & H3) b b' (H4 & H5 & H6). unfold vadd.
  repeat split; simpl; [by rewrite H1, H4|by rewrite H2, H5|by rewrite H3, H6].
Qed.

Global Instance vdivq_proper : Proper (veq ==> Qeq ==> veq) vdivq.
Proof.
  intros a a' (H1 & H2 & H3) s s' Hs. unfold vdivq.
  repeat split; simpl; [by rewrite H1, Hs|by rewrite H2, Hs|by rewrite H3, Hs].
Qed.

Lemma vdiv_nonzero a s : ¬ s == 0 → vdiv a s = Some (vdivq a s).
Proof.
  intros Hs. unfold vdiv. destruct (Qeq_bool s 0) eqn:Heq; [|done].
  by apply Qeq_bool_iff in Heq.
Qed.

Lemma vadd_comm a b : veq (vadd a b) (vadd b a).
Proof. repeat split; simpl; ring. Qed.

Lemma vadd_assoc a b c : veq (vadd (vadd a b) c) (vadd a (vadd b c)).
Proof. repeat split; simpl; ring. Qed.

Lemma vadd_zero_l a : veq (vadd zero a) a.
Proof. repeat split; simpl; ring. Qed.

Lemma fold_vadd_acc l a : veq (fold_left vadd l a) (vadd a (vsum l)).
Proof.
  unfold vsum. revert a. induction l as [|x l IH] using rev_ind; intros a.
  - simpl. repeat split; simpl; ring.
  - rewrite !fold_left_app. simpl. rewrite (IH a).
    by rewrite vadd_assoc.
Qed.

Lemma vsum_cons x l : veq (vsum (x :: l)) (vadd x (vsum l)).
Proof.
  unfold vsum at 1. simpl. rewrite fold_vadd_acc. by rewrite vadd_zero_l.
Qed.

Lemma vsum_Permutation l l' : l ≡ₚ l' → veq (vsum l) (vsum l').
Proof.
  induction 1 as [|x l l' _ IH|x y l|l l' l'' _ IH1 _ IH2].
  - done.
  - by rewrite !vsum_cons, IH.
  - rewrite !vsum_cons, <- !vadd_assoc. by rewrite (vadd_comm y x).
  - by rewrite IH1.
Qed.

Lemma fold_qplus_acc l a : fold_left Qplus l a == a + qsum l.
Proof.
  unfold qsum. revert a. induction l as [|x l IH] using rev_ind; intros a.
  - simpl. ring.
  - rewrite !fold_left_app. simpl. rewrite (IH a). ring.
Qed.

Lemma qsum_cons x l : qsum (x :: l) == x + qsum l.
Proof. unfold qsum at 1. simpl. rewrite fold_qplus_acc. ring. Qed.

Lemma qsum_Permutation l l' : l ≡ₚ l' → qsum l == qsum l'.
Proof.
  induction 1 as [|x l l' _ IH|x y l|l l' l'' _ IH1 _ IH2].
  - done.
  - by rewrite !qsum_cons, IH.
  - rewrite !qsum_cons. ring.
  - by rewrite IH1.
Qed.

End Vec.

(** ** [sort_cols_and_children] *)

Module SortCols.
Import Model Py PyDict.

(** [for i, child in enumerate(children):
       children_by_group[child.group_index].append(i)] *)
Definition group_children (children : list PhysicsChild) : dict Z (list nat) :=
  fold_left (λ d ic, dict_append d (group_index ic.2) ic.1) (enumerate children) [].

(** [sorted(d.items())]: the keys of a dict are distinct, so the order of
    the items is decided by the keys alone. *)
Fixpoint insert_item (x : Z * list nat) (l : list (Z * list nat)) : list (Z * list nat) :=
  match l with
  | [] => [x]
  | y :: l' => if (x.1 <=? y.1)%Z then x :: l else y :: insert_item x l'
  end.

Definition sorted_items (d : dict Z (list nat)) : dict Z (list nat) :=
  foldr insert_item [] d.

(** The body of the inner loop that fills [indices] and [sorted_children]. *)
Definition place_child (children : list PhysicsChild)
    (st : dict nat nat * list PhysicsChild) (child_index : nat)
  : option (dict nat nat * list PhysicsChild) :=
  let '(indices, sorted_children) := st in
  let new_child_index := length sorted_children in
  c ← children !! child_index;
  Some (dict_set indices child_index new_child_index, sorted_children ++ [c]).

(** [sorted_collisions[new_index] = bounds[old_index]] *)
Definition place_collision (bounds : list (option Bound))
    (sorted_collisions : list (option Bound)) (item : nat * nat)
  : option (list (option Bound)) :=
  b ← bounds !! item.1;
  Py.setitem sorted_collisions item.2 b.

(** The function on the two lists it reads and replaces. *)
Definition sort_lists (children : list PhysicsChild) (bounds : list (option Bound))
  : option (list PhysicsChild * list (option Bound)) :=
  let children_by_group := sorted_items (group_children children) in
  '(indices, sorted_children) ←
    Py.fold_leftM (λ st item, Py.fold_leftM (place_child children) item.2 st)
               children_by_group ([], []);
  sorted_collisions ←
    Py.fold_leftM (place_collision bounds) indices (replicate (length indices) None);
  Some (sorted_children, sorted_collisions).

Definition sort_cols_and_children (lod_xml : PhysicsLOD) : option PhysicsLOD :=
  let bounds := bounds_children (archetype lod_xml) in
  let children := children lod_xml in
  if bool_decide (bounds = [] ∨ children = []) then Some lod_xml
  else
    '(sorted_children, sorted_collisions) ← sort_lists children bounds;
    Some (mkLOD (set_bounds_children (archetype lod_xml) sorted_collisions)
                (groups lod_xml) sorted_children (transforms lod_xml)
                (position_offset lod_xml) (unknown_40 lod_xml) (unknown_50 lod_xml)).

(** *** Facts about the sorted items *)

Lemma insert_item_Permutation x l : insert_item x l ≡ₚ x :: l.
Proof.
  induction l as [|y l IH]; simpl; [done|].
  case_match; [done|]. rewrite IH. apply Permutation_swap.
Qed.

Lemma sorted_items_Permutation d : sorted_items d ≡ₚ d.
Proof.
  induction d as [|x d IH]; simpl; [done|].
  by rewrite insert_item_Permutation, IH.
Qed.

Lemma insert_item_sorted x l :
  StronglySorted (λ a b, (a.1 ≤ b.1)%Z) l →
  StronglySorted (λ a b, (a.1 ≤ b.1)%Z) (insert_item x l).
Proof.
  induction 1 as [|y l Hs IH Hy]; simpl; [by repeat constructor|].
  destruct (Z.leb_spec x.1 y.1) as [Hle|Hlt].
  - constructor; [by constructor|].
    constructor; [done|]. eapply Forall_impl; [exact Hy|]. simpl. intros; lia.
  - constructor; [done|].
    rewrite insert_item_Permutation. constructor; [lia|done].
Qed.

Lemma sorted_items_sorted d :
  StronglySorted (λ a b, (a.1 ≤ b.1)%Z) (sorted_items d).
Proof.
  induction d as [|x d IH]; simpl; [constructor|by apply insert_item_sorted].
Qed.

Lemma zip_seq_snoc {A} (l : list A) x :
  zip (l ++ [x]) (seq 0 (S (length l))) = zip l (seq 0 (length l)) ++ [(x, length l)].
Proof. rewrite seq_S. rewrite zip_with_app by (by rewrite length_seq). done. Qed.

Lemma fold_left_fmap {A B C} (f : A → B → A) (g : C → B) l a :
  fold_left f (g <$> l) a = fold_left (λ a x, f a (g x)) l a.
Proof. revert a. induction l as [|x l IH]; intros a; simpl; [done|apply IH]. Qed.

Lemma fold_leftM_fmap {A B C} (f : A → B → option A) (g : C → B) l a :
  Py.fold_leftM f (g <$> l) a = Py.fold_leftM (λ a x, f a (g x)) l a.
Proof.
  revert a. induction l as [|x l IH]; intros a; simpl; [done|].
  destruct (f a (g x)); simpl; [apply IH|done].
Qed.

Section loops.
Context {X : Type} (children : list PhysicsChild) (bounds : list (option Bound)).
Context (pc : X → PhysicsChild) (pb : X → option Bound).

Lemma place_child_loop (l pre : list (nat * X)) :
  NoDup (pre ++ l).*1 →
  (∀ x, x ∈ l → children !! x.1 = Some (pc x.2)) →
  Py.fold_leftM (place_child children) l.*1
    (zip pre.*1 (seq 0 (length pre)), (λ x, pc x.2) <$> pre)
  = Some (zip (pre ++ l).*1 (seq 0 (length (pre ++ l))), (λ x, pc x.2) <$> (pre ++ l)).
Proof.
  revert pre. induction l as [|x l IH]; intros pre Hnd Hl.
  - by rewrite app_nil_r.
  - rewrite fmap_cons. cbn [Py.fold_leftM]. unfold place_child at 2.
    rewrite (Hl x) by (by left). cbn [mbind option_bind].
    rewrite length_fmap.
    rewrite dict_set_fresh.
    2:{ rewrite fst_zip by (by rewrite length_seq, length_fmap).
        rewrite fmap_app, fmap_cons in Hnd.
        apply NoDup_app in Hnd as (_ & Hd & _). intros Hx. apply (Hd x.1 Hx). by left. }
    replace (zip pre.*1 (seq 0 (length pre)) ++ [(x.1, length pre)])
      with (zip (pre ++ [x]).*1 (seq 0 (length (pre ++ [x])))).
    2:{ rewrite fmap_app, length_app. simpl. rewrite Nat.add_1_r.
        rewrite <- (length_fmap fst pre) at 1 2. by rewrite zip_seq_snoc, length_fmap. }
    replace (((λ x0, pc x0.2) <$> pre) ++ [pc x.2])
      with ((λ x0, pc x0.2) <$> (pre ++ [x])) by (by rewrite fmap_app).
    rewrite IH.
    + by rewrite <- app_assoc.
    + by rewrite <- app_assoc.
    + intros y Hy. apply Hl. by right.
Qed.

Lemma place_collision_loop (l : list (nat * X)) (pre : list (option Bound)) :
  (∀ x, x ∈ l → bounds !! x.1 = Some (pb x.2)) →
  Py.fold_leftM (place_collision bounds)
    (zip l.*1 (seq (length pre) (length l))) (pre ++ replicate (length l) None)
  = Some (pre ++ ((λ x, pb x.2) <$> l)).
Proof.
  revert pre. induction l as [|x l IH]; intros pre Hl.
  - done.
  - rewrite fmap_cons. cbn [length seq replicate]. cbn [zip_with Py.fold_leftM].
    unfold place_collision at 2. cbn [fst snd].
    rewrite (Hl x) by (by left). cbn [mbind option_bind].
    rewrite Py.setitem_Some by (rewrite length_app; simpl; lia).
    replace (<[length pre:=pb x.2]> (pre ++ None :: replicate (length l) None))
      with ((pre ++ [pb x.2]) ++ replicate (length l) None).
    2:{ rewrite <- app_assoc. simpl.
        rewrite insert_app_r_alt by lia. by rewrite Nat.sub_diag. }
    replace (S (length pre)) with (length (pre ++ [pb x.2]))
      by (rewrite length_app; simpl; lia).
    cbn [mbind option_bind]. rewrite IH.
    + by rewrite <- app_assoc.
    + intros y Hy. apply Hl. by right.
Qed.

End loops.

(** *** What the function computes *)

Definition child_key (x : nat * (PhysicsChild * option Bound)) : Z :=
  group_index x.2.1.

(** The group indices that occur, in ascending order: the keys of
    [dict(sorted(children_by_group.items()))]. *)
Definition sorted_keys (children : list PhysicsChild) : list Z :=
  (sorted_items (group_children children)).*1.

Lemma group_children_decorated children bounds :
  length children ≤ length bounds →
  group_children children = group_fold fst child_key (enumerate (zip children bounds)).
Proof.
  intros Hlen. unfold group_children, group_fold.
  rewrite (enumerate_zip_fst children bounds Hlen). by rewrite fold_left_fmap.
Qed.

Lemma sorted_keys_NoDup children : NoDup (sorted_keys children).
Proof.
  unfold sorted_keys. rewrite sorted_items_Permutation.
  apply (group_fold_spec (A:=nat * PhysicsChild) fst (λ ic, group_index ic.2)).
Qed.

Lemma sorted_keys_sorted children : StronglySorted Z.le (sorted_keys children).
Proof.
  unfold sorted_keys.
  eapply (StronglySorted_fmap fst); [|apply sorted_items_sorted].
  by intros ???.
Qed.

Lemma sorted_keys_complete children bounds x :
  length children ≤ length bounds →
  x ∈ enumerate (zip children bounds) → child_key x ∈ sorted_keys children.
Proof.
  intros Hlen Hx. unfold sorted_keys. rewrite sorted_items_Permutation.
  rewrite (group_children_decorated children bounds Hlen).
  by apply group_fold_complete.
Qed.

Lemma concat_entries (D : dict Z (list nat)) (E : list (nat * (PhysicsChild * option Bound))) :
  Forall (λ kl, kl.2 = fst <$> block child_key E kl.1) D →
  concat D.*2 = fst <$> blocks child_key E D.*1.
Proof.
  induction 1 as [|[k idxs] D Hk HD IH]; [done|].
  rewrite !fmap_cons, blocks_cons, fmap_app. simpl in *. by rewrite Hk, IH.
Qed.

Lemma sort_lists_spec children bounds :
  length children ≤ length bounds →
  let DO := blocks child_key (enumerate (zip children bounds)) (sorted_keys children) in
  sort_lists children bounds = Some ((λ x, x.2.1) <$> DO, (λ x, x.2.2) <$> DO).
Proof.
  intros Hlen DO. unfold sort_lists.
  set (E := enumerate (zip children bounds)) in *.
  set (D := sorted_items (group_children children)).
  assert (concat D.*2 = DO.*1) as Horder.
  { apply concat_entries, Forall_forall. intros [k idxs] Hin. simpl.
    apply (group_fold_entry fst child_key E). unfold E.
    rewrite <- (group_children_decorated children bounds Hlen).
    by rewrite <- (sorted_items_Permutation (group_children children)). }
  assert (∀ x, x ∈ DO → x ∈ E) as HDO.
  { intros x Hx. by apply elem_of_blocks in Hx as [? _]. }
  assert (DO ≡ₚ E) as Hperm.
  { apply blocks_Permutation; [apply sorted_keys_NoDup|].
    intros x Hx. by eapply sorted_keys_complete. }
  assert (∀ x, x ∈ DO → children !! x.1 = Some x.2.1 ∧ bounds !! x.1 = Some x.2.2) as Hlook.
  { intros x Hx%HDO. apply enumerate_lookup in Hx.
    destruct x as [i [c b]]. simpl in *. by apply lookup_zip_with_Some in Hx as (? & ? & [= <- <-] & ? & ?). }
  replace (Py.fold_leftM (λ st item, Py.fold_leftM (place_child children) item.2 st) D ([], []))
    with (Py.fold_leftM (place_child children) DO.*1 ([], [])).
  2:{ rewrite <- Horder, <- Py.fold_leftM_concat. by rewrite fold_leftM_fmap. }
  pose proof (place_child_loop children (λ z : PhysicsChild * option Bound, z.1) DO []) as Hloop.
  simpl in Hloop. rewrite Hloop; clear Hloop.
  - cbn [mbind option_bind].
    rewrite length_zip_with, length_seq, length_fmap, Nat.min_id.
    pose proof (place_collision_loop bounds (λ z : PhysicsChild * option Bound, z.2) DO []) as Hcol.
    simpl in Hcol. rewrite Hcol; [done|].
    intros x Hx. by apply Hlook.
  - rewrite Hperm. unfold E. rewrite enumerate_fst. apply NoDup_seq.
  - intros x Hx. by apply Hlook.
Qed.

Definition group_le (a b : PhysicsChild) : Prop :=
  (group_index a ≤ group_index b)%Z.

(** The spec's example: children in groups 1, 0, 1. *)
Definition child_in (g : Z) (tag : Z) : PhysicsChild :=
  mkChild g tag 1 1 (mkV4 0 0 0 0).
Definition bound_at (x : Q) : option Bound :=
  Some (mkBound Vec.identity (mkV3 x 0 0)).
Definition example_lod : PhysicsLOD :=
  mkLOD (mkArchetype 0 0 Vec.zero Vec.zero [bound_at 10; bound_at 20; bound_at 30])
        [mkGroup "a" 255 0; mkGroup "b" 0 0]
        [child_in 1 100; child_in 0 200; child_in 1 300]
        [] Vec.zero Vec.zero Vec.zero.

Example sort_example :
  (λ l, (children l, bounds_children (archetype l))) <$> sort_cols_and_children example_lod
  = Some ([child_in 0 200; child_in 1 100; child_in 1 300],
          [bound_at 20; bound_at 10; bound_at 30]).
Proof. reflexivity. Qed.

(** When the bounds list is shorter than the children list the lookup
    [bounds[old_index]] raises. *)
Example sort_short_bounds :
  sort_lists [child_in 0 1; child_in 0 2] [bound_at 1] = None.
Proof. reflexivity. Qed.

(** C1.  On a physics LOD whose children and archetype bounds lists are
    non-empty and in which every child has its bound at the same index (the
    data model pairs the two lists; bounds beyond the last child are dropped
    by the function), [sort_cols_and_children] returns normally; the new
    children list is in ascending order of [group_index]; the new
    (child, bound) pairs are a permutation of the old pairs in which the
    pairs of each group keep their relative order; so one and the same
    index permutation [perm] rearranges both lists; nothing else in the LOD
    changes. *)
Theorem sort_cols_and_children_stable lod :
  children lod ≠ [] →
  bounds_children (archetype lod) ≠ [] →
  length (children lod) ≤ length (bounds_children (archetype lod)) →
  ∃ lod',
    sort_cols_and_children lod = Some lod' ∧
    let cs := children lod in
    let bs := bounds_children (archetype lod) in
    let cs' := children lod' in
    let bs' := bounds_children (archetype lod') in
    length cs' = length cs ∧ length bs' = length cs ∧
    StronglySorted group_le cs' ∧
    zip cs' bs' ≡ₚ zip cs bs ∧
    (∀ g, filter (λ z, group_index z.1 = g) (zip cs' bs')
          = filter (λ z, group_index z.1 = g) (zip cs bs)) ∧
    (∃ perm, perm ≡ₚ seq 0 (length cs) ∧
             Forall2 (λ j c, cs !! j = Some c) perm cs' ∧
             Forall2 (λ j b, bs !! j = Some b) perm bs') ∧
    cs' ≡ₚ cs ∧ (length cs = length bs → bs' ≡ₚ bs) ∧
    groups lod' = groups lod ∧ transforms lod' = transforms lod ∧
    position_offset lod' = position_offset lod ∧
    unknown_40 lod' = unknown_40 lod ∧ unknown_50 lod' = unknown_50 lod ∧
    mass (archetype lod') = mass (archetype lod).
Proof.
  intros Hc Hb Hlen. unfold sort_cols_and_children.
  rewrite bool_decide_eq_false_2 by tauto.
  rewrite sort_lists_spec by done. cbv zeta. cbn [mbind option_bind].
  eexists. split; [reflexivity|].
  cbn [children archetype set_bounds_children bounds_children groups transforms
       position_offset unknown_40 unknown_50 mass].
  set (cs := children lod) in *. set (bs := bounds_children (archetype lod)) in *.
  set (E := enumerate (zip cs bs)).
  set (DO := blocks child_key E (sorted_keys cs)).
  assert (length (zip cs bs) = length cs) as Hz
    by (rewrite length_zip_with; lia).
  assert (DO ≡ₚ E) as Hperm.
  { apply blocks_Permutation; [apply sorted_keys_NoDup|].
    intros x Hx. by eapply sorted_keys_complete. }
  assert (length DO = length cs) as HlenDO.
  { by rewrite Hperm; unfold E; rewrite enumerate_length. }
  assert (zip ((λ x, x.2.1) <$> DO) ((λ x, x.2.2) <$> DO) = DO.*2) as Hzip.
  { rewrite <- (zip_fst_snd DO.*2). by rewrite <- !list_fmap_compose. }
  assert (E.*2 = zip cs bs) as HE by apply enumerate_snd.
  assert (zip ((λ x, x.2.1) <$> DO) ((λ x, x.2.2) <$> DO) ≡ₚ zip cs bs) as Hpairs
    by (by rewrite Hzip, Hperm, HE).
  split_and!; try done.
  - rewrite length_fmap. exact HlenDO.
  - rewrite length_fmap. exact HlenDO.
  - eapply (StronglySorted_fmap (λ x : nat * (PhysicsChild * option Bound), x.2.1));
      [|apply (blocks_sorted child_key), sorted_keys_sorted].
    by intros ???.
  - intros g. rewrite Hzip, <- HE, !filter_fmap. f_equal.
    apply (blocks_filter child_key); [apply sorted_keys_NoDup|].
    intros x Hx. by eapply sorted_keys_complete.
  - exists DO.*1. split_and!.
    + rewrite Hperm. unfold E. by rewrite enumerate_fst, Hz.
    + apply Forall2_fmap, Forall_Forall2_diag, Forall_forall.
      intros [i [c b]] [Hx _]%elem_of_blocks. apply enumerate_lookup in Hx. simpl in *.
      by apply lookup_zip_with_Some in Hx as (? & ? & [= <- <-] & ? & ?).
    + apply Forall2_fmap, Forall_Forall2_diag, Forall_forall.
      intros [i [c b]] [Hx _]%elem_of_blocks. apply enumerate_lookup in Hx. simpl in *.
      by apply lookup_zip_with_Some in Hx as (? & ? & [= <- <-] & ? & ?).
  - trans ((DO.*2).*1); [by rewrite <- list_fmap_compose|].
    rewrite Hperm, HE. by rewrite fst_zip.
  - intros Heq. trans ((DO.*2).*2); [by rewrite <- list_fmap_compose|].
    rewrite Hperm, HE. rewrite snd_zip; [done|lia].
Qed.

Lemma sort_cols_and_children_stable_witness :
  ∃ lod',
    sort_cols_and_children example_lod = Some lod' ∧
    StronglySorted group_le (children lod') ∧
    zip (children lod') (bounds_children (archetype lod'))
    ≡ₚ zip (children example_lod) (bounds_children (archetype example_lod)).
Proof.
  destruct (sort_cols_and_children_stable example_lod)
    as (lod' & Hrun & _ & _ & Hsorted & Hperm & _).
  - discriminate.
  - discriminate.
  - simpl. lia.
  - exists lod'. split; [exact Hrun|]. split; [exact Hsorted|exact Hperm].
Defined.

End SortCols.

(** ** [calculate_physics_lod_transforms]: links and centers of gravity *)

Module Links.
Import Model Py PyDict Vec.

Record Bone := mkBone {
  bone_name : string;
  tag : Z;
  flags : list string }.

Record RotationLimit := mkRotationLimit { rotation_bone_id : Z }.

Record TranslationLimit := mkTranslationLimit { translation_bone_id : Z }.

(** The parts of a [Fragment] the function reads: [physics.lod1],
    [drawable.skeleton.bones] and the two limit lists of [drawable.joints]. *)
Record Fragment := mkFragment {
  lod1 : PhysicsLOD;
  bones : list Bone;
  rotation_limits : list RotationLimit;
  translation_limits : list TranslationLimit }.

(** In the source [children_by_group] and [links] hold the group objects
    themselves; the groups of [lod_xml.groups] are distinct objects, so a
    group is identified here with its position in that list. *)
Definition group_position (lod : PhysicsLOD) (child : PhysicsChild) : option nat :=
  norm_index (length (groups lod)) (group_index child).

(** [for child_index, child in enumerate(lod_xml.children):
       group = lod_xml.groups[child.group_index]
       children_by_group[group].append((child_index, child))] *)
Definition children_by_group (lod : PhysicsLOD)
  : option (dict nat (list (nat * PhysicsChild))) :=
  fold_leftM
    (λ d ic, g ← group_position lod ic.2; Some (dict_append d g ic))
    (enumerate (children lod)) [].

(** [next(b for b in bones_xml if b.tag == t)] *)
Definition find_bone (bones_xml : list Bone) (t : Z) : option Bone :=
  snd <$> list_find (λ b, tag b = t) bones_xml.

Definition creates_new_link (frag : Fragment) (bone : Bone) : bool :=
  (bool_decide ("LimitRotation" ∈ flags bone) &&
   existsb (λ rl, (rotation_bone_id rl =? tag bone)%Z) (rotation_limits frag))
  || (bool_decide ("LimitTranslation" ∈ flags bone) &&
      existsb (λ tl, (translation_bone_id tl =? tag bone)%Z) (translation_limits frag)).

(** [links[link_index].append(group)] *)
Definition append_to_link (links : list (list nat)) (link_index : Z) (g : nat)
  : option (list (list nat)) :=
  pos ← norm_index (length links) link_index;
  l ← links !! pos;
  Some (<[pos := l ++ [g]]> links).

(** The link a group goes to, with the links list after a possible
    [links.append([])]. *)
Definition choose_link (frag : Fragment) (cbg : dict nat (list (nat * PhysicsChild)))
    (links : list (list nat)) (link_index_by_group : list Z)
    (group_index : nat) (group : PhysicsGroup)
  : option (list (list nat) * Z) :=
  if bool_decide (parent_index group ≠ 255%Z) then
    first ← head (dict_get cbg group_index);
    bone ← find_bone (bones frag) (bone_tag first.2);
    if creates_new_link frag bone then
      Some (links ++ [[]], Z.of_nat (length links))
    else
      link_index ← getitem link_index_by_group (parent_index group);
      Some (links, link_index)
  else Some (links, 0%Z).

(** One iteration of [for group_index, group in enumerate(lod_xml.groups)]. *)
Definition link_step (frag : Fragment) (cbg : dict nat (list (nat * PhysicsChild)))
    (st : list (list nat) * list Z) (ig : nat * PhysicsGroup)
  : option (list (list nat) * list Z) :=
  '(links, link_index) ← choose_link frag cbg st.1 st.2 ig.1 ig.2;
  links ← append_to_link links link_index ig.1;
  link_index_by_group ← setitem st.2 ig.1 link_index;
  Some (links, link_index_by_group).

Definition form_links_from (frag : Fragment) (cbg : dict nat (list (nat * PhysicsChild)))
  : option (list (list nat) * list Z) :=
  fold_leftM (link_step frag cbg) (enumerate (groups (lod1 frag)))
             ([[]], replicate (length (groups (lod1 frag))) (-1)%Z).

(** The partition of the groups into links, with [link_index_by_group]. *)
Definition form_links (frag : Fragment) : option (list (list nat) * list Z) :=
  cbg ← children_by_group (lod1 frag);
  form_links_from frag cbg.

(** [bound.composite_transform.transposed() @ bound.sphere_center], or the
    origin for an absent bound. *)
Definition bound_center (bound : option Bound) : Vector3 :=
  match bound with
  | Some b => mat_vec3 (transposed (composite_transform b)) (sphere_center b)
  | None => zero
  end.

(** The body of the innermost loop of the center of gravity computation. *)
Definition cog_child_step (lod : PhysicsLOD) (st : Vector3 * Q) (ic : nat * PhysicsChild)
  : option (Vector3 * Q) :=
  bound ← bounds_children (archetype lod) !! ic.1;
  let center := bound_center bound in
  let child_mass := pristine_mass ic.2 in
  Some (vadd st.1 (vscale center child_mass), (st.2 + child_mass)%Q).

Definition link_center_of_gravity (lod : PhysicsLOD)
    (cbg : dict nat (list (nat * PhysicsChild))) (link : list nat) : option Vector3 :=
  st ← fold_leftM (λ st g, fold_leftM (cog_child_step lod) (dict_get cbg g) st)
                  link (zero, 0%Q);
  vdiv st.1 st.2.

(** [links_center_of_gravity] after the unbroken CG offset has been added
    to the root entry. *)
Definition links_center_of_gravity_from (lod : PhysicsLOD)
    (cbg : dict nat (list (nat * PhysicsChild))) (links : list (list nat))
  : option (list Vector3) :=
  cogs ← mapM (link_center_of_gravity lod cbg) links;
  root ← cogs !! 0;
  Some (<[0 := vadd root (unknown_50 lod)]> cogs).

Definition links_center_of_gravity (frag : Fragment) : option (list Vector3) :=
  cbg ← children_by_group (lod1 frag);
  st ← form_links_from frag cbg;
  links_center_of_gravity_from (lod1 frag) cbg st.1.

(** The link attachment of one child. *)
Definition child_transform (lod : PhysicsLOD) (cogs : list Vector3)
    (link_index_by_group : list Z) (ic : nat * PhysicsChild) : option Matrix :=
  link_index ← getitem link_index_by_group (group_index ic.2);
  link_center ← getitem cogs link_index;
  bound ← bounds_children (archetype lod) !! ic.1;
  let offset :=
    match bound with
    | Some b =>
        transposed (mat_mul (translation (vneg link_center))
                            (transposed (composite_transform b)))
    | None => identity
    end in
  Some (zero_col3 offset).

Definition calculate_physics_lod_transforms (frag : Fragment) : option Fragment :=
  let lod := lod1 frag in
  cbg ← children_by_group lod;
  st ← form_links_from frag cbg;
  cogs ← links_center_of_gravity_from lod cbg st.1;
  root ← cogs !! 0;
  new_transforms ← mapM (child_transform lod cogs st.2) (enumerate (children lod));
  Some (mkFragment
          (mkLOD (archetype lod) (groups lod) (children lod)
                 (transforms lod ++ new_transforms) root root (unknown_50 lod))
          (bones frag) (rotation_limits frag) (translation_limits frag)).

(** *** Example fragments *)

Definition plain_bone (t : Z) : Bone := mkBone "b" t [].
Definition joint_bone (t : Z) : Bone := mkBone "j" t ["LimitRotation"].
Definition unit_child (g t : Z) : PhysicsChild := SortCols.child_in g t.
Definition bound_at (x : Q) : option Bound := SortCols.bound_at x.

(** Root group 0, group 1 jointed to it, group 2 rigidly attached to 1. *)
Definition chain_frag : Fragment :=
  mkFragment
    (mkLOD (mkArchetype 0 0 zero zero [bound_at 0; bound_at 2; bound_at 4; bound_at 6])
           [mkGroup "root" 255 0; mkGroup "door" 0 0; mkGroup "handle" 1 0]
           [unit_child 0 10; unit_child 0 10; unit_child 1 11; unit_child 2 12]
           [] zero zero (mkV3 0 0 1))
    [plain_bone 10; joint_bone 11; plain_bone 12]
    [mkRotationLimit 11] [].

(** Group 0 names the later group 2 as its parent. *)
Definition forward_parent_frag : Fragment :=
  mkFragment
    (mkLOD (mkArchetype 0 0 zero zero [bound_at 0; bound_at 2; bound_at 4])
           [mkGroup "a" 2 0; mkGroup "root" 255 0; mkGroup "c" 1 0]
           [unit_child 0 10; unit_child 1 11; unit_child 2 12]
           [] zero zero zero)
    [plain_bone 10; plain_bone 11; joint_bone 12]
    [mkRotationLimit 12] [].

Example chain_links : form_links chain_frag = Some ([[0]; [1; 2]], [0; 1; 1]%Z).
Proof. reflexivity. Qed.

Example forward_parent_links :
  form_links forward_parent_frag = Some ([[0; 1]; [2]], [-1; 0; 1]%Z).
Proof. reflexivity. Qed.

(** *** Notions used to state the link partition *)

(** The first child, in list order, that belongs to group [g]. *)
Definition first_child (lod : PhysicsLOD) (g : nat) : option PhysicsChild :=
  head (filter (λ c, group_position lod c = Some g) (children lod)).

(** The bone backing the first child of group [g]. *)
Definition backing_bone (frag : Fragment) (g : nat) : option Bone :=
  c ← first_child (lod1 frag) g; find_bone (bones frag) (bone_tag c).

(** The bone has the LimitRotation flag and a rotation limit with its tag,
    or the LimitTranslation flag and a translation limit with its tag. *)
Definition has_joint (frag : Fragment) (bone : Bone) : Prop :=
  ("LimitRotation" ∈ flags bone ∧
   ∃ rl, rl ∈ rotation_limits frag ∧ rotation_bone_id rl = tag bone) ∨
  ("LimitTranslation" ∈ flags bone ∧
   ∃ tl, tl ∈ translation_limits frag ∧ translation_bone_id tl = tag bone).

(** Every child's [group_index] refers to a group of the LOD. *)
Definition children_grouped (lod : PhysicsLOD) : Prop :=
  ∀ c, c ∈ children lod → is_Some (group_position lod c).

Definition groups_have_children (lod : PhysicsLOD) : Prop :=
  ∀ g, g < length (groups lod) →
       ∃ c, c ∈ children lod ∧ group_position lod c = Some g.

Definition bones_cover_children (frag : Fragment) : Prop :=
  ∀ c, c ∈ children (lod1 frag) → ∃ b, b ∈ bones frag ∧ tag b = bone_tag c.

(** A parent group comes before its child groups. *)
Definition parents_first (lod : PhysicsLOD) : Prop :=
  ∀ g group, groups lod !! g = Some group →
             parent_index group = 255%Z ∨ (0 ≤ parent_index group < Z.of_nat g)%Z.

(** *** Facts *)

Lemma creates_new_link_spec frag bone :
  creates_new_link frag bone = true ↔ has_joint frag bone.
Proof.
  unfold creates_new_link, has_joint.
  rewrite orb_true_iff, !andb_true_iff, !bool_decide_eq_true, !existsb_exists.
  split; (intros [[? (x & Hin & Hx)]|[? (x & Hin & Hx)]]; [left|right]; split; try done).
  - exists x. by rewrite list_elem_of_In, <- Z.eqb_eq.
  - exists x. by rewrite list_elem_of_In, <- Z.eqb_eq.
  - exists x. by rewrite <- list_elem_of_In, Z.eqb_eq.
  - exists x. by rewrite <- list_elem_of_In, Z.eqb_eq.
Qed.

Definition child_key (lod : PhysicsLOD) (ic : nat * PhysicsChild) : option nat :=
  group_position lod ic.2.

Lemma children_by_group_prefix lod (l : list (nat * PhysicsChild)) :
  (∀ ic, ic ∈ l → is_Some (child_key lod ic)) →
  ∃ cbg,
    fold_leftM (λ d ic, g ← group_position lod ic.2; Some (dict_append d g ic)) l []
    = Some cbg ∧
    ∀ g, dict_get cbg g = block (child_key lod) l (Some g).
Proof.
  induction l as [|x l IH] using rev_ind; intros Hl.
  - by exists [].
  - destruct IH as (cbg & Hrun & Hget).
    { intros ic Hic. apply Hl, elem_of_app. by left. }
    destruct (Hl x) as [g0 Hg0]; [apply elem_of_app; right; by left|].
    exists (dict_append cbg g0 x). split.
    + rewrite fold_leftM_app, Hrun. simpl. unfold child_key in Hg0. by rewrite Hg0.
    + intros g. rewrite dict_get_append, !Hget. unfold block.
      rewrite filter_app. case_decide as Hg.
      * subst. by rewrite filter_cons_True.
      * rewrite filter_cons_False, app_nil_r; [done|].
        rewrite Hg0. congruence.
Qed.

Lemma children_by_group_spec lod :
  children_grouped lod →
  ∃ cbg,
    children_by_group lod = Some cbg ∧
    ∀ g, dict_get cbg g = block (child_key lod) (enumerate (children lod)) (Some g).
Proof.
  intros Hg. apply children_by_group_prefix.
  intros [i c] Hic. apply Hg. apply enumerate_lookup in Hic.
  eapply list_elem_of_lookup_2. exact Hic.
Qed.

(** The children of a group, with their indices, and without. *)
Lemma block_enumerate_snd lod g :
  (block (child_key lod) (enumerate (children lod)) (Some g)).*2
  = filter (λ c, group_position lod c = Some g) (children lod).
Proof.
  unfold block. rewrite <- (enumerate_snd (children lod)) at 2.
  by rewrite filter_fmap.
Qed.

Lemma head_block_first_child lod g :
  snd <$> head (block (child_key lod) (enumerate (children lod)) (Some g))
  = first_child lod g.
Proof.
  unfold first_child. rewrite <- block_enumerate_snd.
  by destruct (block _ _ _).
Qed.

(** What the loop has established for a group that has been visited. *)
Definition placed (frag : Fragment) (st : list (list nat) * list Z)
    (g : nat) (group : PhysicsGroup) : Prop :=
  (parent_index group = 255%Z → st.2 !! g = Some 0%Z) ∧
  (parent_index group ≠ 255%Z →
   ∀ bone, backing_bone frag g = Some bone →
     (has_joint frag bone →
      ∃ k rest, st.2 !! g = Some (Z.of_nat k) ∧ 0 < k ∧ st.1 !! k = Some (g :: rest)) ∧
     (¬ has_joint frag bone →
      ∃ p, parent_index group = Z.of_nat p ∧ st.2 !! g = st.2 !! p)).

(** The state after the first [m] groups. *)
Record link_inv (frag : Fragment) (m : nat) (st : list (list nat) * list Z) : Prop := {
  inv_len : length st.2 = length (groups (lod1 frag));
  inv_root : is_Some (st.1 !! 0);
  inv_perm : concat st.1 ≡ₚ seq 0 m;
  inv_index : ∀ g, g < m →
    ∃ k l, st.2 !! g = Some (Z.of_nat k) ∧ st.1 !! k = Some l ∧ g ∈ l;
  inv_placed : ∀ g group, g < m → groups (lod1 frag) !! g = Some group →
    placed frag st g group }.

Lemma lookup_insert_snoc {A} (ls : list (list A)) k l x k0 l0 :
  ls !! k = Some l → ls !! k0 = Some l0 →
  ∃ ext, <[k := l ++ [x]]> ls !! k0 = Some (l0 ++ ext).
Proof.
  intros Hk Hk0. destruct (decide (k = k0)) as [->|Hne].
  - exists [x]. rewrite list_lookup_insert_eq by (by eapply lookup_lt_Some).
    congruence.
  - exists []. rewrite list_lookup_insert_ne by done. by rewrite app_nil_r.
Qed.

Section link_loop.
Context (frag : Fragment) (cbg : dict nat (list (nat * PhysicsChild))).
Hypothesis Hcbg : ∀ g,
  dict_get cbg g
  = block (child_key (lod1 frag)) (enumerate (children (lod1 frag))) (Some g).
Hypothesis Hhave : groups_have_children (lod1 frag).
Hypothesis Hbones : bones_cover_children frag.
Hypothesis Hparents : parents_first (lod1 frag).

(** Appending group [m] to link [k] of [links ++ ext], where [ext] holds
    only empty links, and recording [k] for it. *)
Lemma place_group_inv m links libg ext k l :
  link_inv frag m (links, libg) →
  m < length (groups (lod1 frag)) →
  concat ext = [] →
  (links ++ ext) !! k = Some l →
  let st' := (<[k := l ++ [m]]> (links ++ ext), <[m := Z.of_nat k]> libg) in
  (∀ group, groups (lod1 frag) !! m = Some group → placed frag st' m group) →
  link_inv frag (S m) st'.
Proof.
  intros [Hlen Hroot Hperm Hindex Hplaced] Hm Hext Hk st' Hnew.
  subst st'. cbn [fst snd] in *.
  assert (∀ k0 l0, links !! k0 = Some l0 →
            ∃ e, <[k := l ++ [m]]> (links ++ ext) !! k0 = Some (l0 ++ e)) as Hgrow.
  { intros k0 l0 Hk0. eapply lookup_insert_snoc; [done|].
    by apply lookup_app_l_Some. }
  split; cbn [fst snd].
  - by rewrite length_insert.
  - destruct Hroot as [l0 Hl0]. destruct (Hgrow 0 l0 Hl0) as [e He]. eauto.
  - rewrite concat_insert_snoc by done.
    rewrite concat_app, Hext, app_nil_r, Hperm, seq_S. simpl.
    apply Permutation_cons_append.
  - intros g Hg. destruct (decide (g = m)) as [->|Hne].
    + exists k, (l ++ [m]). split_and!.
      * apply list_lookup_insert_eq. lia.
      * apply list_lookup_insert_eq. by eapply lookup_lt_Some.
      * apply elem_of_app. right. by left.
    + destruct (Hindex g) as (k0 & l0 & Hg0 & Hk0 & Hin); [lia|].
      destruct (Hgrow k0 l0 Hk0) as [e He].
      exists k0, (l0 ++ e). split_and!; [|done|].
      * by rewrite list_lookup_insert_ne.
      * apply elem_of_app. by left.
  - intros g group Hg Hgroup. destruct (decide (g = m)) as [->|Hne]; [by apply Hnew|].
    destruct (Hplaced g group) as [Hroot' Hchild]; [lia|done|].
    split; cbn [fst snd] in *.
    + intros Hp. rewrite list_lookup_insert_ne by done. auto.
    + intros Hp bone Hbone. destruct (Hchild Hp bone Hbone) as [Hj Hn]. split.
      * intros (k0 & rest & Hg0 & Hpos & Hk0)%Hj.
        destruct (Hgrow k0 _ Hk0) as [e He].
        exists k0, (rest ++ e). by rewrite list_lookup_insert_ne.
      * intros (p & Hpar & Hsame)%Hn. exists p. split; [done|].
        destruct (Hparents g group Hgroup) as [?|?]; [done|].
        rewrite !list_lookup_insert_ne by lia. done.
Qed.

Lemma append_to_link_nat (links : list (list nat)) k l g :
  links !! k = Some l →
  append_to_link links (Z.of_nat k) g = Some (<[k := l ++ [g]]> links).
Proof.
  intros Hk. unfold append_to_link.
  rewrite norm_index_nat by (by eapply lookup_lt_Some). simpl. by rewrite Hk.
Qed.

Lemma first_child_bone m :
  m < length (groups (lod1 frag)) →
  ∃ first bone,
    head (dict_get cbg m) = Some first ∧
    find_bone (bones frag) (bone_tag first.2) = Some bone ∧
    backing_bone frag m = Some bone.
Proof.
  intros Hm. destruct (Hhave m Hm) as (c & Hc & Hpos).
  pose proof (head_block_first_child (lod1 frag) m) as Hhead.
  rewrite <- Hcbg in Hhead.
  destruct (first_child (lod1 frag) m) as [c0|] eqn:Hfirst.
  - apply fmap_Some in Hhead as (first & Hfst & ->).
    assert (first.2 ∈ children (lod1 frag)) as Hin.
    { unfold first_child in Hfirst. apply head_Some_elem_of in Hfirst.
      by apply list_elem_of_filter in Hfirst as [_ ?]. }
    destruct (Hbones _ Hin) as (b & Hb & Htag).
    destruct (list_find_elem_of (λ b, tag b = bone_tag first.2) (bones frag) b Hb Htag)
      as [[i bone] Hfind].
    exists first, bone. split_and!; [done|..].
    + unfold find_bone. by rewrite Hfind.
    + unfold backing_bone. rewrite Hfirst. simpl. unfold find_bone. by rewrite Hfind.
  - exfalso. unfold first_child in Hfirst. apply head_None in Hfirst.
    eapply (filter_nil_not_elem_of _ _ c Hfirst); done.
Qed.

(** One iteration succeeds and re-establishes the invariant. *)
Lemma link_step_inv m st group :
  link_inv frag m st →
  groups (lod1 frag) !! m = Some group →
  ∃ st', link_step frag cbg st (m, group) = Some st' ∧ link_inv frag (S m) st'.
Proof.
  destruct st as [links libg]. intros Hinv Hgroup.
  assert (m < length (groups (lod1 frag))) as Hm by (by eapply lookup_lt_Some).
  assert (m < length libg) as Hmlen.
  { pose proof (inv_len _ _ _ Hinv) as Hlen. cbn [snd] in Hlen. by rewrite Hlen. }
  destruct (inv_root _ _ _ Hinv) as [l0 Hl0]. cbn [fst] in Hl0.
  unfold link_step, choose_link. cbn [fst snd].
  destruct (decide (parent_index group = 255%Z)) as [Hp|Hp].
  - rewrite bool_decide_eq_false_2 by (intros ?; done). cbn [mbind option_bind].
    change 0%Z with (Z.of_nat 0).
    rewrite (append_to_link_nat links 0 l0) by done. cbn [mbind option_bind].
    rewrite setitem_Some by done. cbn [mbind option_bind].
    eexists. split; [reflexivity|].
    rewrite <- (app_nil_r links) at 1.
    apply (place_group_inv m links libg [] 0 l0); try done.
    + by rewrite app_nil_r.
    + intros group' Hgroup'. simplify_eq. split; [|done].
      intros _. cbn [snd]. by apply list_lookup_insert_eq.
  - rewrite bool_decide_eq_true_2 by done.
    destruct (first_child_bone m Hm) as (first & bone & Hhead & Hfind & Hback).
    rewrite Hhead. cbn [mbind option_bind]. rewrite Hfind. cbn [mbind option_bind].
    destruct (creates_new_link frag bone) eqn:Hnew.
    + cbn [mbind option_bind].
      rewrite (append_to_link_nat (links ++ [[]]) (length links) [])
        by (by apply list_lookup_middle).
      cbn [mbind option_bind]. rewrite setitem_Some by done. cbn [mbind option_bind].
      eexists. split; [reflexivity|].
      apply (place_group_inv m links libg [[]] (length links) []); try done.
      * by apply list_lookup_middle.
      * intros group' Hgroup'. simplify_eq. split; [done|].
        intros _ bone' Hbone'. simplify_eq. split.
        -- intros _. exists (length links), []. cbn [fst snd]. split_and!.
           ++ by apply list_lookup_insert_eq.
           ++ apply lookup_lt_Some in Hl0. lia.
           ++ apply list_lookup_insert_eq. rewrite length_app. simpl. lia.
        -- intros Hno. exfalso. apply Hno. by apply creates_new_link_spec.
    + destruct (Hparents m group Hgroup) as [?|Hrange]; [done|].
      assert (∃ p, parent_index group = Z.of_nat p ∧ p < m) as (p & Hpar & Hpm).
      { exists (Z.to_nat (parent_index group)). lia. }
      destruct (inv_index _ _ _ Hinv p Hpm) as (k & l & Hlibg & Hk & _).
      cbn [fst snd] in Hlibg, Hk.
      rewrite Hpar, getitem_nat, Hlibg by lia. cbn [mbind option_bind].
      rewrite (append_to_link_nat links k l) by done. cbn [mbind option_bind].
      rewrite setitem_Some by done. cbn [mbind option_bind].
      eexists. split; [reflexivity|].
      rewrite <- (app_nil_r links) at 1.
      apply (place_group_inv m links libg [] k l); try done.
      * by rewrite app_nil_r.
      * intros group' Hgroup'. simplify_eq. split; [done|].
        intros _ bone' Hbone'. simplify_eq. split.
        -- intros Hj%creates_new_link_spec. congruence.
        -- intros _. exists p. split; [done|]. cbn [snd].
           rewrite list_lookup_insert_eq by done.
           by rewrite list_lookup_insert_ne by lia.
Qed.

Lemma link_loop_inv m :
  m ≤ length (groups (lod1 frag)) →
  ∃ st,
    fold_leftM (link_step frag cbg) (take m (enumerate (groups (lod1 frag))))
               ([[]], replicate (length (groups (lod1 frag))) (-1)%Z) = Some st ∧
    link_inv frag m st.
Proof.
  induction m as [|m IH]; intros Hm.
  - eexists. split; [reflexivity|]. split; cbn [fst snd].
    + apply length_replicate.
    + by eexists.
    + done.
    + intros g Hg. lia.
    + intros g group Hg. lia.
  - destruct IH as (st & Hrun & Hinv); [lia|].
    destruct (lookup_lt_is_Some_2 (groups (lod1 frag)) m) as [group Hgroup]; [lia|].
    destruct (link_step_inv m st group Hinv Hgroup) as (st' & Hstep & Hinv').
    exists st'. split; [|done].
    rewrite (take_S_r _ _ (m, group)) by (by apply enumerate_lookup_Some).
    rewrite fold_leftM_app, Hrun. simpl. by rewrite Hstep.
Qed.

Lemma form_links_from_inv :
  ∃ st, form_links_from frag cbg = Some st ∧
        link_inv frag (length (groups (lod1 frag))) st.
Proof.
  destruct (link_loop_inv (length (groups (lod1 frag)))) as (st & Hrun & Hinv); [done|].
  exists st. split; [|done].
  unfold form_links_from. rewrite <- Hrun. f_equal.
  symmetry. apply take_ge. by rewrite enumerate_length.
Qed.

End link_loop.

(** Pick, from an explicit list, an element with a computable property. *)
Ltac pick_from l :=
  lazymatch l with
  | ?x :: ?l' =>
      first [ exists x; split;
              [apply list_elem_of_In; simpl; repeat first [left; reflexivity | right]
              |reflexivity]
            | pick_from l' ]
  end.

Ltac pick_child frag :=
  let l := eval cbv in (children (lod1 frag)) in pick_from l.

Ltac pick_bone frag :=
  let l := eval cbv in (bones frag) in pick_from l.

(** C2, as stated, fails when a group names a later group as its parent:
    [link_index_by_group[parent]] is then still [-1], which Python resolves
    to the last link created so far.  Every group has a child and every
    child has a bone, group 0 has parent 2 and a backing bone without a
    joint, yet group 0 lands in link 0 and its parent group 2 in link 1. *)
Lemma forward_parent_breaks_partition :
  groups_have_children (lod1 forward_parent_frag) ∧
  bones_cover_children forward_parent_frag ∧
  form_links forward_parent_frag = Some ([[0; 1]; [2]], [-1; 0; 1]%Z) ∧
  (parent_index <$> groups (lod1 forward_parent_frag) !! 0) = Some 2%Z ∧
  backing_bone forward_parent_frag 0 = Some (plain_bone 10) ∧
  ¬ has_joint forward_parent_frag (plain_bone 10) ∧
  ¬ ∃ link, link ∈ [[0; 1]; [2]] ∧ 0 ∈ link ∧ 2 ∈ link.
Proof.
  split_and!; try reflexivity.
  - intros [|[|[|g]]] Hg; simpl in Hg; [| | |lia]; pick_child forward_parent_frag.
  - intros c Hc. simpl in Hc.
    repeat (apply elem_of_cons in Hc as [->|Hc]; [pick_bone forward_parent_frag|]).
    by apply elem_of_nil in Hc.
  - intros [[Hf _]|[Hf _]]; simpl in Hf; by apply elem_of_nil in Hf.
  - intros (link & Hlink & H0 & H2).
    apply elem_of_cons in Hlink as [->|Hlink].
    + apply list_elem_of_In in H2. simpl in H2. lia.
    + apply list_elem_of_singleton in Hlink as ->.
      apply list_elem_of_In in H0. simpl in H0. lia.
Qed.

(** C2 (amended).  Let every child's [group_index] refer to a group, every
    group have at least one child, every child's [bone_tag] match a
    skeleton bone, and every group's [parent_index] be 255 or the index of
    an earlier group.  Then the link loop returns normally with a partition
    of the groups into links in which [link_index_by_group] names the link
    each group is in, and for every group: if its [parent_index] is 255 it
    is in link 0; otherwise, if the bone backing its first child has a
    joint (LimitRotation with a matching rotation limit, or LimitTranslation
    with a matching translation limit), it is the first group of a link
    other than link 0; otherwise it is in the link of its parent group. *)
Theorem form_links_partition frag :
  children_grouped (lod1 frag) →
  groups_have_children (lod1 frag) →
  bones_cover_children frag →
  parents_first (lod1 frag) →
  ∃ links link_index_by_group,
    form_links frag = Some (links, link_index_by_group) ∧
    concat links ≡ₚ seq 0 (length (groups (lod1 frag))) ∧
    (∀ g, g < length (groups (lod1 frag)) →
       ∃ k l, link_index_by_group !! g = Some (Z.of_nat k) ∧
              links !! k = Some l ∧ g ∈ l) ∧
    ∀ g group, groups (lod1 frag) !! g = Some group →
      (parent_index group = 255%Z → link_index_by_group !! g = Some 0%Z) ∧
      (parent_index group ≠ 255%Z →
       ∀ bone, backing_bone frag g = Some bone →
         (has_joint frag bone →
          ∃ k rest, link_index_by_group !! g = Some (Z.of_nat k) ∧ 0 < k ∧
                    links !! k = Some (g :: rest)) ∧
         (¬ has_joint frag bone →
          ∃ p, parent_index group = Z.of_nat p ∧
               link_index_by_group !! g = link_index_by_group !! p)).
Proof.
  intros Hgrouped Hhave Hbones Hparents.
  destruct (children_by_group_spec _ Hgrouped) as (cbg & Hcbg & Hget).
  destruct (form_links_from_inv frag cbg Hget Hhave Hbones Hparents)
    as ([links libg] & Hrun & [_ _ Hperm Hindex Hplaced]).
  exists links, libg. unfold form_links. rewrite Hcbg. cbn [mbind option_bind].
  split_and!; [done|done|done|].
  intros g group Hgroup. apply (Hplaced g group); [|done].
  by eapply lookup_lt_Some.
Qed.

Lemma chain_frag_well_formed :
  children_grouped (lod1 chain_frag) ∧ groups_have_children (lod1 chain_frag) ∧
  bones_cover_children chain_frag ∧ parents_first (lod1 chain_frag).
Proof.
  split_and!.
  - intros c Hc. simpl in Hc.
    repeat (apply elem_of_cons in Hc as [->|Hc]; [by eexists|]).
    by apply elem_of_nil in Hc.
  - intros [|[|[|g]]] Hg; simpl in Hg; [| | |lia]; pick_child chain_frag.
  - intros c Hc. simpl in Hc.
    repeat (apply elem_of_cons in Hc as [->|Hc]; [pick_bone chain_frag|]).
    by apply elem_of_nil in Hc.
  - intros [|[|[|g]]] group Hg; simpl in Hg; simplify_eq; simpl; lia.
Qed.

Lemma form_links_partition_witness :
  ∃ links link_index_by_group,
    form_links chain_frag = Some (links, link_index_by_group) ∧
    concat links ≡ₚ seq 0 3.
Proof.
  destruct chain_frag_well_formed as (H1 & H2 & H3 & H4).
  destruct (form_links_partition chain_frag H1 H2 H3 H4)
    as (links & libg & Hrun & Hperm & _).
  exists links, libg. split; [exact Hrun|exact Hperm].
Defined.

(** *** Facts that hold of every run that completes *)

Lemma children_by_group_Some lod cbg :
  children_by_group lod = Some cbg → children_grouped lod.
Proof.
  unfold children_by_group, children_grouped. intros Hrun c Hc.
  apply list_elem_of_lookup in Hc as [i Hi].
  apply enumerate_lookup_Some in Hi.
  assert (∀ (l : list (nat * PhysicsChild)) d d',
    fold_leftM (λ d ic, g ← group_position lod ic.2; Some (dict_append d g ic)) l d = Some d' →
    ∀ ic, ic ∈ l → is_Some (group_position lod ic.2)) as Hall.
  { induction l as [|x l IH]; intros d d' Hl ic Hic; [by apply elem_of_nil in Hic|].
    simpl in Hl. destruct (group_position lod x.2) as [g|] eqn:Hg; [|done].
    simpl in Hl. apply elem_of_cons in Hic as [->|Hic]; [by rewrite Hg|by eapply IH]. }
  apply (Hall _ _ _ Hrun (i, c)). by eapply list_elem_of_lookup_2.
Qed.

(** What one iteration does to the two lists, whatever the input. *)
Lemma link_step_Some frag cbg links libg m group links' libg' :
  link_step frag cbg (links, libg) (m, group) = Some (links', libg') →
  ∃ ext k l link_index,
    concat ext = [] ∧ (links ++ ext) !! k = Some l ∧
    norm_index (length (links ++ ext)) link_index = Some k ∧
    links' = <[k := l ++ [m]]> (links ++ ext) ∧
    m < length libg ∧ libg' = <[m := link_index]> libg.
Proof.
  unfold link_step, choose_link, append_to_link, setitem. cbn [fst snd].
  intros Hrun.
  assert (∀ links1 link_index ext,
    links1 = links ++ ext → concat ext = [] →
    append_to_link links1 link_index m
      ≫= (λ links2, setitem libg m link_index ≫= λ l, Some (links2, l))
    = Some (links', libg') →
    ∃ ext k l link_index,
      concat ext = [] ∧ (links ++ ext) !! k = Some l ∧
      norm_index (length (links ++ ext)) link_index = Some k ∧
      links' = <[k := l ++ [m]]> (links ++ ext) ∧
      m < length libg ∧ libg' = <[m := link_index]> libg) as Hfin.
  { intros links1 li ext -> Hext. unfold append_to_link, setitem.
    destruct (norm_index _ li) as [k|] eqn:Hk; [|done]. simpl.
    destruct ((links ++ ext) !! k) as [l|] eqn:Hl; [|done]. simpl.
    case_decide; [|done]. simpl. intros [= <- <-].
    by exists ext, k, l, li. }
  destruct (bool_decide (parent_index group ≠ 255%Z)).
  - destruct (head (dict_get cbg m)) as [first|]; [|done]. simpl in Hrun.
    destruct (find_bone (bones frag) (bone_tag first.2)) as [bone|]; [|done].
    simpl in Hrun. destruct (creates_new_link frag bone).
    + simpl in Hrun. by apply (Hfin _ _ [[]]) in Hrun.
    + destruct (getitem libg (parent_index group)) as [li|]; [|done].
      simpl in Hrun. apply (Hfin _ _ []) in Hrun; [done|by rewrite app_nil_r|done].
  - simpl in Hrun. apply (Hfin _ _ []) in Hrun; [done|by rewrite app_nil_r|done].
Qed.

(** Each group is put in exactly one link, every recorded link index is a
    valid Python index into [links], and link 0 exists. *)
Record run_inv (n : nat) (processed : list nat) (st : list (list nat) * list Z) : Prop := {
  run_perm : concat st.1 ≡ₚ processed;
  run_len : length st.2 = n;
  run_valid : ∀ li, li ∈ st.2 → is_Some (norm_index (length st.1) li);
  run_root : 0 < length st.1 }.

Lemma norm_index_mono len len' i :
  len ≤ len' → 0 < len → is_Some (norm_index len i) → is_Some (norm_index len' i).
Proof.
  unfold norm_index. intros Hle Hpos [k Hk].
  destruct (Z.leb_spec 0 i).
  - destruct (Z.ltb_spec i (Z.of_nat len)); [|done].
    destruct (Z.ltb_spec i (Z.of_nat len')); [by eexists|lia].
  - destruct (Z.leb_spec (- Z.of_nat len) i); [|done].
    destruct (Z.leb_spec (- Z.of_nat len') i); [by eexists|lia].
Qed.

Lemma link_step_run_inv frag cbg n processed st m group st' :
  run_inv n processed st →
  link_step frag cbg st (m, group) = Some st' →
  run_inv n (processed ++ [m]) st'.
Proof.
  destruct st as [links libg], st' as [links' libg'].
  intros [Hperm Hlen Hvalid Hroot] Hstep. cbn [fst snd] in *.
  apply link_step_Some in Hstep
    as (ext & k & l & li & Hext & Hk & Hli & -> & Hm & ->).
  split; cbn [fst snd].
  - rewrite concat_insert_snoc by done.
    rewrite concat_app, Hext, app_nil_r, Hperm. apply Permutation_cons_append.
  - by rewrite length_insert.
  - rewrite length_insert. intros li' Hli'.
    apply list_elem_of_lookup in Hli' as [j Hj].
    destruct (decide (j = m)) as [->|Hne].
    + rewrite list_lookup_insert_eq in Hj by done. simplify_eq. by eexists.
    + rewrite list_lookup_insert_ne in Hj by done.
      eapply norm_index_mono; [| |apply Hvalid; by eapply list_elem_of_lookup_2].
      * rewrite length_app. lia.
      * done.
  - rewrite length_insert, length_app. lia.
Qed.

Lemma form_links_from_run_inv frag cbg st :
  form_links_from frag cbg = Some st →
  run_inv (length (groups (lod1 frag))) (seq 0 (length (groups (lod1 frag)))) st.
Proof.
  unfold form_links_from. intros Hrun.
  set (n := length (groups (lod1 frag))) in *.
  assert (∀ (l : list (nat * PhysicsGroup)) processed st0 st1,
    run_inv n processed st0 →
    fold_leftM (link_step frag cbg) l st0 = Some st1 →
    run_inv n (processed ++ l.*1) st1) as Hloop.
  { induction l as [|[m group] l IH]; intros processed st0 st1 Hinv Hl; simpl in Hl.
    - simplify_eq. by rewrite app_nil_r.
    - destruct (link_step frag cbg st0 (m, group)) as [st2|] eqn:Hstep; [|done].
      simpl in Hl. rewrite fmap_cons, cons_middle, app_assoc.
      eapply IH; [|done]. by eapply link_step_run_inv. }
  replace (seq 0 n) with ((enumerate (groups (lod1 frag))).*1)
    by apply enumerate_fst.
  apply (Hloop _ [] _ _) in Hrun; [done|].
  split; cbn [fst snd].
  - done.
  - apply length_replicate.
  - intros li [-> _]%elem_of_replicate. by eexists.
  - simpl. lia.
Qed.

(** *** Centers of gravity *)

(** [bounds.children[i]], for an index known to be in range. *)
Definition bound_of (lod : PhysicsLOD) (i : nat) : option Bound :=
  default None (bounds_children (archetype lod) !! i).

(** The children (with their indices) that belong to any group of a link,
    in the order of [lod.children]. *)
Definition link_children (lod : PhysicsLOD) (link : list nat) : list (nat * PhysicsChild) :=
  filter (λ ic, child_key lod ic ∈ (Some <$> link)) (enumerate (children lod)).

Definition child_mass (ic : nat * PhysicsChild) : Q := pristine_mass ic.2.

(** The child's bound center scaled by the child's pristine mass. *)
Definition child_moment (lod : PhysicsLOD) (ic : nat * PhysicsChild) : Vector3 :=
  vscale (bound_center (bound_of lod ic.1)) (child_mass ic).

Definition link_mass (lod : PhysicsLOD) (link : list nat) : Q :=
  qsum (child_mass <$> link_children lod link).

Definition link_moment (lod : PhysicsLOD) (link : list nat) : Vector3 :=
  vsum (child_moment lod <$> link_children lod link).

Definition weighted_mean (lod : PhysicsLOD) (link : list nat) : Vector3 :=
  vdivq (link_moment lod link) (link_mass lod link).

Lemma cog_child_loop lod (l : list (nat * PhysicsChild)) st :
  (∀ ic, ic ∈ l → ic.1 < length (bounds_children (archetype lod))) →
  fold_leftM (cog_child_step lod) l st
  = Some (fold_left vadd (child_moment lod <$> l) st.1,
          fold_left Qplus (child_mass <$> l) st.2).
Proof.
  revert st. induction l as [|ic l IH]; intros [acc tot] Hl; [done|].
  cbn [fold_leftM].
  destruct (lookup_lt_is_Some_2 (bounds_children (archetype lod)) ic.1) as [b Hb].
  { apply Hl. by left. }
  assert (cog_child_step lod (acc, tot) ic
          = Some (vadd acc (vscale (bound_center b) (pristine_mass ic.2)),
                  (tot + pristine_mass ic.2)%Q)) as ->
    by (unfold cog_child_step; by rewrite Hb).
  cbn [mbind option_bind fst snd].
  rewrite IH by (intros; apply Hl; by right).
  cbn [fst snd]. rewrite !fmap_cons. cbn [fold_left].
  assert (child_moment lod ic = vscale (bound_center b) (pristine_mass ic.2)) as ->
    by (unfold child_moment, bound_of; by rewrite Hb).
  done.
Qed.

Lemma NoDup_concat_elem {A} (ls : list (list A)) l :
  NoDup (concat ls) → l ∈ ls → NoDup l.
Proof.
  induction ls as [|l0 ls IH]; simpl; [by intros _ ?%elem_of_nil|].
  intros (? & _ & ?)%NoDup_app [->|?]%elem_of_cons; auto.
Qed.

Section center_of_gravity.
Context (lod : PhysicsLOD) (cbg : dict nat (list (nat * PhysicsChild))).
Hypothesis Hcbg : ∀ g,
  dict_get cbg g = block (child_key lod) (enumerate (children lod)) (Some g).
Hypothesis Hbounds : length (children lod) ≤ length (bounds_children (archetype lod)).

Lemma link_center_of_gravity_spec link :
  NoDup link →
  ¬ (link_mass lod link == 0)%Q →
  ∃ cog, link_center_of_gravity lod cbg link = Some cog ∧
         veq cog (weighted_mean lod link).
Proof.
  intros Hnd Hmass. unfold link_center_of_gravity.
  set (BL := blocks (child_key lod) (enumerate (children lod)) (Some <$> link)).
  assert (fold_leftM (λ st g, fold_leftM (cog_child_step lod) (dict_get cbg g) st)
                     link (zero, 0%Q)
          = fold_leftM (cog_child_step lod) BL (zero, 0%Q)) as ->.
  { rewrite <- (SortCols.fold_leftM_fmap
                  (λ st l, fold_leftM (cog_child_step lod) l st) (dict_get cbg)).
    rewrite fold_leftM_concat. f_equal. unfold BL, blocks.
    rewrite <- list_fmap_compose. f_equal. apply list_fmap_ext.
    intros i g _. apply Hcbg. }
  assert (BL ≡ₚ link_children lod link) as Hperm.
  { apply blocks_Permutation_filter. apply (NoDup_fmap_2 _). done. }
  rewrite cog_child_loop.
  2:{ intros ic [Hic _]%elem_of_blocks. apply enumerate_lookup in Hic.
      apply lookup_lt_Some in Hic. lia. }
  cbn [mbind option_bind fst snd].
  change (fold_left vadd (child_moment lod <$> BL) zero)
    with (vsum (child_moment lod <$> BL)).
  change (fold_left Qplus (child_mass <$> BL) 0%Q) with (qsum (child_mass <$> BL)).
  assert (qsum (child_mass <$> BL) == link_mass lod link)%Q as Hm.
  { apply qsum_Permutation. by rewrite Hperm. }
  assert (veq (vsum (child_moment lod <$> BL)) (link_moment lod link)) as Hv.
  { apply vsum_Permutation. by rewrite Hperm. }
  rewrite vdiv_nonzero by (by rewrite Hm).
  eexists. split; [reflexivity|]. unfold weighted_mean. by rewrite Hv, Hm.
Qed.

Lemma links_center_of_gravity_spec links :
  NoDup (concat links) →
  0 < length links →
  (∀ link, link ∈ links → ¬ (link_mass lod link == 0)%Q) →
  ∃ cogs,
    links_center_of_gravity_from lod cbg links = Some cogs ∧
    length cogs = length links ∧
    ∀ k link, links !! k = Some link →
      ∃ cog, cogs !! k = Some cog ∧
             veq cog (if decide (k = 0) then vadd (weighted_mean lod link) (unknown_50 lod)
                      else weighted_mean lod link).
Proof.
  intros Hnd Hpos Hmass.
  assert (∃ cogs0, mapM (link_center_of_gravity lod cbg) links = Some cogs0 ∧
            Forall2 (λ link cog, veq cog (weighted_mean lod link)) links cogs0)
    as (cogs0 & Hmap & Hall).
  { assert (∀ link, link ∈ links → NoDup link) as Hnds
      by (intros; by eapply NoDup_concat_elem).
    clear Hnd Hpos. induction links as [|link links IH].
    - by exists [].
    - destruct (link_center_of_gravity_spec link) as (cog & Hcog & Heq).
      { apply Hnds. by left. } { apply Hmass. by left. }
      destruct IH as (cogs0 & Hmap & Hall).
      { intros; apply Hmass; by right. } { intros; apply Hnds; by right. }
      exists (cog :: cogs0). split; [|by constructor].
      apply mapM_Some. constructor; [done|]. by apply mapM_Some. }
  pose proof (Forall2_length _ _ _ Hall) as Hlen.
  unfold links_center_of_gravity_from. rewrite Hmap. cbn [mbind option_bind].
  destruct (lookup_lt_is_Some_2 cogs0 0) as [root Hroot]; [lia|].
  rewrite Hroot. cbn [mbind option_bind].
  eexists. split; [reflexivity|]. split; [by rewrite length_insert|].
  intros k link Hk.
  destruct (Forall2_lookup_l _ _ _ _ _ Hall Hk) as (cog & Hcog & Heq).
  destruct (decide (k = 0)) as [->|Hne].
  - exists (vadd root (unknown_50 lod)).
    rewrite list_lookup_insert_eq by lia. split; [done|].
    simplify_eq. by rewrite Heq.
  - exists cog. by rewrite list_lookup_insert_ne.
Qed.

End center_of_gravity.

Lemma child_transforms_Some lod cogs links libg :
  children_grouped lod →
  length (children lod) ≤ length (bounds_children (archetype lod)) →
  run_inv (length (groups lod)) (seq 0 (length (groups lod))) (links, libg) →
  length cogs = length links →
  ∃ ts, mapM (child_transform lod cogs libg) (enumerate (children lod)) = Some ts ∧
        length ts = length (children lod).
Proof.
  intros Hgrouped Hbounds [_ Hlen Hvalid _] Hcogs. cbn [fst snd] in *.
  destruct (mapM_is_Some_2 (child_transform lod cogs libg) (enumerate (children lod)))
    as [ts Hts].
  - apply Forall_forall. intros [i c] Hic. apply enumerate_lookup in Hic. simpl in Hic.
    unfold child_transform, getitem, compose. cbn [fst snd].
    destruct (Hgrouped c) as [g Hg]; [by eapply list_elem_of_lookup_2|].
    unfold group_position in Hg. rewrite Hlen, Hg.
    destruct (lookup_lt_is_Some_2 libg g) as [li Hli].
    { rewrite Hlen. by eapply norm_index_lt. }
    rewrite Hli. cbn [mbind option_bind].
    destruct (Hvalid li) as [k Hk]; [by eapply list_elem_of_lookup_2|].
    rewrite Hcogs, Hk.
    destruct (lookup_lt_is_Some_2 cogs k) as [cog Hcog].
    { rewrite Hcogs. by eapply norm_index_lt. }
    rewrite Hcog. cbn [mbind option_bind].
    destruct (lookup_lt_is_Some_2 (bounds_children (archetype lod)) i) as [b Hb].
    { apply lookup_lt_Some in Hic. lia. }
    rewrite Hb. by eexists.
  - exists ts. split; [done|].
    apply length_mapM in Hts. by rewrite <- Hts, enumerate_length.
Qed.

(** The spec's example: one root group, two children of mass 1 with bound
    centers (0,0,0) and (2,0,0), unbroken CG offset (0,0,1). *)
Definition two_child_frag : Fragment :=
  mkFragment
    (mkLOD (mkArchetype 0 0 zero zero [bound_at 0; bound_at 2])
           [mkGroup "root" 255 0]
           [unit_child 0 10; unit_child 0 10]
           [] zero zero (mkV3 0 0 1))
    [plain_bone 10] [] [].

Example two_child_links : form_links two_child_frag = Some ([[0]], [0%Z]).
Proof. reflexivity. Qed.

Example two_child_center_of_gravity :
  veq (weighted_mean (lod1 two_child_frag) [0]) (mkV3 1 0 0) ∧
  ∃ cog, links_center_of_gravity two_child_frag = Some [cog] ∧
         veq cog (mkV3 1 0 1).
Proof.
  split; [by vm_compute|]. eexists. split; [reflexivity|]. by vm_compute.
Qed.

(** A link without mass makes the division raise. *)
Example massless_link_raises :
  links_center_of_gravity
    (mkFragment
       (mkLOD (mkArchetype 0 0 zero zero [bound_at 0])
              [mkGroup "root" 255 0] [mkChild 0 10 0 0 (mkV4 0 0 0 0)]
              [] zero zero zero)
       [plain_bone 10] [] []) = None.
Proof. reflexivity. Qed.

(** C3.  Whenever the link loop completes with [links], every child has an
    entry in the archetype's bounds list, and no link has total pristine
    mass zero, [calculate_physics_lod_transforms] returns normally, and the
    center of gravity of every link [k] is the sum, over the children of all
    groups of the link, of the child's bound center
    ([composite_transform.transposed() @ sphere_center], the origin for an
    absent bound) scaled by the child's pristine mass, divided by the sum of
    those masses; for link 0 the offset [unknown_50] is added after the
    division.  The root value is stored in [position_offset] and in
    [unknown_40]. *)
Theorem link_center_of_gravity_weighted_mean frag links link_index_by_group :
  form_links frag = Some (links, link_index_by_group) →
  length (children (lod1 frag)) ≤ length (bounds_children (archetype (lod1 frag))) →
  (∀ link, link ∈ links → ¬ (link_mass (lod1 frag) link == 0)%Q) →
  ∃ cogs frag',
    links_center_of_gravity frag = Some cogs ∧
    calculate_physics_lod_transforms frag = Some frag' ∧
    length cogs = length links ∧
    (∀ k link, links !! k = Some link →
       ∃ cog, cogs !! k = Some cog ∧
         veq cog
           (if decide (k = 0)
            then vadd (vdivq (link_moment (lod1 frag) link) (link_mass (lod1 frag) link))
                      (unknown_50 (lod1 frag))
            else vdivq (link_moment (lod1 frag) link) (link_mass (lod1 frag) link))) ∧
    cogs !! 0 = Some (position_offset (lod1 frag')) ∧
    unknown_40 (lod1 frag') = position_offset (lod1 frag') ∧
    length (transforms (lod1 frag'))
    = length (transforms (lod1 frag)) + length (children (lod1 frag)).
Proof.
  intros Hlinks Hbounds Hmass. unfold form_links in Hlinks.
  destruct (children_by_group (lod1 frag)) as [cbg|] eqn:Hcbg; [|done].
  cbn [mbind option_bind] in Hlinks.
  pose proof (children_by_group_Some _ _ Hcbg) as Hgrouped.
  destruct (children_by_group_spec _ Hgrouped) as (cbg' & Hcbg' & Hget).
  rewrite Hcbg in Hcbg'. injection Hcbg' as <-.
  pose proof (form_links_from_run_inv _ _ _ Hlinks) as Hinv.
  pose proof Hinv as [Hperm _ _ Hroot]. cbn [fst snd] in *.
  destruct (links_center_of_gravity_spec (lod1 frag) cbg Hget Hbounds links)
    as (cogs & Hcogs & Hlen & Hall); [|done|done|].
  { rewrite Hperm. apply NoDup_seq. }
  destruct (child_transforms_Some (lod1 frag) cogs links link_index_by_group)
    as (ts & Hts & Htslen); [done..|].
  destruct (lookup_lt_is_Some_2 cogs 0) as [root Hrootc]; [lia|].
  exists cogs. eexists.
  unfold links_center_of_gravity, calculate_physics_lod_transforms.
  rewrite Hcbg. cbn [mbind option_bind]. rewrite Hlinks. cbn [mbind option_bind fst snd].
  rewrite Hcogs. cbn [mbind option_bind]. rewrite Hrootc, Hts. cbn [mbind option_bind].
  split_and!; [done|reflexivity|done|exact Hall|done|done|].
  cbn [lod1 transforms]. rewrite length_app. lia.
Qed.

Lemma link_center_of_gravity_weighted_mean_witness :
  ∃ cogs frag',
    links_center_of_gravity two_child_frag = Some cogs ∧
    calculate_physics_lod_transforms two_child_frag = Some frag' ∧
    cogs !! 0 = Some (position_offset (lod1 frag')).
Proof.
  destruct (link_center_of_gravity_weighted_mean two_child_frag [[0]] [0%Z])
    as (cogs & frag' & Hcogs & Hrun & _ & _ & Hroot & _).
  - reflexivity.
  - simpl. lia.
  - intros link Hlink. apply list_elem_of_singleton in Hlink as ->. by vm_compute.
  - exists cogs, frag'. split; [exact Hcogs|]. split; [exact Hrun|exact Hroot].
Defined.

End Links.

(** ** [calculate_archetype_mass_inertia] *)

Module ArchetypeMass.
Import Model Vec.

(** [a / b] on floats: raises [ZeroDivisionError] when [b == 0]. *)
Definition py_div (a b : Q) : option Q :=
  if Qeq_bool b 0 then None else Some (a / b)%Q.

Definition xyz (v : Vector4) : Vector3 := mkV3 (wx v) (wy v) (wz v).

(** [bound_xml.composite_transform.transposed() @ bound_xml.sphere_center];
    the attribute access raises on an entry that is [None]. *)
Definition bound_cg (bound_xml : option Bound) : option Vector3 :=
  b ← bound_xml;
  Some (mat_vec3 (transposed (composite_transform b)) (sphere_center b)).

Section archetype.
(** [shared.geometry.calculate_composite_inertia] and [tools.utils.vector_inv]
    are not among the sources; the function is modelled for any two such
    helpers. *)
Variable calculate_composite_inertia :
  Vector3 → list Vector3 → list Q → list Vector3 → Vector3.
Variable vector_inv : Vector3 → Vector3.

Definition calculate_archetype_mass_inertia (lod_xml : PhysicsLOD) : option PhysicsLOD :=
  let phys_children := children lod_xml in
  let bounds := bounds_children (archetype lod_xml) in
  let masses := pristine_mass <$> phys_children in
  let inertias := (λ c, xyz (inertia_tensor c)) <$> phys_children in
  cgs ← mapM bound_cg bounds;
  let mass := qsum masses in
  let inertia := calculate_composite_inertia (position_offset lod_xml) cgs masses inertias in
  mass_inv ← (if negb (Qeq_bool mass 0) then py_div 1 mass else Some 0%Q);
  Some (mkLOD (mkArchetype mass mass_inv inertia (vector_inv inertia) bounds)
              (groups lod_xml) (children lod_xml) (transforms lod_xml)
              (position_offset lod_xml) (unknown_40 lod_xml) (unknown_50 lod_xml)).

(** The division is only reached with a non-zero divisor. *)
Lemma guarded_inverse (m : Q) :
  (if negb (Qeq_bool m 0) then py_div 1 m else Some 0%Q)
  = Some (if Qeq_bool m 0 then 0 else 1 / m)%Q.
Proof. unfold py_div. by destruct (Qeq_bool m 0). Qed.

(** C4.  On a physics LOD whose bounds entries are all present,
    [calculate_archetype_mass_inertia] returns normally whatever the
    masses are; the archetype's mass is the sum of the children's pristine
    masses, and its inverse mass is 0 when that sum is zero and [1 / mass]
    otherwise. *)
Theorem archetype_mass_and_inverse lod :
  Forall is_Some (bounds_children (archetype lod)) →
  ∃ lod',
    calculate_archetype_mass_inertia lod = Some lod' ∧
    let total := qsum (pristine_mass <$> children lod) in
    mass (archetype lod') = total ∧
    mass_inv (archetype lod') = (if Qeq_bool total 0 then 0 else 1 / total)%Q ∧
    ((total == 0)%Q → mass_inv (archetype lod') = 0%Q) ∧
    (¬ (total == 0)%Q → (mass_inv (archetype lod') * total == 1)%Q).
Proof.
  intros Hbounds. unfold calculate_archetype_mass_inertia.
  destruct (mapM_is_Some_2 bound_cg (bounds_children (archetype lod))) as [cgs Hcgs].
  { eapply Forall_impl; [exact Hbounds|]. intros b [? ->]. by eexists. }
  rewrite Hcgs. cbn [mbind option_bind]. cbv zeta.
  rewrite guarded_inverse. cbn [mbind option_bind].
  eexists. split; [reflexivity|]. cbn [archetype mass mass_inv].
  split_and!; [done|done|..].
  - intros H0. apply Qeq_bool_iff in H0. by rewrite H0.
  - intros Hne. destruct (Qeq_bool _ 0) eqn:Heq.
    + by apply Qeq_bool_iff in Heq.
    + field. done.
Qed.

End archetype.

(** A LOD whose only child has mass zero. *)
Definition massless_lod : PhysicsLOD :=
  mkLOD (mkArchetype 7 7 zero zero [Some (mkBound identity zero)])
        [mkGroup "root" 255 0] [mkChild 0 0 0 0 (mkV4 0 0 0 0)]
        [] zero zero zero.

Lemma archetype_mass_and_inverse_witness :
  ∃ lod',
    calculate_archetype_mass_inertia (λ _ _ _ _, zero) (λ v, v) massless_lod = Some lod' ∧
    mass (archetype lod') = 0%Q ∧ mass_inv (archetype lod') = 0%Q.
Proof.
  destruct (archetype_mass_and_inverse (λ _ _ _ _, zero) (λ v, v) massless_lod)
    as (lod' & Hrun & Hmass & _ & Hzero & _).
  - repeat constructor. by eexists.
  - exists lod'. split; [exact Hrun|]. split; [exact Hmass|].
    apply Hzero. reflexivity.
Defined.

End ArchetypeMass.

(** ** [create_frag_env_cloth] *)

Module Cloth.
Import Model Py Vec.

(** The evaluated cloth mesh: vertex coordinates (a vertex's [index] is its
    position in the list), the values of the PINNED attribute per vertex,
    and the vertex indices of the loop triangles. *)
Record ClothMesh := mkClothMesh {
  vertices_co : list Vector3;
  pinned_values : list Z;
  loop_triangles : list (nat * nat * nat) }.

Record VerletClothEdge := mkEdge {
  vertex0 : nat;
  vertex1 : nat;
  length_sqr : Q;
  weight0 : Q;
  compression_weight : Q }.

(** [np.array(values) != 0] *)
Definition pinned_array (mesh : ClothMesh) : list bool :=
  (λ v, negb (v =? 0)%Z) <$> pinned_values mesh.

(** [np.sum(pinned)] *)
Definition num_pinned (pinned : list bool) : nat :=
  length (filter (λ b, b = true) pinned).

(** *** Vertex reindexing *)

Record ReindexState := mkReindex {
  cloth_pin_index : nat;
  cloth_unpin_index : nat;
  mesh_to_cloth_vertex_map : list (option nat);
  cloth_to_mesh_vertex_map : list (option nat);
  vertices : list (option Vector3) }.

(** [pinned[i]] *)
Definition pinned_at (pinned : list bool) (i : nat) : option bool := pinned !! i.

(** One iteration of [for v in cloth_mesh.vertices]. *)
Definition reindex_step (pinned : list bool) (st : ReindexState) (v : nat * Vector3)
  : option ReindexState :=
  pinned_at pinned v.1 ≫= λ p : bool,
  let vi := if p then cloth_pin_index st else cloth_unpin_index st in
  vs ← setitem (vertices st) vi (Some v.2);
  m2c ← setitem (mesh_to_cloth_vertex_map st) v.1 (Some vi);
  c2m ← setitem (cloth_to_mesh_vertex_map st) vi (Some v.1);
  Some (mkReindex (if p then S (cloth_pin_index st) else cloth_pin_index st)
                  (if p then cloth_unpin_index st else S (cloth_unpin_index st))
                  m2c c2m vs).

Definition reindex_vertices (mesh : ClothMesh) : option ReindexState :=
  let num_vertices := length (vertices_co mesh) in
  let pinned := pinned_array mesh in
  fold_leftM (reindex_step pinned) (enumerate (vertices_co mesh))
    (mkReindex 0 (num_pinned pinned)
               (replicate num_vertices None) (replicate num_vertices None)
               (replicate num_vertices None)).

(** The spec's example: five vertices, vertices 1 and 3 pinned. *)
Definition point (x : Q) : Vector3 := mkV3 x 0 0.

Definition five_vertex_mesh : ClothMesh :=
  mkClothMesh [point 0; point 1; point 2; point 3; point 4] [0; 1; 0; 1; 0]%Z
              [(0, 1, 2); (2, 1, 3); (2, 3, 4)].

Example five_vertex_reindex :
  (λ st, (mesh_to_cloth_vertex_map st, cloth_to_mesh_vertex_map st))
    <$> reindex_vertices five_vertex_mesh
  = Some (Some <$> [2; 0; 3; 1; 4], Some <$> [1; 3; 0; 2; 4]).
Proof. reflexivity. Qed.

(** *** Counting the indices below a bound that satisfy a predicate *)

Section index_filter.
Context (P : nat → Prop) `{!∀ i, Decision (P i)}.

Definition below (m : nat) : list nat := filter P (seq 0 m).

Lemma below_S m : below (S m) = below m ++ (if decide (P m) then [m] else []).
Proof.
  unfold below. by rewrite seq_S, filter_app.
Qed.

Lemma below_le m m' : m ≤ m' → ∃ rest, below m' = below m ++ rest.
Proof.
  intros Hle. unfold below. replace m' with (m + (m' - m)) by lia.
  rewrite seq_app, filter_app. eauto.
Qed.

Lemma below_split i n :
  P i → i < n → ∃ rest, below n = below i ++ i :: rest.
Proof.
  intros Hi Hlt. destruct (below_le (S i) n) as [rest Hrest]; [lia|].
  exists rest. rewrite Hrest, below_S, decide_True by done.
  by rewrite <- app_assoc.
Qed.

Lemma below_length_le m m' : m ≤ m' → length (below m) ≤ length (below m').
Proof.
  intros Hle. destruct (below_le m m' Hle) as [rest ->]. rewrite length_app. lia.
Qed.

Lemma below_length_lt i n : P i → i < n → length (below i) < length (below n).
Proof.
  intros Hi Hlt. destruct (below_split i n Hi Hlt) as [rest ->].
  rewrite length_app. simpl. lia.
Qed.

Lemma below_NoDup m : NoDup (below m).
Proof. apply NoDup_filter, NoDup_seq. Qed.

Lemma below_elem i m : i ∈ below m ↔ P i ∧ i < m.
Proof.
  unfold below. rewrite list_elem_of_filter, elem_of_seq. intuition lia.
Qed.

(** The position of [i] among the indices that satisfy [P]. *)
Lemma below_lookup_rank i n : P i → i < n → below n !! length (below i) = Some i.
Proof.
  intros Hi Hlt. destruct (below_split i n Hi Hlt) as [rest ->].
  by apply list_lookup_middle.
Qed.

Lemma below_lookup_inv j i n : below n !! j = Some i → length (below i) = j.
Proof.
  intros Hj. assert (P i ∧ i < n) as [Hi Hlt].
  { apply below_elem. by eapply list_elem_of_lookup_2. }
  pose proof (below_lookup_rank i n Hi Hlt) as Hr.
  eapply NoDup_lookup; [apply (below_NoDup n)|done..].
Qed.

End index_filter.

Lemma below_complement (P Q : nat → Prop) `{!∀ i, Decision (P i), !∀ i, Decision (Q i)} m :
  (∀ i, i < m → (P i ∧ ¬ Q i) ∨ (Q i ∧ ¬ P i)) →
  length (below P m) + length (below Q m) = m.
Proof.
  induction m as [|m IH]; intros Hm; [done|].
  rewrite !below_S, !length_app.
  specialize (IH ltac:(intros; apply Hm; lia)).
  destruct (Hm m ltac:(lia)) as [[? ?]|[? ?]].
  - rewrite decide_True, decide_False by done. simpl. lia.
  - rewrite decide_False, decide_True by done. simpl. lia.
Qed.

(** *** The reindexing as index lists *)

Definition pinned_indices (pinned : list bool) (m : nat) : list nat :=
  below (λ i, pinned !! i = Some true) m.

Definition unpinned_indices (pinned : list bool) (m : nat) : list nat :=
  below (λ i, pinned !! i = Some false) m.

(** The cloth index the loop gives mesh vertex [i]. *)
Definition cloth_index (pinned : list bool) (i : nat) : nat :=
  if decide (pinned !! i = Some true)
  then length (pinned_indices pinned i)
  else length (pinned_indices pinned (length pinned)) + length (unpinned_indices pinned i).

Lemma num_pinned_indices pinned :
  num_pinned pinned = length (pinned_indices pinned (length pinned)).
Proof.
  unfold num_pinned, pinned_indices, below.
  rewrite <- (enumerate_snd pinned) at 1. rewrite <- (enumerate_fst pinned).
  rewrite !filter_fmap, !length_fmap. f_equal.
  apply filter_ext_elem. intros [i b] Hx. apply enumerate_lookup in Hx.
  simpl in *. rewrite Hx. split; congruence.
Qed.

Lemma insert_first_None {A} (pre : list (option A)) r rest x :
  <[length pre := x]> (pre ++ replicate (S r) None ++ rest)
  = (pre ++ [x]) ++ replicate r None ++ rest.
Proof.
  rewrite insert_app_r_alt by lia. rewrite Nat.sub_diag. simpl.
  by rewrite <- app_assoc.
Qed.

Section reindex.
Context (pinned : list bool) (cos : list Vector3).
Hypothesis Hlen : length pinned = length cos.

Local Abbreviation n := (length cos).
Local Abbreviation P := (pinned_indices pinned).
Local Abbreviation U := (unpinned_indices pinned).
Local Abbreviation k := (length (pinned_indices pinned (length cos))).

(** [vertices[vi]] holds the coordinates of mesh vertex
    [cloth_to_mesh_vertex_map[vi]]. *)
Definition co_of (o : option nat) : option Vector3 := i ← o; cos !! i.

Record reindex_inv (m : nat) (st : ReindexState) : Prop := {
  ri_pin : cloth_pin_index st = length (P m);
  ri_unpin : cloth_unpin_index st = k + length (U m);
  ri_m2c : mesh_to_cloth_vertex_map st
           = ((λ i, Some (cloth_index pinned i)) <$> seq 0 m) ++ replicate (n - m) None;
  ri_c2m : cloth_to_mesh_vertex_map st
           = (Some <$> P m) ++ replicate (k - length (P m)) None
             ++ (Some <$> U m) ++ replicate (n - k - length (U m)) None;
  ri_vs : vertices st = co_of <$> cloth_to_mesh_vertex_map st }.

Lemma pinned_cases i : i < n → pinned !! i = Some true ∨ pinned !! i = Some false.
Proof.
  intros Hi. destruct (lookup_lt_is_Some_2 pinned i) as [[] ->]; [lia|auto..].
Qed.

Lemma pinned_unpinned_length m : m ≤ n → length (P m) + length (U m) = m.
Proof.
  intros Hm. apply below_complement. intros i Hi.
  destruct (pinned_cases i) as [->| ->]; [lia|left|right]; split; congruence.
Qed.

Lemma pinned_length_le m : m ≤ n → length (P m) ≤ k.
Proof. apply below_length_le. Qed.

Lemma unpinned_length_le m : m ≤ n → k + length (U m) ≤ n.
Proof.
  intros Hm. pose proof (pinned_unpinned_length n ltac:(lia)).
  pose proof (below_length_le (λ i, pinned !! i = Some false) m n Hm).
  unfold unpinned_indices in *. lia.
Qed.

Lemma reindex_inv_length m st :
  m ≤ n → reindex_inv m st →
  length (mesh_to_cloth_vertex_map st) = n ∧
  length (cloth_to_mesh_vertex_map st) = n ∧ length (vertices st) = n.
Proof.
  intros Hm [_ _ Hm2c Hc2m Hvs].
  pose proof (pinned_length_le m Hm). pose proof (unpinned_length_le m Hm).
  assert (length (cloth_to_mesh_vertex_map st) = n) as Hc.
  { rewrite Hc2m, !length_app, !length_fmap, !length_replicate. lia. }
  split_and!; [|done|by rewrite Hvs, length_fmap].
  rewrite Hm2c, length_app, length_fmap, length_seq, length_replicate. lia.
Qed.

Lemma reindex_step_inv m st co :
  reindex_inv m st → cos !! m = Some co →
  ∃ st', reindex_step pinned st (m, co) = Some st' ∧ reindex_inv (S m) st'.
Proof.
  intros Hinv Hco.
  assert (m < n) as Hm by (by eapply lookup_lt_Some).
  destruct (reindex_inv_length m st ltac:(lia) Hinv) as (Lm2c & Lc2m & Lvs).
  destruct Hinv as [Hpin Hunpin Hm2c Hc2m Hvs].
  pose proof (pinned_length_le (S m) Hm) as HP.
  pose proof (unpinned_length_le (S m) Hm) as HU.
  unfold reindex_step, pinned_at. cbn [fst snd].
  assert (<[m := Some (cloth_index pinned m)]> (mesh_to_cloth_vertex_map st)
          = ((λ i, Some (cloth_index pinned i)) <$> seq 0 (S m))
            ++ replicate (n - S m) None) as Hm2c'.
  { rewrite Hm2c. replace (n - m) with (S (n - S m)) by lia.
    rewrite <- (app_nil_r (replicate _ _)).
    replace m with (length ((λ i, Some (cloth_index pinned i)) <$> seq 0 m)) at 1
      by (by rewrite length_fmap, length_seq).
    rewrite insert_first_None, app_nil_r. by rewrite seq_S, fmap_app. }
  destruct (pinned_cases m Hm) as [Hp|Hp]; rewrite Hp; cbn [mbind option_bind].
  - assert (P (S m) = P m ++ [m]) as HPS
      by (unfold pinned_indices; by rewrite below_S, decide_True).
    assert (U (S m) = U m) as HUS.
    { unfold unpinned_indices. rewrite below_S, decide_False, app_nil_r; [done|congruence]. }
    rewrite HPS, length_app in HP. simpl in HP.
    rewrite !setitem_Some by lia. cbn [mbind option_bind].
    eexists. split; [reflexivity|].
    assert (cloth_index pinned m = cloth_pin_index st) as Hci
      by (unfold cloth_index; by rewrite decide_True, Hpin).
    split; cbn [cloth_pin_index cloth_unpin_index mesh_to_cloth_vertex_map
                cloth_to_mesh_vertex_map vertices].
    + rewrite HPS, length_app. simpl. lia.
    + by rewrite HUS.
    + by rewrite <- Hci.
    + rewrite Hc2m, Hpin, HPS, HUS, length_app. simpl.
      replace (length (P m)) with (length (Some <$> P m)) at 1 by apply length_fmap.
      replace (k - length (P m)) with (S (k - (length (P m) + 1))) by lia.
      by rewrite insert_first_None, fmap_app.
    + rewrite Hvs, list_fmap_insert. simpl. by rewrite Hco.
  - assert (U (S m) = U m ++ [m]) as HUS
      by (unfold unpinned_indices; by rewrite below_S, decide_True).
    assert (P (S m) = P m) as HPS.
    { unfold pinned_indices. rewrite below_S, decide_False, app_nil_r; [done|congruence]. }
    rewrite HUS, length_app in HU. simpl in HU.
    rewrite !setitem_Some by lia. cbn [mbind option_bind].
    eexists. split; [reflexivity|].
    assert (cloth_index pinned m = cloth_unpin_index st) as Hci.
    { unfold cloth_index. rewrite decide_False, Hunpin, Hlen; [done|congruence]. }
    split; cbn [cloth_pin_index cloth_unpin_index mesh_to_cloth_vertex_map
                cloth_to_mesh_vertex_map vertices].
    + by rewrite HPS.
    + rewrite HUS, length_app. simpl. lia.
    + by rewrite <- Hci.
    + rewrite Hc2m, Hunpin, HPS, HUS, length_app. simpl.
      pose proof (pinned_length_le m ltac:(lia)).
      rewrite !app_assoc.
      replace (k + length (U m))
        with (length (((Some <$> P m) ++ replicate (k - length (P m)) None) ++ (Some <$> U m)))
        by (rewrite !length_app, !length_fmap, length_replicate; lia).
      replace (n - k - length (U m)) with (S (n - k - (length (U m) + 1))) by lia.
      rewrite <- (app_nil_r (replicate (S _) _)), <- app_assoc.
      rewrite insert_first_None, !app_nil_r. by rewrite fmap_app, !app_assoc.
    + rewrite Hvs, list_fmap_insert. simpl. by rewrite Hco.
Qed.

Lemma reindex_loop_inv m :
  m ≤ n →
  ∃ st,
    fold_leftM (reindex_step pinned) (take m (enumerate cos))
      (mkReindex 0 (num_pinned pinned) (replicate n None) (replicate n None)
                 (replicate n None)) = Some st ∧
    reindex_inv m st.
Proof.
  induction m as [|m IH]; intros Hm.
  - eexists. split; [reflexivity|].
    split; cbn [cloth_pin_index cloth_unpin_index mesh_to_cloth_vertex_map
                cloth_to_mesh_vertex_map vertices].
    + done.
    + rewrite num_pinned_indices, Hlen. simpl. lia.
    + simpl. by rewrite Nat.sub_0_r.
    + simpl. rewrite !Nat.sub_0_r, <- replicate_add. f_equal.
      pose proof (pinned_length_le n ltac:(lia)).
      pose proof (unpinned_length_le n ltac:(lia)). lia.
    + by rewrite fmap_replicate.
  - destruct IH as (st & Hrun & Hinv); [lia|].
    destruct (lookup_lt_is_Some_2 cos m) as [co Hco]; [lia|].
    destruct (reindex_step_inv m st co Hinv Hco) as (st' & Hstep & Hinv').
    exists st'. split; [|done].
    rewrite (take_S_r _ _ (m, co)) by (by apply enumerate_lookup_Some).
    rewrite fold_leftM_app, Hrun. simpl. by rewrite Hstep.
Qed.

(** The loop, run to the end. *)
Lemma reindex_loop_final :
  fold_leftM (reindex_step pinned) (enumerate cos)
    (mkReindex 0 (num_pinned pinned) (replicate n None) (replicate n None)
               (replicate n None))
  = Some (mkReindex k n
            (Some <$> (cloth_index pinned <$> seq 0 n))
            (Some <$> (P n ++ U n))
            (Some <$> ((λ i, default (mkV3 0 0 0) (cos !! i)) <$> (P n ++ U n)))).
Proof.
  destruct (reindex_loop_inv n) as (st & Hrun & [Hpin Hunpin Hm2c Hc2m Hvs]); [done|].
  rewrite take_ge in Hrun by (by rewrite enumerate_length).
  rewrite Hrun. f_equal.
  pose proof (pinned_unpinned_length n ltac:(lia)) as Hsum.
  destruct st as [pin unpin m2c c2m vs]. simpl in *.
  assert (c2m = Some <$> (P n ++ U n)) as Hc.
  { rewrite Hc2m, Nat.sub_diag. replace (n - k - length (U n)) with 0 by lia.
    simpl. by rewrite app_nil_r, fmap_app. }
  f_equal.
  - done.
  - lia.
  - rewrite Hm2c, Nat.sub_diag. simpl. by rewrite app_nil_r, <- list_fmap_compose.
  - done.
  - rewrite Hvs, Hc, <- !list_fmap_compose. apply list_fmap_ext.
    intros j i Hi. simpl.
    assert (i < n) as Hin.
    { apply list_elem_of_lookup_2, elem_of_app in Hi.
      destruct Hi as [Hi|Hi]; apply below_elem in Hi; lia. }
    by destruct (lookup_lt_is_Some_2 cos i Hin) as [co ->].
Qed.

End reindex.

Section cloth_index.
Context (pinned : list bool).

Local Abbreviation n := (length pinned).
Local Abbreviation P := (pinned_indices pinned).
Local Abbreviation U := (unpinned_indices pinned).

Lemma cloth_index_lookup i :
  i < n → (P n ++ U n) !! cloth_index pinned i = Some i.
Proof.
  intros Hi. unfold cloth_index. case_decide as Hp.
  - rewrite lookup_app_l by (by apply below_length_lt).
    by apply below_lookup_rank.
  - assert (pinned !! i = Some false) as Hf.
    { destruct (lookup_lt_is_Some_2 pinned i Hi) as [[] Hb]; congruence. }
    rewrite lookup_app_r by lia.
    replace (length (P n) + length (U i) - length (P n)) with (length (U i)) by lia.
    by apply below_lookup_rank.
Qed.

Lemma cloth_index_inv j i :
  (P n ++ U n) !! j = Some i → i < n ∧ cloth_index pinned i = j.
Proof.
  intros Hj. apply lookup_app_Some in Hj as [Hj|[Hge Hj]].
  - pose proof (below_lookup_inv _ _ _ _ Hj) as <-.
    apply list_elem_of_lookup_2, below_elem in Hj as [Hp Hi].
    split; [done|]. unfold cloth_index. by rewrite decide_True.
  - pose proof (below_lookup_inv _ _ _ _ Hj) as Hr.
    apply list_elem_of_lookup_2, below_elem in Hj as [Hp Hi].
    split; [done|]. unfold cloth_index. rewrite decide_False by congruence.
    unfold unpinned_indices. lia.
Qed.

Lemma cloth_index_pinned i :
  i < n → (pinned !! i = Some true ↔ cloth_index pinned i < length (P n)).
Proof.
  intros Hi. unfold cloth_index. case_decide as Hp.
  - split; [|done]. intros _. by apply below_length_lt.
  - split; [done|lia].
Qed.

Lemma cloth_index_mono i1 i2 :
  i1 < i2 → i2 < n → pinned !! i1 = pinned !! i2 →
  cloth_index pinned i1 < cloth_index pinned i2.
Proof.
  intros H12 H2 Heq. unfold cloth_index. rewrite Heq. case_decide as Hp.
  - apply below_length_lt; [congruence|done].
  - assert (pinned !! i1 = Some false) as Hf.
    { destruct (lookup_lt_is_Some_2 pinned i1 ltac:(lia)) as [[] Hb]; congruence. }
    apply Nat.add_lt_mono_l. by apply below_length_lt.
Qed.

End cloth_index.

(** C7.  For a mesh with [n] vertices, each with a PINNED value, of which
    [k] are pinned, the reindexing loop returns normally;
    [cloth_to_mesh_vertex_map] lists the pinned mesh vertices in ascending
    order followed by the unpinned ones in ascending order, so the pinned
    vertices get the cloth indices [0, k) and the unpinned ones [k, n), each
    in their mesh order; the two maps are inverse to each other on [0, n);
    and [vertices[j]] is the coordinate of mesh vertex
    [cloth_to_mesh_vertex_map[j]]. *)
Theorem reindex_vertices_partition mesh :
  length (pinned_values mesh) = length (vertices_co mesh) →
  let n := length (vertices_co mesh) in
  let pinned := pinned_array mesh in
  let k := num_pinned pinned in
  ∃ m2c c2m vs,
    reindex_vertices mesh
      = Some (mkReindex k n (Some <$> m2c) (Some <$> c2m) (Some <$> vs)) ∧
    length m2c = n ∧ length c2m = n ∧
    c2m = pinned_indices pinned n ++ unpinned_indices pinned n ∧
    length (pinned_indices pinned n) = k ∧
    (∀ i, i < n →
       ∃ j, m2c !! i = Some j ∧ j < n ∧ c2m !! j = Some i ∧
            (pinned !! i = Some true ↔ j < k)) ∧
    (∀ j, j < n → ∃ i, c2m !! j = Some i ∧ i < n ∧ m2c !! i = Some j) ∧
    (∀ i1 i2 j1 j2, i1 < i2 → pinned !! i1 = pinned !! i2 →
       m2c !! i1 = Some j1 → m2c !! i2 = Some j2 → j1 < j2) ∧
    (∀ j i, c2m !! j = Some i → vs !! j = vertices_co mesh !! i).
Proof.
  intros Hvals n pinned k.
  assert (length pinned = n) as Hlen
    by (unfold pinned, pinned_array; by rewrite length_fmap).
  assert (k = length (pinned_indices pinned n)) as Hk
    by (unfold k; by rewrite num_pinned_indices, Hlen).
  pose proof (reindex_loop_final pinned (vertices_co mesh) Hlen) as Hrun.
  fold n in Hrun. rewrite <- Hk in Hrun.
  set (c2m := pinned_indices pinned n ++ unpinned_indices pinned n) in *.
  set (m2c := cloth_index pinned <$> seq 0 n) in *.
  assert (length c2m = n) as Hlc.
  { unfold c2m. rewrite length_app.
    by apply (pinned_unpinned_length pinned (vertices_co mesh) Hlen n). }
  assert (∀ i, i < n → m2c !! i = Some (cloth_index pinned i)) as Hm2c.
  { intros i Hi. unfold m2c. by rewrite list_lookup_fmap, lookup_seq_lt. }
  exists m2c, c2m. eexists. split; [exact Hrun|].
  split_and!; [by unfold m2c; rewrite length_fmap, length_seq|done|done|done|..].
  - intros i Hi. exists (cloth_index pinned i).
    pose proof (cloth_index_lookup pinned i) as Hl. rewrite Hlen in Hl.
    specialize (Hl Hi). change (c2m !! cloth_index pinned i = Some i) in Hl.
    split_and!; [by apply Hm2c| |done|].
    + apply lookup_lt_Some in Hl. by rewrite Hlc in Hl.
    + pose proof (cloth_index_pinned pinned i) as Hp. rewrite Hlen in Hp.
      rewrite Hk. by apply Hp.
  - intros j Hj. destruct (lookup_lt_is_Some_2 c2m j) as [i Hi]; [lia|].
    exists i. pose proof (cloth_index_inv pinned j i) as Hinv. rewrite Hlen in Hinv.
    destruct (Hinv Hi) as [Hin <-]. split_and!; [done|done|by apply Hm2c].
  - intros i1 i2 j1 j2 H12 Heq H1 H2.
    assert (i2 < n) as Hi2.
    { apply lookup_lt_Some in H2. unfold m2c in H2.
      by rewrite length_fmap, length_seq in H2. }
    rewrite Hm2c in H1, H2 by lia. simplify_eq.
    apply cloth_index_mono; [done|by rewrite Hlen|done].
  - intros j i Hi. rewrite list_lookup_fmap, Hi. simpl.
    pose proof (cloth_index_inv pinned j i) as Hinv. rewrite Hlen in Hinv.
    destruct (Hinv Hi) as [Hin _].
    by destruct (lookup_lt_is_Some_2 (vertices_co mesh) i Hin) as [co ->].
Qed.

Lemma reindex_vertices_partition_witness :
  ∃ m2c c2m vs,
    reindex_vertices five_vertex_mesh
      = Some (mkReindex 2 5 (Some <$> m2c) (Some <$> c2m) (Some <$> vs)) ∧
    c2m = [1; 3; 0; 2; 4].
Proof.
  destruct (reindex_vertices_partition five_vertex_mesh)
    as (m2c & c2m & vs & Hrun & _ & _ & Hc2m & _).
  - reflexivity.
  - exists m2c, c2m, vs. split; [exact Hrun|exact Hc2m].
Defined.

(** *** Edge construction *)

(** [((v0, v1), (v1, v2), (v2, v0))] *)
Definition sides (tri : nat * nat * nat) : list (nat * nat) :=
  let '(v0, v1, v2) := tri in [(v0, v1); (v1, v2); (v2, v0)].

Definition vsub (a b : Vector3) : Vector3 :=
  mkV3 (vx a - vx b) (vy a - vy b) (vz a - vz b).

(** [Vector.length_squared] *)
Definition length_squared (v : Vector3) : Q :=
  (vx v * vx v + vy v * vy v + vz v * vz v)%Q.

(** One iteration of the inner loop over the sides of a triangle; the state
    is [(edges, edges_added)]. *)
Definition edge_step (pinned : list bool) (m2c : list (option nat))
    (vs : list (option Vector3))
    (st : list VerletClothEdge * list (nat * nat)) (e : nat * nat)
  : option (list VerletClothEdge * list (nat * nat)) :=
  if bool_decide ((e.1, e.2) ∈ st.2 ∨ (e.2, e.1) ∈ st.2) then Some st
  else
    pinned_at pinned e.1 ≫= λ p0 : bool,
    (if p0 then pinned_at pinned e.2 else Some false) ≫= λ both : bool,
    if both then Some st
    else
      v0 ← mjoin (m2c !! e.1);
      v1 ← mjoin (m2c !! e.2);
      c0 ← mjoin (vs !! v0);
      c1 ← mjoin (vs !! v1);
      (if p0 then Some 0%Q
       else pinned_at pinned e.2 ≫= λ p1 : bool, Some (if p1 then 1 else 1 / 2)%Q)
        ≫= λ w : Q,
      Some (st.1 ++ [mkEdge v0 v1 (length_squared (vsub c0 c1)) w (1 / 4)%Q],
            st.2 ++ [(e.1, e.2)]).

(** [edges] and [edges_added] after the loop over the triangles. *)
Definition edge_loop (mesh : ClothMesh) (st : ReindexState)
  : option (list VerletClothEdge * list (nat * nat)) :=
  fold_leftM
    (edge_step (pinned_array mesh) (mesh_to_cloth_vertex_map st) (vertices st))
    (concat (sides <$> loop_triangles mesh)) ([], []).

(** The reindexing followed by the edge loop. *)
Definition build_edges (mesh : ClothMesh)
  : option (list VerletClothEdge * list (nat * nat)) :=
  st ← reindex_vertices mesh; edge_loop mesh st.

(** The rest position of mesh vertex [i]. *)
Definition rest_position (mesh : ClothMesh) (i : nat) : Vector3 :=
  default (mkV3 0 0 0) (vertices_co mesh !! i).

Definition is_pinned (mesh : ClothMesh) (i : nat) : bool :=
  default false (pinned_array mesh !! i).

(** The edge the loop emits for the mesh vertex pair [(a, b)]. *)
Definition edge_for (mesh : ClothMesh) (ab : nat * nat) : VerletClothEdge :=
  mkEdge (cloth_index (pinned_array mesh) ab.1) (cloth_index (pinned_array mesh) ab.2)
         (length_squared (vsub (rest_position mesh ab.1) (rest_position mesh ab.2)))
         (if is_pinned mesh ab.1 then 0 else if is_pinned mesh ab.2 then 1 else 1 / 2)%Q
         (1 / 4)%Q.

Definition both_pinned (mesh : ClothMesh) (ab : nat * nat) : Prop :=
  is_pinned mesh ab.1 = true ∧ is_pinned mesh ab.2 = true.

(** A mesh whose attribute and triangles fit its vertices. *)
Definition well_formed (mesh : ClothMesh) : Prop :=
  length (pinned_values mesh) = length (vertices_co mesh) ∧
  ∀ ab, ab ∈ concat (sides <$> loop_triangles mesh) →
        ab.1 < length (vertices_co mesh) ∧ ab.2 < length (vertices_co mesh).

Example five_vertex_edges :
  build_edges five_vertex_mesh
  = Some (edge_for five_vertex_mesh <$> [(0, 1); (1, 2); (2, 0); (3, 2); (3, 4); (4, 2)],
          [(0, 1); (1, 2); (2, 0); (3, 2); (3, 4); (4, 2)]).
Proof. reflexivity. Qed.

(** What one iteration does to [edges_added]. *)
Definition emit (mesh : ClothMesh) (added : list (nat * nat)) (ab : nat * nat)
  : list (nat * nat) :=
  if decide ((ab.1, ab.2) ∈ added ∨ (ab.2, ab.1) ∈ added) then added
  else if decide (both_pinned mesh ab) then added
  else added ++ [(ab.1, ab.2)].

Section edges.
Context (mesh : ClothMesh).
Hypothesis Hlen : length (pinned_values mesh) = length (vertices_co mesh).

Local Abbreviation n := (length (vertices_co mesh)).
Local Abbreviation pinned := (pinned_array mesh).
Local Abbreviation c2m := (pinned_indices pinned n ++ unpinned_indices pinned n).
Local Abbreviation m2c := (Some <$> (cloth_index pinned <$> seq 0 n)).
Local Abbreviation vs := (Some <$> (rest_position mesh <$> c2m)).

Lemma pinned_array_length : length pinned = n.
Proof. unfold pinned_array. by rewrite length_fmap. Qed.

Lemma reindex_vertices_final :
  reindex_vertices mesh
  = Some (mkReindex (length (pinned_indices pinned n)) n m2c (Some <$> c2m) vs).
Proof. apply reindex_loop_final, pinned_array_length. Qed.

Lemma pinned_at_lt i : i < n → pinned_at pinned i = Some (is_pinned mesh i).
Proof.
  intros Hi. unfold pinned_at, is_pinned.
  destruct (lookup_lt_is_Some_2 pinned i) as [b ->]; [|done].
  by rewrite pinned_array_length.
Qed.

Lemma m2c_lookup i : i < n → mjoin (m2c !! i) = Some (cloth_index pinned i).
Proof.
  intros Hi. by rewrite !list_lookup_fmap, lookup_seq_lt.
Qed.

Lemma vs_lookup i :
  i < n → mjoin (vs !! cloth_index pinned i) = Some (rest_position mesh i).
Proof.
  intros Hi. rewrite !list_lookup_fmap.
  pose proof (cloth_index_lookup pinned i) as Hl.
  rewrite pinned_array_length in Hl. by rewrite (Hl Hi).
Qed.

(** One iteration, on a state whose edges are those of [edges_added]. *)
Lemma edge_step_emit added ab :
  ab.1 < n → ab.2 < n →
  edge_step pinned m2c vs (edge_for mesh <$> added, added) ab
  = Some (edge_for mesh <$> emit mesh added ab, emit mesh added ab).
Proof.
  intros Ha Hb. unfold edge_step, emit. cbn [fst snd].
  destruct (decide ((ab.1, ab.2) ∈ added ∨ (ab.2, ab.1) ∈ added)) as [Hin|Hin].
  - by rewrite bool_decide_eq_true_2.
  - rewrite bool_decide_eq_false_2 by done.
    rewrite !pinned_at_lt by done. cbn [mbind option_bind].
    unfold both_pinned.
    destruct (is_pinned mesh ab.1) eqn:Hp0; cbn [mbind option_bind].
    + destruct (is_pinned mesh ab.2) eqn:Hp1.
      * by rewrite decide_True.
      * rewrite decide_False by (intros [_ ?]; done).
        rewrite !m2c_lookup by done. cbn [mbind option_bind].
        rewrite !vs_lookup by done. cbn [mbind option_bind].
        rewrite fmap_app. unfold edge_for at 3. cbn [fst snd fmap list_fmap].
        by rewrite Hp0.
    + rewrite decide_False by (intros [? _]; done).
      rewrite !m2c_lookup by done. cbn [mbind option_bind].
      rewrite !vs_lookup by done. cbn [mbind option_bind].
      rewrite fmap_app. unfold edge_for at 3. cbn [fst snd fmap list_fmap].
      by rewrite Hp0.
Qed.

Lemma edge_loop_emit cands added :
  (∀ ab, ab ∈ cands → ab.1 < n ∧ ab.2 < n) →
  fold_leftM (edge_step pinned m2c vs) cands (edge_for mesh <$> added, added)
  = Some (edge_for mesh <$> fold_left (emit mesh) cands added,
          fold_left (emit mesh) cands added).
Proof.
  revert added. induction cands as [|ab cands IH]; intros added Hc; [done|].
  cbn [fold_leftM fold_left].
  destruct (Hc ab) as [Ha Hb]; [by left|].
  rewrite edge_step_emit by done. cbn [mbind option_bind].
  apply IH. intros; apply Hc; by right.
Qed.

End edges.

(** The pairs emitted for a list of candidate sides. *)
Record emitted_ok (mesh : ClothMesh) (cands added : list (nat * nat)) : Prop := {
  em_from : ∀ ab, ab ∈ added → ab ∈ cands;
  em_unpinned : ∀ ab, ab ∈ added → ¬ both_pinned mesh ab;
  em_nodup : NoDup added;
  em_once : ∀ a b, (a, b) ∈ added → (b, a) ∈ added → a = b;
  em_all : ∀ ab, ab ∈ cands → ¬ both_pinned mesh ab →
                 (ab.1, ab.2) ∈ added ∨ (ab.2, ab.1) ∈ added;
  em_length : length added ≤ length cands }.

Lemma emit_ok mesh cands :
  emitted_ok mesh cands (fold_left (emit mesh) cands []).
Proof.
  induction cands as [|[a b] cands [Hfrom Hunp Hnd Honce Hall Hlen]] using rev_ind.
  - split; simpl; try done; try (by intros ? ?%elem_of_nil).
    + constructor.
    + by intros ?? ?%elem_of_nil.
  - rewrite fold_left_app. cbn [fold_left].
    set (added := fold_left (emit mesh) cands []) in *.
    assert (∀ ab, ab ∈ cands ++ [(a, b)] ↔ ab ∈ cands ∨ ab = (a, b)) as Hsnoc.
    { intros ab. by rewrite elem_of_app, list_elem_of_singleton. }
    unfold emit. cbn [fst snd].
    destruct (decide ((a, b) ∈ added ∨ (b, a) ∈ added)) as [Hin|Hin];
      [|destruct (decide (both_pinned mesh (a, b))) as [Hbp|Hbp]].
    + split; try done.
      * intros ab ?. apply Hsnoc. auto.
      * intros ab [?| ->]%Hsnoc Hn; [auto|done].
      * rewrite length_app. simpl. lia.
    + split; try done.
      * intros ab ?. apply Hsnoc. auto.
      * intros ab [?| ->]%Hsnoc Hn; [auto|done].
      * rewrite length_app. simpl. lia.
    + assert (∀ ab, ab ∈ added ++ [(a, b)] ↔ ab ∈ added ∨ ab = (a, b)) as Hadd.
      { intros ab. by rewrite elem_of_app, list_elem_of_singleton. }
      split.
      * intros ab [?| ->]%Hadd; apply Hsnoc; auto.
      * intros ab [?| ->]%Hadd; auto.
      * apply NoDup_app. split_and!; [done| |apply NoDup_singleton].
        intros ab Hab ->%list_elem_of_singleton. tauto.
      * intros x y [Hxy|Hxy]%Hadd [Hyx|Hyx]%Hadd; simplify_eq; try tauto.
        by apply Honce.
      * intros ab [Hab| ->]%Hsnoc Hn.
        -- destruct (Hall ab Hab Hn); [left|right]; apply Hadd; by left.
        -- left. apply Hadd. by right.
      * rewrite !length_app. simpl. lia.
Qed.

Lemma sides_length (tris : list (nat * nat * nat)) :
  length (concat (sides <$> tris)) = 3 * length tris.
Proof.
  induction tris as [|[[v0 v1] v2] tris IH]; [done|].
  rewrite fmap_cons. simpl. rewrite IH. lia.
Qed.

Lemma elem_of_sides_concat (tris : list (nat * nat * nat)) ab :
  ab ∈ concat (sides <$> tris) ↔ ∃ tri, tri ∈ tris ∧ ab ∈ sides tri.
Proof.
  rewrite elem_of_concat. split.
  - intros (l & (tri & -> & ?)%list_elem_of_fmap & ?). by exists tri.
  - intros (tri & ? & ?). exists (sides tri). split; [|done].
    apply list_elem_of_fmap. by exists tri.
Qed.

(** The whole run on a well-formed mesh: the reindexing succeeds and the
    edge loop emits the pairs of [emit], in order. *)
Lemma build_edges_run mesh :
  well_formed mesh →
  build_edges mesh
  = Some (edge_for mesh <$> fold_left (emit mesh) (concat (sides <$> loop_triangles mesh)) [],
          fold_left (emit mesh) (concat (sides <$> loop_triangles mesh)) []).
Proof.
  intros [Hlen Htri]. unfold build_edges, edge_loop.
  rewrite (reindex_vertices_final mesh Hlen).
  cbn [mbind option_bind mesh_to_cloth_vertex_map vertices].
  by apply (edge_loop_emit mesh Hlen _ []).
Qed.

(** A triangle with a pinned corner next to the pinned pair (1, 3). *)
Example five_vertex_skips_pinned_pair :
  both_pinned five_vertex_mesh (1, 3) ∧
  (1, 3) ∈ sides (2, 1, 3) ∧
  (snd <$> build_edges five_vertex_mesh)
  = Some [(0, 1); (1, 2); (2, 0); (3, 2); (3, 4); (4, 2)].
Proof. split; [by split|]. split; [|reflexivity]. right. left. Qed.

(** C6.  On a mesh whose PINNED attribute and triangles fit its vertices,
    the edge loop returns normally.  Every emitted edge is a side of some
    triangle (so at most three per triangle); no unordered vertex pair is
    emitted twice; no emitted edge has both endpoints pinned; every side of
    every triangle whose endpoints are not both pinned is emitted in one of
    its two orientations; and the edge emitted for the mesh pair [(a, b)]
    joins the cloth indices of [a] and [b], stores the squared distance of
    their rest positions, the weight 0 if [a] is pinned, 1 if [b] is pinned
    and 1/2 otherwise, and the compression weight 1/4. *)
Theorem build_edges_deduplicated mesh :
  well_formed mesh →
  ∃ added,
    build_edges mesh = Some (edge_for mesh <$> added, added) ∧
    (∀ ab, ab ∈ added → ∃ tri, tri ∈ loop_triangles mesh ∧ ab ∈ sides tri) ∧
    length added ≤ 3 * length (loop_triangles mesh) ∧
    NoDup added ∧
    (∀ a b, (a, b) ∈ added → (b, a) ∈ added → a = b) ∧
    (∀ ab, ab ∈ added → ¬ both_pinned mesh ab) ∧
    (∀ tri ab, tri ∈ loop_triangles mesh → ab ∈ sides tri → ¬ both_pinned mesh ab →
       (ab.1, ab.2) ∈ added ∨ (ab.2, ab.1) ∈ added) ∧
    (∀ a b,
       let e := edge_for mesh (a, b) in
       vertex0 e = cloth_index (pinned_array mesh) a ∧
       vertex1 e = cloth_index (pinned_array mesh) b ∧
       length_sqr e = length_squared (vsub (rest_position mesh a) (rest_position mesh b)) ∧
       weight0 e = (if is_pinned mesh a then 0
                    else if is_pinned mesh b then 1 else 1 / 2)%Q ∧
       compression_weight e = (1 / 4)%Q).
Proof.
  intros Hwf.
  set (cands := concat (sides <$> loop_triangles mesh)).
  destruct (emit_ok mesh cands) as [Hfrom Hunp Hnd Honce Hall Hle].
  exists (fold_left (emit mesh) cands []). split_and!.
  - by apply build_edges_run.
  - intros ab Hab%Hfrom. by apply elem_of_sides_concat.
  - unfold cands in Hle. by rewrite sides_length in Hle.
  - done.
  - done.
  - done.
  - intros tri ab Htr Hab Hn. apply Hall; [|done].
    apply elem_of_sides_concat. by exists tri.
  - done.
Qed.

Lemma five_vertex_well_formed : well_formed five_vertex_mesh.
Proof.
  split; [reflexivity|]. intros ab Hab. simpl in Hab.
  repeat (apply elem_of_cons in Hab as [->|Hab]; [simpl; lia|]).
  by apply elem_of_nil in Hab.
Qed.

Lemma build_edges_deduplicated_witness :
  ∃ added,
    build_edges five_vertex_mesh = Some (edge_for five_vertex_mesh <$> added, added) ∧
    NoDup added.
Proof.
  destruct (build_edges_deduplicated five_vertex_mesh five_vertex_well_formed)
    as (added & Hrun & _ & _ & Hnd & _).
  exists added. split; [exact Hrun|exact Hnd].
Defined.

(** *** Sorting the edges into buckets *)

Definition MAX_EDGES_IN_BUCKET : nat := 8.

(** The test of the inner loop: the edges have a vertex index in common. *)
Definition shares_vertex (e x : VerletClothEdge) : bool :=
  (vertex0 e =? vertex0 x) || (vertex0 e =? vertex1 x) ||
  (vertex1 e =? vertex0 x) || (vertex1 e =? vertex1 x).

(** [can_add_to_bucket] after the loop over the edges of the bucket. *)
Definition can_add_to_bucket (e : VerletClothEdge) (bucket : list VerletClothEdge) : bool :=
  negb (existsb (shares_vertex e) bucket).

(** The bucket is not skipped and accepts the edge. *)
Definition fits (e : VerletClothEdge) (bucket : list VerletClothEdge) : bool :=
  negb (MAX_EDGES_IN_BUCKET <=? length bucket) && can_add_to_bucket e bucket.

(** The index at which the scan over the buckets breaks, if it does. *)
Fixpoint first_fit (e : VerletClothEdge) (buckets : list (list VerletClothEdge))
  : option nat :=
  match buckets with
  | [] => None
  | bucket :: rest => if fits e bucket then Some 0 else S <$> first_fit e rest
  end.

(** One iteration of [for e in edges]; the state is
    [(edge_buckets, last_bucket_index)]. *)
Definition place_edge (st : list (list VerletClothEdge) * Z) (e : VerletClothEdge)
  : list (list VerletClothEdge) * Z :=
  match first_fit e st.1 with
  | Some bucket_index =>
      (alter (λ bucket, bucket ++ [e]) bucket_index st.1,
       if (st.2 <? Z.of_nat bucket_index)%Z then Z.of_nat bucket_index else st.2)
  | None => st
  end.

Definition dummy_edge : VerletClothEdge := mkEdge 0 0 100000000 0 0.

(** [for i in range(MAX_EDGES_IN_BUCKET)]: [bucket[i]] or a dummy edge. *)
Definition pad (bucket : list VerletClothEdge) : list VerletClothEdge :=
  (λ i, default dummy_edge (bucket !! i)) <$> seq 0 MAX_EDGES_IN_BUCKET.

Definition initial_buckets (edges : list VerletClothEdge)
  : list (list VerletClothEdge) * Z :=
  (replicate (length edges * 4) [], (-1)%Z).

(** The state after the edges [placed] have been put into buckets. *)
Definition buckets_after (edges placed : list VerletClothEdge)
  : list (list VerletClothEdge) * Z :=
  fold_left place_edge placed (initial_buckets edges).

(** [new_edges] *)
Definition sort_edges (edges : list VerletClothEdge) : list VerletClothEdge :=
  let st := buckets_after edges edges in
  concat (pad <$> take (Z.to_nat (st.2 + 1)) st.1).

(** The two edges have no vertex index in common. *)
Definition disjoint_edges (x y : VerletClothEdge) : Prop :=
  vertex0 x ≠ vertex0 y ∧ vertex0 x ≠ vertex1 y ∧
  vertex1 x ≠ vertex0 y ∧ vertex1 x ≠ vertex1 y.

Definition conflict_free (bucket : list VerletClothEdge) : Prop :=
  ∀ i j x y, i ≠ j → bucket !! i = Some x → bucket !! j = Some y → disjoint_edges x y.

Definition sample_edge (a b : nat) : VerletClothEdge := mkEdge a b 1 (1 / 2) (1 / 4).

Example three_edges_sorted :
  sort_edges [sample_edge 1 2; sample_edge 2 3; sample_edge 3 4]
  = [sample_edge 1 2; sample_edge 3 4] ++ replicate 6 dummy_edge
    ++ [sample_edge 2 3] ++ replicate 7 dummy_edge.
Proof. reflexivity. Qed.

Lemma shares_vertex_sym e x : shares_vertex e x = shares_vertex x e.
Proof.
  unfold shares_vertex.
  rewrite (Nat.eqb_sym (vertex0 e) (vertex0 x)), (Nat.eqb_sym (vertex0 e) (vertex1 x)),
          (Nat.eqb_sym (vertex1 e) (vertex0 x)), (Nat.eqb_sym (vertex1 e) (vertex1 x)).
  repeat (destruct (_ =? _)); reflexivity.
Qed.

Lemma shares_vertex_false e x : shares_vertex e x = false ↔ disjoint_edges e x.
Proof.
  unfold shares_vertex, disjoint_edges.
  rewrite !orb_false_iff, !Nat.eqb_neq. tauto.
Qed.

Lemma can_add_to_bucket_true e bucket :
  can_add_to_bucket e bucket = true ↔ ∀ x, x ∈ bucket → disjoint_edges e x.
Proof.
  unfold can_add_to_bucket. rewrite negb_true_iff. split.
  - intros Hex x Hx. apply shares_vertex_false.
    destruct (shares_vertex e x) eqn:Hs; [|done].
    assert (existsb (shares_vertex e) bucket = true) as Ht; [|congruence].
    apply existsb_exists. exists x. split; [by apply list_elem_of_In|done].
  - intros Hall. destruct (existsb (shares_vertex e) bucket) eqn:Hex; [|done].
    apply existsb_exists in Hex as (x & Hx%list_elem_of_In & Hs).
    apply Hall, shares_vertex_false in Hx. congruence.
Qed.

(** A bucket takes the edge when it has fewer than 8 edges, none of which
    has a vertex in common with the edge. *)
Lemma fits_true e bucket :
  fits e bucket = true ↔
  length bucket < MAX_EDGES_IN_BUCKET ∧ ∀ x, x ∈ bucket → disjoint_edges e x.
Proof.
  unfold fits. rewrite andb_true_iff, negb_true_iff, Nat.leb_gt.
  by rewrite can_add_to_bucket_true.
Qed.


Lemma first_fit_Some e buckets i :
  first_fit e buckets = Some i →
  ∃ bucket, buckets !! i = Some bucket ∧ fits e bucket = true ∧
            ∀ j b, j < i → buckets !! j = Some b → fits e b = false.
Proof.
  revert i. induction buckets as [|b0 buckets IH]; intros i Hi; simpl in Hi; [done|].
  destruct (fits e b0) eqn:Hf.
  - simplify_eq. exists b0. split_and!; [done|done|]. intros; lia.
  - apply fmap_Some in Hi as (i' & Hi' & ->).
    destruct (IH i' Hi') as (b & Hb & Hfit & Hearlier).
    exists b. split_and!; [done|done|].
    intros [|j] b' Hj Hb'; simplify_eq/=; [done|]. eapply Hearlier; [|done]. lia.
Qed.

Lemma first_fit_app e l1 l2 :
  first_fit e (l1 ++ l2)
  = match first_fit e l1 with
    | Some i => Some i
    | None => (λ i, length l1 + i) <$> first_fit e l2
    end.
Proof.
  induction l1 as [|b l1 IH]; simpl.
  - by destruct (first_fit e l2).
  - destruct (fits e b); [done|]. rewrite IH.
    destruct (first_fit e l1); [done|]. by destruct (first_fit e l2).
Qed.

Lemma conflict_free_snoc bucket e :
  conflict_free bucket → (∀ x, x ∈ bucket → disjoint_edges e x) →
  conflict_free (bucket ++ [e]).
Proof.
  intros Hb He i j x y Hij Hi Hj.
  apply lookup_snoc_Some in Hi as [[Hi Hx]|[-> <-]];
    apply lookup_snoc_Some in Hj as [[Hj Hy]|[-> <-]].
  - by eapply Hb.
  - apply shares_vertex_false. rewrite shares_vertex_sym.
    apply shares_vertex_false, He. by eapply list_elem_of_lookup_2.
  - apply He. by eapply list_elem_of_lookup_2.
  - done.
Qed.

(** The buckets are the non-empty ones, [used], followed by empty ones. *)
Record bucket_inv (N : nat) (placed : list VerletClothEdge)
    (st : list (list VerletClothEdge) * Z) (used : list (list VerletClothEdge)) : Prop := {
  bi_buckets : st.1 = used ++ replicate (N - length used) [];
  bi_last : st.2 = (Z.of_nat (length used) - 1)%Z;
  bi_count : length used ≤ length placed;
  bi_perm : concat used ≡ₚ placed;
  bi_used : Forall (λ b, 0 < length b ≤ MAX_EDGES_IN_BUCKET ∧ conflict_free b) used }.

Lemma place_edge_inv N placed st used e :
  bucket_inv N placed st used → length placed < N →
  ∃ i bucket used',
    st.1 !! i = Some bucket ∧ fits e bucket = true ∧
    (∀ j b, j < i → st.1 !! j = Some b → fits e b = false) ∧
    (place_edge st e).1 = <[i := bucket ++ [e]]> st.1 ∧
    bucket_inv N (placed ++ [e]) (place_edge st e) used'.
Proof.
  destruct st as [buckets last]. intros [Hb Hl Hc Hp Hu] HN. cbn [fst snd] in *.
  assert (∃ r, N - length used = S r) as [r Hr] by (exists (N - length used - 1); lia).
  rewrite Hr in Hb. unfold place_edge. cbn [fst snd].
  destruct (first_fit e buckets) as [i|] eqn:Hfit.
  2:{ exfalso. rewrite Hb, first_fit_app in Hfit.
      destruct (first_fit e used); [done|]. simpl in Hfit. done. }
  destruct (first_fit_Some e buckets i Hfit) as (bucket & Hi & Hfits & Hearlier).
  exists i, bucket. rewrite (alter_lookup_insert _ _ _ _ Hi).
  apply fits_true in Hfits as Hfits'. destruct Hfits' as [Hlen Hdis].
  rewrite Hb, first_fit_app in Hfit.
  destruct (first_fit e used) as [i'|] eqn:Hused.
  - simplify_eq.
    assert (i < length used) as Hlt.
    { apply first_fit_Some in Hused as (? & ?%lookup_lt_Some & _). done. }
    rewrite lookup_app_l in Hi by done.
    exists (<[i := bucket ++ [e]]> used). split_and!; [by rewrite lookup_app_l|done|done|done|].
    split; cbn [fst snd].
    + rewrite length_insert, Hr. by rewrite insert_app_l.
    + rewrite length_insert. case_match eqn:Hcmp; [|done].
      apply Z.ltb_lt in Hcmp. lia.
    + rewrite length_insert, length_app. simpl. lia.
    + rewrite concat_insert_snoc by done. rewrite Hp. apply Permutation_cons_append.
    + apply Forall_insert; [done|]. rewrite length_app. simpl. split; [lia|].
      apply conflict_free_snoc; [|done].
      by eapply (Forall_lookup_1 _ _ _ _ Hu Hi).
  - simpl in Hfit. simplify_eq. rewrite Nat.add_0_r in *. cbn [replicate] in *.
    rewrite list_lookup_middle in Hi by done. simplify_eq.
    exists (used ++ [[e]]).
    split_and!; [by apply list_lookup_middle|done|done|done|].
    split; cbn [fst snd].
    + rewrite length_app. simpl. replace (N - (length used + 1)) with r by lia.
      rewrite insert_app_r_alt, Nat.sub_diag by lia. simpl. by rewrite <- app_assoc.
    + rewrite length_app. simpl. case_match eqn:Hcmp.
      * lia.
      * apply Z.ltb_ge in Hcmp. lia.
    + rewrite !length_app. simpl. lia.
    + rewrite concat_app. simpl. by rewrite Hp.
    + apply Forall_app. split; [done|]. constructor; [|done].
      simpl. split; [unfold MAX_EDGES_IN_BUCKET; lia|].
      intros [|i'] [|j'] x y Hij Hx Hy; simpl in *; done.
Qed.

Lemma buckets_after_snoc edges placed e :
  buckets_after edges (placed ++ [e]) = place_edge (buckets_after edges placed) e.
Proof. unfold buckets_after. by rewrite fold_left_app. Qed.

Lemma buckets_after_inv edges placed rest :
  edges = placed ++ rest →
  ∃ used, bucket_inv (length edges * 4) placed (buckets_after edges placed) used.
Proof.
  revert rest. induction placed as [|e placed IH] using rev_ind; intros rest Hsplit.
  - exists []. split; simpl; try done. by rewrite Nat.sub_0_r.
  - destruct (IH ([e] ++ rest)) as (used & Hinv); [by rewrite Hsplit, <- app_assoc|].
    destruct (place_edge_inv _ _ _ _ e Hinv) as (_ & _ & used' & _ & _ & _ & _ & Hinv').
    + rewrite Hsplit, !length_app. simpl. lia.
    + exists used'. by rewrite buckets_after_snoc.
Qed.

Lemma pad_short bucket :
  length bucket ≤ MAX_EDGES_IN_BUCKET →
  pad bucket = bucket ++ replicate (MAX_EDGES_IN_BUCKET - length bucket) dummy_edge.
Proof.
  intros Hlen. apply list_eq. intros i. unfold pad.
  rewrite list_lookup_fmap.
  destruct (decide (i < MAX_EDGES_IN_BUCKET)) as [Hi|Hi].
  - rewrite lookup_seq_lt by done. simpl.
    destruct (decide (i < length bucket)) as [Hb|Hb].
    + rewrite lookup_app_l by done.
      by destruct (lookup_lt_is_Some_2 bucket i Hb) as [x ->].
    + rewrite lookup_app_r, lookup_replicate_2 by lia.
      by rewrite lookup_ge_None_2 by lia.
  - rewrite lookup_seq_ge by lia. simpl. symmetry. apply lookup_ge_None_2.
    rewrite length_app, length_replicate. lia.
Qed.

Lemma pad_length bucket : length (pad bucket) = MAX_EDGES_IN_BUCKET.
Proof. unfold pad. by rewrite length_fmap, length_seq. Qed.

Lemma padded_length (used : list (list VerletClothEdge)) :
  length (concat (pad <$> used)) = MAX_EDGES_IN_BUCKET * length used.
Proof.
  induction used as [|b used IH]; [done|].
  rewrite fmap_cons. cbn [concat]. rewrite length_app, pad_length, IH. simpl. lia.
Qed.




(** *** The bridge arrays *)

(** The per-vertex attribute values that [mesh_get_cloth_attribute_values]
    returns for the three bridge attributes. *)
Record ClothAttributeValues := mkClothAttrs {
  pin_radius : list Q;
  vertex_weights : list Q;
  inflation_scale : list Q }.

Record Bridge := mkBridge {
  bridge_vertex_count_high : nat;
  pin_radius_high : list Q;
  vertex_weights_high : list Q;
  inflation_scale_high : list Q;
  pinnable_list : list Z }.

(** [[values[mi] for mi in cloth_to_mesh_vertex_map]] *)
Definition gather (values : list Q) (cloth_to_mesh : list (option nat)) : option (list Q) :=
  mapM (λ mi : option nat, mi ≫= λ i, values !! i) cloth_to_mesh.

(** [int(np.ceil(num_vertices / 32))] *)
Definition pinnable_size (num_vertices : nat) : nat :=
  Z.to_nat (Qceiling (inject_Z (Z.of_nat num_vertices) / 32)).

(** The bridge fields that [create_frag_env_cloth] fills from the mesh
    attributes, after the reindexing. *)
Definition create_bridge (mesh : ClothMesh) (attrs : ClothAttributeValues) : option Bridge :=
  st ← reindex_vertices mesh;
  let num_vertices := length (vertices_co mesh) in
  pr ← gather (pin_radius attrs) (cloth_to_mesh_vertex_map st);
  vw ← gather (vertex_weights attrs) (cloth_to_mesh_vertex_map st);
  sc ← gather (inflation_scale attrs) (cloth_to_mesh_vertex_map st);
  Some (mkBridge num_vertices pr vw sc (replicate (pinnable_size num_vertices) 0%Z)).

Definition five_vertex_attrs : ClothAttributeValues :=
  mkClothAttrs [10; 11; 12; 13; 14]%Q [20; 21; 22; 23; 24]%Q [30; 31; 32; 33; 34]%Q.

(** *** The display map *)

(** One entry of [np.allclose(a, b, atol=1e-3)], with the default
    [rtol = 1e-5]: [|a - b| <= atol + rtol * |b|]. *)
Definition close_entry (a b : Q) : bool :=
  Qle_bool (Qabs (a - b)) (1 / 1000 + 1 / 100000 * Qabs b).

Definition allclose (a b : Vector3) : bool :=
  close_entry (vx a) (vx b) && close_entry (vy a) (vy b) && close_entry (vz a) (vz b).

(** The inner loop: the index of the first cloth vertex close to the mesh
    vertex; the [assert] fails when there is none. *)
Definition matching_cloth_vertex (cloth_positions : list Vector3) (mesh_vertex : Vector3)
  : option nat :=
  fst <$> list_find (λ cloth_vertex, allclose mesh_vertex cloth_vertex = true) cloth_positions.

(** [bridge.display_map_high] for the vertex buffer positions of the cloth
    drawable model. *)
Definition display_map (mesh_positions cloth_positions : list Vector3) : option (list Z) :=
  mapM (λ mesh_vertex, Z.of_nat <$> matching_cloth_vertex cloth_positions mesh_vertex)
       mesh_positions.

(** *** The function as a whole *)

(** A cloth drawable model as [get_frag_env_cloth_mesh_objects] returns it,
    a mesh whose only material is a cloth material, so that
    [materials[0]] exists: its name; its evaluated mesh; the values of the
    three bridge attributes ([mesh_get_cloth_attribute_values]); for each
    geometry of the model XML that [create_model_xml] makes for it, the
    positions in its vertex buffer; the index of the bone it is attached to
    ([get_child_of_bone] and [get_bone_index]), [None] when it is not
    attached; and whether its parent is a drawable, [None] when it has no
    parent.  The helpers imported from modules that are not among the
    sources are taken to return. *)
Record ClothObject := mkClothObject {
  obj_name : string;
  obj_mesh : ClothMesh;
  obj_attrs : ClothAttributeValues;
  obj_geometries : list (list Vector3);
  obj_bone : option nat;
  obj_parent_is_drawable : option bool }.

(** What the function writes to the log. *)
Inductive Report :=
  | MultipleClothsWarning (used : string)
  | TooManyVerticesError (maximum num_vertices : nat)
  | NotAttachedToBoneError (name : string).

(** The fields of the [EnvironmentCloth] that are computed here;
    [display_map_high] is [bridge.display_map_high]. *)
Record EnvironmentCloth := mkEnvironmentCloth {
  vertex_count_high : nat;
  vertex_positions : list Vector3;
  bb_min : Vector3;
  bb_max : Vector3;
  edges : list VerletClothEdge;
  pinned_vertices_count : nat;
  bone_index : nat;
  bridge : Bridge;
  display_map_high : list Z }.

Definition qmin (a b : Q) : Q := if Qle_bool a b then a else b.
Definition qmax (a b : Q) : Q := if Qle_bool a b then b else a.

(** [np.min(vertices, axis=0)] and [np.max(vertices, axis=0)]; both raise on
    an empty list. *)
Definition bounding_box (vs : list Vector3) : option (Vector3 * Vector3) :=
  match vs with
  | [] => None
  | v :: rest =>
      Some (fold_left (λ m x, mkV3 (qmin (vx m) (vx x)) (qmin (vy m) (vy x)) (qmin (vz m) (vz x))) rest v,
            fold_left (λ m x, mkV3 (qmax (vx m) (vx x)) (qmax (vy m) (vy x)) (qmax (vz m) (vz x))) rest v)
  end.

(** [assert b] *)
Definition py_assert (b : bool) : option unit := if b then Some tt else None.

Section env_cloth.
(** [cloth.CLOTH_MAX_VERTICES] is not among the sources. *)
Variable CLOTH_MAX_VERTICES : nat.

(** The result is [None] when the function raises, and otherwise the
    returned value ([None] or the cloth) with the log entries written.
    After the attachment check the function can still raise: on
    [model_xml.geometries[0]] when the model has no geometry, on the
    assertion that the parent is a drawable, and on the assertion of the
    display map.  ([create_bridge] runs the reindexing once more; it
    changes nothing.) *)
Definition create_frag_env_cloth (cloth_objs : list ClothObject)
  : option (option EnvironmentCloth * list Report) :=
  match cloth_objs with
  | [] => Some (None, [])
  | cloth_obj :: other_cloth_objs =>
      let log :=
        match other_cloth_objs with
        | [] => []
        | _ => [MultipleClothsWarning (obj_name cloth_obj)]
        end in
      let cloth_mesh := obj_mesh cloth_obj in
      let num_vertices := length (vertices_co cloth_mesh) in
      if CLOTH_MAX_VERTICES <? num_vertices then
        Some (None, log ++ [TooManyVerticesError CLOTH_MAX_VERTICES num_vertices])
      else
        st ← reindex_vertices cloth_mesh;
        bridge ← create_bridge cloth_mesh (obj_attrs cloth_obj);
        built ← edge_loop cloth_mesh st;
        let new_edges := sort_edges built.1 in
        positions ← mapM id (vertices st);
        bb ← bounding_box positions;
        match obj_bone cloth_obj with
        | None => Some (None, log ++ [NotAttachedToBoneError (obj_name cloth_obj)])
        | Some bone =>
            geometry ← obj_geometries cloth_obj !! 0;
            parent_is_drawable ← obj_parent_is_drawable cloth_obj;
            _ ← py_assert parent_is_drawable;
            display_map_high ← display_map geometry positions;
            Some (Some (mkEnvironmentCloth num_vertices positions bb.1 bb.2 new_edges
                          (num_pinned (pinned_array cloth_mesh)) bone bridge
                          display_map_high), log)
        end
  end.

(** The part of [create_fragment_xml] that follows the call: the cloth
    list of the fragment is set only when a cloth came back. *)
Definition attach_env_cloth (cloths : list EnvironmentCloth)
    (env_cloth : option EnvironmentCloth) : list EnvironmentCloth :=
  match env_cloth with
  | Some c => [c]
  | None => cloths
  end.

Definition is_limit_error (r : Report) : Prop :=
  match r with TooManyVerticesError _ _ => True | _ => False end.

Lemma mapM_id_Some {A} (l : list A) : mapM id (Some <$> l) = Some l.
Proof. apply mapM_Some. apply Forall2_fmap_l, Forall_Forall2_diag, Forall_forall. done. Qed.

(** C8.  With more vertices than [CLOTH_MAX_VERTICES] the function does not
    raise: it logs the error and returns [None], and the caller leaves the
    fragment's cloth list as it was.  With at most [CLOTH_MAX_VERTICES]
    vertices no limit error is ever logged: whatever the function returns
    then, the limit check has not rejected the cloth. *)
Theorem cloth_vertex_limit cloth_obj other_cloth_objs :
  let num_vertices := length (vertices_co (obj_mesh cloth_obj)) in
  let result := create_frag_env_cloth (cloth_obj :: other_cloth_objs) in
  (CLOTH_MAX_VERTICES < num_vertices →
     ∃ log, result = Some (None, log) ∧
            TooManyVerticesError CLOTH_MAX_VERTICES num_vertices ∈ log ∧
            ∀ cloths, attach_env_cloth cloths None = cloths) ∧
  (num_vertices ≤ CLOTH_MAX_VERTICES →
     ∀ r log, result = Some (r, log) → ∀ e, e ∈ log → ¬ is_limit_error e).
Proof.
  intros num_vertices result. subst result. unfold create_frag_env_cloth.
  fold num_vertices.
  set (log := match other_cloth_objs with
              | [] => []
              | _ => [MultipleClothsWarning (obj_name cloth_obj)]
              end).
  assert (∀ e, e ∈ log → ¬ is_limit_error e) as Hlog.
  { unfold log. destruct other_cloth_objs; intros e He.
    - by apply elem_of_nil in He.
    - apply list_elem_of_singleton in He as ->. by intros ?. }
  split.
  - intros Hgt. apply Nat.ltb_lt in Hgt. rewrite Hgt.
    eexists. split; [reflexivity|]. split; [|done].
    apply elem_of_app. right. by left.
  - intros Hle. apply Nat.ltb_ge in Hle. rewrite Hle.
    intros r lg Hrun e He.
    destruct (reindex_vertices _) as [st|]; [|done]. cbn [mbind option_bind] in Hrun.
    destruct (create_bridge _ _) as [filled|]; [|done]. cbn [mbind option_bind] in Hrun.
    destruct (edge_loop _ _) as [built|]; [|done]. cbn [mbind option_bind] in Hrun.
    destruct (mapM id (vertices st)) as [positions|]; [|done].
    cbn [mbind option_bind] in Hrun.
    destruct (bounding_box positions) as [bb|]; [|done].
    cbn [mbind option_bind] in Hrun.
    destruct (obj_bone cloth_obj).
    + destruct (obj_geometries cloth_obj !! 0) as [geometry|]; [|done].
      cbn [mbind option_bind] in Hrun.
      destruct (obj_parent_is_drawable cloth_obj) as [[]|]; [|done..].
      cbn [mbind option_bind py_assert] in Hrun.
      destruct (display_map geometry positions) as [dm|]; [|done].
      cbn [mbind option_bind] in Hrun. simplify_eq. by apply Hlog.
    + simplify_eq. apply elem_of_app in He as [He|He]; [by apply Hlog|].
      apply list_elem_of_singleton in He as ->. by intros ?.
Qed.

End env_cloth.

(** The five-vertex mesh as a cloth object: one geometry whose vertex
    buffer holds the mesh's own positions, attached to bone 0, child of a
    drawable. *)
Definition five_vertex_cloth : ClothObject :=
  mkClothObject "cloth" five_vertex_mesh five_vertex_attrs
                [vertices_co five_vertex_mesh] (Some 0) (Some true).

Lemma cloth_vertex_limit_witness :
  4 < 5 ∧
  ∃ log, create_frag_env_cloth 4 [five_vertex_cloth] = Some (None, log) ∧
         TooManyVerticesError 4 5 ∈ log.
Proof.
  split; [lia|].
  destruct (cloth_vertex_limit 4 five_vertex_cloth []) as [Hover _].
  destruct Hover as (log & Hrun & Hin & _); [simpl; lia|].
  exists log. split; [exact Hrun|exact Hin].
Defined.

(** With a limit of 4 the five-vertex mesh is refused. *)
Example five_vertices_over_limit :
  create_frag_env_cloth 4 [five_vertex_cloth] = Some (None, [TooManyVerticesError 4 5]).
Proof. reflexivity. Qed.

(** With a limit of 5 it is exported; each position of the vertex buffer is
    mapped to the cloth vertex of its mesh vertex. *)
Example five_vertices_within_limit :
  (λ r : option EnvironmentCloth * list Report,
     ((λ c, (vertex_count_high c, display_map_high c)) <$> r.1, r.2))
    <$> create_frag_env_cloth 5 [five_vertex_cloth]
  = Some (Some (5, [2; 0; 3; 1; 4]%Z), []).
Proof. reflexivity. Qed.

(** The same object without a geometry, without a parent, or with a vertex
    buffer that holds a position that is no cloth vertex: the function
    raises after the attachment check. *)
Example raises_after_attachment_check :
  create_frag_env_cloth 5
    [mkClothObject "cloth" five_vertex_mesh five_vertex_attrs [] (Some 0) (Some true)] = None ∧
  create_frag_env_cloth 5
    [mkClothObject "cloth" five_vertex_mesh five_vertex_attrs
                   [vertices_co five_vertex_mesh] (Some 0) None] = None ∧
  create_frag_env_cloth 5
    [mkClothObject "cloth" five_vertex_mesh five_vertex_attrs
                   [vertices_co five_vertex_mesh] (Some 0) (Some false)] = None ∧
  create_frag_env_cloth 5
    [mkClothObject "cloth" five_vertex_mesh five_vertex_attrs
                   [[mkV3 100 0 0]] (Some 0) (Some true)] = None.
Proof. by vm_compute. Qed.

End Cloth.

(** ** Variant dispatch on the [type] attribute ([resources/drawable.py]) *)

Module Xml.
Import Py.

(** An [xml.etree.ElementTree.Element]. *)
#[warnings="-register-all"]
Inductive Element :=
  | mkElement (tag : string) (attrib : gmap string string) (children : list Element).

Definition tag (e : Element) : string :=
  match e with mkElement t _ _ => t end.

Definition attrib (e : Element) : gmap string string :=
  match e with mkElement _ a _ => a end.

(** [element.iter()]: the element and all its descendants, in document
    order. *)
Fixpoint iter (e : Element) : list Element :=
  match e with
  | mkElement _ _ children =>
      e :: (fix go (cs : list Element) : list Element :=
              match cs with
              | [] => []
              | c :: cs' => iter c ++ go cs'
              end) children
  end.

(** [child.tag = 'Item'] *)
Definition retag (t : string) (e : Element) : Element :=
  match e with mkElement _ a cs => mkElement t a cs end.

(** *** [ParametersListProperty.from_xml] *)

Inductive ParameterKind := Texture | Vector | Array.

Definition parameter_type (k : ParameterKind) : string :=
  match k with Texture => "Texture" | Vector => "Vector" | Array => "Array" end.

Section parameters.
(** The [from_xml] of the three parameter classes comes from the base
    classes in [codewalker_xml], which are not among the sources; it may
    raise. *)
Context {ShaderParameter : Type}.
Variable parameter_from_xml : ParameterKind → Element → option ShaderParameter.

(** One of the three [if param_type == X.type: new.value.append(...)]. *)
Definition append_if (k : ParameterKind) (param_type : string) (child : Element)
    (value : list ShaderParameter) : option (list ShaderParameter) :=
  if decide (param_type = parameter_type k)
  then p ← parameter_from_xml k child; Some (value ++ [p])
  else Some value.

(** The body of [for child in element.iter()]. *)
Definition parameters_step (value : list ShaderParameter) (child : Element)
  : option (list ShaderParameter) :=
  match attrib child !! "type" with
  | Some param_type =>
      value ← append_if Texture param_type child value;
      value ← append_if Vector param_type child value;
      append_if Array param_type child value
  | None => Some value
  end.

Definition parameters_from_nodes (nodes : list Element) : option (list ShaderParameter) :=
  fold_leftM parameters_step nodes [].

Definition parameters_from_xml (element : Element) : option (list ShaderParameter) :=
  parameters_from_nodes (iter element).

Definition known_parameter_type (t : string) : Prop :=
  t = "Texture" ∨ t = "Vector" ∨ t = "Array".

Lemma parameters_step_unknown value child t :
  attrib child !! "type" = Some t → ¬ known_parameter_type t →
  parameters_step value child = Some value.
Proof.
  intros Ht Hunknown. unfold parameters_step, append_if, known_parameter_type in *.
  rewrite Ht. simpl.
  repeat (case_decide; [exfalso; tauto|]; simpl). done.
Qed.

End parameters.

(** *** [Drawable.from_xml] *)

Inductive BoundKind :=
  | Box | Sphere | Capsule | Cylinder | Disc | Cloth | Geometry | GeometryBVH.

(** The [if]/[elif] chain on [bound_type]. *)
Definition bound_kind_of (bound_type : string) : option BoundKind :=
  if decide (bound_type = "Box") then Some Box
  else if decide (bound_type = "Sphere") then Some Sphere
  else if decide (bound_type = "Capsule") then Some Capsule
  else if decide (bound_type = "Cylinder") then Some Cylinder
  else if decide (bound_type = "Disc") then Some Disc
  else if decide (bound_type = "Cloth") then Some Cloth
  else if decide (bound_type = "Geometry") then Some Geometry
  else if decide (bound_type = "GeometryBVH") then Some GeometryBVH
  else None.

Definition known_bound_type (t : string) : Prop :=
  t = "Box" ∨ t = "Sphere" ∨ t = "Capsule" ∨ t = "Cylinder" ∨ t = "Disc" ∨
  t = "Cloth" ∨ t = "Geometry" ∨ t = "GeometryBVH".

Section drawable.
(** The bound classes are in [bound.py], not among the sources: a parsed
    bound is its kind, its [tag_name] and whatever else the class's
    [from_xml] reads, which may raise. *)
Context {BoundData : Type}.
Variable bound_data_from_xml : BoundKind → Element → option BoundData.
Variable class_tag_name : BoundKind → string.

Record Bound := mkBound {
  bound_kind : BoundKind;
  tag_name : string;
  bound_data : BoundData }.

Definition bound_from_xml (k : BoundKind) (child : Element) : option Bound :=
  d ← bound_data_from_xml k child; Some (mkBound k (class_tag_name k) d).

(** [if new.bound: new.bound.tag_name = 'Bounds'] *)
Definition name_bounds (bound : option Bound) : option Bound :=
  (λ b, mkBound (bound_kind b) "Bounds" (bound_data b)) <$> bound.

(** The body of [for child in element.iter()]; the state is [new.bound]. *)
Definition bound_step (bound : option Bound) (child : Element) : option (option Bound) :=
  match attrib child !! "type" with
  | Some bound_type =>
      let child := retag "Item" child in
      bound ← match bound_kind_of bound_type with
              | Some k => Some <$> bound_from_xml k child
              | None => Some bound
              end;
      Some (name_bounds bound)
  | None => Some bound
  end.

(** [new.bound] after the loop; [self.bound = None] before it. *)
Definition bound_from_nodes (nodes : list Element) : option (option Bound) :=
  fold_leftM bound_step nodes None.

Definition drawable_bound_from_xml (element : Element) : option (option Bound) :=
  bound_from_nodes (iter element).

Definition bounds_named (bound : option Bound) : Prop :=
  ∀ b, bound = Some b → tag_name b = "Bounds".

Lemma name_bounds_id bound : bounds_named bound → name_bounds bound = bound.
Proof.
  intros Hn. destruct bound as [[k t d]|]; [|done].
  simpl. by rewrite <- (Hn _ eq_refl).
Qed.

Lemma bound_kind_of_unknown t : ¬ known_bound_type t → bound_kind_of t = None.
Proof.
  unfold known_bound_type, bound_kind_of. intros Hn.
  repeat (case_decide; [exfalso; tauto|]). done.
Qed.

Lemma bound_step_named bound child bound' :
  bounds_named bound → bound_step bound child = Some bound' → bounds_named bound'.
Proof.
  unfold bound_step. intros Hn Hstep.
  destruct (attrib child !! "type") as [t|]; [|by simplify_eq].
  destruct (bound_kind_of t) as [k|].
  - destruct (bound_from_xml k _) as [b|]; simplify_eq/=.
    intros b0 Hb0. by simplify_eq/=.
  - simplify_eq/=. intros b0 Hb0. destruct bound; by simplify_eq/=.
Qed.

Lemma bound_loop_named nodes bound bound' :
  bounds_named bound → fold_leftM bound_step nodes bound = Some bound' →
  bounds_named bound'.
Proof.
  revert bound. induction nodes as [|c nodes IH]; intros bound Hn Hrun; simpl in Hrun.
  - by simplify_eq.
  - destruct (bound_step bound c) as [b1|] eqn:Hstep; [|done].
    eapply IH; [|exact Hrun]. by eapply bound_step_named.
Qed.

Lemma bound_step_unknown bound child t :
  attrib child !! "type" = Some t → ¬ known_bound_type t → bounds_named bound →
  bound_step bound child = Some bound.
Proof.
  intros Ht Hunknown Hn. unfold bound_step.
  rewrite Ht, bound_kind_of_unknown by done. simpl. by rewrite name_bounds_id.
Qed.

Lemma bound_loop_unknown nodes :
  (∀ n t, n ∈ nodes → attrib n !! "type" = Some t → ¬ known_bound_type t) →
  fold_leftM bound_step nodes None = Some None.
Proof.
  induction nodes as [|c nodes IH]; intros Hall; [done|]. simpl.
  assert (bound_step None c = Some None) as ->.
  { destruct (attrib c !! "type") as [t|] eqn:Ht.
    - eapply bound_step_unknown; [done| |done]. eapply Hall; [by left|done].
    - unfold bound_step. by rewrite Ht. }
  simpl. apply IH. intros n t Hn. apply Hall. by right.
Qed.

End drawable.

(** A drawable whose only typed nodes are a shader parameter of an unknown
    type and a bound of an unknown type. *)
Definition typed (tag_ type_ : string) : Element :=
  mkElement tag_ {[ "type" := type_ ]} [].

Definition sample_drawable : Element :=
  mkElement "Drawable" ∅
    [mkElement "Parameters" ∅ [typed "Item" "Texture"; typed "Item" "CBuffer"];
     typed "Bounds" "Composite"].

Example sample_parameters :
  parameters_from_xml (λ k e, Some (k, e)) sample_drawable
  = Some [(Texture, typed "Item" "Texture")].
Proof. by vm_compute. Qed.

Example sample_bound :
  drawable_bound_from_xml (λ k e, Some e) (λ _, "Item") sample_drawable = Some None.
Proof. by vm_compute. Qed.

(** C9.  A node of [element.iter()] whose [type] attribute is none of
    Texture, Vector and Array adds no parameter and raises nothing: the
    parsed parameter list is the one parsed without the node.  A node whose
    [type] is none of the eight bound types changes nothing either, and a
    drawable all of whose typed nodes are such has no bound. *)
Theorem unknown_type_dropped {ShaderParameter BoundData : Type}
    (parameter_from_xml : ParameterKind → Element → option ShaderParameter)
    (bound_data_from_xml : BoundKind → Element → option BoundData)
    (class_tag_name : BoundKind → string)
    (element : Element) (before after : list Element) (node : Element) (t : string) :
  iter element = before ++ node :: after →
  attrib node !! "type" = Some t →
  (¬ known_parameter_type t →
     parameters_from_xml parameter_from_xml element
     = parameters_from_nodes parameter_from_xml (before ++ after)) ∧
  (¬ known_bound_type t →
     drawable_bound_from_xml bound_data_from_xml class_tag_name element
     = bound_from_nodes bound_data_from_xml class_tag_name (before ++ after)) ∧
  ((∀ n t', n ∈ iter element → attrib n !! "type" = Some t' → ¬ known_bound_type t') →
     drawable_bound_from_xml bound_data_from_xml class_tag_name element = Some None).
Proof.
  intros Hiter Ht. split_and!.
  - intros Hunknown. unfold parameters_from_xml, parameters_from_nodes.
    rewrite Hiter, !fold_leftM_app.
    destruct (fold_leftM _ before []) as [value|]; [|done]. simpl.
    by rewrite (parameters_step_unknown _ _ _ t).
  - intros Hunknown. unfold drawable_bound_from_xml, bound_from_nodes.
    rewrite Hiter, !fold_leftM_app.
    destruct (fold_leftM _ before None) as [bound|] eqn:Hbefore; [|done]. simpl.
    rewrite (bound_step_unknown _ _ _ _ t); [done|done|done|].
    eapply bound_loop_named; [|exact Hbefore]. by intros b ?.
  - intros Hall. by apply bound_loop_unknown.
Qed.

Lemma unknown_type_dropped_witness :
  parameters_from_xml (λ k e, Some (k, e)) sample_drawable
  = parameters_from_nodes (λ k e, Some (k, e))
      ([sample_drawable;
        mkElement "Parameters" ∅ [typed "Item" "Texture"; typed "Item" "CBuffer"];
        typed "Item" "Texture"] ++ [typed "Bounds" "Composite"]).
Proof.
  apply (unknown_type_dropped (λ k e, Some (k, e)) (λ k e, Some e) (λ _, "Item")
           sample_drawable _ _ (typed "Item" "CBuffer") "CBuffer").
  - reflexivity.
  - reflexivity.
  - unfold known_parameter_type. intros [H|[H|H]]; discriminate H.
Defined.

End Xml.

(** ** Navigation mesh polygons: what reads and writes preserve
       ([ynv/navmesh_attributes.py], [ynv/properties.py]) *)

Module NavAccess.
Import NavMesh.

Local Open Scope Z_scope.

(** *** Cover points *)

Inductive NavCoverType :=
  | LOW_WALL | LOW_WALL_TO_LEFT | LOW_WALL_TO_RIGHT
  | WALL_TO_LEFT | WALL_TO_RIGHT | WALL_TO_NEITHER.

(** [enum.value] *)
Definition cover_type_value (t : NavCoverType) : Z :=
  match t with
  | LOW_WALL => 0 | LOW_WALL_TO_LEFT => 1 | LOW_WALL_TO_RIGHT => 2
  | WALL_TO_LEFT => 3 | WALL_TO_RIGHT => 4 | WALL_TO_NEITHER => 5
  end.

(** [NavCoverType(i)]; a value that is no member raises [ValueError]. *)
Definition cover_type_of_value (i : Z) : option NavCoverType :=
  match i with
  | 0 => Some LOW_WALL | 1 => Some LOW_WALL_TO_LEFT | 2 => Some LOW_WALL_TO_RIGHT
  | 3 => Some WALL_TO_LEFT | 4 => Some WALL_TO_RIGHT | 5 => Some WALL_TO_NEITHER
  | _ => None
  end.

(** [NavCoverPointProps]; the enum property holds the member's name, which
    stands for the member. *)
Record NavCoverPointProps := mkCoverPoint {
  cover_type : NavCoverType;
  disabled : bool }.

Definition get_raw_int (self : NavCoverPointProps) : Z :=
  let cover_type_int := cover_type_value (cover_type self) in
  let disabled_int := if disabled self then 8 else 0 in
  Z.lor cover_type_int disabled_int.

(** Both fields are assigned, so the result does not depend on [self]. *)
Definition set_raw_int (value : Z) : option NavCoverPointProps :=
  let cover_type_int := Z.land value 7 in
  t ← (if cover_type_int <=? 5 then cover_type_of_value cover_type_int
       else Some LOW_WALL);
  Some (mkCoverPoint t (negb (Z.land value 8 =? 0))).

(** *** The accessor's setter *)

(** The polygons of a mesh as the accessor sees them: the selection flag of
    each polygon and the index of the active one. *)
Record PolySelection := mkSelection {
  poly_select : list bool;
  active_poly : nat }.

(** [selected_polys]: the selected polygons other than the active one, in
    index order. *)
Definition selected_polys (sel : PolySelection) : list nat :=
  filter (λ i, i ≠ active_poly sel ∧ poly_select sel !! i = Some true)
         (seq 0 (length (poly_select sel))).

(** One [get; setattr; set] on polygon [p]; [update] is
    [setattr(attrs, attr_name, value)]. *)
Definition set_poly_attr (update : NavPolyAttributes → NavPolyAttributes)
    (mesh : Mesh) (p : nat) : option Mesh :=
  attrs ← mesh_get_navmesh_poly_attributes mesh p;
  mesh_set_navmesh_poly_attributes mesh p (update attrs).

(** The function returned by [_attr_setter(attr_name)], applied to a
    value. *)
Definition attr_setter (update : NavPolyAttributes → NavPolyAttributes)
    (mesh : Mesh) (sel : PolySelection) : option Mesh :=
  mesh ← Py.fold_leftM (set_poly_attr update) (selected_polys sel) mesh;
  set_poly_attr update mesh (active_poly sel).

(** [_attr_getter(attr_name)]: the attribute of the active polygon. *)
Definition attr_getter {V} (getattr : NavPolyAttributes → V)
    (mesh : Mesh) (sel : PolySelection) : option V :=
  getattr <$> mesh_get_navmesh_poly_attributes mesh (active_poly sel).

(** [setattr(attrs, "is_water", value)] *)
Definition set_is_water (value : bool) (a : NavPolyAttributes) : NavPolyAttributes :=
  mkAttrs (is_small a) (is_large a) (is_pavement a) (is_in_shelter a)
          (is_too_steep_to_walk_on a) value (is_near_car_node a) (is_interior a)
          (is_isolated a) (is_network_spawn_candidate a) (is_road a)
          (lies_along_edge a) (is_train_track a) (is_shallow_water a)
          (cover_directions a) (audio_reverb_size a) (audio_reverb_wet a)
          (ped_density a).

(** The layers of the mode the mesh is in. *)
Definition data0_layer (mesh : Mesh) : option (list Z) :=
  if is_editmode mesh then bm_data0_layer mesh else data0_attr mesh.
Definition data1_layer (mesh : Mesh) : option (list Z) :=
  if is_editmode mesh then bm_data1_layer mesh else data1_attr mesh.

(** Both layers exist and hold [n] polygons. *)
Definition has_layers (mesh : Mesh) (n : nat) : Prop :=
  (∃ l0, data0_layer mesh = Some l0 ∧ length l0 = n) ∧
  (∃ l1, data1_layer mesh = Some l1 ∧ length l1 = n).

Definition three_poly_mesh : Mesh :=
  mkMesh false None None (Some [48; 128; 0]) (Some [0; 65536; 3]).

(** *** Getter and setter in terms of the layers *)

Lemma get_layers mesh i :
  mesh_get_navmesh_poly_attributes mesh i
  = d0 ← read_layer (data0_layer mesh) i;
    d1 ← read_layer (data1_layer mesh) i;
    Some (attributes_of_data d0 d1).
Proof. unfold mesh_get_navmesh_poly_attributes, data0_layer, data1_layer. by destruct (is_editmode mesh). Qed.

Lemma set_layers mesh i a mesh' :
  mesh_set_navmesh_poly_attributes mesh i a = Some mesh' →
  is_editmode mesh' = is_editmode mesh ∧
  write_layer (data0_layer mesh) i (data0_of a) = Some (data0_layer mesh') ∧
  write_layer (data1_layer mesh) i (data1_of a) = Some (data1_layer mesh').
Proof.
  unfold mesh_set_navmesh_poly_attributes, data0_layer, data1_layer.
  destruct (is_editmode mesh) eqn:Hmode; cbv zeta; intros Hset;
    destruct (write_layer _ i (data0_of a)) as [l0|]; try done;
    destruct (write_layer _ i (data1_of a)) as [l1|]; try done;
    simpl in Hset; injection Hset as <-; done.
Qed.

Lemma read_write_other layer i v layer' j :
  write_layer layer i v = Some layer' → j ≠ i → read_layer layer' j = read_layer layer j.
Proof.
  destruct layer as [l|]; simpl; [|by intros [= <-]].
  unfold Py.setitem. destruct (decide (i < length l)%nat); [|done].
  intros [= <-] Hji. simpl. by apply list_lookup_insert_ne.
Qed.

Lemma read_write_same l i v layer' :
  write_layer (Some l) i v = Some layer' →
  read_layer layer' i = Some v ∧ ∃ l', layer' = Some l' ∧ length l' = length l.
Proof.
  simpl. unfold Py.setitem. destruct (decide (i < length l)%nat); [|done].
  intros [= <-]. simpl. split; [by apply list_lookup_insert_eq|].
  eexists. split; [done|]. by rewrite length_insert.
Qed.

Lemma attributes_of_data_range d0 d1 : attrs_in_range (attributes_of_data d0 d1).
Proof.
  unfold attrs_in_range, attributes_of_data. cbn.
  pose proof (land3_cases (Z.land (Z.shiftr d0 8) 255)).
  pose proof (land3_cases (Z.shiftr (Z.land (Z.shiftr d0 8) 255) 2)).
  pose proof (land7_cases (Z.shiftr (Z.land d1 255) 5)).
  lia.
Qed.


(** Reading a stored byte into flags and packing the flags again keeps the
    bits that have a meaning and clears the others. *)
Lemma byte_forall (P : Z → bool) :
  forallb P (Z.of_nat <$> seq 0 256) = true → ∀ x, 0 <= x < 256 → P x = true.
Proof.
  intros Hall x Hx. rewrite forallb_forall in Hall. apply Hall.
  apply list_elem_of_In, list_elem_of_fmap. exists (Z.to_nat x).
  split; [lia|]. apply elem_of_seq. lia.
Qed.

Lemma land_255_range x : 0 <= Z.land x 255 < 256.
Proof.
  change 255 with (Z.ones 8). rewrite Z.land_ones by lia.
  apply Z.mod_pos_bound. lia.
Qed.

Lemma repack_bytes d0 d1 :
  let a := attributes_of_data d0 d1 in
  flags0_of a = Z.land (Z.land d0 255) 207 ∧
  flags1_of a = Z.land (Z.land (Z.shiftr d0 8) 255) 239 ∧
  flags2_of a = Z.land d1 255 ∧
  flags3_of a = Z.land (Z.shiftr d1 8) 255.
Proof.
  cbv zeta. unfold attributes_of_data. cbv zeta.
  pose proof (land_255_range d0) as H0.
  pose proof (land_255_range (Z.shiftr d0 8)) as H1.
  pose proof (land_255_range d1) as H2.
  pose proof (land_255_range (Z.shiftr d1 8)) as H3.
  revert H0 H1 H2 H3.
  generalize (Z.land d0 255) (Z.land (Z.shiftr d0 8) 255)
             (Z.land d1 255) (Z.land (Z.shiftr d1 8) 255).
  intros f0 f1 f2 f3 H0 H1 H2 H3. split_and!.
  - apply Z.eqb_eq. revert f0 H0. apply byte_forall. by vm_compute.
  - apply Z.eqb_eq. revert f1 H1. apply byte_forall. by vm_compute.
  - apply Z.eqb_eq. revert f2 H2. apply byte_forall. by vm_compute.
  - apply Z.eqb_eq. revert f3 H3. apply byte_forall. by vm_compute.
Qed.


Lemma land_bytes d m0 m1 :
  0 <= m0 < 256 →
  Z.lor (Z.land (Z.land d 255) m0) (Z.shiftl (Z.land (Z.land (Z.shiftr d 8) 255) m1) 8)
  = Z.land d (Z.lor m0 (Z.shiftl (Z.land 255 m1) 8)).
Proof.
  intros Hm0. apply Z.bits_inj'. intros n Hn.
  rewrite Z.lor_spec, !Z.land_spec, Z.lor_spec.
  destruct (Z.lt_ge_cases n 8) as [Hlt|Hge].
  - rewrite !Z.shiftl_spec_low by done.
    change 255 with (Z.ones 8). rewrite Z.ones_spec_low by lia.
    by rewrite !orb_false_r, andb_true_r.
  - rewrite !Z.shiftl_spec by lia. rewrite !Z.land_spec, Z.shiftr_spec by lia.
    replace (n - 8 + 8) with n by lia.
    change 255 with (Z.ones 8). rewrite (Z.ones_spec_high 8 n) by lia.
    replace (Z.testbit m0 n) with false;
      [by destruct (Z.testbit d n), (Z.testbit (Z.ones 8) (n - 8)), (Z.testbit m1 (n - 8))|].
    symmetry. destruct (Z.eq_dec m0 0) as [->|Hnz]; [apply Z.bits_0|].
    apply Z.bits_above_log2; [lia|].
    apply Z.lt_le_trans with 8; [|lia]. apply Z.log2_lt_pow2; lia.
Qed.

(** What a read followed by a write of the same attributes stores. *)
Lemma repack_data d0 d1 :
  data0_of (attributes_of_data d0 d1) = Z.land d0 61391 ∧
  data1_of (attributes_of_data d0 d1) = Z.land d1 65535.
Proof.
  destruct (repack_bytes d0 d1) as (E0 & E1 & E2 & E3). unfold data0_of, data1_of.
  rewrite E0, E1, E2, E3. split.
  - by rewrite land_bytes.
  - transitivity (Z.lor (Z.land (Z.land d1 255) 255)
                        (Z.shiftl (Z.land (Z.land (Z.shiftr d1 8) 255) 255) 8)).
    + by rewrite <- !Z.land_assoc.
    + by rewrite land_bytes.
Qed.


(** *** One write, seen through the getter *)

Lemma has_layers_read mesh n i :
  has_layers mesh n → (i < n)%nat →
  ∃ d0 d1, read_layer (data0_layer mesh) i = Some d0 ∧
           read_layer (data1_layer mesh) i = Some d1.
Proof.
  intros [(l0 & -> & H0) (l1 & -> & H1)] Hi. simpl.
  destruct (lookup_lt_is_Some_2 l0 i) as [d0 ->]; [lia|].
  destruct (lookup_lt_is_Some_2 l1 i) as [d1 ->]; [lia|]. by exists d0, d1.
Qed.

Lemma set_get_other mesh i a mesh' j :
  mesh_set_navmesh_poly_attributes mesh i a = Some mesh' → j ≠ i →
  mesh_get_navmesh_poly_attributes mesh' j = mesh_get_navmesh_poly_attributes mesh j.
Proof.
  intros (_ & W0 & W1)%set_layers Hji. rewrite !get_layers.
  by rewrite (read_write_other _ _ _ _ j W0 Hji), (read_write_other _ _ _ _ j W1 Hji).
Qed.

Lemma set_with_layers mesh n i a :
  has_layers mesh n → (i < n)%nat →
  ∃ mesh',
    mesh_set_navmesh_poly_attributes mesh i a = Some mesh' ∧
    has_layers mesh' n ∧
    read_layer (data0_layer mesh') i = Some (data0_of a) ∧
    read_layer (data1_layer mesh') i = Some (data1_of a).
Proof.
  intros [(l0 & E0 & H0) (l1 & E1 & H1)] Hi.
  assert (∃ mesh', mesh_set_navmesh_poly_attributes mesh i a = Some mesh') as [mesh' Hset].
  { unfold mesh_set_navmesh_poly_attributes, data0_layer, data1_layer in *. cbv zeta.
    destruct (is_editmode mesh); rewrite E0, E1; simpl;
      rewrite !Py.setitem_Some by lia; by eexists. }
  exists mesh'. split; [done|].
  apply set_layers in Hset as (_ & W0 & W1). rewrite E0 in W0. rewrite E1 in W1.
  apply read_write_same in W0 as (R0 & l0' & E0' & L0).
  apply read_write_same in W1 as (R1 & l1' & E1' & L1).
  split_and!; [|done|done].
  split; [exists l0'|exists l1']; split; (done || lia).
Qed.

Lemma set_get_same mesh n i a :
  has_layers mesh n → (i < n)%nat → attrs_in_range a →
  ∃ mesh',
    mesh_set_navmesh_poly_attributes mesh i a = Some mesh' ∧
    has_layers mesh' n ∧
    mesh_get_navmesh_poly_attributes mesh' i = Some a.
Proof.
  intros Hl Hi Hr. destruct (set_with_layers mesh n i a Hl Hi) as (mesh' & Hset & Hl' & R0 & R1).
  exists mesh'. split_and!; [done|done|].
  rewrite get_layers, R0, R1. simpl. by rewrite attributes_of_data_pack.
Qed.

Lemma get_with_layers mesh n i :
  has_layers mesh n → (i < n)%nat →
  ∃ a, mesh_get_navmesh_poly_attributes mesh i = Some a ∧ attrs_in_range a.
Proof.
  intros Hl Hi. destruct (has_layers_read mesh n i Hl Hi) as (d0 & d1 & R0 & R1).
  exists (attributes_of_data d0 d1). rewrite get_layers, R0, R1.
  split; [done|apply attributes_of_data_range].
Qed.

(** *** The setter loop *)

Lemma set_poly_attr_with_layers update mesh n p :
  (∀ a, attrs_in_range a → attrs_in_range (update a)) →
  has_layers mesh n → (p < n)%nat →
  ∃ mesh',
    set_poly_attr update mesh p = Some mesh' ∧ has_layers mesh' n ∧
    ∀ q, mesh_get_navmesh_poly_attributes mesh' q
         = (if decide (q = p) then update else id)
             <$> mesh_get_navmesh_poly_attributes mesh q.
Proof.
  intros Hup Hl Hp. destruct (get_with_layers mesh n p Hl Hp) as (a & Hget & Hr).
  destruct (set_get_same mesh n p (update a) Hl Hp (Hup a Hr)) as (mesh' & Hset & Hl' & Hget').
  exists mesh'. unfold set_poly_attr. rewrite Hget. simpl. split_and!; [done|done|].
  intros q. destruct (decide (q = p)) as [->|Hq].
  - by rewrite Hget', Hget.
  - rewrite (set_get_other _ _ _ _ q Hset Hq). by destruct (mesh_get_navmesh_poly_attributes mesh q).
Qed.

Lemma set_poly_attr_loop update n l : ∀ mesh,
  (∀ a, attrs_in_range a → attrs_in_range (update a)) →
  has_layers mesh n → NoDup l → (∀ p, p ∈ l → (p < n)%nat) →
  ∃ mesh',
    Py.fold_leftM (set_poly_attr update) l mesh = Some mesh' ∧ has_layers mesh' n ∧
    ∀ q, mesh_get_navmesh_poly_attributes mesh' q
         = (if decide (q ∈ l) then update else id)
             <$> mesh_get_navmesh_poly_attributes mesh q.
Proof.
  induction l as [|p l IH]; intros mesh Hup Hl Hnd Hlt.
  - exists mesh. split_and!; [done|done|]. intros q.
    rewrite decide_False by apply not_elem_of_nil.
    by destruct (mesh_get_navmesh_poly_attributes mesh q).
  - apply NoDup_cons in Hnd as [Hp Hnd].
    destruct (set_poly_attr_with_layers update mesh n p Hup Hl) as (mesh1 & Hstep & Hl1 & Hget1).
    { apply Hlt. by left. }
    destruct (IH mesh1 Hup Hl1 Hnd) as (mesh' & Hrest & Hl' & Hget').
    { intros q Hq. apply Hlt. by right. }
    exists mesh'. cbn [Py.fold_leftM]. rewrite Hstep. simpl. split_and!; [done|done|].
    intros q. rewrite Hget', Hget1.
    destruct (mesh_get_navmesh_poly_attributes mesh q) as [a|]; simpl;
      [|by repeat case_decide]. f_equal.
    destruct (decide (q = p)) as [->|Hq].
    + rewrite decide_False by done. rewrite decide_True by (by left). done.
    + destruct (decide (q ∈ l)) as [Hin|Hin].
      * rewrite decide_True by (by right). done.
      * rewrite decide_False; [done|]. by intros [?|?]%elem_of_cons.
Qed.

Lemma selected_polys_spec sel p :
  p ∈ selected_polys sel ↔ p ≠ active_poly sel ∧ poly_select sel !! p = Some true.
Proof.
  unfold selected_polys. rewrite list_elem_of_filter, elem_of_seq. split; [tauto|].
  intros [Hp Hs]. split; [done|]. apply lookup_lt_Some in Hs. lia.
Qed.

Lemma selected_polys_NoDup sel : NoDup (selected_polys sel).
Proof. apply NoDup_filter, NoDup_seq. Qed.


Lemma land8_cases x : Z.land x 8 = 0 ∨ Z.land x 8 = 8.
Proof.
  destruct (Z.testbit x 3) eqn:Hbit; [right|left]; apply Z.bits_inj'; intros n Hn;
    rewrite Z.land_spec; change 8 with (2 ^ 3); rewrite Z.pow2_bits_eqb by lia;
    destruct (Z.eqb_spec 3 n) as [<-|Hne];
    rewrite ?Hbit, ?andb_false_r, ?Z.bits_0; done.
Qed.

(** X1.  [get_raw_int] and [set_raw_int] of a cover point: the raw integer
    lies in [0, 16) and setting it back gives the same properties;
    [set_raw_int] never raises, keeps the low four bits of a value whose
    cover type is at most 5, and turns a corrupted cover type (6 or 7) into
    [LOW_WALL], keeping only the disabled bit. *)
Theorem cover_point_raw_int_roundtrip (self : NavCoverPointProps) (value : Z) :
  set_raw_int (get_raw_int self) = Some self ∧
  0 <= get_raw_int self < 16 ∧
  ∃ props,
    set_raw_int value = Some props ∧
    get_raw_int props = (if Z.land value 7 <=? 5 then Z.land value 15 else Z.land value 8) ∧
    (5 < Z.land value 7 → cover_type props = LOW_WALL).
Proof.
  split; [|split].
  - by destruct self as [[] []].
  - destruct self as [[] []]; by vm_compute.
  - unfold set_raw_int. cbv zeta.
    change 15 with (Z.lor 7 8). rewrite Z.land_lor_distr_r.
    destruct (land7_cases value) as [-> | [-> | [-> | [-> | [-> | [-> | [-> | ->]]]]]]];
      destruct (land8_cases value) as [-> | ->];
      (eexists; split; [reflexivity|]; split; [reflexivity|]; simpl; (done || lia)).
Qed.

(** X2.  Whatever integers the two layers hold, the attributes read for a
    polygon have [audio_reverb_size] and [audio_reverb_wet] in 0..3 and
    [ped_density] in 0..7. *)
Theorem navmesh_read_in_range mesh poly_idx a :
  mesh_get_navmesh_poly_attributes mesh poly_idx = Some a → attrs_in_range a.
Proof.
  rewrite get_layers. intros Hget.
  destruct (read_layer (data0_layer mesh) poly_idx) as [d0|]; [|done].
  destruct (read_layer (data1_layer mesh) poly_idx) as [d1|]; [|done].
  injection Hget as <-. apply attributes_of_data_range.
Qed.

Lemma navmesh_read_in_range_witness :
  ∃ a, mesh_get_navmesh_poly_attributes three_poly_mesh 1 = Some a ∧
       0 <= ped_density a <= 7.
Proof.
  eexists. split; [reflexivity|].
  by destruct (navmesh_read_in_range three_poly_mesh 1 _ eq_refl) as (_ & _ & H).
Defined.

(** X3.  A write to one polygon changes no other polygon: every other
    polygon reads the same as before (also where reading raises), and the
    mesh stays in its mode. *)
Theorem navmesh_set_other_polygons mesh poly_idx a mesh' :
  mesh_set_navmesh_poly_attributes mesh poly_idx a = Some mesh' →
  is_editmode mesh' = is_editmode mesh ∧
  ∀ j, j ≠ poly_idx →
    mesh_get_navmesh_poly_attributes mesh' j = mesh_get_navmesh_poly_attributes mesh j.
Proof.
  intros Hset. split.
  - by apply set_layers in Hset as (? & _).
  - intros j Hj. by eapply set_get_other.
Qed.

Lemma navmesh_set_other_polygons_witness :
  ∃ mesh',
    mesh_set_navmesh_poly_attributes three_poly_mesh 1 small_poly = Some mesh' ∧
    mesh_get_navmesh_poly_attributes mesh' 2
    = mesh_get_navmesh_poly_attributes three_poly_mesh 2.
Proof.
  eexists. split; [reflexivity|].
  by apply (navmesh_set_other_polygons three_poly_mesh 1 small_poly _ eq_refl).
Defined.

(** X4.  Reading a polygon of a mesh that has both layers and writing the
    attributes back succeeds and changes what no polygon reads as; of the
    stored integers it keeps the bits that carry an attribute and clears
    the rest: [data0 & 0xEFCF] (bits 4 and 5 of the first flag byte and bit
    4 of the second are unused) and [data1 & 0xFFFF]. *)
Theorem navmesh_write_back mesh n poly_idx :
  has_layers mesh n → (poly_idx < n)%nat →
  ∃ a mesh' d0 d1,
    read_layer (data0_layer mesh) poly_idx = Some d0 ∧
    read_layer (data1_layer mesh) poly_idx = Some d1 ∧
    mesh_get_navmesh_poly_attributes mesh poly_idx = Some a ∧
    mesh_set_navmesh_poly_attributes mesh poly_idx a = Some mesh' ∧
    read_layer (data0_layer mesh') poly_idx = Some (Z.land d0 61391) ∧
    read_layer (data1_layer mesh') poly_idx = Some (Z.land d1 65535) ∧
    ∀ j, mesh_get_navmesh_poly_attributes mesh' j
         = mesh_get_navmesh_poly_attributes mesh j.
Proof.
  intros Hl Hi.
  destruct (has_layers_read mesh n poly_idx Hl Hi) as (d0 & d1 & R0 & R1).
  set (a := attributes_of_data d0 d1).
  assert (mesh_get_navmesh_poly_attributes mesh poly_idx = Some a) as Hget.
  { by rewrite get_layers, R0, R1. }
  destruct (set_with_layers mesh n poly_idx a Hl Hi) as (mesh' & Hset & _ & W0 & W1).
  destruct (repack_data d0 d1) as [E0 E1]. fold a in E0, E1.
  exists a, mesh', d0, d1. split_and!; try done.
  - by rewrite W0, E0.
  - by rewrite W1, E1.
  - intros j. destruct (decide (j = poly_idx)) as [->|Hj].
    + rewrite Hget, get_layers, W0, W1. simpl.
      by rewrite attributes_of_data_pack by apply attributes_of_data_range.
    + by eapply set_get_other.
Qed.

Lemma navmesh_write_back_witness :
  ∃ mesh',
    (mesh_get_navmesh_poly_attributes three_poly_mesh 0
       ≫= mesh_set_navmesh_poly_attributes three_poly_mesh 0) = Some mesh' ∧
    read_layer (data0_layer mesh') 0 = Some 0.
Proof.
  destruct (navmesh_write_back three_poly_mesh 3 0)
    as (a & mesh' & d0 & d1 & R0 & _ & Hget & Hset & W0 & _).
  - split; eexists; (split; [reflexivity|reflexivity]).
  - lia.
  - exists mesh'. rewrite Hget. split; [exact Hset|].
    rewrite W0. injection R0 as <-. reflexivity.
Defined.

(** X5.  The accessor's setter on a mesh with both layers: it succeeds, and
    afterwards the active polygon and every selected polygon read as their
    former attributes with the one attribute set, while every other
    polygon reads as before. *)
Theorem attr_setter_updates_selection
    (update : NavPolyAttributes → NavPolyAttributes) mesh sel n :
  (∀ a, attrs_in_range a → attrs_in_range (update a)) →
  has_layers mesh n →
  length (poly_select sel) = n →
  (active_poly sel < n)%nat →
  ∃ mesh',
    attr_setter update mesh sel = Some mesh' ∧
    ∀ p, mesh_get_navmesh_poly_attributes mesh' p
         = (if decide (p = active_poly sel ∨ poly_select sel !! p = Some true)
            then update else id)
             <$> mesh_get_navmesh_poly_attributes mesh p.
Proof.
  intros Hup Hl Hsel Hact.
  destruct (set_poly_attr_loop update n (selected_polys sel) mesh Hup Hl
              (selected_polys_NoDup sel)) as (mesh1 & Hloop & Hl1 & Hget1).
  { intros p [_ Hp%lookup_lt_Some]%selected_polys_spec. lia. }
  destruct (set_poly_attr_with_layers update mesh1 n (active_poly sel) Hup Hl1 Hact)
    as (mesh' & Hstep & _ & Hget').
  exists mesh'. unfold attr_setter. rewrite Hloop. simpl. split; [done|].
  intros p. rewrite Hget', Hget1.
  destruct (mesh_get_navmesh_poly_attributes mesh p) as [a|]; simpl;
    [|by repeat case_decide]. f_equal.
  destruct (decide (p = active_poly sel)) as [->|Hp].
  - rewrite decide_False by (by intros [? _]%selected_polys_spec).
    by rewrite decide_True by (by left).
  - destruct (decide (p ∈ selected_polys sel)) as [Hin|Hin].
    + apply selected_polys_spec in Hin as [_ Hs]. by rewrite decide_True by (by right).
    + rewrite decide_False; [done|]. intros [?|Hs]; [done|].
      apply Hin, selected_polys_spec. done.
Qed.

Lemma attr_setter_updates_selection_witness :
  ∃ mesh',
    attr_setter (set_is_water true) three_poly_mesh (mkSelection [true; false; false] 2)
    = Some mesh' ∧
    (is_water <$> mesh_get_navmesh_poly_attributes mesh' 0) = Some true ∧
    mesh_get_navmesh_poly_attributes mesh' 1
    = mesh_get_navmesh_poly_attributes three_poly_mesh 1.
Proof.
  destruct (attr_setter_updates_selection (set_is_water true) three_poly_mesh
              (mkSelection [true; false; false] 2) 3) as (mesh' & Hrun & Hget).
  - intros a Hr. exact Hr.
  - split; eexists; (split; [reflexivity|reflexivity]).
  - reflexivity.
  - simpl. lia.
  - exists mesh'. split; [exact Hrun|]. rewrite !Hget. split; reflexivity.
Defined.

End NavAccess.

(** ** The rest of the physics derivation ([yft/yftexport.py]) *)

Module Physics.
Import Model Py Vec.

(** *** [calculate_group_masses] *)

Definition add_mass (g : PhysicsGroup) (m : Q) : PhysicsGroup :=
  mkGroup (name g) (parent_index g) (group_mass g + m)%Q.

(** [lod_xml.groups[child.group_index].mass += child.pristine_mass] *)
Definition group_mass_step (gs : list PhysicsGroup) (child : PhysicsChild)
  : option (list PhysicsGroup) :=
  i ← norm_index (length gs) (group_index child);
  g ← gs !! i;
  Some (<[i := add_mass g (pristine_mass child)]> gs).

Definition set_groups (lod : PhysicsLOD) (gs : list PhysicsGroup) : PhysicsLOD :=
  mkLOD (archetype lod) gs (children lod) (transforms lod)
        (position_offset lod) (unknown_40 lod) (unknown_50 lod).

Definition calculate_group_masses (lod : PhysicsLOD) : option PhysicsLOD :=
  gs ← fold_leftM group_mass_step (children lod) (groups lod);
  Some (set_groups lod gs).

(** The pristine masses of the children among [cs] that sit in group [i]
    of [lod]. *)
Definition masses_in_group (lod : PhysicsLOD) (cs : list PhysicsChild) (i : nat) : list Q :=
  pristine_mass <$> filter (λ c, Links.group_position lod c = Some i) cs.

(** A child of the last of two groups, given by the index [-1]. *)
Definition wrapped_lod : PhysicsLOD :=
  mkLOD (mkArchetype 0 0 zero zero [])
        [mkGroup "a" 255 0; mkGroup "b" 0 0]
        [mkChild 0 10 2 2 (mkV4 0 0 0 0); mkChild (-1) 11 3 3 (mkV4 0 0 0 0);
         mkChild 1 12 5 5 (mkV4 0 0 0 0)]
        [] zero zero zero.

Example wrapped_group_masses :
  (λ lod, group_mass <$> groups lod) <$> calculate_group_masses wrapped_lod
  = Some [(0 + 2)%Q; (0 + 3 + 5)%Q].
Proof. reflexivity. Qed.

Lemma qsum_snoc l x : qsum (l ++ [x]) = (qsum l + x)%Q.
Proof. unfold qsum. by rewrite fold_left_app. Qed.

Lemma qsum_one x : (qsum [x] == x)%Q.
Proof. unfold qsum. simpl. ring. Qed.

Lemma qsum_nil : qsum [] = 0%Q.
Proof. done. Qed.

Lemma qsum_app l k : (qsum (l ++ k) == qsum l + qsum k)%Q.
Proof.
  induction k as [|x k IH] using rev_ind.
  - rewrite app_nil_r, qsum_nil. ring.
  - rewrite app_assoc, !qsum_snoc, IH. ring.
Qed.

Lemma qsum_insert (f : PhysicsGroup → Q) gs i g g' :
  gs !! i = Some g →
  (qsum (f <$> <[i := g']> gs) == qsum (f <$> gs) + (f g' - f g))%Q.
Proof.
  intros Hi. rewrite insert_take_drop by (by eapply lookup_lt_Some).
  rewrite <- (take_drop_middle gs i g Hi) at 3.
  rewrite !fmap_app, !fmap_cons, !qsum_app, !qsum_cons. ring.
Qed.

(** The state of the loop after the children [done]. *)
Record masses_inv (lod : PhysicsLOD) (done : list PhysicsChild)
    (gs : list PhysicsGroup) : Prop := {
  mi_length : length gs = length (groups lod);
  mi_group : ∀ i g, groups lod !! i = Some g →
    ∃ g', gs !! i = Some g' ∧ name g' = name g ∧ parent_index g' = parent_index g ∧
          (group_mass g' == group_mass g + qsum (masses_in_group lod done i))%Q;
  mi_total : (qsum (group_mass <$> gs)
              == qsum (group_mass <$> groups lod) + qsum (pristine_mass <$> done))%Q }.

Lemma masses_inv_init lod : masses_inv lod [] (groups lod).
Proof.
  split; [done| |].
  - intros i g Hi. exists g. split_and!; try done.
    unfold masses_in_group. rewrite filter_nil, fmap_nil, qsum_nil. ring.
  - rewrite fmap_nil, qsum_nil. ring.
Qed.

Lemma masses_inv_step lod done gs c k :
  masses_inv lod done gs →
  Links.group_position lod c = Some k →
  ∃ gs', group_mass_step gs c = Some gs' ∧ masses_inv lod (done ++ [c]) gs'.
Proof.
  intros [Hlen Hgroup Htotal] Hk. unfold Links.group_position in Hk.
  unfold group_mass_step. rewrite Hlen, Hk. simpl.
  destruct (lookup_lt_is_Some_2 gs k) as [gk Hgk].
  { rewrite Hlen. by eapply norm_index_lt. }
  rewrite Hgk. simpl. eexists. split; [done|]. split.
  - by rewrite length_insert.
  - intros i g Hi. destruct (Hgroup i g Hi) as (g' & Hg' & Hn & Hp & Hm).
    assert (qsum (masses_in_group lod (done ++ [c]) i)
            == qsum (masses_in_group lod done i)
               + qsum (masses_in_group lod [c] i))%Q as Hsplit.
    { unfold masses_in_group. by rewrite filter_app, fmap_app, qsum_app. }
    destruct (decide (i = k)) as [->|Hik].
    + exists (add_mass gk (pristine_mass c)).
      rewrite list_lookup_insert_eq by (by eapply lookup_lt_Some).
      rewrite Hgk in Hg'. injection Hg' as <-. split_and!; try done.
      rewrite Hsplit. unfold masses_in_group at 2.
      rewrite filter_cons_True by done. rewrite filter_nil, fmap_cons, fmap_nil, qsum_one.
      simpl. rewrite Hm. ring.
    + exists g'. rewrite list_lookup_insert_ne by done. split_and!; try done.
      rewrite Hsplit. unfold masses_in_group at 2.
      rewrite filter_cons_False by (unfold Links.group_position; rewrite Hk; congruence).
      rewrite filter_nil, fmap_nil, qsum_nil, Hm. ring.
  - rewrite (qsum_insert group_mass gs k gk) by done.
    rewrite fmap_app, qsum_app, Htotal, fmap_cons, fmap_nil, qsum_one. simpl. ring.
Qed.

Lemma masses_loop lod : ∀ rest done gs,
  masses_inv lod done gs →
  (∀ c, c ∈ rest → is_Some (Links.group_position lod c)) →
  ∃ gs', fold_leftM group_mass_step rest gs = Some gs' ∧
         masses_inv lod (done ++ rest) gs'.
Proof.
  induction rest as [|c rest IH]; intros done gs Hinv Hrest.
  - exists gs. by rewrite app_nil_r.
  - destruct (Hrest c) as [k Hk]; [by left|].
    destruct (masses_inv_step lod done gs c k Hinv Hk) as (gs1 & Hstep & Hinv1).
    destruct (IH (done ++ [c]) gs1 Hinv1) as (gs' & Hrun & Hinv').
    { intros c' Hc'. apply Hrest. by right. }
    exists gs'. cbn [fold_leftM]. rewrite Hstep. simpl.
    split; [done|]. by rewrite <- app_assoc in Hinv'.
Qed.

Lemma masses_loop_fails lod : ∀ rest gs,
  length gs = length (groups lod) →
  (∃ c, c ∈ rest ∧ Links.group_position lod c = None) →
  fold_leftM group_mass_step rest gs = None.
Proof.
  induction rest as [|c rest IH]; intros gs Hlen (bad & Hin & Hbad).
  - by apply elem_of_nil in Hin.
  - cbn [fold_leftM]. destruct (group_mass_step gs c) as [gs1|] eqn:Hstep; [|done].
    simpl. unfold group_mass_step in Hstep. rewrite Hlen in Hstep.
    destruct (norm_index _ (group_index c)) as [k|] eqn:Hk; [|done].
    simpl in Hstep. destruct (gs !! k) as [g|]; [|done]. injection Hstep as <-.
    apply IH; [by rewrite length_insert|].
    exists bad. split; [|done].
    apply elem_of_cons in Hin as [->|Hin]; [|done].
    unfold Links.group_position in Hbad. congruence.
Qed.

(** X6.  [calculate_group_masses] returns exactly when every child's
    [group_index] is a valid Python index into the groups (a negative one
    counts from the end), and then every group keeps its name and parent
    and gains the pristine masses of the children that sit in it; the
    group masses grow in total by the total pristine mass, and the children
    and the archetype are left alone. *)
Theorem group_masses_accumulate lod :
  (is_Some (calculate_group_masses lod) ↔ Links.children_grouped lod) ∧
  ∀ lod', calculate_group_masses lod = Some lod' →
    children lod' = children lod ∧ archetype lod' = archetype lod ∧
    length (groups lod') = length (groups lod) ∧
    (∀ i g, groups lod !! i = Some g →
       ∃ g', groups lod' !! i = Some g' ∧ name g' = name g ∧
             parent_index g' = parent_index g ∧
             (group_mass g'
              == group_mass g + qsum (masses_in_group lod (children lod) i))%Q) ∧
    (qsum (group_mass <$> groups lod')
     == qsum (group_mass <$> groups lod) + qsum (pristine_mass <$> children lod))%Q.
Proof.
  unfold calculate_group_masses. split; [split|].
  - intros Hsome c Hc.
    destruct (Links.group_position lod c) as [k|] eqn:Hk; [by eexists|].
    rewrite (masses_loop_fails lod (children lod) (groups lod)) in Hsome;
      [by destruct Hsome|done|by exists c].
  - intros Hgrouped.
    destruct (masses_loop lod (children lod) [] (groups lod) (masses_inv_init lod) Hgrouped)
      as (gs & -> & _). by eexists.
  - intros lod' Hrun.
    destruct (fold_leftM group_mass_step (children lod) (groups lod)) as [gs|] eqn:Hloop;
      [|done].
    injection Hrun as <-.
    assert (Links.children_grouped lod) as Hgrouped.
    { intros c Hc.
      destruct (Links.group_position lod c) as [k|] eqn:Hk; [by eexists|].
      rewrite (masses_loop_fails lod (children lod) (groups lod)) in Hloop;
        [done|done|by exists c]. }
    destruct (masses_loop lod (children lod) [] (groups lod) (masses_inv_init lod) Hgrouped)
      as (gs' & Hloop' & [Hlen Hgroup Htotal]).
    rewrite Hloop in Hloop'. injection Hloop' as <-. simpl in *.
    split_and!; done.
Qed.

Lemma group_masses_accumulate_witness :
  ∃ lod', calculate_group_masses wrapped_lod = Some lod' ∧
          children lod' = children wrapped_lod.
Proof.
  eexists. split; [reflexivity|].
  by apply (group_masses_accumulate wrapped_lod).
Defined.

(** *** [calculate_physics_lod_inertia_limits] *)

(** [max(l)]: the first of the largest items, [ValueError] on an empty
    list. *)
Definition py_max (l : list Q) : option Q :=
  match l with
  | [] => None
  | x :: rest => Some (fold_left (λ m y, if Qle_bool y m then m else y) rest x)
  end.

(** [[value for c in phys_children for value in c.inertia_tensor.xyz]] *)
Definition inertia_values (lod : PhysicsLOD) : list Q :=
  c ← children lod; [wx (inertia_tensor c); wy (inertia_tensor c); wz (inertia_tensor c)].

(** The values assigned to [unknown_14] and [unknown_18]. *)
Definition calculate_physics_lod_inertia_limits (lod : PhysicsLOD) : option (Q * Q) :=
  largest_inertia ← py_max (inertia_values lod);
  let smallest_inertia := (largest_inertia / 10000)%Q in
  Some (smallest_inertia, largest_inertia).

Lemma fold_max_spec rest : ∀ x,
  let m := fold_left (λ m y, if Qle_bool y m then m else y) rest x in
  m ∈ x :: rest ∧ (x <= m)%Q ∧ ∀ y, y ∈ rest → (y <= m)%Q.
Proof.
  induction rest as [|z rest IH]; intros x; cbv zeta.
  - simpl. split_and!; [by left|apply Qle_refl|]. by intros y ?%elem_of_nil.
  - cbn [fold_left]. destruct (Qle_bool z x) eqn:Hzx.
    + apply Qle_bool_iff in Hzx. destruct (IH x) as (Hin & Hx & Hrest).
      split_and!; [|done|].
      * apply elem_of_cons in Hin as [->|Hin]; [by left|by right; right].
      * intros y [->|Hy]%elem_of_cons; [by eapply Qle_trans|by apply Hrest].
    + assert (x <= z)%Q as Hxz.
      { apply Qlt_le_weak, Qnot_le_lt. intros Hle. apply Qle_bool_iff in Hle. congruence. }
      destruct (IH z) as (Hin & Hz & Hrest).
      split_and!; [by right|by eapply Qle_trans|].
      intros y [->|Hy]%elem_of_cons; [done|by apply Hrest].
Qed.

Lemma py_max_spec l m :
  py_max l = Some m → m ∈ l ∧ ∀ y, y ∈ l → (y <= m)%Q.
Proof.
  destruct l as [|x rest]; [done|]. intros [= <-].
  destruct (fold_max_spec rest x) as (Hin & Hx & Hrest). split; [done|].
  intros y [->|Hy]%elem_of_cons; [done|by apply Hrest].
Qed.

(** The fourth component of an inertia tensor is not looked at. *)
Definition heavy_w_lod : PhysicsLOD :=
  mkLOD (mkArchetype 0 0 zero zero [])
        [mkGroup "a" 255 0]
        [mkChild 0 10 1 1 (mkV4 3 1 2 50); mkChild 0 11 1 1 (mkV4 1 4 1 90)]
        [] zero zero zero.

Example heavy_w_limits :
  calculate_physics_lod_inertia_limits heavy_w_lod = Some ((4 / 10000)%Q, 4%Q).
Proof. reflexivity. Qed.

(** X7.  [calculate_physics_lod_inertia_limits] raises exactly when the
    LOD has no children.  Otherwise the largest inertia is one of the x, y
    and z components of the children's inertia tensors and no such
    component exceeds it, and the smallest inertia is the largest divided
    by 10000. *)
Theorem inertia_limits_largest lod :
  (calculate_physics_lod_inertia_limits lod = None ↔ children lod = []) ∧
  ∀ smallest largest,
    calculate_physics_lod_inertia_limits lod = Some (smallest, largest) →
    largest ∈ inertia_values lod ∧
    (∀ c, c ∈ children lod →
       (wx (inertia_tensor c) <= largest)%Q ∧ (wy (inertia_tensor c) <= largest)%Q ∧
       (wz (inertia_tensor c) <= largest)%Q) ∧
    smallest = (largest / 10000)%Q.
Proof.
  unfold calculate_physics_lod_inertia_limits, inertia_values. split.
  - destruct (children lod) as [|c cs]; [done|]. done.
  - intros smallest largest Hrun.
    destruct (py_max _) as [m|] eqn:Hmax; [|done]. injection Hrun as <- <-.
    apply py_max_spec in Hmax as [Hin Hle]. split_and!; [done| |done].
    intros c Hc.
    assert (∀ v, v ∈ [wx (inertia_tensor c); wy (inertia_tensor c); wz (inertia_tensor c)] →
                 (v <= m)%Q) as Hc3.
    { intros v Hv. apply Hle. apply list_elem_of_bind. by exists c. }
    split_and!; apply Hc3; [by left|by right; left|by right; right; left].
Qed.

Lemma inertia_limits_largest_witness :
  (4 # 1) ∈ inertia_values heavy_w_lod ∧
  (wx (inertia_tensor (mkChild 0 10 1 1 (mkV4 3 1 2 50))) <= 4)%Q.
Proof.
  destruct (inertia_limits_largest heavy_w_lod) as [_ Hspec].
  destruct (Hspec _ _ eq_refl) as (Hin & Hall & _).
  split; [exact Hin|]. apply (Hall (mkChild 0 10 1 1 (mkV4 3 1 2 50))). by left.
Defined.

(** *** [get_bone_group_index] and [create_phys_child_xmls] *)

(** The index of the first group named [bone_name], or -1. *)
Definition get_bone_group_index (lod : PhysicsLOD) (bone_name : string) : Z :=
  match list_find (λ g, name g = bone_name) (groups lod) with
  | Some (i, _) => Z.of_nat i
  | None => -1
  end.

(** A collision object linked to a bone, as [get_child_cols] lists them:
    the bone's name, [obj.child_properties.mass] and
    [col_obj_to_bound_index[obj]] ([None] when the object is no key). *)
Record ChildCollision := mkCol {
  col_bone_name : string;
  col_mass : Q;
  col_bound_index : option Z }.

(** [new_bounds_children[child_index] = bounds_children[bound_index]] *)
Definition reorder_step (bounds : list (option Bound))
    (new_bounds : list (option Bound)) (p : Z * nat) : option (list (option Bound)) :=
  b ← getitem bounds p.1; setitem new_bounds p.2 b.

(** The loop that reorders the bounds by the physics children. *)
Definition reorder_bounds (bounds : list (option Bound)) (pairs : list (Z * nat))
  : option (list (option Bound)) :=
  fold_leftM (reorder_step bounds) pairs (replicate (length bounds) None).

Section child_xmls.
(** [bones_xml[get_bone_index(frag_obj.data, bone) or 0].tag] for the bone of
    a given name, and [get_child_inertia] (which reads bound fields that are
    not modelled); [create_phys_child_drawable] does not touch the fields
    kept here. *)
Variable bone_tag_of : string → option Z.
Variable get_child_inertia : Archetype → Q → Z → Vector4.

(** One collision object; the state is [lod_xml.children] and
    [bound_index_to_child_index]. *)
Definition child_step (lod : PhysicsLOD)
    (st : list PhysicsChild * list (Z * nat)) (col : ChildCollision)
  : option (list PhysicsChild * list (Z * nat)) :=
  let child_index := length st.1 in
  bound_index ← col_bound_index col;
  tag ← bone_tag_of (col_bone_name col);
  let child_xml :=
    mkChild (get_bone_group_index lod (col_bone_name col)) tag
            (col_mass col) (col_mass col)
            (get_child_inertia (archetype lod) (col_mass col) bound_index) in
  Some (st.1 ++ [child_xml], st.2 ++ [(bound_index, child_index)]).

Definition create_phys_child_xmls (lod : PhysicsLOD) (cols : list ChildCollision)
  : option PhysicsLOD :=
  st ← fold_leftM (child_step lod) cols (children lod, []);
  new_bounds_children ← reorder_bounds (bounds_children (archetype lod)) st.2;
  Some (mkLOD (set_bounds_children (archetype lod) new_bounds_children)
              (groups lod) st.1 (transforms lod)
              (position_offset lod) (unknown_40 lod) (unknown_50 lod)).













End child_xmls.

(** Two groups and three bounds; the collision objects refer to the bounds
    2, 0 and 1. *)
Definition three_bound_lod : PhysicsLOD :=
  mkLOD (mkArchetype 0 0 zero zero
           [SortCols.bound_at 10; SortCols.bound_at 20; SortCols.bound_at 30])
        [mkGroup "root" 255 0; mkGroup "door" 0 0] [] [] zero zero zero.

Definition three_cols : list ChildCollision :=
  [mkCol "door" 2 (Some 2%Z); mkCol "root" 5 (Some 0%Z); mkCol "door" 1 (Some 1%Z)].

Example three_cols_children :
  (λ lod, (group_index <$> children lod, bounds_children (archetype lod)))
    <$> create_phys_child_xmls (λ _, Some 7%Z) (λ _ _ _, mkV4 0 0 0 0)
          three_bound_lod three_cols
  = Some ([1%Z; 0%Z; 1%Z],
          [SortCols.bound_at 30; SortCols.bound_at 10; SortCols.bound_at 20]).
Proof. reflexivity. Qed.


(** *** The glass flags of [set_group_xml_properties] *)

(** [for i in range(len(flags)): glass_flags |= (1 << i) if flags[i] else 0] *)
Definition glass_flags (flags : list bool) : Z :=
  fold_left (λ f (ib : nat * bool), Z.lor f (if ib.2 then Z.shiftl 1 (Z.of_nat ib.1) else 0)%Z)
            (enumerate flags) 0%Z.

Lemma enumerate_snoc {A} (l : list A) x :
  enumerate (l ++ [x]) = enumerate l ++ [(length l, x)].
Proof.
  unfold enumerate. rewrite length_app. simpl.
  replace (length l + 1) with (S (length l)) by lia.
  rewrite seq_S. by rewrite zip_with_app by (by rewrite length_seq).
Qed.

Lemma glass_flags_snoc flags b :
  glass_flags (flags ++ [b])
  = Z.lor (glass_flags flags) (if b then 2 ^ Z.of_nat (length flags) else 0)%Z.
Proof.
  unfold glass_flags. rewrite enumerate_snoc, fold_left_app. simpl.
  by rewrite Z.shiftl_1_l.
Qed.

Lemma glass_flags_range flags :
  (0 ≤ glass_flags flags < 2 ^ Z.of_nat (length flags))%Z.
Proof.
  induction flags as [|b flags IH] using rev_ind; [by vm_compute|].
  rewrite glass_flags_snoc, length_app. simpl.
  replace (Z.of_nat (length flags + 1)) with (Z.succ (Z.of_nat (length flags))) by lia.
  set (n := Z.of_nat (length flags)) in *.
  assert (0 < 2 ^ n)%Z by (apply Z.pow_pos_nonneg; lia).
  destruct b.
  - assert (0 ≤ Z.lor (glass_flags flags) (2 ^ n))%Z as Hnn by (apply Z.lor_nonneg; lia).
    split; [done|].
    assert (Z.lor (glass_flags flags) (2 ^ n) ≠ 0)%Z as Hnz.
    { intros [_ ?]%Z.lor_eq_0_iff. lia. }
    apply Z.log2_lt_pow2; [lia|]. rewrite Z.log2_lor by lia.
    rewrite Z.log2_pow2 by lia.
    destruct (Z.eq_dec (glass_flags flags) 0%Z) as [->|Hnz']; [simpl; lia|].
    assert (Z.log2 (glass_flags flags) < n)%Z by (apply Z.log2_lt_pow2; lia). lia.
  - rewrite Z.lor_0_r, Z.pow_succ_r by lia. lia.
Qed.

(** X9.  The glass flags pack the flag vector bit by bit: bit [i] of the
    result is [flags[i]], every bit from [len(flags)] on is clear, and so
    the value lies in [0, 2^len(flags)). *)
Theorem glass_flags_bits (flags : list bool) :
  (∀ i, Z.testbit (glass_flags flags) (Z.of_nat i) = default false (flags !! i)) ∧
  (0 ≤ glass_flags flags < 2 ^ Z.of_nat (length flags))%Z.
Proof.
  split; [|apply glass_flags_range].
  induction flags as [|b flags IH] using rev_ind; intros i.
  - by rewrite Z.bits_0.
  - rewrite glass_flags_snoc, Z.lor_spec, IH.
    destruct (decide (i < length flags)) as [Hlt|Hge].
    + rewrite lookup_app_l by done.
      replace (Z.testbit (if b then 2 ^ Z.of_nat (length flags) else 0)%Z (Z.of_nat i))
        with false; [by rewrite orb_false_r|].
      destruct b; [|by rewrite Z.bits_0].
      rewrite Z.pow2_bits_eqb by lia. symmetry. apply Z.eqb_neq. lia.
    + rewrite (lookup_ge_None_2 flags i) by lia. simpl.
      rewrite lookup_app_r by lia.
      destruct (decide (i = length flags)) as [->|Hne].
      * rewrite Nat.sub_diag. simpl. destruct b; [|by rewrite Z.bits_0].
        rewrite Z.pow2_bits_eqb by lia. by rewrite Z.eqb_refl.
      * rewrite lookup_ge_None_2 by (simpl; lia). simpl.
        destruct b; [|by rewrite Z.bits_0].
        rewrite Z.pow2_bits_eqb by lia. apply Z.eqb_neq. lia.
Qed.

(** *** The link attachments of [calculate_physics_lod_transforms] *)

Definition row_eq (a b : Vector4) : Prop :=
  (wx a == wx b ∧ wy a == wy b ∧ wz a == wz b ∧ ww a == ww b)%Q.

(** A row of a bound's composite transform, moved by the link center [c]:
    the center is subtracted in proportion to the row's fourth entry (which
    is 1 in the translation row of an affine transform and 0 in the other
    rows), and the fourth entry is cleared. *)
Definition shifted_row (c : Vector3) (r : Vector4) : Vector4 :=
  mkV4 (wx r - vx c * ww r) (wy r - vy c * ww r) (wz r - vz c * ww r) 0.

Lemma child_transform_rows lod cogs libg i child m :
  Links.child_transform lod cogs libg (i, child) = Some m →
  ∃ li c bound,
    getitem libg (group_index child) = Some li ∧
    getitem cogs li = Some c ∧
    bounds_children (archetype lod) !! i = Some bound ∧
    match bound with
    | None => m = mkMatrix (mkV4 1 0 0 0) (mkV4 0 1 0 0) (mkV4 0 0 1 0) (mkV4 0 0 0 0)
    | Some b =>
        row_eq (row0 m) (shifted_row c (row0 (composite_transform b))) ∧
        row_eq (row1 m) (shifted_row c (row1 (composite_transform b))) ∧
        row_eq (row2 m) (shifted_row c (row2 (composite_transform b))) ∧
        row_eq (row3 m) (shifted_row c (row3 (composite_transform b)))
    end.
Proof.
  unfold Links.child_transform. cbn [fst snd]. intros Hm.
  destruct (getitem libg (group_index child)) as [li|] eqn:Hli; [|done].
  cbn [mbind option_bind] in Hm.
  destruct (getitem cogs li) as [c|] eqn:Hc; [|done]. cbn [mbind option_bind] in Hm.
  destruct (bounds_children (archetype lod) !! i) as [bound|] eqn:Hb; [|done].
  cbn [mbind option_bind] in Hm. injection Hm as <-.
  exists li, c, bound. split_and!; try done.
  destruct bound as [[[[a0 a1 a2 a3] [b0 b1 b2 b3] [c0 c1 c2 c3] [d0 d1 d2 d3]] sc]|];
    [|reflexivity].
  destruct c as [cx cy cz].
  unfold row_eq, shifted_row; cbn; unfold dot4, column, transposed; cbn; repeat split; ring.
Qed.

(** X10.  When [calculate_physics_lod_transforms] returns, it has appended
    one transform per physics child, in order.  The transform of a child
    without a bound is the identity with its fourth column cleared; that of
    a child with a bound is the bound's composite transform with the center
    of gravity of the child's link subtracted from the translation row and
    the fourth column cleared. *)
Theorem child_transforms_offset frag frag' :
  Links.calculate_physics_lod_transforms frag = Some frag' →
  ∃ cogs links libg ts,
    Links.links_center_of_gravity frag = Some cogs ∧
    Links.form_links frag = Some (links, libg) ∧
    transforms (Links.lod1 frag') = transforms (Links.lod1 frag) ++ ts ∧
    length ts = length (children (Links.lod1 frag)) ∧
    children (Links.lod1 frag') = children (Links.lod1 frag) ∧
    ∀ i child, children (Links.lod1 frag) !! i = Some child →
      ∃ m li c bound,
        ts !! i = Some m ∧
        getitem libg (group_index child) = Some li ∧
        getitem cogs li = Some c ∧
        bounds_children (archetype (Links.lod1 frag)) !! i = Some bound ∧
        match bound with
        | None => m = mkMatrix (mkV4 1 0 0 0) (mkV4 0 1 0 0) (mkV4 0 0 1 0) (mkV4 0 0 0 0)
        | Some b =>
            row_eq (row0 m) (shifted_row c (row0 (composite_transform b))) ∧
            row_eq (row1 m) (shifted_row c (row1 (composite_transform b))) ∧
            row_eq (row2 m) (shifted_row c (row2 (composite_transform b))) ∧
            row_eq (row3 m) (shifted_row c (row3 (composite_transform b)))
        end.
Proof.
  unfold Links.calculate_physics_lod_transforms, Links.links_center_of_gravity,
    Links.form_links. cbv zeta. intros Hrun.
  destruct (Links.children_by_group (Links.lod1 frag)) as [cbg|]; [|done].
  cbn [mbind option_bind] in *.
  destruct (Links.form_links_from frag cbg) as [[links libg]|]; [|done].
  cbn [mbind option_bind fst snd] in *.
  destruct (Links.links_center_of_gravity_from _ cbg links) as [cogs|]; [|done].
  cbn [mbind option_bind] in *.
  destruct (cogs !! 0) as [root|]; [|done]. cbn [mbind option_bind] in *.
  destruct (mapM _ _) as [ts|] eqn:Hts; [|done]. cbn [mbind option_bind] in *.
  injection Hrun as <-. exists cogs, links, libg, ts. cbn [Links.lod1 transforms children].
  split_and!; try done.
  - apply length_mapM in Hts. by rewrite <- Hts, enumerate_length.
  - intros i child Hi. apply mapM_Some in Hts.
    destruct (Forall2_lookup_l _ _ _ i (i, child) Hts) as (m & Hm & Hstep).
    { by apply enumerate_lookup_Some. }
    destruct (child_transform_rows _ _ _ _ _ _ Hstep) as (li & c & bound & ? & ? & ? & ?).
    by exists m, li, c, bound.
Qed.

Lemma child_transforms_offset_witness :
  ∃ frag' ts,
    Links.calculate_physics_lod_transforms Links.two_child_frag = Some frag' ∧
    transforms (Links.lod1 frag') = transforms (Links.lod1 Links.two_child_frag) ++ ts ∧
    length ts = 2.
Proof.
  destruct (Links.calculate_physics_lod_transforms Links.two_child_frag) as [frag'|] eqn:Hrun;
    [|discriminate Hrun].
  destruct (child_transforms_offset _ _ Hrun) as (_ & _ & _ & ts & _ & _ & Hts & Hlen & _).
  exists frag', ts. split; [reflexivity|]. split; [exact Hts|exact Hlen].
Defined.

End Physics.

(** ** The exported cloth as a whole ([yft/yftexport.py],
       [yft/cloth_overlays.py], [yft/cloth_operators.py]) *)

Module ClothExport.
Import Model Py Vec Cloth.

(** *** Facts about the pieces *)

Lemma qmin_le a b : (qmin a b <= a ∧ qmin a b <= b)%Q.
Proof.
  unfold qmin. destruct (Qle_bool a b) eqn:Hab.
  - apply Qle_bool_iff in Hab. split; [apply Qle_refl|done].
  - split; [|apply Qle_refl].
    apply Qlt_le_weak, Qnot_le_lt. intros Hle. apply Qle_bool_iff in Hle. congruence.
Qed.

Lemma qmax_ge a b : (a <= qmax a b ∧ b <= qmax a b)%Q.
Proof.
  unfold qmax. destruct (Qle_bool a b) eqn:Hab.
  - apply Qle_bool_iff in Hab. split; [done|apply Qle_refl].
  - split; [apply Qle_refl|].
    apply Qlt_le_weak, Qnot_le_lt. intros Hle. apply Qle_bool_iff in Hle. congruence.
Qed.

(** [lo] is below and [hi] above [p] in every coordinate. *)
Definition inside (lo hi p : Vector3) : Prop :=
  (vx lo <= vx p <= vx hi ∧ vy lo <= vy p <= vy hi ∧ vz lo <= vz p <= vz hi)%Q.

Lemma fold_min_below rest : ∀ v,
  let m := fold_left (λ m x, mkV3 (qmin (vx m) (vx x)) (qmin (vy m) (vy x))
                                  (qmin (vz m) (vz x))) rest v in
  (vx m <= vx v ∧ vy m <= vy v ∧ vz m <= vz v)%Q ∧
  ∀ p, p ∈ rest → (vx m <= vx p ∧ vy m <= vy p ∧ vz m <= vz p)%Q.
Proof.
  induction rest as [|x rest IH]; intros v; cbv zeta.
  - simpl. split; [repeat split; apply Qle_refl|]. by intros p ?%elem_of_nil.
  - cbn [fold_left].
    destruct (IH (mkV3 (qmin (vx v) (vx x)) (qmin (vy v) (vy x)) (qmin (vz v) (vz x))))
      as [(Hx & Hy & Hz) Hrest]. cbn [vx vy vz] in Hx, Hy, Hz.
    pose proof (qmin_le (vx v) (vx x)) as [? ?].
    pose proof (qmin_le (vy v) (vy x)) as [? ?].
    pose proof (qmin_le (vz v) (vz x)) as [? ?].
    split.
    + split_and!; eapply Qle_trans; done.
    + intros p [->|Hp]%elem_of_cons; [|by apply Hrest].
      split_and!; eapply Qle_trans; done.
Qed.

Lemma fold_max_above rest : ∀ v,
  let m := fold_left (λ m x, mkV3 (qmax (vx m) (vx x)) (qmax (vy m) (vy x))
                                  (qmax (vz m) (vz x))) rest v in
  (vx v <= vx m ∧ vy v <= vy m ∧ vz v <= vz m)%Q ∧
  ∀ p, p ∈ rest → (vx p <= vx m ∧ vy p <= vy m ∧ vz p <= vz m)%Q.
Proof.
  induction rest as [|x rest IH]; intros v; cbv zeta.
  - simpl. split; [repeat split; apply Qle_refl|]. by intros p ?%elem_of_nil.
  - cbn [fold_left].
    destruct (IH (mkV3 (qmax (vx v) (vx x)) (qmax (vy v) (vy x)) (qmax (vz v) (vz x))))
      as [(Hx & Hy & Hz) Hrest]. cbn [vx vy vz] in Hx, Hy, Hz.
    pose proof (qmax_ge (vx v) (vx x)) as [? ?].
    pose proof (qmax_ge (vy v) (vy x)) as [? ?].
    pose proof (qmax_ge (vz v) (vz x)) as [? ?].
    split.
    + split_and!; eapply Qle_trans; done.
    + intros p [->|Hp]%elem_of_cons; [|by apply Hrest].
      split_and!; eapply Qle_trans; done.
Qed.

Lemma bounding_box_inside vs lo hi :
  bounding_box vs = Some (lo, hi) → ∀ p, p ∈ vs → inside lo hi p.
Proof.
  destruct vs as [|v rest]; [done|]. intros [= <- <-] p Hp.
  destruct (fold_min_below rest v) as [(? & ? & ?) Hmin].
  destruct (fold_max_above rest v) as [(? & ? & ?) Hmax].
  apply elem_of_cons in Hp as [->|Hp].
  - by repeat split.
  - destruct (Hmin p Hp) as (? & ? & ?). destruct (Hmax p Hp) as (? & ? & ?).
    by repeat split.
Qed.

(** The sorted edge list in terms of the buckets that were used. *)
Lemma sort_edges_used edges :
  ∃ used,
    sort_edges edges = concat (pad <$> used) ∧ concat used ≡ₚ edges ∧
    Forall (λ b, length b ≤ MAX_EDGES_IN_BUCKET) used.
Proof.
  destruct (buckets_after_inv edges edges []) as (used & [Hb Hl _ Hp Hu]);
    [by rewrite app_nil_r|].
  exists used. split_and!; [|done|].
  - unfold sort_edges. cbv zeta. rewrite Hb, Hl.
    replace (Z.to_nat (Z.of_nat (length used) - 1 + 1)) with (length used) by lia.
    by rewrite take_app_length.
  - eapply Forall_impl; [exact Hu|]. intros b [? _]. lia.
Qed.

Lemma sort_edges_elem_of edges e :
  e ∈ sort_edges edges → e ∈ edges ∨ e = dummy_edge.
Proof.
  destruct (sort_edges_used edges) as (used & -> & Hperm & Hshort).
  intros (l & (b & -> & Hb)%list_elem_of_fmap & He)%elem_of_concat.
  rewrite Forall_forall in Hshort. rewrite pad_short in He by by apply Hshort.
  apply elem_of_app in He as [He|He].
  - left. rewrite <- Hperm. apply elem_of_concat. by exists b.
  - right. by apply elem_of_replicate in He as [-> _].
Qed.

Lemma real_edges_kept edges e : e ∈ edges → e ∈ sort_edges edges.
Proof.
  destruct (sort_edges_used edges) as (used & -> & Hperm & Hshort).
  rewrite <- Hperm. intros (b & Hb & He)%elem_of_concat.
  apply elem_of_concat. exists (pad b). split; [by apply list_elem_of_fmap_2|].
  rewrite Forall_forall in Hshort. rewrite pad_short by by apply Hshort.
  apply elem_of_app. by left.
Qed.

Lemma cloth_index_lt pinned i : i < length pinned → cloth_index pinned i < length pinned.
Proof.
  intros Hi. pose proof (cloth_index_lookup pinned i Hi) as Hl.
  apply lookup_lt_Some in Hl. rewrite length_app in Hl.
  pose proof (pinned_unpinned_length pinned (replicate (length pinned) zero)) as Hsum.
  rewrite length_replicate in Hsum. specialize (Hsum eq_refl (length pinned)). lia.
Qed.

(** *** The bridge arrays *)

Example five_vertex_bridge :
  create_bridge five_vertex_mesh five_vertex_attrs
  = Some (mkBridge 5 [11; 13; 10; 12; 14]%Q [21; 23; 20; 22; 24]%Q
                   [31; 33; 30; 32; 34]%Q [0%Z]).
Proof. reflexivity. Qed.

Lemma gather_Some values (idxs : list nat) :
  (∀ i, i ∈ idxs → i < length values) →
  ∃ out, gather values (Some <$> idxs) = Some out ∧
         length out = length idxs ∧
         ∀ j i, idxs !! j = Some i → out !! j = values !! i.
Proof.
  intros Hlt. unfold gather.
  destruct (mapM_is_Some_2 (λ mi : option nat, mi ≫= λ i, values !! i) (Some <$> idxs))
    as [out Hout].
  - apply Forall_fmap, Forall_forall. intros i Hi. simpl.
    by apply lookup_lt_is_Some_2, Hlt.
  - exists out. split; [done|]. split.
    + apply length_mapM in Hout. by rewrite <- Hout, length_fmap.
    + intros j i Hj. apply mapM_Some in Hout.
      destruct (Forall2_lookup_l _ _ _ j (Some i) Hout) as (x & Hx & Hstep).
      { by rewrite list_lookup_fmap, Hj. }
      simpl in Hstep. by rewrite Hx, Hstep.
Qed.

Lemma pinnable_size_bounds n :
  n ≤ 32 * pinnable_size n ∧ 32 * pinnable_size n < n + 32.
Proof.
  unfold pinnable_size. set (x := (inject_Z (Z.of_nat n) / 32)%Q).
  pose proof (Qle_ceiling x) as Hle. pose proof (Qceiling_lt x) as Hlt.
  revert Hle Hlt. generalize (Qceiling x). intros c Hle Hlt.
  unfold x, Qle, Qlt, Qdiv, Qmult, Qinv, inject_Z in Hle, Hlt. simpl in Hle, Hlt. lia.
Qed.

(** X12.  The bridge arrays follow the vertex reindexing: on a mesh with
    one PINNED value per vertex and at least one value per vertex in each
    attribute, [pin_radius_high], [vertex_weights_high] and
    [inflation_scale_high] have one entry per vertex, and the entry at the
    cloth index of mesh vertex [i] is the attribute's value at [i]; the
    pinnable list is zero-filled and has the least number of 32-bit words
    that hold one bit per vertex. *)
Theorem bridge_follows_vertices mesh attrs :
  let n := length (vertices_co mesh) in
  length (pinned_values mesh) = n →
  n ≤ length (pin_radius attrs) → n ≤ length (vertex_weights attrs) →
  n ≤ length (inflation_scale attrs) →
  ∃ bridge,
    create_bridge mesh attrs = Some bridge ∧
    bridge_vertex_count_high bridge = n ∧
    length (pin_radius_high bridge) = n ∧
    length (vertex_weights_high bridge) = n ∧
    length (inflation_scale_high bridge) = n ∧
    (∀ i, i < n →
       pin_radius_high bridge !! cloth_index (pinned_array mesh) i = pin_radius attrs !! i ∧
       vertex_weights_high bridge !! cloth_index (pinned_array mesh) i
       = vertex_weights attrs !! i ∧
       inflation_scale_high bridge !! cloth_index (pinned_array mesh) i
       = inflation_scale attrs !! i) ∧
    Forall (λ w, w = 0%Z) (pinnable_list bridge) ∧
    n ≤ 32 * length (pinnable_list bridge) ∧ 32 * length (pinnable_list bridge) < n + 32.
Proof.
  cbv zeta. intros Hlen Hpr Hvw Hsc. unfold create_bridge.
  rewrite (reindex_vertices_final mesh Hlen). cbn [mbind option_bind cloth_to_mesh_vertex_map].
  pose proof (pinned_array_length mesh Hlen) as Hpl.
  set (n := length (vertices_co mesh)) in *. set (pinned := pinned_array mesh) in *.
  set (c2m := pinned_indices pinned n ++ unpinned_indices pinned n).
  assert (∀ i, i ∈ c2m → i < n) as Hc2m.
  { intros i (j & Hj)%list_elem_of_lookup. unfold c2m in Hj. rewrite <- Hpl in Hj.
    apply cloth_index_inv in Hj as [Hi _]. lia. }
  assert (length c2m = n) as Hc2m_len.
  { unfold c2m. rewrite length_app. by apply (pinned_unpinned_length pinned (vertices_co mesh)). }
  assert (∀ i, i < n → c2m !! cloth_index pinned i = Some i) as Hidx.
  { intros i Hi. unfold c2m. rewrite <- Hpl. apply cloth_index_lookup. lia. }
  destruct (gather_Some (pin_radius attrs) c2m) as (pr & -> & Lpr & Epr);
    [intros i Hi%Hc2m; lia|].
  destruct (gather_Some (vertex_weights attrs) c2m) as (vw & -> & Lvw & Evw);
    [intros i Hi%Hc2m; lia|].
  destruct (gather_Some (inflation_scale attrs) c2m) as (sc & -> & Lsc & Esc);
    [intros i Hi%Hc2m; lia|].
  cbn [mbind option_bind]. eexists. split; [reflexivity|].
  cbn [bridge_vertex_count_high pin_radius_high vertex_weights_high inflation_scale_high
       pinnable_list].
  rewrite length_replicate. destruct (pinnable_size_bounds n) as [Hlo Hhi].
  split_and!; try done; try lia.
  - intros i Hi. split_and!; [apply Epr|apply Evw|apply Esc]; by apply Hidx.
  - apply Forall_forall. by intros w [-> _]%elem_of_replicate.
Qed.

Lemma bridge_follows_vertices_witness :
  ∃ bridge,
    create_bridge five_vertex_mesh five_vertex_attrs = Some bridge ∧
    pin_radius_high bridge !! cloth_index (pinned_array five_vertex_mesh) 3
    = pin_radius five_vertex_attrs !! 3.
Proof.
  destruct (bridge_follows_vertices five_vertex_mesh five_vertex_attrs)
    as (bridge & Hrun & _ & _ & _ & _ & Hat & _).
  - reflexivity.
  - simpl. lia.
  - simpl. lia.
  - simpl. lia.
  - exists bridge. split; [exact Hrun|]. apply Hat. simpl. lia.
Defined.

(** *** The display map *)

(** Two cloth vertices closer to each other than the tolerance: a mesh
    vertex at the second is mapped to the first. *)
Example display_map_first_match :
  display_map [mkV3 (1 / 2000) 0 0; mkV3 1 0 0] [mkV3 0 0 0; mkV3 (1 / 2000) 0 0; mkV3 1 0 0]
  = Some [0%Z; 2%Z].
Proof. reflexivity. Qed.

Lemma close_entry_refl a : close_entry a a = true.
Proof.
  unfold close_entry. apply Qle_bool_iff.
  assert (Qabs (a - a) == 0)%Q as ->.
  { assert (a - a == 0)%Q as -> by ring. reflexivity. }
  pose proof (Qabs_nonneg a) as Ha.
  apply Qle_trans with (1 / 1000 + 1 / 100000 * 0)%Q; [by vm_compute|].
  apply Qplus_le_r. apply Qmult_le_l; [reflexivity|done].
Qed.

Lemma allclose_refl v : allclose v v = true.
Proof. unfold allclose. by rewrite !close_entry_refl. Qed.

(** X13.  The display map has one entry per vertex-buffer position: the
    index of the first cloth vertex within the tolerance of [np.allclose]
    (not the nearest one).  The assertion fails exactly when some position
    has no cloth vertex within the tolerance, which cannot happen when
    every position is itself a cloth vertex position. *)
Theorem display_map_first_close mesh_positions cloth_positions :
  (∀ dm, display_map mesh_positions cloth_positions = Some dm →
     length dm = length mesh_positions ∧
     ∀ i v, mesh_positions !! i = Some v →
       ∃ j c, dm !! i = Some (Z.of_nat j) ∧ cloth_positions !! j = Some c ∧
              allclose v c = true ∧
              ∀ j' c', j' < j → cloth_positions !! j' = Some c' → allclose v c' = false) ∧
  (display_map mesh_positions cloth_positions = None ↔
   ∃ v, v ∈ mesh_positions ∧ ∀ c, c ∈ cloth_positions → allclose v c = false) ∧
  ((∀ v, v ∈ mesh_positions → v ∈ cloth_positions) →
   is_Some (display_map mesh_positions cloth_positions)).
Proof.
  assert (∀ v, matching_cloth_vertex cloth_positions v = None ↔
               ∀ c, c ∈ cloth_positions → allclose v c = false) as Hnone.
  { intros v. unfold matching_cloth_vertex.
    rewrite fmap_None, list_find_None, Forall_forall.
    split; intros H c Hc; specialize (H c Hc); by destruct (allclose v c). }
  split_and!.
  - intros dm Hdm. split.
    { apply length_mapM in Hdm. done. }
    intros i v Hi. apply mapM_Some in Hdm.
    destruct (Forall2_lookup_l _ _ _ i v Hdm Hi) as (z & Hz & Hstep).
    unfold matching_cloth_vertex in Hstep.
    destruct (list_find _ cloth_positions) as [[j c]|] eqn:Hfind; [|done].
    simpl in Hstep. injection Hstep as <-.
    apply list_find_Some in Hfind as (Hj & Hc & Hfirst).
    exists j, c. split_and!; try done.
    intros j' c' Hlt Hj'. specialize (Hfirst j' c' Hj' Hlt). by destruct (allclose v c').
  - unfold display_map. rewrite mapM_None, Exists_exists.
    split; intros (v & Hv & Hnot); exists v; split; try done.
    + apply Hnone. by destruct (matching_cloth_vertex cloth_positions v).
    + by rewrite (proj2 (Hnone v) Hnot).
  - intros Hsub. apply mapM_is_Some, Forall_forall. intros v Hv. unfold compose.
    destruct (matching_cloth_vertex cloth_positions v) as [j|] eqn:Hj; [by eexists|].
    pose proof (proj1 (Hnone v) Hj v (Hsub v Hv)) as Hself.
    by rewrite allclose_refl in Hself.
Qed.

Lemma display_map_first_close_witness :
  is_Some (display_map [mkV3 1 0 0; mkV3 0 0 0] [mkV3 0 0 0; mkV3 1 0 0]).
Proof.
  apply (display_map_first_close [mkV3 1 0 0; mkV3 0 0 0] [mkV3 0 0 0; mkV3 1 0 0]).
  intros v Hv. apply elem_of_cons in Hv as [->|Hv]; [by right; left|].
  apply list_elem_of_singleton in Hv as ->. by left.
Defined.

(** *** The function as a whole *)

Lemma gather_runs values (idxs : list nat) :
  is_Some (gather values (Some <$> idxs)) ↔ ∀ i, i ∈ idxs → i < length values.
Proof.
  split.
  - intros [out Hout] i Hi. unfold gather in Hout. apply mapM_Some in Hout.
    apply list_elem_of_lookup in Hi as [j Hj].
    destruct (Forall2_lookup_l _ _ _ j (Some i) Hout) as (x & _ & Hx).
    { by rewrite list_lookup_fmap, Hj. }
    cbn in Hx. by eapply lookup_lt_Some.
  - intros Hlt. destruct (gather_Some values idxs Hlt) as (out & -> & _). by eexists.
Qed.

(** The bridge can be filled exactly when each attribute has a value for
    every vertex. *)
Lemma bridge_runs mesh attrs :
  let n := length (vertices_co mesh) in
  length (pinned_values mesh) = n → 0 < n →
  (is_Some (create_bridge mesh attrs)
   ↔ n ≤ length (pin_radius attrs) ∧ n ≤ length (vertex_weights attrs)
     ∧ n ≤ length (inflation_scale attrs)).
Proof.
  intros n Hlen Hpos. unfold create_bridge.
  rewrite (reindex_vertices_final mesh Hlen). cbn [mbind option_bind cloth_to_mesh_vertex_map].
  pose proof (pinned_array_length mesh Hlen) as Hpl. fold n in Hpl.
  set (c2m := pinned_indices (pinned_array mesh) n ++ unpinned_indices (pinned_array mesh) n).
  assert (∀ values, is_Some (gather values (Some <$> c2m)) ↔ n ≤ length values) as Hg.
  { intros values. rewrite gather_runs. split.
    - intros Hall. assert (n - 1 ∈ c2m) as Hin.
      { apply (list_elem_of_lookup_2 _ (cloth_index (pinned_array mesh) (n - 1))).
        unfold c2m. rewrite <- Hpl. apply cloth_index_lookup. lia. }
      specialize (Hall _ Hin). lia.
    - intros Hle i (j & Hj)%list_elem_of_lookup. unfold c2m in Hj. rewrite <- Hpl in Hj.
      apply cloth_index_inv in Hj as [Hi _]. lia. }
  rewrite <- !Hg.
  destruct (gather (pin_radius attrs) _) as [pr|]; cbn [mbind option_bind];
    [|split; [by intros []|by intros ([] & _)]].
  destruct (gather (vertex_weights attrs) _) as [vw|]; cbn [mbind option_bind];
    [|split; [by intros []|by intros (_ & [] & _)]].
  destruct (gather (inflation_scale attrs) _) as [sc|]; cbn [mbind option_bind];
    [|split; [by intros []|by intros (_ & _ & [])]].
  split; [intros _; split_and!; by eexists|by eexists].
Qed.

(** The cloth vertices are the mesh vertices, in another order. *)
Lemma cloth_positions_elem mesh c :
  let n := length (vertices_co mesh) in
  let pinned := pinned_array mesh in
  length (pinned_values mesh) = n →
  c ∈ rest_position mesh <$> pinned_indices pinned n ++ unpinned_indices pinned n
  ↔ c ∈ vertices_co mesh.
Proof.
  intros n pinned Hlen. pose proof (pinned_array_length mesh Hlen) as Hpl.
  fold n pinned in Hpl. rewrite list_elem_of_fmap. split.
  - intros (i & -> & (j & Hj)%list_elem_of_lookup). rewrite <- Hpl in Hj.
    apply cloth_index_inv in Hj as [Hi _]. unfold rest_position.
    destruct (lookup_lt_is_Some_2 (vertices_co mesh) i) as [v Hv]; [fold n; lia|].
    rewrite Hv. by eapply list_elem_of_lookup_2.
  - intros (i & Hi)%list_elem_of_lookup. exists i. split.
    + unfold rest_position. by rewrite Hi.
    + apply (list_elem_of_lookup_2 _ (cloth_index pinned i)).
      rewrite <- Hpl. apply cloth_index_lookup. apply lookup_lt_Some in Hi.
      fold n in Hi. lia.
Qed.

(** The display map exists exactly when every position is close to some
    cloth vertex. *)
Lemma display_map_runs mesh_positions cloth_positions :
  is_Some (display_map mesh_positions cloth_positions)
  ↔ ∀ v, v ∈ mesh_positions → ∃ c, c ∈ cloth_positions ∧ allclose v c = true.
Proof.
  unfold display_map. rewrite mapM_is_Some, Forall_forall.
  assert (∀ v, is_Some (Z.of_nat <$> matching_cloth_vertex cloth_positions v)
               ↔ ∃ c, c ∈ cloth_positions ∧ allclose v c = true) as Hone.
  { intros v. unfold matching_cloth_vertex. rewrite !fmap_is_Some. split.
    - intros [[j c] Hfind]. apply list_find_Some in Hfind as (Hj & Hc & _).
      exists c. split; [by eapply list_elem_of_lookup_2|done].
    - intros (c & Hin & Hc).
      destruct (list_find (λ c, allclose v c = true) cloth_positions) as [jc|] eqn:Hfind;
        [by eexists|].
      rewrite list_find_None, Forall_forall in Hfind. by destruct (Hfind c Hin). }
  split; intros Hall v Hv; apply Hone; by apply Hall.
Qed.

(** The run of [create_frag_env_cloth] on a mesh that passes the vertex
    checks, in terms of the pieces. *)
Lemma env_cloth_run (CLOTH_MAX_VERTICES : nat) cloth_obj others :
  let mesh := obj_mesh cloth_obj in
  let n := length (vertices_co mesh) in
  let pinned := pinned_array mesh in
  let added := fold_left (emit mesh) (concat (sides <$> loop_triangles mesh)) [] in
  let positions := rest_position mesh <$> pinned_indices pinned n ++ unpinned_indices pinned n in
  well_formed mesh → 0 < n → n ≤ CLOTH_MAX_VERTICES →
  ∃ lo hi log,
    bounding_box positions = Some (lo, hi) ∧
    create_frag_env_cloth CLOTH_MAX_VERTICES (cloth_obj :: others)
    = filled ← create_bridge mesh (obj_attrs cloth_obj);
      match obj_bone cloth_obj with
      | None => Some (None, log ++ [NotAttachedToBoneError (obj_name cloth_obj)])
      | Some bone =>
          geometry ← obj_geometries cloth_obj !! 0;
          parent_is_drawable ← obj_parent_is_drawable cloth_obj;
          _ ← py_assert parent_is_drawable;
          dm ← display_map geometry positions;
          Some (Some (mkEnvironmentCloth n positions lo hi
                        (sort_edges (edge_for mesh <$> added))
                        (num_pinned pinned) bone filled dm), log)
      end.
Proof.
  cbv zeta. unfold create_frag_env_cloth. cbv zeta.
  generalize (obj_attrs cloth_obj) (obj_mesh cloth_obj). intros attrs mesh [Hlen Htri] Hpos Hle.
  apply Nat.ltb_ge in Hle. rewrite Hle.
  rewrite (reindex_vertices_final mesh Hlen). cbn [mbind option_bind].
  destruct (bounding_box (rest_position mesh <$> _)) as [[lo hi]|] eqn:Hbb.
  - exists lo, hi. eexists. split; [done|].
    destruct (create_bridge mesh attrs) as [filled|]; [|done]. cbn [mbind option_bind].
    unfold edge_loop. cbn [mesh_to_cloth_vertex_map vertices].
    pose proof (edge_loop_emit mesh Hlen _ [] Htri) as Hloop.
    change (edge_for mesh <$> []) with (@nil VerletClothEdge) in Hloop.
    rewrite Hloop. cbn [mbind option_bind fst].
    rewrite mapM_id_Some. cbn [mbind option_bind]. rewrite Hbb.
    cbn [mbind option_bind fst snd]. reflexivity.
  - exfalso. destruct (rest_position mesh <$> _) as [|v vs] eqn:Hvs; [|done].
    apply (f_equal length) in Hvs. rewrite length_fmap, length_app in Hvs.
    pose proof (pinned_unpinned_length _ _ (pinned_array_length mesh Hlen)
                  (length (vertices_co mesh)) ltac:(done)) as Hsum.
    simpl in Hvs. lia.
Qed.

(** X11.  For a well-formed, non-empty cloth mesh within the vertex limit,
    [create_frag_env_cloth] returns a cloth exactly when each of the three
    bridge attributes has a value for every vertex, the object is attached
    to a bone, its parent is a drawable, and its model has a first geometry
    every vertex-buffer position of which is within the tolerance of some
    mesh vertex.  For every cloth it returns: the vertex count, the number
    of positions and the mesh's vertex count agree; the pinned count is the
    number of pinned vertices and at most the vertex count; every edge of
    the list, dummy edges included, joins two valid vertex indices; the
    number of edges is a multiple of 8; every edge made from a triangle
    side is in the list, and the list holds nothing else but dummy edges;
    every position lies inside the bounding box; the bridge is the one
    filled from the attributes; and the display map is the one of the first
    geometry. *)
Theorem env_cloth_output_valid (CLOTH_MAX_VERTICES : nat) cloth_obj others :
  let mesh := obj_mesh cloth_obj in
  let attrs := obj_attrs cloth_obj in
  let n := length (vertices_co mesh) in
  let result := create_frag_env_cloth CLOTH_MAX_VERTICES (cloth_obj :: others) in
  well_formed mesh → 0 < n → n ≤ CLOTH_MAX_VERTICES →
  ((∃ cloth log, result = Some (Some cloth, log)) ↔
     (n ≤ length (pin_radius attrs) ∧ n ≤ length (vertex_weights attrs)
      ∧ n ≤ length (inflation_scale attrs)) ∧
     is_Some (obj_bone cloth_obj) ∧
     obj_parent_is_drawable cloth_obj = Some true ∧
     ∃ geometry, obj_geometries cloth_obj !! 0 = Some geometry ∧
                 ∀ v, v ∈ geometry → ∃ c, c ∈ vertices_co mesh ∧ allclose v c = true) ∧
  ∀ cloth log, result = Some (Some cloth, log) →
    ∃ built geometry,
      build_edges mesh = Some built ∧
      vertex_count_high cloth = n ∧ length (vertex_positions cloth) = n ∧
      pinned_vertices_count cloth = num_pinned (pinned_array mesh) ∧
      pinned_vertices_count cloth ≤ n ∧
      (∀ e, e ∈ edges cloth → vertex0 e < n ∧ vertex1 e < n) ∧
      (∃ k, length (edges cloth) = 8 * k) ∧
      (∀ e, e ∈ built.1 → e ∈ edges cloth) ∧
      (∀ e, e ∈ edges cloth → e ∈ built.1 ∨ e = dummy_edge) ∧
      (∀ p, p ∈ vertex_positions cloth → inside (bb_min cloth) (bb_max cloth) p) ∧
      obj_bone cloth_obj = Some (bone_index cloth) ∧
      create_bridge mesh attrs = Some (bridge cloth) ∧
      obj_geometries cloth_obj !! 0 = Some geometry ∧
      display_map geometry (vertex_positions cloth) = Some (display_map_high cloth) ∧
      length (display_map_high cloth) = length geometry.
Proof.
  cbv zeta. intros Hwf Hpos Hle.
  destruct (env_cloth_run CLOTH_MAX_VERTICES cloth_obj others Hwf Hpos Hle)
    as (lo & hi & log0 & Hbb & Hrun).
  rewrite Hrun. clear Hrun.
  pose proof (bridge_runs (obj_mesh cloth_obj) (obj_attrs cloth_obj) (proj1 Hwf) Hpos)
    as Hbridge.
  pose proof (λ c, cloth_positions_elem (obj_mesh cloth_obj) c (proj1 Hwf)) as Helem.
  cbv zeta in Hbridge, Helem.
  revert Hwf Hpos Hle Hbb Hbridge Helem.
  generalize (obj_attrs cloth_obj) (obj_mesh cloth_obj).
  intros attrs mesh Hwf Hpos Hle Hbb Hbridge Helem.
  set (positions := rest_position mesh <$> _) in *.
  split.
  - rewrite <- Hbridge. split.
    + intros (cloth & log & Hrun).
      destruct (create_bridge mesh attrs) as [filled|]; [|done].
      cbn [mbind option_bind] in Hrun.
      destruct (obj_bone cloth_obj) as [bone|]; [|done].
      destruct (obj_geometries cloth_obj !! 0) as [geometry|]; [|done].
      cbn [mbind option_bind] in Hrun.
      destruct (obj_parent_is_drawable cloth_obj) as [[]|]; [|done..].
      cbn [mbind option_bind py_assert] in Hrun.
      destruct (display_map geometry positions) as [dm|] eqn:Hdm; [|done].
      split_and!; [by eexists|by eexists|done|].
      exists geometry. split; [done|]. intros v Hv.
      destruct (proj1 (display_map_runs geometry positions) ltac:(by eexists) v Hv)
        as (c & Hc & Hclose).
      exists c. split; [by apply Helem|done].
    + intros ([filled Hfilled] & [bone Hbone] & Hparent & geometry & Hgeometry & Hclose).
      rewrite Hfilled, Hbone, Hgeometry, Hparent. cbn [mbind option_bind py_assert].
      destruct (proj2 (display_map_runs geometry positions)) as [dm Hdm].
      { intros v Hv. destruct (Hclose v Hv) as (c & Hc & Hvc).
        exists c. split; [by apply Helem|done]. }
      rewrite Hdm. cbn [mbind option_bind]. by eexists _, _.
  - intros cloth log Hrun.
    destruct (create_bridge mesh attrs) as [filled|]; [|done].
    cbn [mbind option_bind] in Hrun.
    destruct (obj_bone cloth_obj) as [bone|]; [|done].
    destruct (obj_geometries cloth_obj !! 0) as [geometry|]; [|done].
    cbn [mbind option_bind] in Hrun.
    destruct (obj_parent_is_drawable cloth_obj) as [[]|]; [|done..].
    cbn [mbind option_bind py_assert] in Hrun.
    destruct (display_map geometry positions) as [dm|] eqn:Hdm; [|done].
    cbn [mbind option_bind] in Hrun. simplify_eq.
    pose proof (build_edges_run mesh Hwf) as Hbuilt.
    destruct Hwf as [Hlen Htri].
    pose proof (pinned_array_length mesh Hlen) as Hpl.
    pose proof (pinned_unpinned_length _ _ Hpl (length (vertices_co mesh)) ltac:(done)) as Hsum.
    eexists _, geometry. split; [exact Hbuilt|].
    cbn [vertex_count_high vertex_positions pinned_vertices_count edges bb_min bb_max
         bone_index bridge display_map_high fst].
    split_and!; try done.
    + unfold positions. by rewrite length_fmap, length_app.
    + rewrite num_pinned_indices, Hpl. lia.
    + intros e [He| ->]%sort_edges_elem_of; [|by simpl].
      apply list_elem_of_fmap in He as ([a b] & -> & Hab).
      destruct (emit_ok mesh (concat (sides <$> loop_triangles mesh))) as [Hfrom _ _ _ _ _].
      destruct (Htri _ (Hfrom _ Hab)) as [Ha Hb]. cbn [fst snd] in Ha, Hb.
      unfold edge_for. cbn [vertex0 vertex1 fst snd]. rewrite <- Hpl in Ha, Hb |- *.
      split; by apply cloth_index_lt.
    + destruct (sort_edges_used (edge_for mesh <$>
          fold_left (emit mesh) (concat (sides <$> loop_triangles mesh)) []))
        as (used & -> & _ & _).
      exists (length used). by rewrite padded_length.
    + intros e He. by apply real_edges_kept.
    + intros e He. by apply sort_edges_elem_of.
    + intros p Hp. by eapply bounding_box_inside.
    + by apply length_mapM in Hdm.
Qed.

Lemma env_cloth_output_valid_witness :
  ∃ cloth log,
    create_frag_env_cloth 5 [five_vertex_cloth] = Some (Some cloth, log) ∧
    (∀ e, e ∈ edges cloth → vertex0 e < 5 ∧ vertex1 e < 5) ∧
    length (display_map_high cloth) = 5.
Proof.
  destruct (env_cloth_output_valid 5 five_vertex_cloth []) as [Hreturns Hvalid].
  - exact five_vertex_well_formed.
  - simpl. lia.
  - simpl. lia.
  - destruct (proj2 Hreturns) as (cloth & log & Hrun).
    + split; [simpl; lia|]. split; [by eexists|]. split; [reflexivity|].
      eexists. split; [reflexivity|]. intros v Hv. exists v. split; [exact Hv|].
      apply allclose_refl.
    + exists cloth, log. split; [exact Hrun|].
      destruct (Hvalid cloth log Hrun)
        as (built & geometry & _ & _ & _ & _ & _ & Hedges & _ & _ & _ & _ & _ & _ & Hg & _ & Hdm).
      split; [exact Hedges|]. rewrite Hdm.
      cbn in Hg. by injection Hg as <-.
Defined.

(** *** Which objects are cloth: [get_frag_env_cloth_mesh_objects] *)

(** An object of [frag_obj.children_recursive]: whether it is a drawable
    model, whether it is a mesh, and for each material of the mesh whether
    its shader is a cloth shader ([ShaderManager.find_shader]). *)
Record SceneObject := mkSceneObject {
  scene_name : string;
  is_drawable_model : bool;
  is_mesh : bool;
  cloth_materials : list bool }.

Inductive MaterialWarning :=
  | MultipleClothMaterials (name : string)
  | ClothAndOtherMaterials (name : string).

(** [(num_cloth_materials, num_other_materials)] *)
Definition count_materials (materials : list bool) : nat * nat :=
  fold_left (λ (c : nat * nat) (is_cloth_material : bool),
               if is_cloth_material then (S c.1, c.2) else (c.1, S c.2))
            materials (0, 0).

Definition cloth_object_step (silent : bool)
    (st : list SceneObject * list MaterialWarning) (obj : SceneObject)
  : list SceneObject * list MaterialWarning :=
  if negb (is_drawable_model obj) || negb (is_mesh obj) then st
  else
    match count_materials (cloth_materials obj) with
    | (1, 0) => (st.1 ++ [obj], st.2)
    | (0, _) => st
    | (_, 0) =>
        (st.1, if silent then st.2 else st.2 ++ [MultipleClothMaterials (scene_name obj)])
    | (_, _) =>
        (st.1, if silent then st.2 else st.2 ++ [ClothAndOtherMaterials (scene_name obj)])
    end.

(** The returned list and the warnings logged. *)
Definition get_frag_env_cloth_mesh_objects (silent : bool) (objs : list SceneObject)
  : list SceneObject * list MaterialWarning :=
  fold_left (cloth_object_step silent) objs ([], []).

(** The only material of the object is a cloth material. *)
Definition only_cloth (obj : SceneObject) : Prop :=
  is_drawable_model obj = true ∧ is_mesh obj = true ∧ cloth_materials obj = [true].

Global Instance only_cloth_dec obj : Decision (only_cloth obj).
Proof. unfold only_cloth. apply _. Defined.

Lemma count_materials_spec materials :
  count_materials materials
  = (length (filter (λ b, b = true) materials), length (filter (λ b, b = false) materials)).
Proof.
  unfold count_materials.
  assert (∀ c : nat * nat,
            fold_left (λ (c : nat * nat) (b : bool), if b then (S c.1, c.2) else (c.1, S c.2))
                      materials c
            = (c.1 + length (filter (λ b, b = true) materials),
               c.2 + length (filter (λ b, b = false) materials))) as Hgen.
  { induction materials as [|b materials IH]; intros [c1 c2].
    - simpl. f_equal; lia.
    - cbn [fold_left]. rewrite IH. destruct b; cbn [fst snd].
      + rewrite (filter_cons_True (λ b, b = true)) by done.
        rewrite (filter_cons_False (λ b, b = false)) by done. simpl. f_equal; lia.
      + rewrite (filter_cons_False (λ b, b = true)) by done.
        rewrite (filter_cons_True (λ b, b = false)) by done. simpl. f_equal; lia. }
  by rewrite Hgen.
Qed.

Lemma count_materials_total materials :
  (count_materials materials).1 + (count_materials materials).2 = length materials.
Proof.
  rewrite count_materials_spec. cbn [fst snd].
  induction materials as [|b materials IH]; [done|]. destruct b.
  - rewrite (filter_cons_True (λ b, b = true)) by done.
    rewrite (filter_cons_False (λ b, b = false)) by done. simpl. lia.
  - rewrite (filter_cons_False (λ b, b = true)) by done.
    rewrite (filter_cons_True (λ b, b = false)) by done. simpl. lia.
Qed.

Lemma count_one_cloth materials : count_materials materials = (1, 0) ↔ materials = [true].
Proof.
  split; [|by intros ->]. intros Hc.
  pose proof (count_materials_total materials) as Htotal. rewrite Hc in Htotal.
  destruct materials as [|b [|b' rest]]; simpl in Htotal; try lia.
  destruct b; [done|]. by vm_compute in Hc.
Qed.

Lemma cloth_object_step_objects silent st obj :
  (cloth_object_step silent st obj).1
  = st.1 ++ filter only_cloth [obj].
Proof.
  unfold cloth_object_step.
  destruct (is_drawable_model obj) eqn:Hd; simpl.
  2:{ rewrite filter_cons_False, filter_nil, app_nil_r; [done|]. intros (? & _). congruence. }
  destruct (is_mesh obj) eqn:Hm; simpl.
  2:{ rewrite filter_cons_False, filter_nil, app_nil_r; [done|].
      unfold only_cloth. intros (_ & ? & _). congruence. }
  destruct (count_materials (cloth_materials obj)) as [nc no] eqn:Hc.
  destruct (decide (cloth_materials obj = [true])) as [Hone|Hone].
  - apply count_one_cloth in Hone as Hc'. rewrite Hc in Hc'. injection Hc' as -> ->.
    simpl. by rewrite filter_cons_True.
  - rewrite filter_cons_False, filter_nil, app_nil_r by (by intros (_ & _ & ?)).
    assert ((nc, no) ≠ (1, 0)) as Hne by (rewrite <- Hc; by intros ?%count_one_cloth).
    destruct nc as [|[|nc]], no as [|no]; simpl; done.
Qed.

Lemma cloth_object_step_silent st obj :
  (cloth_object_step true st obj).2 = st.2.
Proof.
  unfold cloth_object_step.
  destruct (negb _ || negb _); [done|].
  destruct (count_materials (cloth_materials obj)) as [[|[|nc]] [|no]]; done.
Qed.

(** The warning an object causes when the function is not silent: it is a
    drawable-model mesh with a cloth material and more than one material. *)
Definition material_warning (obj : SceneObject) : option MaterialWarning :=
  if is_drawable_model obj && is_mesh obj
     && bool_decide (true ∈ cloth_materials obj)
     && bool_decide (2 ≤ length (cloth_materials obj))
  then Some (if bool_decide (false ∈ cloth_materials obj)
             then ClothAndOtherMaterials (scene_name obj)
             else MultipleClothMaterials (scene_name obj))
  else None.

Lemma count_cloth_zero materials :
  (count_materials materials).1 = 0 ↔ true ∉ materials.
Proof.
  rewrite count_materials_spec. cbn [fst]. rewrite length_zero_iff_nil. split.
  - intros Hnil Hin. assert (true ∈ filter (λ b, b = true) materials) as Hf
      by (by apply list_elem_of_filter).
    rewrite Hnil in Hf. by apply elem_of_nil in Hf.
  - intros Hnot. apply elem_of_nil_inv. intros b [-> Hb]%list_elem_of_filter. done.
Qed.

Lemma count_other_zero materials :
  (count_materials materials).2 = 0 ↔ false ∉ materials.
Proof.
  rewrite count_materials_spec. cbn [snd]. rewrite length_zero_iff_nil. split.
  - intros Hnil Hin. assert (false ∈ filter (λ b, b = false) materials) as Hf
      by (by apply list_elem_of_filter).
    rewrite Hnil in Hf. by apply elem_of_nil in Hf.
  - intros Hnot. apply elem_of_nil_inv. intros b [-> Hb]%list_elem_of_filter. done.
Qed.

Lemma cloth_object_step_warnings st obj :
  (cloth_object_step false st obj).2
  = st.2 ++ from_option (λ w, [w]) [] (material_warning obj).
Proof.
  unfold cloth_object_step, material_warning.
  destruct (is_drawable_model obj); simpl; [|by rewrite app_nil_r].
  destruct (is_mesh obj); simpl; [|by rewrite app_nil_r].
  pose proof (count_cloth_zero (cloth_materials obj)) as Hcloth.
  pose proof (count_other_zero (cloth_materials obj)) as Hother.
  pose proof (count_materials_total (cloth_materials obj)) as Htotal.
  destruct (count_materials (cloth_materials obj)) as [nc no]. cbn [fst snd] in *.
  destruct nc as [|nc].
  { rewrite bool_decide_eq_false_2 by (by apply Hcloth). simpl. by rewrite app_nil_r. }
  rewrite bool_decide_eq_true_2
    by (destruct (decide (true ∈ cloth_materials obj)) as [|Hn]; [done|];
        apply Hcloth in Hn; lia).
  simpl. destruct no as [|no].
  - rewrite (bool_decide_eq_false_2 (false ∈ _)) by (by apply Hother).
    destruct nc as [|nc].
    + rewrite bool_decide_eq_false_2 by lia. simpl. by rewrite app_nil_r.
    + by rewrite bool_decide_eq_true_2 by lia.
  - rewrite (bool_decide_eq_true_2 (false ∈ _))
      by (destruct (decide (false ∈ cloth_materials obj)) as [|Hn]; [done|];
          apply Hother in Hn; lia).
    rewrite bool_decide_eq_true_2 by lia. by destruct nc.
Qed.

Lemma cloth_objects_loop silent objs : ∀ st,
  (fold_left (cloth_object_step silent) objs st).1 = st.1 ++ filter only_cloth objs.
Proof.
  induction objs as [|obj objs IH]; intros st.
  - simpl. by rewrite app_nil_r.
  - cbn [fold_left]. rewrite IH, cloth_object_step_objects, <- app_assoc.
    f_equal. by destruct (decide (only_cloth obj));
      [rewrite !filter_cons_True by done|rewrite !filter_cons_False by done].
Qed.

Lemma cloth_silent_loop objs : ∀ st,
  (fold_left (cloth_object_step true) objs st).2 = st.2.
Proof.
  induction objs as [|obj objs IH]; intros st; [done|].
  cbn [fold_left]. by rewrite IH, cloth_object_step_silent.
Qed.

Lemma cloth_warnings_loop objs : ∀ st,
  (fold_left (cloth_object_step false) objs st).2 = st.2 ++ omap material_warning objs.
Proof.
  induction objs as [|obj objs IH]; intros st.
  - simpl. by rewrite app_nil_r.
  - cbn [fold_left]. rewrite IH, cloth_object_step_warnings, <- app_assoc.
    f_equal. simpl. by destruct (material_warning obj).
Qed.

(** X14.  [get_frag_env_cloth_mesh_objects] returns, in order, the
    drawable-model mesh objects whose only material is a cloth material,
    whether it is silent or not; silent, it logs nothing; not silent, it
    logs one warning for each drawable-model mesh that has a cloth material
    and more than one material, telling several cloth materials from cloth
    mixed with other materials. *)
Theorem cloth_mesh_objects_filter (objs : list SceneObject) :
  (∀ silent, (get_frag_env_cloth_mesh_objects silent objs).1 = filter only_cloth objs) ∧
  (get_frag_env_cloth_mesh_objects true objs).2 = [] ∧
  (get_frag_env_cloth_mesh_objects false objs).2 = omap material_warning objs.
Proof.
  unfold get_frag_env_cloth_mesh_objects. split_and!.
  - intros silent. by rewrite cloth_objects_loop.
  - by rewrite cloth_silent_loop.
  - by rewrite cloth_warnings_loop.
Qed.

(** *** The pinned-vertex overlay ([ClothOverlaysDrawHandler.draw_pinned_geometry]) *)

(** The two line end points appended for a pinned vertex. *)
Definition marker (co : Vector3) : list Vector3 :=
  [vadd co (mkV3 0 0 0); vadd co (mkV3 1 0 0)].

(** Object mode: [pinned_values[v.index] != 0] for every mesh vertex. *)
Definition draw_pinned_object_mode (mesh : ClothMesh) : option (list Vector3) :=
  fold_leftM
    (λ coords (iv : nat * Vector3),
       value ← pinned_values mesh !! iv.1;
       Some (if negb (value =? 0)%Z then coords ++ marker iv.2 else coords))
    (enumerate (vertices_co mesh)) [].

(** Edit mode: the value of the layer, or the attribute's default when the
    layer is missing; [default_pinned] is the truth value of
    [ClothAttr.PINNED.default_value]. *)
Definition draw_pinned_edit_mode (default_pinned : bool)
    (pinned_layer : option (list Z)) (verts_co : list Vector3) : option (list Vector3) :=
  fold_leftM
    (λ coords (iv : nat * Vector3),
       is_pinned ← match pinned_layer with
                   | None => Some default_pinned
                   | Some layer => (λ value, negb (value =? 0)%Z) <$> layer !! iv.1
                   end;
       Some (if is_pinned : bool then coords ++ marker iv.2 else coords))
    (enumerate verts_co) [].

Example five_vertex_overlay :
  draw_pinned_object_mode five_vertex_mesh
  = Some (marker (rest_position five_vertex_mesh 1) ++ marker (rest_position five_vertex_mesh 3)).
Proof. reflexivity. Qed.

Lemma overlay_loop mesh m :
  length (pinned_values mesh) = length (vertices_co mesh) →
  m ≤ length (vertices_co mesh) →
  fold_leftM
    (λ coords (iv : nat * Vector3),
       value ← pinned_values mesh !! iv.1;
       Some (if negb (value =? 0)%Z then coords ++ marker iv.2 else coords))
    (take m (enumerate (vertices_co mesh))) []
  = Some (concat (marker <$> (rest_position mesh <$> pinned_indices (pinned_array mesh) m))).
Proof.
  intros Hlen. induction m as [|m IH]; intros Hm; [done|].
  destruct (lookup_lt_is_Some_2 (vertices_co mesh) m) as [co Hco]; [lia|].
  destruct (lookup_lt_is_Some_2 (pinned_values mesh) m) as [value Hvalue]; [lia|].
  rewrite (take_S_r _ _ (m, co)) by (by apply enumerate_lookup_Some).
  rewrite fold_leftM_app, IH by lia. cbn [mbind option_bind fold_leftM fst snd].
  rewrite Hvalue. cbn [mbind option_bind].
  unfold pinned_indices. rewrite below_S. unfold pinned_array.
  rewrite list_lookup_fmap, Hvalue. cbn [fmap option_fmap option_map].
  destruct (value =? 0)%Z eqn:Hz; rewrite ?Hz; cbn [negb].
  - rewrite decide_False by done. by rewrite app_nil_r.
  - rewrite decide_True by done. rewrite !fmap_app, concat_app.
    cbn [fmap list_fmap concat].
    replace (rest_position mesh m) with co by (unfold rest_position; by rewrite Hco).
    by rewrite app_nil_r.
Qed.

Lemma markers_length (cos : list Vector3) :
  length (concat (marker <$> cos)) = 2 * length cos.
Proof.
  induction cos as [|co cos IH]; [done|].
  cbn [fmap list_fmap concat]. rewrite length_app, IH. simpl. lia.
Qed.

Lemma fold_leftM_ext {A B} (f g : A → B → option A) l : ∀ a,
  (∀ a x, f a x = g a x) → fold_leftM f l a = fold_leftM g l a.
Proof.
  induction l as [|x l IH]; intros a Hfg; [done|].
  cbn [fold_leftM]. rewrite Hfg. destruct (g a x); [|done]. simpl. by apply IH.
Qed.

(** X15.  In object mode the overlay of a mesh with one PINNED value per
    vertex draws, in vertex order, the two marker points of exactly the
    vertices that the cloth export counts as pinned: twice as many points
    as [num_pinned], at the positions the export puts first.  In edit mode
    with the PINNED layer present it draws the same. *)
Theorem overlay_marks_pinned mesh :
  length (pinned_values mesh) = length (vertices_co mesh) →
  ∃ coords pinned_positions,
    draw_pinned_object_mode mesh = Some coords ∧
    coords = concat (marker <$> pinned_positions) ∧
    length coords = 2 * num_pinned (pinned_array mesh) ∧
    (∀ default_pinned,
       draw_pinned_edit_mode default_pinned (Some (pinned_values mesh)) (vertices_co mesh)
       = Some coords) ∧
    (∀ st, reindex_vertices mesh = Some st →
       mapM id (take (num_pinned (pinned_array mesh)) (vertices st))
       = Some pinned_positions).
Proof.
  intros Hlen. pose proof (pinned_array_length mesh Hlen) as Hpl.
  assert (draw_pinned_object_mode mesh
          = Some (concat (marker <$> (rest_position mesh <$>
                    pinned_indices (pinned_array mesh) (length (vertices_co mesh))))))
    as Hobj.
  { unfold draw_pinned_object_mode.
    rewrite <- (take_ge (enumerate (vertices_co mesh)) (length (vertices_co mesh)))
      by (by rewrite enumerate_length).
    by apply overlay_loop. }
  eexists _, _. split_and!; [exact Hobj|done| | |].
  - rewrite markers_length, length_fmap, num_pinned_indices. by rewrite Hpl.
  - intros default_pinned. rewrite <- Hobj.
    unfold draw_pinned_edit_mode, draw_pinned_object_mode.
    apply fold_leftM_ext. intros coords [i co]. cbn [fst snd].
    by destruct (pinned_values mesh !! i).
  - intros st. rewrite (reindex_vertices_final mesh Hlen). intros [= <-].
    cbn [vertices]. rewrite num_pinned_indices, Hpl.
    rewrite <- !fmap_take, take_app_length. apply mapM_id_Some.
Qed.

Lemma overlay_marks_pinned_witness :
  ∃ coords, draw_pinned_object_mode five_vertex_mesh = Some coords ∧ length coords = 4.
Proof.
  destruct (overlay_marks_pinned five_vertex_mesh) as (coords & ps & Hrun & _ & Hlen & _).
  - reflexivity.
  - exists coords. split; [exact Hrun|exact Hlen].
Defined.

End ClothExport.

(** ** What the XML readers produce ([resources/drawable.py]) *)

Module XmlParse.
Import Py PyDict Xml.

Definition children (e : Element) : list Element :=
  match e with mkElement _ _ cs => cs end.

(** *** [ParametersListProperty.from_xml], exactly *)

(** The parameter class whose [type] is [t]. *)
Definition parameter_kind_of (t : string) : option ParameterKind :=
  if decide (t = "Texture") then Some Texture
  else if decide (t = "Vector") then Some Vector
  else if decide (t = "Array") then Some Array
  else None.

(** A node that has a [type] attribute naming a parameter class. *)
Definition typed_parameter (node : Element) : option (ParameterKind * Element) :=
  t ← attrib node !! "type"; k ← parameter_kind_of t; Some (k, node).

Section parameters.
Context {ShaderParameter : Type}.
Variable parameter_from_xml : ParameterKind → Element → option ShaderParameter.

Lemma parameters_step_typed value child :
  parameters_step parameter_from_xml value child
  = match typed_parameter child with
    | Some (k, node) => p ← parameter_from_xml k node; Some (value ++ [p])
    | None => Some value
    end.
Proof.
  unfold parameters_step, typed_parameter, parameter_kind_of, append_if.
  destruct (attrib child !! "type") as [t|]; [|done]. simpl.
  destruct (decide (t = "Texture")) as [->|?].
  { simpl. by destruct (parameter_from_xml Texture child). }
  destruct (decide (t = "Vector")) as [->|?].
  { simpl. by destruct (parameter_from_xml Vector child). }
  destruct (decide (t = "Array")) as [->|?]; [|done].
  simpl. by destruct (parameter_from_xml Array child).
Qed.

Lemma parameters_loop nodes : ∀ value,
  fold_leftM (parameters_step parameter_from_xml) nodes value
  = (value ++.) <$> mapM (λ kn, parameter_from_xml kn.1 kn.2) (omap typed_parameter nodes).
Proof.
  induction nodes as [|node nodes IH]; intros value.
  - simpl. by rewrite app_nil_r.
  - cbn [fold_leftM omap list_omap]. rewrite parameters_step_typed.
    destruct (typed_parameter node) as [[k n]|]; [|cbn [mbind option_bind]; by rewrite IH].
    cbn [mapM fst snd]. destruct (parameter_from_xml k n) as [p|]; [|done].
    cbn [mbind option_bind]. rewrite IH.
    destruct (mapM _ _) as [ps|]; [|done]. simpl. by rewrite <- app_assoc.
Qed.

(** X16.  [ParametersListProperty.from_xml] parses exactly the nodes of
    [element.iter()] (the element itself and all its descendants, in
    document order) whose [type] is Texture, Vector or Array, each with the
    class of its type and each once; it raises exactly when one of those
    parses raises; otherwise the list has one parameter per such node. *)
Theorem parameters_from_xml_exact (element : Element) :
  parameters_from_xml parameter_from_xml element
  = mapM (λ kn, parameter_from_xml kn.1 kn.2) (omap typed_parameter (iter element)) ∧
  (∀ value, parameters_from_xml parameter_from_xml element = Some value →
     length value = length (omap typed_parameter (iter element))) ∧
  (parameters_from_xml parameter_from_xml element = None ↔
   ∃ k node, (k, node) ∈ omap typed_parameter (iter element) ∧
             parameter_from_xml k node = None).
Proof.
  assert (parameters_from_xml parameter_from_xml element
          = mapM (λ kn, parameter_from_xml kn.1 kn.2) (omap typed_parameter (iter element)))
    as Hexact.
  { unfold parameters_from_xml, parameters_from_nodes. rewrite parameters_loop.
    by destruct (mapM _ _). }
  split_and!; [done| |].
  - rewrite Hexact. intros value Hvalue. apply length_mapM in Hvalue. done.
  - rewrite Hexact, mapM_None, Exists_exists. split.
    + intros ([k node] & Hin & Hnone). by exists k, node.
    + intros (k & node & Hin & Hnone). by exists (k, node).
Qed.

End parameters.

Lemma parameters_from_xml_exact_witness :
  ∃ value, parameters_from_xml (λ k e, Some (k, e)) sample_drawable = Some value ∧
           length value = 1.
Proof.
  destruct (parameters_from_xml_exact (λ k e, Some (k, e)) sample_drawable)
    as (_ & Hlen & _).
  eexists. split; [reflexivity|]. by rewrite (Hlen _ eq_refl).
Defined.

(** *** [Drawable.from_xml], exactly *)

(** A node that has a [type] attribute naming a bound class, with the tag
    the loop gives it. *)
Definition typed_bound (node : Element) : option (BoundKind * Element) :=
  t ← attrib node !! "type"; k ← bound_kind_of t; Some (k, retag "Item" node).

Section drawable.
Context {BoundData : Type}.
Variable bound_data_from_xml : BoundKind → Element → option BoundData.
Variable class_tag_name : BoundKind → string.

Local Abbreviation bound_from := (bound_from_xml bound_data_from_xml class_tag_name).
Local Abbreviation step := (bound_step bound_data_from_xml class_tag_name).

(** [new.bound] after the bounds [parsed] have been assigned in turn. *)
Definition last_bound (bound : option (@Bound BoundData)) (parsed : list (@Bound BoundData))
  : option (@Bound BoundData) :=
  name_bounds (from_option Some bound (last parsed)).

Lemma bound_step_typed bound child :
  bounds_named bound →
  step bound child
  = match typed_bound child with
    | Some (k, node) => b ← bound_from k node; Some (name_bounds (Some b))
    | None => Some bound
    end.
Proof.
  intros Hnamed. unfold bound_step, typed_bound.
  destruct (attrib child !! "type") as [t|]; [|done]. simpl.
  destruct (bound_kind_of t) as [k|]; simpl.
  - by destruct (bound_from k (retag "Item" child)).
  - by rewrite name_bounds_id.
Qed.

Lemma bound_loop nodes : ∀ bound,
  bounds_named bound →
  fold_leftM step nodes bound
  = last_bound bound <$> mapM (λ kn, bound_from kn.1 kn.2) (omap typed_bound nodes).
Proof.
  induction nodes as [|node nodes IH]; intros bound Hnamed.
  - simpl. unfold last_bound. simpl. by rewrite name_bounds_id.
  - cbn [fold_leftM omap list_omap]. rewrite bound_step_typed by done.
    destruct (typed_bound node) as [[k n]|]; [|cbn [mbind option_bind]; by rewrite IH].
    cbn [mapM fst snd]. destruct (bound_from k n) as [b|]; [|done].
    cbn [mbind option_bind]. rewrite IH by (by intros ? [= <-]).
    destruct (mapM _ _) as [bs|]; [|done]. simpl. f_equal.
    unfold last_bound. destruct bs as [|b' bs]; [done|].
    rewrite last_cons_cons. destruct (last (b' :: bs)) eqn:Hlast; [done|].
    by apply last_None in Hlast.
Qed.

Lemma typed_bound_tag node k node' :
  typed_bound node = Some (k, node') → tag node' = "Item".
Proof.
  unfold typed_bound. destruct (attrib node !! "type") as [t|]; [|done]. simpl.
  destruct (bound_kind_of t); [|done]. intros [= _ <-]. by destruct node.
Qed.

(** The loop of [Drawable.from_xml] parses every node of [element.iter()]
    whose [type] is one of the eight bound types, each retagged [Item]; it
    raises exactly when one of those parses raises; otherwise [new.bound]
    is the parse of the last such node. *)
Lemma bound_loop_exact (element : Element) :
  let typed := omap typed_bound (iter element) in
  drawable_bound_from_xml bound_data_from_xml class_tag_name element
  = (λ parsed, name_bounds (last parsed)) <$> mapM (λ kn, bound_from kn.1 kn.2) typed ∧
  (∀ bound,
     drawable_bound_from_xml bound_data_from_xml class_tag_name element = Some (Some bound) →
     tag_name bound = "Bounds" ∧
     ∃ before k node,
       typed = before ++ [(k, node)] ∧ tag node = "Item" ∧ bound_kind bound = k ∧
       bound_data_from_xml k node = Some (bound_data bound)) ∧
  (drawable_bound_from_xml bound_data_from_xml class_tag_name element = Some None ↔
   typed = [] ) ∧
  (drawable_bound_from_xml bound_data_from_xml class_tag_name element = None ↔
   ∃ k node, (k, node) ∈ typed ∧ bound_data_from_xml k node = None).
Proof.
  intros typed.
  assert (drawable_bound_from_xml bound_data_from_xml class_tag_name element
          = (λ parsed, name_bounds (last parsed))
              <$> mapM (λ kn, bound_from kn.1 kn.2) typed) as Hexact.
  { unfold drawable_bound_from_xml, bound_from_nodes.
    rewrite bound_loop by (by intros ?). fold typed.
    destruct (mapM _ typed) as [parsed|]; [|done]. simpl. f_equal.
    unfold last_bound. by destruct (last parsed). }
  split_and!; [done| | |].
  - rewrite Hexact. intros bound Hbound.
    destruct (mapM _ typed) as [parsed|] eqn:Hparsed; [|done].
    injection Hbound as Hbound.
    destruct (last parsed) as [b0|] eqn:Hlast; [|done].
    injection Hbound as <-. split; [done|].
    apply last_Some in Hlast as [parsed' ->].
    apply mapM_Some, Forall2_app_inv_r in Hparsed
      as (before & final & _ & Hfinal & Htyped).
    apply Forall2_cons_inv_r in Hfinal as ([k node] & rest & Hb0 & Hrest & ->).
    apply Forall2_nil_inv_r in Hrest as ->.
    exists before, k, node. cbn [fst snd] in Hb0. unfold bound_from_xml in Hb0.
    destruct (bound_data_from_xml k node) as [d|] eqn:Hd; [|done]. injection Hb0 as <-.
    split_and!; try done.
    assert ((k, node) ∈ typed) as Hin by (rewrite Htyped; apply elem_of_app; right; by left).
    apply list_elem_of_omap in Hin as (n0 & _ & Hn0). by eapply typed_bound_tag.
  - rewrite Hexact. split.
    + intros Hnone. destruct (mapM _ typed) as [parsed|] eqn:Hparsed; [|done].
      injection Hnone as Hnone. destruct (last parsed) eqn:Hlast; [done|].
      apply last_None in Hlast as ->. apply length_mapM in Hparsed.
      by destruct typed.
    + by intros ->.
  - rewrite Hexact, fmap_None, mapM_None, Exists_exists. split.
    + intros ([k node] & Hin & Hnone). exists k, node. split; [done|].
      cbn [fst snd] in Hnone. unfold bound_from_xml in Hnone.
      by destruct (bound_data_from_xml k node).
    + intros (k & node & Hin & Hnone). exists (k, node). split; [done|].
      cbn [fst snd]. unfold bound_from_xml. by rewrite Hnone.
Qed.

(** [super().from_xml(element)]: the base class, [ElementTree] of
    [codewalker_xml], is not among the sources; it fills the fields of the
    new drawable from the element before the loop runs, leaves [bound] at
    the [None] of [__init__], and may raise. *)
Context {DrawableFields : Type}.
Variable base_from_xml : Element → option DrawableFields.

(** [Drawable.from_xml]: the fields read by the base class, and
    [new.bound]. *)
Definition Drawable_from_xml (element : Element)
  : option (DrawableFields * option (@Bound BoundData)) :=
  new ← base_from_xml element;
  bound ← drawable_bound_from_xml bound_data_from_xml class_tag_name element;
  Some (new, bound).

(** X17.  [Drawable.from_xml] first lets the base class parse the element
    and then parses every node of [element.iter()] whose [type] is one of
    the eight bound types, each retagged [Item]; it raises exactly when the
    base class raises or one of those bound parses raises; otherwise it
    returns what the base class has read together with the bound parsed
    from the last such node in document order, with the tag name
    [Bounds], or with no bound when there is no such node. *)
Theorem drawable_bound_last_wins (element : Element) :
  let typed := omap typed_bound (iter element) in
  Drawable_from_xml element
  = (new ← base_from_xml element;
     parsed ← mapM (λ kn, bound_from kn.1 kn.2) typed;
     Some (new, name_bounds (last parsed))) ∧
  (∀ new bound,
     Drawable_from_xml element = Some (new, Some bound) →
     base_from_xml element = Some new ∧ tag_name bound = "Bounds" ∧
     ∃ before k node,
       typed = before ++ [(k, node)] ∧ tag node = "Item" ∧ bound_kind bound = k ∧
       bound_data_from_xml k node = Some (bound_data bound)) ∧
  (∀ new, Drawable_from_xml element = Some (new, None) ↔
          base_from_xml element = Some new ∧ typed = []) ∧
  (Drawable_from_xml element = None ↔
   base_from_xml element = None ∨
   ∃ k node, (k, node) ∈ typed ∧ bound_data_from_xml k node = None).
Proof.
  intros typed.
  destruct (bound_loop_exact element) as (Hexact & Hlast & Hnone & Hraise).
  fold typed in Hexact, Hlast, Hnone, Hraise.
  unfold Drawable_from_xml. split_and!.
  - rewrite Hexact. destruct (base_from_xml element) as [new|]; [|done].
    cbn [mbind option_bind]. by destruct (mapM _ typed).
  - intros new bound Hrun.
    destruct (base_from_xml element) as [new'|]; [|done]. cbn [mbind option_bind] in Hrun.
    destruct (drawable_bound_from_xml _ _ element) as [found|] eqn:Hfound; [|done].
    cbn in Hrun. simplify_eq. split; [done|]. by apply Hlast.
  - intros new. split.
    + intros Hrun.
      destruct (base_from_xml element) as [new'|]; [|done]. cbn [mbind option_bind] in Hrun.
      destruct (drawable_bound_from_xml _ _ element) as [found|] eqn:Hfound; [|done].
      cbn in Hrun. simplify_eq. split; [done|]. by apply Hnone.
    + intros [-> Htyped]. cbn [mbind option_bind].
      by rewrite (proj2 Hnone Htyped).
  - split.
    + intros Hrun. destruct (base_from_xml element) as [new|]; [|by left].
      cbn [mbind option_bind] in Hrun. right. apply Hraise.
      by destruct (drawable_bound_from_xml _ _ element).
    + intros [->|Hbad]; [done|]. apply Hraise in Hbad. rewrite Hbad.
      by destruct (base_from_xml element).
Qed.

End drawable.

(** Two bounds in one drawable: the second is the one that is kept. *)
Definition two_bound_drawable : Element :=
  mkElement "Drawable" ∅ [typed "Bounds" "Box"; typed "Layout" "GTAV1"; typed "Bounds" "Sphere"].

Example two_bound_drawable_bound :
  drawable_bound_from_xml (λ k e, Some (tag e)) (λ _, "Item") two_bound_drawable
  = Some (Some (mkBound Sphere "Bounds" "Item")).
Proof. by vm_compute. Qed.

Lemma drawable_bound_last_wins_witness :
  ∃ new bound,
    Drawable_from_xml (λ k e, Some (tag e)) (λ _, "Item") (λ e, Some (tag e))
                      two_bound_drawable
    = Some (new, Some bound) ∧ new = "Drawable" ∧ tag_name bound = "Bounds".
Proof.
  eexists _, _. split; [by vm_compute|].
  destruct (drawable_bound_last_wins (λ k e, Some (tag e)) (λ _, "Item") (λ e, Some (tag e))
              two_bound_drawable) as (_ & Hlast & _).
  destruct (Hlast "Drawable" (mkBound Sphere "Bounds" "Item")) as (_ & Hnamed & _);
    [by vm_compute|].
  split; [reflexivity|exact Hnamed].
Defined.

(** A base class that raises makes [Drawable.from_xml] raise, whatever the
    bounds. *)
Example malformed_drawable_raises :
  Drawable_from_xml (λ k e, Some (tag e)) (λ _, "Item") (λ _, @None string)
                    two_bound_drawable = None.
Proof. reflexivity. Qed.

(** *** [DrawableDictionary] *)

Section dictionary.
(** [Drawable.from_xml] as a whole and the [name] of the drawable it
    returns. *)
Context {Drawable : Type}.
Variable drawable_from_xml : Element → option Drawable.
Variable drawable_name : Drawable → string.

(** [element.findall("Item")]: the direct children with that tag. *)
Definition findall (tag_name : string) (element : Element) : list Element :=
  filter (λ child, tag child = tag_name) (children element).

(** [drawable = Drawable.from_xml(child); new._value[drawable.name] = drawable] *)
Definition dictionary_step (value : dict string Drawable) (child : Element)
  : option (dict string Drawable) :=
  drawable ← drawable_from_xml child;
  Some (dict_set value (drawable_name drawable) drawable).

(** [new._value] after [DrawableDictionary.from_xml]. *)
Definition dictionary_from_xml (element : Element) : option (dict string Drawable) :=
  fold_leftM dictionary_step (findall "Item" element) [].

(** [__getitem__]: [KeyError] for a missing name. *)
Fixpoint dictionary_getitem (value : dict string Drawable) (name : string)
  : option Drawable :=
  match value with
  | [] => None
  | (k, drawable) :: rest =>
      if decide (k = name) then Some drawable else dictionary_getitem rest name
  end.

Lemma dict_set_keys (d : dict string Drawable) k v :
  (dict_set d k v).*1 = if decide (k ∈ d.*1) then d.*1 else d.*1 ++ [k].
Proof.
  induction d as [|[k' v'] d IH]; [done|]. cbn [dict_set].
  destruct (decide (k' = k)) as [->|Hne].
  - rewrite decide_True by (by left). done.
  - cbn [fmap list_fmap fst]. rewrite IH.
    destruct (decide (k ∈ d.*1)) as [Hin|Hin].
    + by rewrite decide_True by (by right).
    + rewrite decide_False; [done|]. by intros [?|?]%elem_of_cons.
Qed.

Lemma dict_set_NoDup (d : dict string Drawable) k v :
  NoDup d.*1 → NoDup (dict_set d k v).*1.
Proof.
  intros Hnd. rewrite dict_set_keys. case_decide; [done|].
  apply NoDup_app. split_and!; [done| |apply NoDup_singleton].
  by intros x Hx ->%list_elem_of_singleton.
Qed.

Lemma getitem_dict_set (d : dict string Drawable) k v name :
  dictionary_getitem (dict_set d k v) name
  = if decide (name = k) then Some v else dictionary_getitem d name.
Proof.
  induction d as [|[k' v'] d IH].
  - simpl. destruct (decide (name = k)) as [->|Hne].
    + by rewrite decide_True.
    + by rewrite decide_False by done.
  - cbn [dict_set]. destruct (decide (k' = k)) as [->|Hne].
    + cbn [dictionary_getitem]. destruct (decide (name = k)) as [->|Hne'].
      * by rewrite !decide_True.
      * by rewrite !decide_False by done.
    + cbn [dictionary_getitem]. destruct (decide (k' = name)) as [->|Hne'].
      * by rewrite decide_False by done.
      * apply IH.
Qed.

Lemma getitem_None (d : dict string Drawable) name :
  dictionary_getitem d name = None ↔ name ∉ d.*1.
Proof.
  induction d as [|[k v] d IH]; simpl.
  - split; [intros _; apply not_elem_of_nil|done].
  - destruct (decide (k = name)) as [->|Hne].
    + split; [done|]. intros Hn. exfalso. apply Hn. by left.
    + rewrite IH. split; intros Hn.
      * by intros [?|?]%elem_of_cons.
      * intros Hin. apply Hn. by right.
Qed.

(** The names in the order in which they first occur. *)
Definition first_occurrences (names : list string) : list string :=
  reverse (remove_dups (reverse names)).

Lemma first_occurrences_snoc names name :
  first_occurrences (names ++ [name])
  = if decide (name ∈ first_occurrences names) then first_occurrences names
    else first_occurrences names ++ [name].
Proof.
  unfold first_occurrences. rewrite reverse_snoc. cbn [remove_dups]. unfold decide_rel.
  destruct (list_elem_of_dec name (reverse names)) as [Hin|Hin].
  - rewrite decide_True; [done|]. by rewrite elem_of_reverse, elem_of_remove_dups.
  - rewrite decide_False by (by rewrite elem_of_reverse, elem_of_remove_dups).
    by rewrite reverse_cons.
Qed.

Lemma first_occurrences_length names :
  length (first_occurrences names) ≤ length names.
Proof.
  unfold first_occurrences. rewrite length_reverse, <- (length_reverse names).
  induction (reverse names) as [|x l IH]; [done|].
  cbn [remove_dups]. case_match; simpl; lia.
Qed.

(** The dictionary that the drawables [parsed], assigned in turn, give. *)
Record dictionary_of (parsed : list Drawable) (value : dict string Drawable) : Prop := {
  do_keys : value.*1 = first_occurrences (drawable_name <$> parsed);
  do_getitem : ∀ name,
    dictionary_getitem value name
    = last (filter (λ d, drawable_name d = name) parsed) }.

Lemma dictionary_loop items : ∀ value,
  fold_leftM dictionary_step items [] = Some value →
  ∃ parsed, Forall2 (λ child d, drawable_from_xml child = Some d) items parsed ∧
            dictionary_of parsed value.
Proof.
  induction items as [|child items IH] using rev_ind; intros value Hrun.
  - injection Hrun as <-. exists []. split; [constructor|]. by split.
  - rewrite fold_leftM_app in Hrun.
    destruct (fold_leftM dictionary_step items []) as [value0|]; [|done].
    cbn [mbind option_bind fold_leftM] in Hrun. unfold dictionary_step at 1 in Hrun.
    destruct (drawable_from_xml child) as [d|] eqn:Hd; [|done].
    cbn [mbind option_bind] in Hrun. injection Hrun as <-.
    destruct (IH value0 eq_refl) as (parsed & Hparsed & [Hkeys Hget]).
    exists (parsed ++ [d]). split.
    { apply Forall2_app; [done|]. by constructor. }
    split.
    + rewrite dict_set_keys, fmap_app, Hkeys. cbn [fmap list_fmap].
      by rewrite first_occurrences_snoc.
    + intros name. rewrite getitem_dict_set, filter_app, Hget.
      destruct (decide (name = drawable_name d)) as [->|Hne].
      * rewrite filter_cons_True by done. rewrite filter_nil. by rewrite last_snoc.
      * rewrite filter_cons_False by done. rewrite filter_nil. by rewrite app_nil_r.
Qed.

(** X18.  When [DrawableDictionary.from_xml] returns, every direct [Item]
    child has been parsed; the keys are the names of the parsed drawables,
    each once, in the order of their first occurrence; and looking a name
    up gives the last drawable parsed with that name, or raises [KeyError]
    when no drawable has it. *)
Theorem dictionary_last_name_wins (element : Element) value :
  dictionary_from_xml element = Some value →
  ∃ parsed,
    mapM drawable_from_xml (findall "Item" element) = Some parsed ∧
    value.*1 = first_occurrences (drawable_name <$> parsed) ∧
    NoDup value.*1 ∧
    length value ≤ length (findall "Item" element) ∧
    (∀ name, dictionary_getitem value name
             = last (filter (λ d, drawable_name d = name) parsed)) ∧
    (∀ name, dictionary_getitem value name = None ↔ name ∉ drawable_name <$> parsed).
Proof.
  intros Hrun. apply dictionary_loop in Hrun as (parsed & Hparsed & [Hkeys Hget]).
  exists parsed.
  assert (NoDup value.*1) as Hnd.
  { rewrite Hkeys. unfold first_occurrences. rewrite reverse_Permutation.
    apply NoDup_remove_dups. }
  split_and!; try done.
  - by apply mapM_Some.
  - rewrite <- (length_fmap fst), Hkeys. etransitivity; [apply first_occurrences_length|].
    rewrite length_fmap. by rewrite (Forall2_length _ _ _ Hparsed).
  - intros name. rewrite getitem_None, Hkeys. unfold first_occurrences.
    by rewrite elem_of_reverse, elem_of_remove_dups, elem_of_reverse.
Qed.

End dictionary.

(** Two drawables named [a] around one named [b]. *)
Definition named_items : Element :=
  mkElement "DrawableDictionary" ∅
    [mkElement "Item" {[ "name" := "a"; "lod" := "1" ]} [];
     mkElement "Item" {[ "name" := "b"; "lod" := "2" ]} [];
     mkElement "Other" {[ "name" := "c" ]} [];
     mkElement "Item" {[ "name" := "a"; "lod" := "3" ]} []].

Definition item_name (e : Element) : string := default "" (attrib e !! "name").

Example named_items_dictionary :
  (λ value, (value.*1, (λ d, attrib d !! "lod") <$> dictionary_getitem value "a"))
    <$> dictionary_from_xml Some item_name named_items
  = Some (["a"; "b"], Some (Some "3")).
Proof. by vm_compute. Qed.

Lemma dictionary_last_name_wins_witness :
  ∃ value, dictionary_from_xml Some item_name named_items = Some value ∧
           value.*1 = ["a"; "b"].
Proof.
  destruct (dictionary_from_xml Some item_name named_items) as [value|] eqn:Hrun;
    [|by vm_compute in Hrun].
  exists value. split; [reflexivity|].
  destruct (dictionary_last_name_wins Some item_name named_items value Hrun)
    as (parsed & Hparsed & Hkeys & _).
  vm_compute in Hparsed. injection Hparsed as <-. rewrite Hkeys. by vm_compute.
Defined.


(** *** [VertexLayoutListProperty] *)

(** [type] is what [element.get('type')] returned, [None] when the
    attribute is missing; [value] is the list of semantic names. *)
Record VertexLayoutList := mkLayout {
  layout_type : option string;
  layout_value : list string }.

Definition layout_from_xml (element : Element) : VertexLayoutList :=
  mkLayout (attrib element !! "type") (tag <$> children element).

(** [to_xml] for a layout whose type is set. *)
Definition layout_to_xml (type_ : string) (value : list string) : Element :=
  mkElement "Layout" {[ "type" := type_ ]} ((λ item, mkElement item ∅ []) <$> value).

(** X19.  Writing a vertex layout and reading it back gives the same type
    and the same semantic names in the same order; reading an element and
    writing the result keeps the type and the child tags and nothing else
    (the element's tag becomes [Layout], other attributes and everything
    below the children are dropped). *)
Theorem layout_roundtrip (type_ : string) (value : list string) (element : Element) :
  layout_from_xml (layout_to_xml type_ value) = mkLayout (Some type_) value ∧
  (attrib element !! "type" = Some type_ →
   let written := layout_to_xml type_ (layout_value (layout_from_xml element)) in
   layout_from_xml written = layout_from_xml element ∧
   tag written = "Layout" ∧
   (tag <$> children written) = (tag <$> children element) ∧
   Forall (λ child, attrib child = ∅ ∧ children child = []) (children written)).
Proof.
  split.
  - unfold layout_from_xml, layout_to_xml. cbn [attrib children].
    rewrite lookup_singleton_eq. f_equal. rewrite <- list_fmap_compose.
    apply list_fmap_id.
  - intros Htype written. unfold written, layout_from_xml, layout_to_xml.
    cbn [attrib children layout_value tag]. rewrite lookup_singleton_eq, Htype.
    assert ((tag <$> ((λ item, mkElement item ∅ []) <$> (tag <$> children element)))
            = (tag <$> children element)) as Htags.
    { rewrite <- list_fmap_compose. apply list_fmap_id. }
    rewrite Htags. split_and!; try done.
    apply Forall_fmap, Forall_forall. by intros item _.
Qed.

Lemma layout_roundtrip_witness :
  layout_from_xml (layout_to_xml "GTAV1" (layout_value (layout_from_xml
    (mkElement "Layout" {[ "type" := "GTAV1"; "x" := "1" ]} [typed "Position" "a"]))))
  = mkLayout (Some "GTAV1") ["Position"].
Proof.
  destruct (layout_roundtrip "GTAV1" ["Position"]
    (mkElement "Layout" {[ "type" := "GTAV1"; "x" := "1" ]} [typed "Position" "a"]))
    as [_ Hread].
  destruct Hread as [Hsame _]; [by vm_compute|]. rewrite Hsame. by vm_compute.
Defined.

End XmlParse.

(** * Index data as text ([resources/drawable.py], [IndexDataProperty]) *)

Module IndexData.
Import Py.
Import Stdlib.Strings.Ascii.
Local Open Scope Z_scope.

(** A Python [str] whose characters are all below 256. *)
Abbreviation pystr := (list ascii).

Definition newline : ascii := "010"%char.
Definition space : ascii := " "%char.

(** [c.isspace()] on the characters below 256: tab to carriage return,
    the four separators 28..31, the space, NEL and the no-break space. *)
Definition isspace (c : ascii) : bool :=
  let n := nat_of_ascii c in
  (((9 <=? n) && (n <=? 13)) || ((28 <=? n) && (n <=? 32)) || (n =? 133) || (n =? 160))%nat.

Fixpoint lstrip (s : pystr) : pystr :=
  match s with
  | [] => []
  | c :: s' => if isspace c then lstrip s' else s
  end.

Definition rstrip (s : pystr) : pystr := reverse (lstrip (reverse s)).

(** [s.strip()] *)
Definition strip (s : pystr) : pystr := rstrip (lstrip s).

(** [s.replace("\n", "")] *)
Definition remove_newlines (s : pystr) : pystr := filter (λ c, c ≠ newline) s.

(** [s.split()]: the maximal runs of characters that are not whitespace;
    [word] is the run being read. *)
Fixpoint split_from (word : pystr) (s : pystr) : list pystr :=
  match s with
  | [] => match word with [] => [] | _ => [word] end
  | c :: s' =>
      if isspace c
      then match word with [] => split_from [] s' | _ => word :: split_from [] s' end
      else split_from (word ++ [c]) s'
  end.

Definition split (s : pystr) : list pystr := split_from [] s.

Definition digit_value (c : ascii) : option Z :=
  let n := nat_of_ascii c in
  if ((48 <=? n) && (n <=? 57))%nat then Some (Z.of_nat n - 48) else None.

(** The digits of an [int] literal: at least one digit, single underscores
    allowed between digits.  [after_digit] tells whether the previous
    character was a digit. *)
Fixpoint parse_digits (acc : Z) (after_digit : bool) (s : pystr) : option Z :=
  match s with
  | [] => if after_digit then Some acc else None
  | c :: s' =>
      if decide (c = "_"%char)
      then if after_digit then parse_digits acc false s' else None
      else d ← digit_value c; parse_digits (10 * acc + d) true s'
  end.

(** [int(s)] for a string; [None] is [ValueError]. *)
Definition int_ (s : pystr) : option Z :=
  match strip s with
  | c :: r =>
      if decide (c = "+"%char) then parse_digits 0 false r
      else if decide (c = "-"%char) then Z.opp <$> parse_digits 0 false r
      else parse_digits 0 false (c :: r)
  | [] => None
  end.

Definition digit_char (d : Z) : ascii := ascii_of_nat (48 + Z.to_nat d)%nat.

(** The decimal digits of [n >= 0] in front of [acc], most significant
    first; [fuel] bounds the number of digits. *)
Fixpoint str_digits (fuel : nat) (n : Z) (acc : pystr) : pystr :=
  match fuel with
  | O => acc
  | S fuel' =>
      let acc' := digit_char (n mod 10) :: acc in
      if n <? 10 then acc' else str_digits fuel' (n / 10) acc'
  end.

Definition digits_fuel (n : Z) : nat := S (Z.to_nat (Z.log2 n)).

(** [str(n)] for an [int]. *)
Definition str_ (n : Z) : pystr :=
  if n <? 0 then "-"%char :: str_digits (digits_fuel (- n)) (- n) []
  else str_digits (digits_fuel n) n [].

Definition columns : Z := 24.

(** The body of [for index, vert_index in enumerate(self.value)]; [len] is
    [len(self.value)] and [text] the list of strings built so far. *)
Definition to_xml_step (len : nat) (text : list pystr) (iv : nat * Z) : list pystr :=
  let text := text ++ [str_ iv.2] in
  let text := if Z.of_nat iv.1 <? Z.of_nat len - 1 then text ++ [[space]] else text in
  if (Z.of_nat iv.1 + 1) mod columns =? 0 then text ++ [[newline]] else text.

(** [IndexDataProperty.to_xml]: the text of the element it returns. *)
Definition to_xml (value : list Z) : pystr :=
  concat (fold_left (to_xml_step (length value)) (enumerate value) []).

(** [IndexDataProperty.from_xml], from [element.text], which is [None] for
    an element without text; the result [None] is the exception raised
    ([AttributeError] on a missing text, [ValueError] from [int]). *)
Definition from_xml (text : option pystr) : option (list Z) :=
  text ← text;
  mapM int_ (split (remove_newlines (strip text))).

Definition no_space (s : pystr) : Prop := Forall (λ c, isspace c = false) s.
Definition all_space (s : pystr) : Prop := Forall (λ c, isspace c = true) s.

(** ** Splitting *)

Lemma split_from_word t : ∀ word rest,
  no_space t → split_from word (t ++ rest) = split_from (word ++ t) rest.
Proof.
  induction t as [|c t IH]; intros word rest Ht.
  - by rewrite app_nil_r.
  - apply Forall_cons in Ht as [Hc Ht]. cbn [app split_from]. rewrite Hc.
    rewrite IH by done. by rewrite <- app_assoc.
Qed.

Lemma split_from_spaces w : ∀ rest,
  all_space w → split_from [] (w ++ rest) = split_from [] rest.
Proof.
  induction w as [|c w IH]; intros rest Hw; [done|].
  apply Forall_cons in Hw as [Hc Hw]. cbn [app split_from]. rewrite Hc. by apply IH.
Qed.

Lemma split_from_only_spaces w word :
  all_space w → split_from word w = split_from word [].
Proof.
  intros Hw. destruct w as [|c w]; [done|].
  apply Forall_cons in Hw as [Hc Hw]. cbn [split_from]. rewrite Hc.
  pose proof (split_from_spaces w [] Hw) as Hnil. rewrite app_nil_r in Hnil.
  rewrite Hnil. by destruct word.
Qed.

Lemma split_from_trailing s : ∀ word w,
  all_space w → split_from word (s ++ w) = split_from word s.
Proof.
  induction s as [|c s IH]; intros word w Hw.
  - by apply split_from_only_spaces.
  - cbn [app split_from]. destruct (isspace c); [|by apply IH].
    rewrite (IH [] w Hw). done.
Qed.

Lemma split_word_space t sep rest :
  t ≠ [] → no_space t → sep ≠ [] → all_space sep →
  split (t ++ sep ++ rest) = t :: split rest.
Proof.
  intros Ht Hns Hsep Hsp. unfold split. rewrite split_from_word by done.
  destruct sep as [|c sep]; [done|]. apply Forall_cons in Hsp as [Hc Hsp].
  cbn [app split_from]. rewrite Hc. destruct t; [done|].
  cbn [app]. by rewrite split_from_spaces.
Qed.

Lemma split_last_word t :
  t ≠ [] → no_space t → split t = [t].
Proof.
  intros Ht Hns. unfold split.
  pose proof (split_from_word t [] [] Hns) as Hw. rewrite app_nil_r in Hw.
  rewrite Hw. by destruct t.
Qed.

(** ** Stripping *)

Lemma lstrip_decomp s : ∃ a, s = a ++ lstrip s ∧ all_space a.
Proof.
  induction s as [|c s (a & Hs & Ha)]; [exists []; split; [done|constructor]|].
  cbn [lstrip]. destruct (isspace c) eqn:Hc.
  - exists (c :: a). split; [by cbn; f_equal|]. by apply Forall_cons.
  - exists []. split; [done|constructor].
Qed.

Lemma strip_decomp s : ∃ a b, s = a ++ strip s ++ b ∧ all_space a ∧ all_space b.
Proof.
  destruct (lstrip_decomp s) as (a & Hs & Ha).
  destruct (lstrip_decomp (reverse (lstrip s))) as (b & Hr & Hb).
  exists a, (reverse b). split_and!; [|done|by apply Forall_reverse].
  rewrite Hs at 1. f_equal. unfold strip, rstrip.
  rewrite <- reverse_app, <- Hr. by rewrite reverse_involutive.
Qed.

Lemma remove_newlines_spaces w : all_space w → all_space (remove_newlines w).
Proof.
  intros Hw. apply Forall_forall. intros c Hc.
  apply list_elem_of_filter in Hc as [_ Hc]. by apply (proj1 (Forall_forall _ _) Hw).
Qed.

(** Stripping before the newlines are removed changes nothing for [split]. *)
Lemma split_strip s :
  split (remove_newlines (strip s)) = split (remove_newlines s).
Proof.
  destruct (strip_decomp s) as (a & b & Hs & Ha & Hb).
  set (m := strip s) in *. clearbody m. subst s.
  unfold remove_newlines. rewrite !filter_app. unfold split. rewrite split_from_spaces by by apply remove_newlines_spaces.
  by rewrite split_from_trailing by by apply remove_newlines_spaces.
Qed.

Lemma strip_no_space s :
  no_space s → strip s = s.
Proof.
  intros Hs. assert (∀ t, no_space t → lstrip t = t) as Hl.
  { intros [|c t] Ht; [done|]. apply Forall_cons in Ht as [Hc _]. cbn. by rewrite Hc. }
  unfold strip, rstrip. rewrite (Hl s Hs).
  rewrite Hl by by apply Forall_reverse. apply reverse_involutive.
Qed.

(** ** Digits *)

Definition all_ascii : list ascii := ascii_of_nat <$> seq 0%nat 256%nat.

Lemma all_ascii_complete (c : ascii) : c ∈ all_ascii.
Proof.
  unfold all_ascii. apply list_elem_of_fmap. exists (nat_of_ascii c).
  split; [by rewrite ascii_nat_embedding|].
  apply elem_of_seq. pose proof (nat_ascii_bounded c). lia.
Qed.

Lemma ascii_forall (P : ascii → bool) :
  forallb P all_ascii = true → ∀ c, P c = true.
Proof.
  intros HP c. rewrite forallb_forall in HP. apply HP.
  apply list_elem_of_In, all_ascii_complete.
Qed.

Lemma digit_no_space c d : digit_value c = Some d → isspace c = false.
Proof.
  intros Hd.
  pose proof (ascii_forall (λ c, match digit_value c with
                                 | Some _ => negb (isspace c) | None => true end)
                eq_refl c) as Hc.
  cbv beta in Hc. rewrite Hd in Hc. by apply negb_true_iff.
Qed.

Lemma digit_not_sign c d :
  digit_value c = Some d → c ≠ "_"%char ∧ c ≠ "+"%char ∧ c ≠ "-"%char.
Proof.
  intros Hd. split_and!; intros ->; by vm_compute in Hd.
Qed.

Lemma digit_char_value d : 0 ≤ d < 10 → digit_value (digit_char d) = Some d.
Proof.
  intros Hd.
  assert (d = 0 ∨ d = 1 ∨ d = 2 ∨ d = 3 ∨ d = 4 ∨ d = 5 ∨ d = 6 ∨ d = 7 ∨ d = 8 ∨ d = 9)
    as Hcases by lia.
  destruct_or!; subst; reflexivity.
Qed.

(** A non-empty run of digits that reads as [n] after any prefix. *)
Definition digits_of (n : Z) (ds : pystr) : Prop :=
  ds ≠ [] ∧
  Forall (λ c, is_Some (digit_value c)) ds ∧
  ∀ acc after rest,
    parse_digits acc after (ds ++ rest)
    = parse_digits (acc * 10 ^ Z.of_nat (length ds) + n) true rest.

Lemma str_digits_spec fuel : ∀ n acc,
  fuel ≠ 0%nat → 0 ≤ n < 2 ^ Z.of_nat fuel →
  ∃ ds, str_digits fuel n acc = ds ++ acc ∧ digits_of n ds.
Proof.
  induction fuel as [|fuel IH]; intros n acc Hfuel Hn; [done|].
  cbn [str_digits]. assert (0 ≤ n mod 10 < 10) as Hmod by (apply Z.mod_pos_bound; lia).
  pose proof (digit_char_value _ Hmod) as Hdigit.
  pose proof (digit_not_sign _ _ Hdigit) as (Hu & _ & _).
  destruct (n <? 10) eqn:Hlt.
  - apply Z.ltb_lt in Hlt. exists [digit_char (n mod 10)]. split; [done|].
    split_and!; [done|by apply Forall_singleton|].
    intros a after rest. cbn [app parse_digits length].
    rewrite decide_False by done. rewrite Hdigit. cbn.
    rewrite Z.mod_small by lia. f_equal. lia.
  - apply Z.ltb_ge in Hlt.
    destruct (IH (n / 10) (digit_char (n mod 10) :: acc)) as (ds & Hrun & Hne & Hall & Hparse).
    { intros ->. change (2 ^ Z.of_nat 1) with 2 in Hn. lia. }
    { split; [apply Z.div_pos; lia|].
      apply Z.div_lt_upper_bound; [lia|].
      rewrite Nat2Z.inj_succ, Z.pow_succ_r in Hn by lia. lia. }
    exists (ds ++ [digit_char (n mod 10)]). split; [by rewrite Hrun, <- app_assoc|].
    split_and!.
    + by destruct ds.
    + apply Forall_app. split; [done|]. by apply Forall_singleton.
    + intros a after rest. rewrite <- app_assoc. rewrite Hparse.
      cbn [app parse_digits]. rewrite decide_False by done. rewrite Hdigit. cbn.
      f_equal. rewrite length_app. cbn [length].
      replace (Z.of_nat (length ds + 1)%nat) with (Z.succ (Z.of_nat (length ds))) by lia.
      rewrite Z.pow_succ_r by lia.
      pose proof (Z.div_mod n 10). lia.
Qed.

Lemma digits_fuel_enough n : 0 ≤ n → 0 ≤ n < 2 ^ Z.of_nat (digits_fuel n).
Proof.
  intros Hn. split; [done|]. unfold digits_fuel.
  rewrite Nat2Z.inj_succ, Z2Nat.id by apply Z.log2_nonneg.
  destruct (decide (n = 0)) as [->|]; [done|].
  apply Z.log2_spec. lia.
Qed.

Lemma str_digits_of n :
  0 ≤ n → digits_of n (str_digits (digits_fuel n) n []).
Proof.
  intros Hn.
  destruct (str_digits_spec (digits_fuel n) n [])
    as (ds & -> & Hds); [done|by apply digits_fuel_enough|].
  by rewrite app_nil_r.
Qed.

Lemma digits_no_space ds : Forall (λ c, is_Some (digit_value c)) ds → no_space ds.
Proof.
  intros Hds. eapply Forall_impl; [exact Hds|]. intros c [d Hd]. by eapply digit_no_space.
Qed.

Lemma str_nonempty n : str_ n ≠ [].
Proof.
  unfold str_. destruct (n <? 0) eqn:Hn; [done|].
  apply Z.ltb_ge in Hn. by destruct (str_digits_of n Hn).
Qed.

Lemma str_no_space n : no_space (str_ n).
Proof.
  unfold str_. destruct (n <? 0) eqn:Hn.
  - apply Z.ltb_lt in Hn. apply Forall_cons. split; [done|].
    destruct (str_digits_of (- n)) as (_ & Hall & _); [lia|]. by apply digits_no_space.
  - apply Z.ltb_ge in Hn.
    destruct (str_digits_of n Hn) as (_ & Hall & _). by apply digits_no_space.
Qed.

(** [int(str(n)) == n] *)
Lemma int_str n : int_ (str_ n) = Some n.
Proof.
  unfold int_. rewrite strip_no_space by apply str_no_space.
  unfold str_. destruct (n <? 0) eqn:Hn.
  - apply Z.ltb_lt in Hn.
    destruct (str_digits_of (- n)) as (_ & _ & Hparse); [lia|].
    rewrite decide_False by done. rewrite decide_True by done.
    specialize (Hparse 0 false []). rewrite app_nil_r in Hparse. rewrite Hparse.
    cbn. f_equal; lia.
  - apply Z.ltb_ge in Hn.
    destruct (str_digits_of n Hn) as (Hne & Hall & Hparse).
    specialize (Hparse 0 false []). rewrite app_nil_r in Hparse.
    destruct (str_digits (digits_fuel n) n []) as [|c r] eqn:Hrun; [done|].
    apply Forall_cons in Hall as [[d Hd] _].
    destruct (digit_not_sign _ _ Hd) as (_ & Hplus & Hminus).
    rewrite !decide_False by done. rewrite Hparse. cbn. f_equal; lia.
Qed.

(** ** The text written by [to_xml] *)

(** What one turn of the loop appends. *)
Definition piece (len : nat) (iv : nat * Z) : pystr :=
  str_ iv.2
  ++ (if Z.of_nat iv.1 <? Z.of_nat len - 1 then [space] else [])
  ++ (if (Z.of_nat iv.1 + 1) mod columns =? 0 then [newline] else []).

Lemma to_xml_loop len l : ∀ text,
  concat (fold_left (to_xml_step len) l text) = concat text ++ concat (piece len <$> l).
Proof.
  induction l as [|iv l IH]; intros text; [by rewrite app_nil_r|].
  cbn [fold_left fmap list_fmap concat]. rewrite IH. rewrite app_assoc. f_equal.
  unfold to_xml_step, piece.
  destruct (Z.of_nat iv.1 <? Z.of_nat len - 1), ((Z.of_nat iv.1 + 1) mod columns =? 0);
    rewrite ?concat_app; cbn; by rewrite ?app_nil_r, <- ?app_assoc.
Qed.

Lemma remove_newlines_no_space t : no_space t → remove_newlines t = t.
Proof.
  intros Ht. unfold remove_newlines. induction t as [|c t IH]; [done|].
  apply Forall_cons in Ht as [Hc Ht]. rewrite filter_cons_True.
  - by rewrite IH.
  - by intros ->.
Qed.

Lemma split_pieces len vs : ∀ start,
  (start + length vs)%nat = len →
  split (remove_newlines (concat (piece len <$> zip (seq start (length vs)) vs)))
  = str_ <$> vs.
Proof.
  induction vs as [|v vs IH]; intros start Hlen; [done|].
  cbn [length seq zip zip_with fmap list_fmap concat]. cbn [length] in Hlen.
  unfold piece at 1. cbn [fst snd].
  unfold remove_newlines. rewrite !filter_app. fold (remove_newlines (str_ v)).
  rewrite remove_newlines_no_space by apply str_no_space.
  set (nl := filter _ (if (Z.of_nat start + 1) mod columns =? 0 then [newline] else [])).
  assert (nl = []) as ->.
  { unfold nl. destruct (_ =? 0); [|done]. by rewrite filter_cons_False by (by intros []). }
  destruct vs as [|v' vs].
  - cbn [length] in Hlen. rewrite (proj2 (Z.ltb_ge _ _)) by lia.
    cbn [length seq zip zip_with fmap list_fmap concat]. rewrite filter_nil, !app_nil_r.
    by apply split_last_word; [apply str_nonempty|apply str_no_space].
  - rewrite (proj2 (Z.ltb_lt _ _)) by (cbn [length] in Hlen; lia).
    rewrite filter_cons_True by done. rewrite filter_nil. rewrite app_nil_r, <- app_assoc.
    fold (remove_newlines (concat (piece len <$> zip (seq (S start) (length (v' :: vs))) (v' :: vs)))).
    rewrite split_word_space; [|apply str_nonempty|apply str_no_space|done|by apply Forall_singleton].
    f_equal. apply (IH (S start)). cbn [length] in *. lia.
Qed.

(** X20.  Reading back the text written by [to_xml] gives the indices that
    were written, whatever their number and sign: the newline put after
    every 24th index is always preceded by a space unless it ends the text,
    so deleting the newlines never joins two numbers.  In general
    [from_xml] deletes the newlines of the text before it splits it at
    whitespace, so a newline is not a separator and the [strip] changes
    nothing; it raises on an element without text and exactly when some
    word of the text is not an [int] literal. *)
Theorem index_data_roundtrip (value : list Z) :
  from_xml (Some (to_xml value)) = Some value ∧
  from_xml None = None ∧
  (∀ text, from_xml (Some text) = mapM int_ (split (remove_newlines text))) ∧
  (∀ text, from_xml (Some text) = None ↔
           ∃ word, word ∈ split (remove_newlines text) ∧ int_ word = None).
Proof.
  assert (∀ text, from_xml (Some text) = mapM int_ (split (remove_newlines text))) as Hread.
  { intros text. unfold from_xml. cbn. by rewrite split_strip. }
  split_and!; [|done|done|].
  - rewrite Hread. unfold to_xml. rewrite to_xml_loop. cbn [concat app].
    unfold enumerate. rewrite (split_pieces (length value) value 0%nat) by done.
    apply mapM_Some. apply Forall2_fmap_l, Forall_Forall2_diag, Forall_forall.
    intros v _. apply int_str.
  - intros text. rewrite Hread. rewrite mapM_None. split.
    + intros (word & Hin & Hnone)%Exists_exists. by exists word.
    + intros (word & Hin & Hnone). apply Exists_exists. by exists word.
Qed.

(** Lines separated by a newline alone are read as one number. *)
Example newline_joins_numbers :
  from_xml (Some (String.list_ascii_of_string "1 2" ++ [newline]
                  ++ String.list_ascii_of_string "3 4"))
  = Some [1; 23; 4].
Proof. reflexivity. Qed.

End IndexData.

(** * Vector lists ([tools/utils.py], [VectorHelper]) *)

Module VectorLists.
Import Model Py.

(** [min(l)] on a list of floats: [ValueError] on an empty list; of equal
    values the first is kept. *)
Definition py_min (l : list Q) : option Q :=
  match l with
  | [] => None
  | x :: rest => Some (fold_left (λ m y, if Qle_bool m y then m else y) rest x)
  end.

(** The loop shared by [get_min_vector_list] and [get_max_vector_list]:
    [x.append(v[0]); y.append(v[1]); z.append(v[2])]; a vector with fewer
    than three components raises [IndexError]. *)
Definition component_step (xyz : list Q * list Q * list Q) (v : list Q)
  : option (list Q * list Q * list Q) :=
  v0 ← v !! 0; v1 ← v !! 1; v2 ← v !! 2;
  Some (xyz.1.1 ++ [v0], xyz.1.2 ++ [v1], xyz.2 ++ [v2]).

Definition components (vecs : list (list Q)) : option (list Q * list Q * list Q) :=
  fold_leftM component_step vecs ([], [], []).

Definition get_min_vector_list (vecs : list (list Q)) : option Vector3 :=
  xyz ← components vecs;
  mx ← py_min xyz.1.1; my ← py_min xyz.1.2; mz ← py_min xyz.2;
  Some (mkV3 mx my mz).

Definition get_max_vector_list (vecs : list (list Q)) : option Vector3 :=
  xyz ← components vecs;
  mx ← Physics.py_max xyz.1.1; my ← Physics.py_max xyz.1.2; mz ← Physics.py_max xyz.2;
  Some (mkV3 mx my mz).

Lemma fold_min_spec rest : ∀ x,
  let m := fold_left (λ m y, if Qle_bool m y then m else y) rest x in
  m ∈ x :: rest ∧ (m <= x)%Q ∧ ∀ y, y ∈ rest → (m <= y)%Q.
Proof.
  induction rest as [|z rest IH]; intros x; cbv zeta.
  - simpl. split_and!; [by left|apply Qle_refl|]. by intros y ?%elem_of_nil.
  - cbn [fold_left]. destruct (Qle_bool x z) eqn:Hxz.
    + apply Qle_bool_iff in Hxz. destruct (IH x) as (Hin & Hx & Hrest).
      split_and!; [|done|].
      * apply elem_of_cons in Hin as [->|Hin]; [by left|by right; right].
      * intros y [->|Hy]%elem_of_cons; [by eapply Qle_trans|by apply Hrest].
    + assert (z <= x)%Q as Hzx.
      { apply Qlt_le_weak, Qnot_le_lt. intros Hle. apply Qle_bool_iff in Hle. congruence. }
      destruct (IH z) as (Hin & Hz & Hrest). split_and!.
      * by right.
      * by eapply Qle_trans.
      * intros y [->|Hy]%elem_of_cons; [done|by apply Hrest].
Qed.

Lemma py_min_spec l m :
  py_min l = Some m → m ∈ l ∧ ∀ y, y ∈ l → (m <= y)%Q.
Proof.
  destruct l as [|x rest]; [done|]. intros [= <-].
  destruct (fold_min_spec rest x) as (Hin & Hx & Hrest). split; [done|].
  intros y [->|Hy]%elem_of_cons; [done|by apply Hrest].
Qed.

(** What the loop collects: the three columns, as long as every vector has
    three components. *)
Lemma components_loop vecs : ∀ x y z,
  fold_leftM component_step vecs (x, y, z)
  = if decide (Forall (λ v, 3 ≤ length v) vecs)
    then Some (x ++ omap (.!! 0) vecs, y ++ omap (.!! 1) vecs, z ++ omap (.!! 2) vecs)
    else None.
Proof.
  induction vecs as [|v vecs IH]; intros x y z.
  - rewrite decide_True by constructor. cbn. by rewrite !app_nil_r.
  - cbn [fold_leftM].
    assert (component_step (x, y, z) v
            = match v with
              | a :: b :: c :: _ => Some (x ++ [a], y ++ [b], z ++ [c])
              | _ => None
              end) as -> by by destruct v as [|a [|b [|c v]]].
    destruct v as [|a [|b [|c v]]]; cbn [mbind option_bind].
    1-3: rewrite decide_False; [done|]; intros [Hlen _]%Forall_cons; cbn in Hlen; lia.
    rewrite IH. cbn [fst snd omap list_omap lookup list_lookup].
    destruct (decide (Forall _ vecs)) as [Hall|Hnot].
    + rewrite decide_True by (apply Forall_cons; split; [cbn; lia|done]).
      by rewrite <- !app_assoc.
    + rewrite decide_False; [done|]. by intros [_ ?]%Forall_cons.
Qed.

Lemma column_length (vecs : list (list Q)) i :
  i < 3 → Forall (λ v, 3 ≤ length v) vecs →
  length (omap (.!! i) vecs) = length vecs.
Proof.
  intros Hi. induction 1 as [|v vecs Hv _ IH]; [done|].
  cbn [omap list_omap]. destruct (lookup_lt_is_Some_2 v i) as [a Ha]; [lia|].
  rewrite Ha. cbn. by rewrite IH.
Qed.

Lemma column_elem (vecs : list (list Q)) i a :
  a ∈ omap (.!! i) vecs ↔ ∃ v, v ∈ vecs ∧ v !! i = Some a.
Proof. apply list_elem_of_omap. Qed.

Lemma take3_long (vecs : list (list Q)) :
  Forall (λ v, 3 ≤ length v) (take 3 <$> vecs) ↔ Forall (λ v, 3 ≤ length v) vecs.
Proof.
  induction vecs as [|v vs IH]; [done|].
  rewrite fmap_cons, !Forall_cons, IH, length_take. split; intros [? ?]; split; try done; lia.
Qed.

Lemma take3_column (vecs : list (list Q)) i :
  i < 3 → omap (.!! i) (take 3 <$> vecs) = omap (.!! i) vecs.
Proof.
  intros Hi. induction vecs as [|v vs IH]; [done|].
  cbn [fmap list_fmap omap list_omap]. rewrite lookup_take_lt by done. by rewrite IH.
Qed.

(** X21.  [get_min_vector_list] and [get_max_vector_list] raise exactly on
    an empty list or a list holding a vector with fewer than three
    components; otherwise every vector of the list lies between the two
    results in each of its first three components, each component of a
    result is the component of some vector of the list, and components
    after the third are not looked at. *)
Theorem min_max_vector_list (vecs : list (list Q)) :
  (get_min_vector_list vecs = None ↔ vecs = [] ∨ ∃ v, v ∈ vecs ∧ length v < 3) ∧
  (get_max_vector_list vecs = None ↔ get_min_vector_list vecs = None) ∧
  (∀ lo hi, get_min_vector_list vecs = Some lo → get_max_vector_list vecs = Some hi →
     (∀ v a b c, v ∈ vecs → v !! 0 = Some a → v !! 1 = Some b → v !! 2 = Some c →
        (vx lo <= a <= vx hi ∧ vy lo <= b <= vy hi ∧ vz lo <= c <= vz hi)%Q) ∧
     (∃ v, v ∈ vecs ∧ v !! 0 = Some (vx lo)) ∧ (∃ v, v ∈ vecs ∧ v !! 1 = Some (vy lo)) ∧
     (∃ v, v ∈ vecs ∧ v !! 2 = Some (vz lo)) ∧
     (∃ v, v ∈ vecs ∧ v !! 0 = Some (vx hi)) ∧ (∃ v, v ∈ vecs ∧ v !! 1 = Some (vy hi)) ∧
     (∃ v, v ∈ vecs ∧ v !! 2 = Some (vz hi))) ∧
  get_min_vector_list (take 3 <$> vecs) = get_min_vector_list vecs ∧
  get_max_vector_list (take 3 <$> vecs) = get_max_vector_list vecs.
Proof.
  assert (∀ vs : list (list Q), ¬ Forall (λ v, 3 ≤ length v) vs ↔ ∃ v, v ∈ vs ∧ length v < 3)
    as Hshort.
  { intros vs. split.
    - intros Hn. apply not_Forall_Exists in Hn; [|intros v; apply _].
      apply Exists_exists in Hn as (v & Hv & Hlt). exists v. split; [done|]. cbn in Hlt. lia.
    - intros (v & Hv & Hlt) Hall. rewrite Forall_forall in Hall.
      specialize (Hall v Hv). cbn in Hall. lia. }
  assert (∀ (vs : list (list Q)) i, i < 3 → Forall (λ v, 3 ≤ length v) vs → vs ≠ [] →
            omap (.!! i) vs ≠ []) as Hcol.
  { intros vs i Hi Hall Hne Hnil. apply (f_equal length) in Hnil.
    rewrite column_length in Hnil by done. by destruct vs. }
  assert (∀ l : list Q, l ≠ [] → is_Some (py_min l) ∧ is_Some (Physics.py_max l)) as Hsome.
  { intros [|x l] Hl; [done|]. split; by eexists. }
  unfold get_min_vector_list, get_max_vector_list, components.
  rewrite !components_loop. cbn [app].
  split_and!.
  - destruct (decide (Forall _ vecs)) as [Hall|Hnot]; cbn [mbind option_bind fst snd].
    + destruct (decide (vecs = [])) as [->|Hne]; [by split; [left|]|].
      destruct (Hsome _ (Hcol vecs 0 ltac:(lia) Hall Hne)) as [[mx ->] _].
      destruct (Hsome _ (Hcol vecs 1 ltac:(lia) Hall Hne)) as [[my ->] _].
      destruct (Hsome _ (Hcol vecs 2 ltac:(lia) Hall Hne)) as [[mz ->] _].
      cbn. split; [done|]. intros [?|Hex]; [done|]. by apply Hshort in Hex.
    + split; [|done]. intros _. right. by apply Hshort.
  - destruct (decide (Forall _ vecs)) as [Hall|Hnot]; cbn [mbind option_bind fst snd]; [|done].
    destruct (decide (vecs = [])) as [->|Hne]; [done|].
    destruct (Hsome _ (Hcol vecs 0 ltac:(lia) Hall Hne)) as [[? ->] [? ->]].
    destruct (Hsome _ (Hcol vecs 1 ltac:(lia) Hall Hne)) as [[? ->] [? ->]].
    destruct (Hsome _ (Hcol vecs 2 ltac:(lia) Hall Hne)) as [[? ->] [? ->]].
    done.
  - intros lo hi. destruct (decide (Forall _ vecs)) as [Hall|Hnot]; [|done].
    cbn [mbind option_bind fst snd].
    destruct (py_min (omap (.!! 0) vecs)) as [lx|] eqn:Hlx; [|done].
    destruct (py_min (omap (.!! 1) vecs)) as [ly|] eqn:Hly; [|done].
    destruct (py_min (omap (.!! 2) vecs)) as [lz|] eqn:Hlz; [|done].
    destruct (Physics.py_max (omap (.!! 0) vecs)) as [hx|] eqn:Hhx; [|done].
    destruct (Physics.py_max (omap (.!! 1) vecs)) as [hy|] eqn:Hhy; [|done].
    destruct (Physics.py_max (omap (.!! 2) vecs)) as [hz|] eqn:Hhz; [|done].
    cbn. intros [= <-] [= <-]. cbn [vx vy vz].
    apply py_min_spec in Hlx as [Hlx1 Hlx2], Hly as [Hly1 Hly2], Hlz as [Hlz1 Hlz2].
    apply Physics.py_max_spec in Hhx as [Hhx1 Hhx2], Hhy as [Hhy1 Hhy2], Hhz as [Hhz1 Hhz2].
    split_and!; try by apply column_elem.
    intros v a b c Hv Ha Hb Hc.
    split_and!; first [apply Hlx2|apply Hly2|apply Hlz2|apply Hhx2|apply Hhy2|apply Hhz2];
      apply column_elem; by exists v.
  - rewrite !take3_column by lia.
    destruct (decide (Forall _ (take 3 <$> vecs))) as [Hall|Hnot];
      destruct (decide (Forall _ vecs)) as [Hall'|Hnot']; try done.
    + exfalso. apply Hnot'. by apply take3_long.
    + exfalso. apply Hnot. by apply take3_long.
  - rewrite !take3_column by lia.
    destruct (decide (Forall _ (take 3 <$> vecs))) as [Hall|Hnot];
      destruct (decide (Forall _ vecs)) as [Hall'|Hnot']; try done.
    + exfalso. apply Hnot'. by apply take3_long.
    + exfalso. apply Hnot. by apply take3_long.
Qed.

Lemma min_max_vector_list_witness :
  get_min_vector_list [[1; 5; 2; 9]; [3; 0; 4]]%Q = Some (mkV3 1 0 2) ∧
  get_max_vector_list [[1; 5; 2; 9]; [3; 0; 4]]%Q = Some (mkV3 3 5 4) ∧
  (1 <= 3 <= 3 ∧ 0 <= 0 <= 5 ∧ 2 <= 4 <= 4)%Q.
Proof.
  destruct (min_max_vector_list [[1; 5; 2; 9]; [3; 0; 4]]%Q) as (_ & _ & Hbox & _).
  destruct (Hbox (mkV3 1 0 2) (mkV3 3 5 4) eq_refl eq_refl) as [Hin _].
  split; [reflexivity|]. split; [reflexivity|].
  apply (Hin [3; 0; 4]%Q 3%Q 0%Q 4%Q); [|reflexivity..].
  apply elem_of_cons. right. apply elem_of_cons. by left.
Defined.

End VectorLists.

(** * Physics groups from the armature ([create_phys_xml_groups]) *)

Module Groups.
Import Model Py PyDict.

(** A [bpy.types.Bone] of the armature, as far as the function looks at
    it; [parent] is [None] for a root bone. *)
#[warnings="-register-all"]
Inductive ArmatureBone :=
  mkArmatureBone (bone_name : string) (sollumz_use_physics : bool)
                 (parent : option ArmatureBone).

Definition bone_name (b : ArmatureBone) : string :=
  match b with mkArmatureBone n _ _ => n end.

Definition sollumz_use_physics (b : ArmatureBone) : bool :=
  match b with mkArmatureBone _ u _ => u end.

Definition parent (b : ArmatureBone) : option ArmatureBone :=
  match b with mkArmatureBone _ _ p => p end.

(** [get_group_parent_index]: the index, in [group_ind_by_name], of the
    nearest ancestor that has physics enabled and a group, or 255. *)
Fixpoint get_group_parent_index (group_ind_by_name : gmap string nat)
    (group_bone : ArmatureBone) : Z :=
  match group_bone with
  | mkArmatureBone _ _ None => 255
  | mkArmatureBone _ _ (Some parent_bone) =>
      match group_ind_by_name !! bone_name parent_bone with
      | Some i =>
          if sollumz_use_physics parent_bone then Z.of_nat i
          else get_group_parent_index group_ind_by_name parent_bone
      | None => get_group_parent_index group_ind_by_name parent_bone
      end
  end.

(** [sorted(d.items())] for integer keys: the keys of a dict are distinct,
    so the order of the items is decided by the keys alone. *)
Fixpoint insert_item {V} (x : Z * V) (l : list (Z * V)) : list (Z * V) :=
  match l with
  | [] => [x]
  | y :: l' => if (x.1 <=? y.1)%Z then x :: l else y :: insert_item x l'
  end.

Definition sorted_items {V} (d : dict Z V) : dict Z V := foldr insert_item [] d.

(** The second loop: [group_ind_by_name[group_xml.name] = len(group_ind_by_name)]
    for every group, bone by bone. *)
Definition index_names (groups_by_bone : dict Z (list PhysicsGroup)) : gmap string nat :=
  fold_left (λ m group_xml, <[name group_xml := size m]> m)
            (concat groups_by_bone.*2) ∅.

(** The body of the inner loop of the third loop; the state is
    [group_ind_by_name] and [lod_xml.groups]. *)
Definition assign_group (parent_index : Z) (st : gmap string nat * list PhysicsGroup)
    (group_xml : PhysicsGroup) : gmap string nat * list PhysicsGroup :=
  (<[name group_xml := length st.2]> st.1,
   st.2 ++ [mkGroup (name group_xml) parent_index (group_mass group_xml)]).

Section groups.
(** [get_child_of_bone] and [get_bone_index] are imported from modules that
    are not among the sources; [glass_window_step] stands for the statement
    [if bone.group_properties.flags[GroupFlagBit.USE_GLASS_WINDOW]:
    add_frag_glass_window_xml(...)], which changes [glass_windows_xml] and,
    of the group, only [glass_window_index]; [new_group] is a fresh
    [PhysicsGroup()].  Each of the three functions may raise.  Of a group
    the model keeps the name, the parent index and the mass;
    [set_group_xml_properties] writes none of them. *)
Context {Obj GlassWindows : Type}.
Variable get_child_of_bone : Obj → option ArmatureBone.
Variable get_bone_index : list ArmatureBone → ArmatureBone → option Z.
Variable glass_window_step : ArmatureBone → GlassWindows → option GlassWindows.
Variable new_group : PhysicsGroup.

(** [frag_obj.data.bones], the objects of [frag_obj.children_recursive]
    whose type is a bound type, and the objects returned by
    [get_frag_env_cloth_mesh_objects(frag_obj, silent=True)]. *)
Variable bones : list ArmatureBone.
Variable col_objs cloth_objs : list Obj.

Definition linked_to (bone_name_ : string) (obj : Obj) : bool :=
  match get_child_of_bone obj with
  | Some bone => bool_decide (bone_name bone = bone_name_)
  | None => false
  end.

Definition does_bone_have_collision (bone_name_ : string) : bool :=
  existsb (linked_to bone_name_) col_objs.

Definition does_bone_have_cloth (bone_name_ : string) : bool :=
  existsb (linked_to bone_name_) cloth_objs.

(** The body of the first loop; the state is [groups_by_bone] and
    [glass_windows_xml].  A bone whose [get_bone_index] is [None] makes the
    function raise [TypeError] later on, in [sorted] or in
    [frag_obj.data.bones[bone_index]]. *)
Definition collect_step (st : dict Z (list PhysicsGroup) * GlassWindows)
    (bone : ArmatureBone) : option (dict Z (list PhysicsGroup) * GlassWindows) :=
  if negb (sollumz_use_physics bone) then Some st
  else if negb (does_bone_have_collision (bone_name bone))
          && negb (does_bone_have_cloth (bone_name bone)) then Some st
  else
    let group_xml := mkGroup (bone_name bone) (parent_index new_group) (group_mass new_group) in
    bone_index ← get_bone_index bones bone;
    windows ← glass_window_step bone st.2;
    Some (dict_append st.1 bone_index group_xml, windows).

(** The body of the third loop. *)
Definition assign_step (st : gmap string nat * list PhysicsGroup)
    (item : Z * list PhysicsGroup) : option (gmap string nat * list PhysicsGroup) :=
  bone ← getitem bones item.1;
  Some (fold_left (assign_group (get_group_parent_index st.1 bone)) item.2 st).

(** The new [lod_xml] and [glass_windows_xml]. *)
Definition create_phys_xml_groups (lod_xml : PhysicsLOD) (glass_windows_xml : GlassWindows)
  : option (PhysicsLOD * GlassWindows) :=
  collected ← fold_leftM collect_step bones ([], glass_windows_xml);
  let groups_by_bone := sorted_items collected.1 in
  let group_ind_by_name := index_names groups_by_bone in
  assigned ← fold_leftM assign_step groups_by_bone (group_ind_by_name, groups lod_xml);
  Some (Physics.set_groups lod_xml assigned.2, collected.2).

(** ** What the function computes *)

(** The bones that get a group. *)
Definition grouped (bone : ArmatureBone) : bool :=
  sollumz_use_physics bone
  && (does_bone_have_collision (bone_name bone) || does_bone_have_cloth (bone_name bone)).

(** The nearest ancestor that gets a group. *)
Fixpoint nearest_grouped (bone : ArmatureBone) : option ArmatureBone :=
  match bone with
  | mkArmatureBone _ _ None => None
  | mkArmatureBone _ _ (Some p) => if grouped p then Some p else nearest_grouped p
  end.

(** [get_bone_index] gives the position of a bone in [frag_obj.data.bones]. *)
Definition indexed_by_position : Prop :=
  ∀ i bone, bones !! i = Some bone → get_bone_index bones bone = Some (Z.of_nat i).

(** A bone's parent is a bone of the armature and comes before it. *)
Definition parents_before : Prop :=
  ∀ i bone p, bones !! i = Some bone → parent bone = Some p →
              ∃ j, j < i ∧ bones !! j = Some p.

Definition idx (bone : ArmatureBone) : Z := default 0%Z (get_bone_index bones bone).

Definition fresh_group (bone : ArmatureBone) : PhysicsGroup :=
  mkGroup (bone_name bone) (parent_index new_group) (group_mass new_group).

Definition item_of (bone : ArmatureBone) : Z * list PhysicsGroup :=
  (idx bone, [fresh_group bone]).

Definition final_group (m : gmap string nat) (bone : ArmatureBone) : PhysicsGroup :=
  mkGroup (bone_name bone) (get_group_parent_index m bone) (group_mass new_group).

Lemma bone_induction (P : ArmatureBone → Prop) :
  (∀ n u, P (mkArmatureBone n u None)) →
  (∀ n u p, P p → P (mkArmatureBone n u (Some p))) →
  ∀ b, P b.
Proof.
  intros Hroot Hchild. fix IH 1. intros [n u [p|]]; [apply Hchild, IH|apply Hroot].
Qed.

Lemma collect_step_grouped st bone :
  collect_step st bone
  = if grouped bone
    then bone_index ← get_bone_index bones bone;
         windows ← glass_window_step bone st.2;
         Some (dict_append st.1 bone_index (fresh_group bone), windows)
    else Some st.
Proof.
  unfold collect_step, grouped.
  destruct (sollumz_use_physics bone), (does_bone_have_collision (bone_name bone)),
    (does_bone_have_cloth (bone_name bone)); done.
Qed.

Lemma collect_loop l : ∀ st,
  (∀ b, b ∈ l → is_Some (get_bone_index bones b)) →
  fold_leftM collect_step l st
  = windows ← fold_leftM (λ w b, glass_window_step b w) (filter (λ b, grouped b = true) l) st.2;
    Some (fold_left (λ d b, dict_append d (idx b) (fresh_group b))
                    (filter (λ b, grouped b = true) l) st.1, windows).
Proof.
  induction l as [|b l IH]; intros [d w] Hidx; [done|].
  cbn [fold_leftM]. rewrite collect_step_grouped.
  assert (∀ b', b' ∈ l → is_Some (get_bone_index bones b')) as Hl.
  { intros b' Hb'. apply Hidx. by right. }
  destruct (grouped b) eqn:Hg.
  - rewrite filter_cons_True by done. cbn [fold_leftM fold_left fst snd].
    destruct (Hidx b) as [i Hi]; [by left|].
    assert (idx b = i) as -> by (unfold idx; by rewrite Hi).
    rewrite Hi. cbn [mbind option_bind].
    destruct (glass_window_step b w) as [w'|]; cbn [mbind option_bind]; [|done].
    by rewrite IH.
  - rewrite filter_cons_False by (by rewrite Hg). cbn [mbind option_bind]. by rewrite IH.
Qed.

Lemma dict_append_fresh {K V} `{EqDecision K} (d : dict K (list V)) k v :
  k ∉ d.*1 → dict_append d k v = d ++ [(k, [v])].
Proof.
  induction d as [|[k' l] d IH]; intros Hk; [done|].
  cbn [dict_append]. rewrite decide_False.
  - cbn. f_equal. apply IH. intros Hin. apply Hk. by right.
  - intros ->. apply Hk. by left.
Qed.

Lemma collect_dict G : ∀ d,
  NoDup (d.*1 ++ (idx <$> G)) →
  fold_left (λ d b, dict_append d (idx b) (fresh_group b)) G d = d ++ (item_of <$> G).
Proof.
  induction G as [|b G IH]; intros d Hnd; [by rewrite app_nil_r|].
  cbn [fold_left fmap list_fmap]. rewrite dict_append_fresh.
  - rewrite IH.
    + by rewrite <- app_assoc.
    + rewrite fmap_app, <- app_assoc. exact Hnd.
  - apply NoDup_app in Hnd as (_ & Hdisj & _). intros Hin.
    apply (Hdisj _ Hin). by left.
Qed.

Lemma sorted_items_increasing {V} (d : dict Z V) :
  StronglySorted Z.lt d.*1 → sorted_items d = d.
Proof.
  induction d as [|x d IH]; intros Hs; [done|].
  apply StronglySorted_inv in Hs as [Hs Hall].
  unfold sorted_items in *. cbn [foldr]. rewrite IH by done.
  destruct d as [|y d]; [done|]. cbn [insert_item].
  apply Forall_cons in Hall as [Hxy _]. cbn in Hxy.
  by rewrite (proj2 (Z.leb_le _ _)) by lia.
Qed.

Lemma positions_sorted (f : ArmatureBone → Z) (l : list ArmatureBone) : ∀ off,
  (∀ i b, l !! i = Some b → f b = Z.of_nat (off + i)) →
  StronglySorted Z.lt (f <$> l).
Proof.
  induction l as [|b l IH]; intros off Hf; [constructor|].
  cbn. constructor.
  - apply (IH (S off)). intros i b' Hb'. rewrite (Hf (S i) b' Hb'). f_equal. lia.
  - apply Forall_fmap, Forall_forall. intros b' Hb'.
    apply list_elem_of_lookup in Hb' as [i Hi].
    cbn. rewrite (Hf 0 b eq_refl), (Hf (S i) b' Hi). lia.
Qed.

Lemma filter_sorted (f : ArmatureBone → Z) (P : ArmatureBone → Prop)
    `{!∀ b, Decision (P b)} (l : list ArmatureBone) :
  StronglySorted Z.lt (f <$> l) → StronglySorted Z.lt (f <$> filter P l).
Proof.
  induction l as [|b l IH]; intros Hs; [constructor|].
  cbn in Hs. apply StronglySorted_inv in Hs as [Hs Hall].
  destruct (decide (P b)).
  - rewrite filter_cons_True by done. cbn. constructor; [by apply IH|].
    apply Forall_fmap, Forall_forall. intros b' [_ Hb']%list_elem_of_filter.
    rewrite Forall_forall in Hall. apply Hall. by apply list_elem_of_fmap_2.
  - rewrite filter_cons_False by done. by apply IH.
Qed.

Lemma sorted_NoDup (l : list Z) : StronglySorted Z.lt l → NoDup l.
Proof.
  induction 1 as [|x l _ IH Hall]; constructor; [|done].
  intros Hin. apply (proj1 (Forall_forall _ _) Hall) in Hin. lia.
Qed.

Lemma sorted_lookup (l : list Z) i j x y :
  StronglySorted Z.lt l → l !! i = Some x → l !! j = Some y → i < j → (x < y)%Z.
Proof.
  intros Hs. revert i j. induction Hs as [|z l _ IH Hall]; intros i j Hi Hj Hij; [done|].
  destruct j as [|j]; [lia|]. destruct i as [|i].
  - cbn in Hi, Hj. simplify_eq. apply (proj1 (Forall_forall _ _) Hall).
    by eapply list_elem_of_lookup_2.
  - cbn in Hi, Hj. apply (IH i j); [done|done|lia].
Qed.

(** The second loop numbers the groups in order. *)
Lemma index_names_loop (gs : list PhysicsGroup) :
  NoDup (name <$> gs) →
  let m := fold_left (λ (m : gmap string nat) group_xml, <[name group_xml := size m]> m)
                     gs ∅ in
  size m = length gs ∧
  ∀ x i, m !! x = Some i ↔ ∃ g, gs !! i = Some g ∧ name g = x.
Proof.
  induction gs as [|g gs IH] using rev_ind; intros Hnd; cbv zeta.
  - cbn. split; [apply map_size_empty|]. intros x i. rewrite lookup_empty.
    split; [done|]. by intros (g & ? & _).
  - rewrite fmap_app in Hnd. apply NoDup_app in Hnd as (Hnd & Hdisj & _).
    destruct (IH Hnd) as [Hsize Hlook]. rewrite fold_left_app. cbn [fold_left].
    set (m := fold_left _ gs ∅) in *.
    assert (m !! name g = None) as Hfresh.
    { destruct (m !! name g) as [i|] eqn:Hi; [|done].
      apply Hlook in Hi as (g' & Hg' & Hname). exfalso.
      apply (Hdisj (name g)); [|by left].
      rewrite <- Hname. apply list_elem_of_fmap_2. by eapply list_elem_of_lookup_2. }
    split.
    + rewrite map_size_insert_None by done. rewrite length_app. cbn. lia.
    + intros x i. rewrite lookup_insert_Some. split.
      * intros [[<- <-]|[Hne Hm]].
        -- exists g. split; [|done]. rewrite Hsize. by rewrite list_lookup_middle.
        -- apply Hlook in Hm as (g' & Hg' & Hname). exists g'. split; [|done].
           by apply lookup_app_l_Some.
      * intros (g' & Hg' & Hname).
        apply lookup_app_Some in Hg' as [Hg'|[Hlen Hg']].
        -- right. split.
           ++ intros Heq. apply (Hdisj (name g)); [|by left].
              rewrite Heq, <- Hname. apply list_elem_of_fmap_2.
              by eapply list_elem_of_lookup_2.
           ++ apply Hlook. by exists g'.
        -- left. destruct (i - length gs) as [|?] eqn:Hdiff; [|done].
           cbn in Hg'. simplify_eq. split; [done|]. lia.
Qed.

Section run.
Hypothesis Hidx : indexed_by_position.
Hypothesis Hnames : NoDup (bone_name <$> bones).
Hypothesis Hparents : parents_before.

(** The bones that get a group, in armature order. *)
Definition grouped_bones : list ArmatureBone := filter (λ b, grouped b = true) bones.

Lemma idx_position i b : bones !! i = Some b → idx b = Z.of_nat i.
Proof. intros Hb. unfold idx. by rewrite (Hidx i b Hb). Qed.

Lemma same_name b b' :
  b ∈ bones → b' ∈ bones → bone_name b = bone_name b' → b = b'.
Proof.
  intros [i Hi]%list_elem_of_lookup [j Hj]%list_elem_of_lookup Hname.
  assert (i = j) as ->.
  { eapply (NoDup_lookup _ _ _ _ Hnames).
    - by apply list_lookup_fmap_Some_2.
    - rewrite Hname. by apply list_lookup_fmap_Some_2. }
  congruence.
Qed.

Lemma grouped_bones_elem b : b ∈ grouped_bones ↔ grouped b = true ∧ b ∈ bones.
Proof. unfold grouped_bones. by rewrite list_elem_of_filter. Qed.

Lemma grouped_bones_sorted : StronglySorted Z.lt (idx <$> grouped_bones).
Proof.
  apply filter_sorted. apply (positions_sorted idx bones 0).
  intros i b Hb. by apply idx_position.
Qed.

Lemma grouped_bones_names : NoDup (bone_name <$> grouped_bones).
Proof.
  eapply sublist_NoDup; [exact Hnames|]. apply fmap_sublist, sublist_filter.
Qed.

(** The order of the groups is the order of the bones. *)
Lemma grouped_bones_order j k a b i' i :
  grouped_bones !! j = Some a → grouped_bones !! k = Some b →
  bones !! i' = Some a → bones !! i = Some b → i' < i → j < k.
Proof.
  intros Hj Hk Hi' Hi Hlt.
  pose proof grouped_bones_sorted as Hs.
  pose proof (list_lookup_fmap_Some_2 idx _ _ _ Hj) as Hja.
  pose proof (list_lookup_fmap_Some_2 idx _ _ _ Hk) as Hkb.
  rewrite (idx_position _ _ Hi') in Hja. rewrite (idx_position _ _ Hi) in Hkb.
  destruct (decide (j < k)) as [|Hge]; [done|]. exfalso.
  destruct (decide (j = k)) as [->|Hne].
  - rewrite Hja in Hkb. simplify_eq. lia.
  - pose proof (sorted_lookup _ k j _ _ Hs Hkb Hja ltac:(lia)). lia.
Qed.

Lemma collected windows :
  fold_leftM collect_step bones ([], windows)
  = windows' ← fold_leftM (λ w b, glass_window_step b w) grouped_bones windows;
    Some (item_of <$> grouped_bones, windows').
Proof.
  rewrite collect_loop.
  - cbn [fst snd]. fold grouped_bones.
    destruct (fold_leftM _ grouped_bones windows) as [w'|]; [|done].
    cbn [mbind option_bind]. rewrite collect_dict; [done|].
    cbn [fmap list_fmap app]. apply sorted_NoDup, grouped_bones_sorted.
  - intros b [i Hi]%list_elem_of_lookup. rewrite (Hidx i b Hi). by eexists.
Qed.

Lemma items_sorted : sorted_items (item_of <$> grouped_bones) = item_of <$> grouped_bones.
Proof.
  apply sorted_items_increasing. rewrite <- list_fmap_compose.
  apply grouped_bones_sorted.
Qed.

Lemma items_groups (l : list ArmatureBone) :
  concat (item_of <$> l).*2 = fresh_group <$> l.
Proof. induction l as [|b l IH]; [done|]. cbn. by rewrite IH. Qed.

(** [group_ind_by_name] after the second loop. *)
Definition names_index : gmap string nat := index_names (item_of <$> grouped_bones).

Lemma names_index_spec x i :
  names_index !! x = Some i ↔ ∃ b, grouped_bones !! i = Some b ∧ bone_name b = x.
Proof.
  unfold names_index, index_names. rewrite items_groups.
  destruct (index_names_loop (fresh_group <$> grouped_bones)) as [_ Hlook].
  { rewrite <- list_fmap_compose. apply grouped_bones_names. }
  rewrite Hlook. split.
  - intros (g & Hg & Hname). apply list_lookup_fmap_Some_1 in Hg as (b & -> & Hb).
    by exists b.
  - intros (b & Hb & Hname). exists (fresh_group b).
    split; [by apply list_lookup_fmap_Some_2|done].
Qed.

(** The third loop leaves [group_ind_by_name] as it is and appends the
    groups in order. *)
Lemma assign_loop rest : ∀ before,
  grouped_bones = before ++ rest →
  fold_leftM assign_step (item_of <$> rest)
             (names_index, final_group names_index <$> before)
  = Some (names_index, final_group names_index <$> grouped_bones).
Proof.
  induction rest as [|b rest IH]; intros before HG.
  - rewrite app_nil_r in HG. by rewrite HG.
  - cbn [fmap list_fmap fold_leftM].
    assert (b ∈ bones) as [i Hi]%list_elem_of_lookup.
    { apply (grouped_bones_elem b). rewrite HG. apply elem_of_app. right. by left. }
    assert (assign_step (names_index, final_group names_index <$> before) (item_of b)
            = Some (names_index, final_group names_index <$> (before ++ [b]))) as ->.
    { unfold assign_step, item_of. cbn [fst snd]. rewrite (idx_position i b Hi).
      rewrite getitem_nat by (by eapply lookup_lt_Some). rewrite Hi.
      cbn [mbind option_bind fold_left]. unfold assign_group, fresh_group.
      cbn [fst snd name group_mass].
      rewrite insert_id; [by rewrite fmap_app|].
      apply names_index_spec. exists b. split; [|done].
      rewrite length_fmap, HG. by rewrite list_lookup_middle. }
    cbn [mbind option_bind]. apply IH. by rewrite <- app_assoc.
Qed.

Lemma parent_in_bones b p : b ∈ bones → parent b = Some p → p ∈ bones.
Proof.
  intros [i Hi]%list_elem_of_lookup Hp.
  destruct (Hparents i b p Hi Hp) as (j & _ & Hj). by eapply list_elem_of_lookup_2.
Qed.

(** With the index of the second loop, [get_group_parent_index] finds the
    group of the nearest grouped ancestor. *)
Lemma parent_index_nearest b :
  b ∈ bones →
  match nearest_grouped b with
  | None => get_group_parent_index names_index b = 255%Z
  | Some a => ∃ j, grouped_bones !! j = Some a
                   ∧ get_group_parent_index names_index b = Z.of_nat j
  end.
Proof.
  induction b as [n u|n u p IH] using bone_induction; intros Hb; [done|].
  pose proof (parent_in_bones _ p Hb eq_refl) as Hp.
  cbn [nearest_grouped get_group_parent_index].
  destruct (names_index !! bone_name p) as [i|] eqn:Hi.
  - apply names_index_spec in Hi as (b' & Hb' & Hname).
    assert (b' ∈ grouped_bones) as [Hg Hin]%grouped_bones_elem
      by by eapply list_elem_of_lookup_2.
    assert (b' = p) as -> by by apply same_name.
    rewrite Hg. assert (sollumz_use_physics p = true) as ->.
    { unfold grouped in Hg. by apply andb_true_iff in Hg as [? _]. }
    by exists i.
  - destruct (grouped p) eqn:Hg; [|by apply IH].
    exfalso. assert (p ∈ grouped_bones) as [i Hpi]%list_elem_of_lookup
      by by apply grouped_bones_elem.
    assert (names_index !! bone_name p = Some i) as Hsome
      by (apply names_index_spec; by exists p).
    congruence.
Qed.

Lemma nearest_before b : ∀ i a,
  bones !! i = Some b → nearest_grouped b = Some a →
  ∃ i', i' < i ∧ bones !! i' = Some a.
Proof.
  induction b as [n u|n u p IH] using bone_induction; intros i a Hi Ha; [done|].
  destruct (Hparents i _ p Hi eq_refl) as (j & Hj & Hp).
  cbn [nearest_grouped] in Ha. destruct (grouped p).
  - simplify_eq. by exists j.
  - destruct (IH j a Hp Ha) as (i' & Hi' & Ha'). exists i'. split; [lia|done].
Qed.

(** X22.  On an armature whose bones have distinct names, are numbered by
    [get_bone_index] with their positions and come after their parents,
    [create_phys_xml_groups] called with an empty group list returns
    exactly when the glass window steps of the grouped bones return.  The
    grouped bones are those with physics enabled and a collision or a cloth
    linked to them; they get one group each, in armature order, named after
    the bone.  The parent index of a group is the position, among the
    groups, of the group of the nearest grouped ancestor of its bone,
    which is an earlier group, and 255 when no ancestor is grouped. *)
Theorem phys_groups_follow_bones (lod_xml : PhysicsLOD) (glass_windows_xml : GlassWindows) :
  groups lod_xml = [] →
  (is_Some (create_phys_xml_groups lod_xml glass_windows_xml)
   ↔ is_Some (fold_leftM (λ w b, glass_window_step b w) grouped_bones glass_windows_xml)) ∧
  ∀ lod' windows',
    create_phys_xml_groups lod_xml glass_windows_xml = Some (lod', windows') →
    fold_leftM (λ w b, glass_window_step b w) grouped_bones glass_windows_xml
    = Some windows' ∧
    (name <$> groups lod') = (bone_name <$> grouped_bones) ∧
    (∀ k b, grouped_bones !! k = Some b →
       ∃ g, groups lod' !! k = Some g ∧
            group_mass g = group_mass new_group ∧
            match nearest_grouped b with
            | None => parent_index g = 255%Z
            | Some a => ∃ j, j < k ∧ grouped_bones !! j = Some a
                             ∧ parent_index g = Z.of_nat j
            end) ∧
    Links.parents_first lod'.
Proof.
  intros Hempty.
  assert (create_phys_xml_groups lod_xml glass_windows_xml
          = windows' ← fold_leftM (λ w b, glass_window_step b w) grouped_bones
                                  glass_windows_xml;
            Some (Physics.set_groups lod_xml (final_group names_index <$> grouped_bones),
                  windows')) as Hrun.
  { unfold create_phys_xml_groups. rewrite collected.
    destruct (fold_leftM _ grouped_bones glass_windows_xml) as [w'|]; [|done].
    cbn [mbind option_bind fst snd]. cbv zeta. rewrite items_sorted, Hempty.
    fold names_index.
    pose proof (assign_loop grouped_bones [] eq_refl) as Hloop.
    cbn [fmap list_fmap] in Hloop. by rewrite Hloop. }
  assert (∀ k b, grouped_bones !! k = Some b →
            match nearest_grouped b with
            | None => get_group_parent_index names_index b = 255%Z
            | Some a => ∃ j, j < k ∧ grouped_bones !! j = Some a
                             ∧ get_group_parent_index names_index b = Z.of_nat j
            end) as Hparent.
  { intros k b Hk.
    assert (b ∈ bones) as Hb.
    { apply (grouped_bones_elem b). by eapply list_elem_of_lookup_2. }
    pose proof (parent_index_nearest b Hb) as Hnear.
    destruct (nearest_grouped b) as [a|] eqn:Ha; [|done].
    destruct Hnear as (j & Hj & Hidxj). exists j. split; [|done].
    apply list_elem_of_lookup in Hb as [i Hi].
    destruct (nearest_before b i a Hi Ha) as (i' & Hlt & Hi').
    by eapply grouped_bones_order. }
  rewrite Hrun. split.
  { destruct (fold_leftM _ grouped_bones glass_windows_xml); cbn; split;
      intros [? Hx]; first [discriminate Hx|by eexists]. }
  intros lod' windows' Hsome.
  destruct (fold_leftM _ grouped_bones glass_windows_xml) as [w'|]; [|done].
  cbn in Hsome. simplify_eq. cbn [groups Physics.set_groups].
  split_and!.
  - done.
  - by rewrite <- list_fmap_compose.
  - intros k b Hk. exists (final_group names_index b).
    split; [by apply list_lookup_fmap_Some_2|]. split; [done|].
    cbn [final_group parent_index]. by apply Hparent.
  - intros k g Hg. cbn [groups Physics.set_groups] in Hg.
    apply list_lookup_fmap_Some_1 in Hg as (b & -> & Hb).
    cbn [final_group parent_index]. pose proof (Hparent k b Hb) as Hp.
    destruct (nearest_grouped b); [|by left].
    destruct Hp as (j & Hj & _ & ->). right. lia.
Qed.

End run.

End groups.

(** The position of the first bone with the name of [bone]. *)
Definition index_by_name (bones : list ArmatureBone) (bone : ArmatureBone) : option Z :=
  (λ ib : nat * ArmatureBone, Z.of_nat ib.1)
    <$> list_find (λ b, bone_name b = bone_name bone) bones.

(** A chassis, a bone without physics below it and a door below that: the
    door's group hangs on the chassis' group. *)
Definition chassis : ArmatureBone := mkArmatureBone "chassis" true None.
Definition hinge : ArmatureBone := mkArmatureBone "hinge" false (Some chassis).
Definition door : ArmatureBone := mkArmatureBone "door" true (Some hinge).
Definition wheel : ArmatureBone := mkArmatureBone "wheel" true (Some chassis).

Definition empty_lod : PhysicsLOD :=
  mkLOD (mkArchetype 0 0 Vec.zero Vec.zero []) [] [] [] Vec.zero Vec.zero Vec.zero.

Definition car_bones : list ArmatureBone := [chassis; hinge; door; wheel].

Example car_groups :
  create_phys_xml_groups (λ obj : ArmatureBone, Some obj) index_by_name
    (λ _ (w : nat), Some (S w)) (mkGroup "" 0 0)
    car_bones [door; chassis] [] empty_lod 0
  = Some (Physics.set_groups empty_lod [mkGroup "chassis" 255 0; mkGroup "door" 0 0], 2).
Proof. by vm_compute. Qed.

Lemma phys_groups_follow_bones_witness :
  ∃ lod',
    create_phys_xml_groups (λ obj : ArmatureBone, Some obj) index_by_name
      (λ _ (w : nat), Some (S w)) (mkGroup "" 0 0)
      car_bones [door; chassis] [] empty_lod 0 = Some (lod', 2) ∧
    (name <$> groups lod') = ["chassis"; "door"] ∧
    Links.parents_first lod'.
Proof.
  assert (indexed_by_position index_by_name car_bones) as Hidx.
  { intros [|[|[|[|i]]]] bone Hbone; cbn in Hbone; simplify_eq; reflexivity. }
  assert (NoDup (bone_name <$> car_bones)) as Hnames.
  { apply (bool_decide_unpack _). by vm_compute. }
  assert (parents_before car_bones) as Hparents.
  { intros [|[|[|[|i]]]] bone p Hbone Hp; cbn in Hbone; simplify_eq; cbn in Hp; simplify_eq.
    - exists 0. split; [lia|done].
    - exists 1. split; [lia|done].
    - exists 0. split; [lia|done]. }
  destruct (phys_groups_follow_bones (λ obj : ArmatureBone, Some obj) index_by_name
              (λ _ (w : nat), Some (S w)) (mkGroup "" 0 0) car_bones [door; chassis] []
              Hidx Hnames Hparents empty_lod 0 eq_refl) as [_ Hgroups].
  eexists. split; [by vm_compute|].
  edestruct Hgroups as (_ & Hnamed & _ & Hfirst); [by vm_compute|].
  split; [exact Hnamed|exact Hfirst].
Defined.

End Groups.

(** * Matrix arrays of the physics children ([create_child_mat_arrays]) *)

Module ChildMatrices.
Import Model Py.

(** A physics child with its drawable's [matrix] and [matrices]. *)
Record ChildDrawable := mkChildDrawable {
  child : PhysicsChild;
  matrix : Matrix;
  matrices : list Matrix }.

(** [c.drawable.matrices.append(m)] *)
Definition append_matrix (m : Matrix) (c : ChildDrawable) : ChildDrawable :=
  mkChildDrawable (child c) (matrix c) (matrices c ++ [m]).

(** [[child for child in children if child.group_index == i]], each child
    with its position in [children]. *)
Definition group_children (children : list ChildDrawable) (i : Z)
  : list (nat * ChildDrawable) :=
  filter (λ kc, group_index (child kc.2) = i) (enumerate children).

(** The body of [for i in group_inds].  The children are objects: the
    appends change the child at the position of [first] in [children]; no
    [matrix] is ever written, so the matrices appended are those the
    children had when the group was collected. *)
Definition mat_arrays_step (children : list ChildDrawable) (i : Z) : list ChildDrawable :=
  match group_children children i with
  | first :: second :: others =>
      fold_left (λ cs kc, alter (append_matrix (matrix kc.2)) first.1 cs)
                (second :: others) children
  | _ => children
  end.

(** [group_inds] is the order in which the set of group indices happens to
    be iterated. *)
Definition create_child_mat_arrays (group_inds : list Z) (children : list ChildDrawable)
  : list ChildDrawable :=
  fold_left mat_arrays_step group_inds children.

(** ** What the children end up with *)

Definition append_matrices (ms : list Matrix) (c : ChildDrawable) : ChildDrawable :=
  mkChildDrawable (child c) (matrix c) (matrices c ++ ms).

Definition same_group (c c' : ChildDrawable) : Prop :=
  group_index (child c') = group_index (child c).

Global Instance same_group_dec c c' : Decision (same_group c c').
Proof. unfold same_group. apply _. Defined.

(** No child before position [k] is in the group of [c]. *)
Definition first_of_group (children : list ChildDrawable) (k : nat) (c : ChildDrawable) : Prop :=
  Forall (λ c', ¬ same_group c c') (take k children).

Global Instance first_of_group_dec children k c : Decision (first_of_group children k c).
Proof. unfold first_of_group. apply _. Defined.

(** The first child of a group gets the matrices of the later children of
    the group, in order; every other child stays as it is. *)
Definition expected_child (children : list ChildDrawable) (k : nat) (c : ChildDrawable)
  : ChildDrawable :=
  if decide (first_of_group children k c)
  then append_matrices (matrix <$> filter (same_group c) (drop (S k) children)) c
  else c.

(** The children after the groups [seen] have been handled. *)
Definition handled (children : list ChildDrawable) (seen : list Z) : list ChildDrawable :=
  imap (λ k c, if decide (group_index (child c) ∈ seen) then expected_child children k c else c)
       children.

Lemma append_matrices_nil c : append_matrices [] c = c.
Proof. destruct c. unfold append_matrices. cbn. by rewrite app_nil_r. Qed.

Lemma alter_twice {A} (f g : A → A) (l : list A) : ∀ i,
  alter f i (alter g i l) = alter (f ∘ g) i l.
Proof.
  induction l as [|x l IH]; intros [|i]; cbn; [done..|]. f_equal. apply IH.
Qed.

Lemma append_loop (others : list (nat * ChildDrawable)) (first : nat) :
  ∀ cs : list ChildDrawable,
  fold_left (λ cs kc, alter (append_matrix (matrix kc.2)) first cs) others cs
  = alter (append_matrices (matrix <$> others.*2)) first cs.
Proof.
  induction others as [|kc others IH]; intros cs.
  - cbn. symmetry. apply list_alter_id, append_matrices_nil.
  - cbn [fold_left]. rewrite IH. rewrite alter_twice.
    apply list_alter_ext; [|done]. intros c _. unfold append_matrices, append_matrix.
    cbn. by rewrite <- app_assoc.
Qed.

Lemma mat_arrays_step_alter children i :
  mat_arrays_step children i
  = match group_children children i with
    | first :: others => alter (append_matrices (matrix <$> others.*2)) first.1 children
    | [] => children
    end.
Proof.
  unfold mat_arrays_step. destruct (group_children children i) as [|first [|second others]].
  - done.
  - cbn. symmetry. apply list_alter_id, append_matrices_nil.
  - apply append_loop.
Qed.

(** The positions of a group, read off the list. *)
Lemma group_positions (P : ChildDrawable → Prop) `{!∀ c, Decision (P c)} l : ∀ off,
  match filter (λ kc : nat * ChildDrawable, P kc.2) (zip (seq off (length l)) l) with
  | [] => Forall (λ c, ¬ P c) l
  | (k1, c1) :: others =>
      ∃ k, k1 = off + k ∧ l !! k = Some c1 ∧ P c1 ∧
           Forall (λ c, ¬ P c) (take k l) ∧
           others.*2 = filter P (drop (S k) l)
  end.
Proof.
  induction l as [|c l IH]; intros off; [by cbn|].
  cbn [length seq zip zip_with]. destruct (decide (P c)) as [Hc|Hc].
  - rewrite filter_cons_True by done. exists 0. split_and!; [lia|done|done|by cbn|].
    cbn [drop].
    transitivity (filter P (zip (seq (S off) (length l)) l).*2);
      [by rewrite filter_fmap|]. by rewrite snd_zip by (by rewrite length_seq).
  - rewrite filter_cons_False by done. specialize (IH (S off)).
    destruct (filter _ (zip (seq (S off) (length l)) l)) as [|[k1 c1] others].
    + by constructor.
    + destruct IH as (k & -> & Hk & Hc1 & Hbefore & Hothers).
      exists (S k). split_and!; [lia|done|done| |done].
      cbn [take]. by constructor.
Qed.

Lemma handled_length children seen : length (handled children seen) = length children.
Proof. apply length_imap. Qed.

Lemma handled_lookup children seen k c :
  children !! k = Some c →
  handled children seen !! k
  = Some (if decide (group_index (child c) ∈ seen) then expected_child children k c else c).
Proof. intros Hk. unfold handled. by rewrite list_lookup_imap, Hk. Qed.

Lemma expected_child_group children k c :
  group_index (child (expected_child children k c)) = group_index (child c).
Proof. unfold expected_child. by case_decide. Qed.

(** Handling one more group is one turn of the loop. *)
Lemma handled_step children seen i :
  i ∉ seen → mat_arrays_step (handled children seen) i = handled children (i :: seen).
Proof.
  intros Hi. rewrite mat_arrays_step_alter. unfold group_children, enumerate.
  pose proof (group_positions (λ c, group_index (child c) = i) (handled children seen) 0)
    as Hpos.
  destruct (filter _ (zip (seq 0 (length (handled children seen))) (handled children seen)))
    as [|[k1 c1] others].
  - (* no child is in group [i] *)
    apply list_eq. intros k. destruct (children !! k) as [c|] eqn:Hk.
    + rewrite !(handled_lookup _ _ _ _ Hk). f_equal.
      assert (group_index (child c) ≠ i) as Hne.
      { rewrite Forall_forall in Hpos. intros Hgi.
        apply (Hpos (if decide (group_index (child c) ∈ seen)
                     then expected_child children k c else c)).
        - eapply list_elem_of_lookup_2. by apply handled_lookup.
        - case_decide; [by rewrite expected_child_group|done]. }
      destruct (decide (group_index (child c) ∈ seen)) as [Hin|Hnin].
      * by rewrite decide_True by (by right).
      * rewrite decide_False; [done|]. by intros [?|?]%elem_of_cons.
    + rewrite !(proj2 (lookup_ge_None _ _)); [done|..];
        rewrite handled_length; by apply lookup_ge_None.
  - destruct Hpos as (k & -> & Hk1 & Hgroup & Hbefore & Hothers). cbn [fst].
    replace (0 + k) with k by lia.
    (* the children of group [i] are still as they were *)
    assert (∀ j c, children !! j = Some c → group_index (child c) = i →
                   handled children seen !! j = Some c) as Hsame.
    { intros j c Hj Hgi. rewrite (handled_lookup _ _ _ _ Hj).
      rewrite decide_False; [done|]. by rewrite Hgi. }
    assert (∀ j c, handled children seen !! j = Some c → group_index (child c) = i →
                   children !! j = Some c) as Hback.
    { intros j c Hj Hgi. destruct (children !! j) as [c'|] eqn:Hc'.
      - rewrite (handled_lookup _ _ _ _ Hc') in Hj. simplify_eq.
        case_decide as Hin; [|done]. rewrite expected_child_group in Hgi.
        by rewrite Hgi in Hin.
      - apply lookup_ge_None in Hc'. apply lookup_lt_Some in Hj.
        rewrite handled_length in Hj. lia. }
    pose proof (Hback k c1 Hk1 Hgroup) as Hk.
    assert (first_of_group children k c1) as Hfirst.
    { unfold first_of_group. apply Forall_forall. intros c' Hc' Hsg.
      apply elem_of_take in Hc' as (j & Hj & Hlt). unfold same_group in Hsg.
      rewrite Hgroup in Hsg. pose proof (Hsame j c' Hj Hsg) as Hj'.
      rewrite Forall_forall in Hbefore. apply (Hbefore c'); [|done].
      apply elem_of_take. by exists j. }
    assert (filter (λ c, group_index (child c) = i) (drop (S k) (handled children seen))
            = filter (same_group c1) (drop (S k) children)) as Hrest.
    { transitivity (filter (λ c, group_index (child c) = i) (drop (S k) children));
        [|apply list_filter_iff; intros c; unfold same_group; by rewrite Hgroup].
      assert (∀ l1 l2 : list ChildDrawable,
                Forall2 (λ a b, (group_index (child a) = i ∨ group_index (child b) = i) → a = b)
                        l1 l2 →
                filter (λ c, group_index (child c) = i) l1
                = filter (λ c, group_index (child c) = i) l2) as Hfilter.
      { induction 1 as [|a b l1 l2 Hab _ IH]; [done|].
        destruct (decide (group_index (child a) = i)) as [Ha|Ha].
        - rewrite <- (Hab (or_introl Ha)). by rewrite !filter_cons_True, IH by done.
        - destruct (decide (group_index (child b) = i)) as [Hb|Hb].
          + rewrite (Hab (or_intror Hb)) in Ha. done.
          + by rewrite !filter_cons_False by done. }
      apply Hfilter. apply Forall2_same_length_lookup. split.
      - by rewrite !length_drop, handled_length.
      - intros j a b Ha Hb [Hgi|Hgi]; rewrite lookup_drop in Ha, Hb.
        + pose proof (Hback _ _ Ha Hgi). congruence.
        + pose proof (Hsame _ _ Hb Hgi). congruence. }
    rewrite Hothers, Hrest.
    apply list_eq. intros j. destruct (children !! j) as [c|] eqn:Hj.
    + rewrite (handled_lookup _ (i :: seen) _ _ Hj).
      destruct (decide (j = k)) as [->|Hjk].
      * assert (c = c1) as -> by congruence.
        rewrite list_lookup_alter. rewrite (decide_True (P := k = k)) by done.
        rewrite Hk1. cbn [fmap option_fmap option_map].
        rewrite decide_True by (apply elem_of_cons; by left).
        unfold expected_child. by rewrite decide_True.
      * rewrite list_lookup_alter_ne by done. rewrite (handled_lookup _ _ _ _ Hj).
        destruct (decide (group_index (child c) ∈ seen)) as [Hin|Hnin].
        -- by rewrite decide_True by (by right).
        -- destruct (decide (group_index (child c) = i)) as [Hgi|Hgi].
           ++ rewrite decide_True by (apply elem_of_cons; by left).
              unfold expected_child. rewrite decide_False; [done|].
              intros Hf. unfold first_of_group in Hf. rewrite Forall_forall in Hf.
              destruct (decide (j < k)) as [Hlt|Hge].
              ** unfold first_of_group in Hfirst. rewrite Forall_forall in Hfirst.
                 apply (Hfirst c).
                 --- apply elem_of_take. by exists j.
                 --- unfold same_group. congruence.
              ** apply (Hf c1).
                 --- apply elem_of_take. exists k. split; [done|lia].
                 --- unfold same_group. congruence.
           ++ rewrite decide_False; [done|]. by intros [?|?]%elem_of_cons.
    + rewrite !(proj2 (lookup_ge_None _ _)); [done|..];
        rewrite ?length_alter, handled_length; by apply lookup_ge_None.
Qed.

Lemma handled_loop children inds : ∀ seen,
  NoDup inds → (∀ i, i ∈ inds → i ∉ seen) →
  fold_left mat_arrays_step inds (handled children seen)
  = handled children (reverse inds ++ seen).
Proof.
  induction inds as [|i inds IH]; intros seen Hnd Hdisj; [done|].
  apply NoDup_cons in Hnd as [Hi Hnd]. cbn [fold_left].
  rewrite handled_step by (apply Hdisj; by left).
  rewrite IH; [|done|].
  - by rewrite reverse_cons, <- app_assoc.
  - intros i' Hi' [->|Hin]%elem_of_cons; [done|]. apply (Hdisj i'); [by right|done].
Qed.

Lemma handled_nil children : handled children [] = children.
Proof.
  apply list_eq. intros k. destruct (children !! k) as [c|] eqn:Hk.
  - rewrite (handled_lookup _ _ _ _ Hk). rewrite decide_False; [done|]. by intros ?%elem_of_nil.
  - rewrite (proj2 (lookup_ge_None _ _)); [done|].
    rewrite handled_length. by apply lookup_ge_None.
Qed.

(** X23.  Whatever the order in which the set of group indices is iterated,
    [create_child_mat_arrays] leaves the number of children, their groups
    and their own matrices as they are; the first child of every group gets
    appended to its [matrices] the matrices of the later children of that
    group, in child order; every other child's [matrices] are unchanged. *)
Theorem child_mat_arrays_by_group (group_inds : list Z) (children : list ChildDrawable) :
  NoDup group_inds →
  (∀ i, i ∈ group_inds ↔ ∃ c, c ∈ children ∧ group_index (child c) = i) →
  let result := create_child_mat_arrays group_inds children in
  length result = length children ∧
  ∀ k c, children !! k = Some c →
    ∃ c', result !! k = Some c' ∧ child c' = child c ∧ matrix c' = matrix c ∧
          matrices c'
          = matrices c ++
            (if decide (first_of_group children k c)
             then matrix <$> filter (same_group c) (drop (S k) children) else []).
Proof.
  intros Hnd Hinds. cbv zeta. unfold create_child_mat_arrays.
  pose proof (handled_loop children group_inds [] Hnd) as Hloop.
  rewrite handled_nil in Hloop. rewrite Hloop by (by intros i _ ?%elem_of_nil).
  split; [apply handled_length|].
  intros k c Hk. rewrite (handled_lookup _ _ _ _ Hk).
  rewrite decide_True.
  - eexists. split; [done|]. unfold expected_child.
    case_decide; cbn; [done|]. by rewrite app_nil_r.
  - rewrite app_nil_r, elem_of_reverse. apply Hinds. exists c.
    split; [by eapply list_elem_of_lookup_2|done].
Qed.

Definition scaling (k : Q) : Matrix :=
  mkMatrix (mkV4 k 0 0 0) (mkV4 0 k 0 0) (mkV4 0 0 k 0) (mkV4 0 0 0 1).

Definition in_group (g : Z) (k : Q) : ChildDrawable :=
  mkChildDrawable (mkChild g 0 0 0 (mkV4 0 0 0 0)) (scaling k) [].

Definition four_children : list ChildDrawable :=
  [in_group 1 1; in_group 0 2; in_group 1 3; in_group 1 4].

Lemma child_mat_arrays_by_group_witness :
  ∃ c', create_child_mat_arrays [1; 0]%Z four_children !! 0 = Some c' ∧
        matrices c' = [scaling 3; scaling 4].
Proof.
  assert (NoDup [1; 0]%Z) as Hnd.
  { apply (bool_decide_unpack _). by vm_compute. }
  assert (∀ i : Z, i ∈ [1; 0]%Z
                   ↔ ∃ c, c ∈ four_children ∧ group_index (child c) = i) as Hinds.
  { intros i. split.
    - intros Hi. apply elem_of_cons in Hi as [->|Hi].
      + exists (in_group 1 1). split; [by left|done].
      + apply list_elem_of_singleton in Hi as ->.
        exists (in_group 0 2). split; [right; by left|done].
    - intros (c & Hc & <-). unfold four_children in Hc.
      repeat (apply elem_of_cons in Hc as [->|Hc]); cbn;
        try (by left); try (right; by left). by apply elem_of_nil in Hc. }
  destruct (child_mat_arrays_by_group [1; 0]%Z four_children Hnd Hinds) as [_ Hall].
  destruct (Hall 0 (in_group 1 1) eq_refl) as (c' & Hc' & _ & _ & Hm).
  exists c'. split; [exact Hc'|]. rewrite Hm. by vm_compute.
Defined.

End ChildMatrices.

(** * The end of [create_frag_physics_xml] *)

Module PhysicsTail.
Import Model Py Vec.

Definition set_lod1 (frag : Links.Fragment) (lod : PhysicsLOD) : Links.Fragment :=
  Links.mkFragment lod (Links.bones frag) (Links.rotation_limits frag)
                   (Links.translation_limits frag).

Section tail.
(** [calculate_composite_inertia] and [vector_inv] are not among the
    sources.  [calculate_child_drawable_matrices] writes the matrices of the
    children's drawables only, which the model of a child does not hold; it
    may raise. *)
Variable calculate_composite_inertia :
  Vector3 → list Vector3 → list Q → list Vector3 → Vector3.
Variable vector_inv : Vector3 → Vector3.
Variable calculate_child_drawable_matrices : Links.Fragment → option unit.

(** The calls that follow [create_phys_child_xmls]; the result is the
    fragment and the values of [unknown_14] and [unknown_18]. *)
Definition finish_physics (frag : Links.Fragment) : option (Links.Fragment * (Q * Q)) :=
  lod ← Physics.calculate_group_masses (Links.lod1 frag);
  _ ← calculate_child_drawable_matrices (set_lod1 frag lod);
  lod ← SortCols.sort_cols_and_children lod;
  frag ← Links.calculate_physics_lod_transforms (set_lod1 frag lod);
  lod ← ArchetypeMass.calculate_archetype_mass_inertia
           calculate_composite_inertia vector_inv (Links.lod1 frag);
  limits ← Physics.calculate_physics_lod_inertia_limits lod;
  Some (set_lod1 frag lod, limits).

Lemma group_masses_total lod lod' :
  Physics.calculate_group_masses lod = Some lod' →
  children lod' = children lod ∧ archetype lod' = archetype lod ∧
  (name <$> groups lod') = (name <$> groups lod) ∧
  (parent_index <$> groups lod') = (parent_index <$> groups lod) ∧
  (qsum (group_mass <$> groups lod')
   == qsum (group_mass <$> groups lod) + qsum (pristine_mass <$> children lod))%Q.
Proof.
  unfold Physics.calculate_group_masses. intros Hrun.
  destruct (decide (Forall (λ c, is_Some (Links.group_position lod c)) (children lod)))
    as [Hall|Hnot].
  - rewrite Forall_forall in Hall.
    destruct (Physics.masses_loop lod (children lod) [] (groups lod)
                (Physics.masses_inv_init lod) Hall) as (gs & Hloop & [Hlen Hgroup Htotal]).
    rewrite Hloop in Hrun. cbn in Hrun. simplify_eq.
    cbn [children archetype groups Physics.set_groups]. split_and!; try done.
    + apply list_eq. intros i. rewrite !list_lookup_fmap.
      destruct (groups lod !! i) as [g|] eqn:Hg.
      * destruct (Hgroup i g Hg) as (g' & -> & Hn & _). cbn. by rewrite Hn.
      * rewrite (proj2 (lookup_ge_None gs i)); [done|].
        rewrite Hlen. by apply lookup_ge_None.
    + apply list_eq. intros i. rewrite !list_lookup_fmap.
      destruct (groups lod !! i) as [g|] eqn:Hg.
      * destruct (Hgroup i g Hg) as (g' & -> & _ & Hp & _). cbn. by rewrite Hp.
      * rewrite (proj2 (lookup_ge_None gs i)); [done|].
        rewrite Hlen. by apply lookup_ge_None.
  - apply not_Forall_Exists in Hnot; [|intros c; apply _].
    apply Exists_exists in Hnot as (c & Hc & Hnone).
    rewrite (Physics.masses_loop_fails lod (children lod) (groups lod)) in Hrun; [done..|].
    exists c. split; [done|]. cbn in Hnone.
    destruct (Links.group_position lod c) as [k|]; [|done].
    exfalso. apply Hnone. by exists k.
Qed.

Lemma sorted_children lod lod' :
  length (children lod) ≤ length (bounds_children (archetype lod)) →
  SortCols.sort_cols_and_children lod = Some lod' →
  children lod' ≡ₚ children lod ∧ groups lod' = groups lod.
Proof.
  intros Hlen. unfold SortCols.sort_cols_and_children. case_bool_decide.
  - by intros [= <-].
  - rewrite SortCols.sort_lists_spec by done. cbv zeta. cbn [mbind option_bind].
    intros [= <-]. cbn [children groups]. split; [|done].
    set (E := enumerate (zip (children lod) (bounds_children (archetype lod)))).
    set (DO := blocks SortCols.child_key E (SortCols.sorted_keys (children lod))).
    assert (DO ≡ₚ E) as Hperm.
    { apply blocks_Permutation; [apply SortCols.sorted_keys_NoDup|].
      intros x Hx. by eapply SortCols.sorted_keys_complete. }
    trans ((DO.*2).*1); [by rewrite <- list_fmap_compose|].
    rewrite Hperm. unfold E. rewrite enumerate_snd. by rewrite fst_zip.
Qed.

Lemma transforms_keep frag frag' :
  Links.calculate_physics_lod_transforms frag = Some frag' →
  children (Links.lod1 frag') = children (Links.lod1 frag) ∧
  groups (Links.lod1 frag') = groups (Links.lod1 frag) ∧
  archetype (Links.lod1 frag') = archetype (Links.lod1 frag).
Proof.
  unfold Links.calculate_physics_lod_transforms. cbv zeta. intros Hrun.
  destruct (Links.children_by_group _) as [cbg|]; [|done]. cbn in Hrun.
  destruct (Links.form_links_from _ _) as [st|]; [|done]. cbn in Hrun.
  destruct (Links.links_center_of_gravity_from _ _ _) as [cogs|]; [|done]. cbn in Hrun.
  destruct (cogs !! 0) as [root|]; [|done]. cbn in Hrun.
  destruct (mapM _ _) as [ts|]; [|done]. cbn in Hrun.
  by simplify_eq.
Qed.

(** X24.  When the calls that finish [create_frag_physics_xml] return on a
    LOD with at least as many bounds as children, the children are the
    children it started with in another order, the groups keep their names
    and parent indices, and the masses agree: the mass of the archetype is
    the sum of the children's pristine masses, which is what the masses of
    the groups have grown by in total. *)
Theorem finish_physics_masses_agree frag frag' limits :
  length (children (Links.lod1 frag))
    ≤ length (bounds_children (archetype (Links.lod1 frag))) →
  finish_physics frag = Some (frag', limits) →
  let lod := Links.lod1 frag in
  let lod' := Links.lod1 frag' in
  children lod' ≡ₚ children lod ∧
  (name <$> groups lod') = (name <$> groups lod) ∧
  (parent_index <$> groups lod') = (parent_index <$> groups lod) ∧
  (mass (archetype lod') == qsum (pristine_mass <$> children lod))%Q ∧
  (qsum (group_mass <$> groups lod')
   == qsum (group_mass <$> groups lod) + mass (archetype lod'))%Q.
Proof.
  intros Hlen. unfold finish_physics. intros Hrun. cbv zeta.
  destruct (Physics.calculate_group_masses (Links.lod1 frag)) as [lod1|] eqn:H1; [|done].
  cbn [mbind option_bind] in Hrun.
  destruct (calculate_child_drawable_matrices _) as [[]|]; [|done].
  cbn [mbind option_bind] in Hrun.
  destruct (SortCols.sort_cols_and_children lod1) as [lod2|] eqn:H2; [|done].
  cbn [mbind option_bind] in Hrun.
  destruct (Links.calculate_physics_lod_transforms (set_lod1 frag lod2))
    as [frag3|] eqn:H3; [|done].
  cbn [mbind option_bind] in Hrun.
  destruct (ArchetypeMass.calculate_archetype_mass_inertia _ _ (Links.lod1 frag3))
    as [lod4|] eqn:H4; [|done].
  cbn [mbind option_bind] in Hrun.
  destruct (Physics.calculate_physics_lod_inertia_limits lod4) as [lim|]; [|done].
  cbn in Hrun. simplify_eq. cbn [Links.lod1 set_lod1].
  apply group_masses_total in H1 as (Hc1 & Ha1 & Hn1 & Hp1 & Hm1).
  assert (children lod2 ≡ₚ children lod1 ∧ groups lod2 = groups lod1) as [Hc2 Hg2].
  { apply sorted_children; [|done]. by rewrite Hc1, Ha1. }
  apply transforms_keep in H3 as (Hc3 & Hg3 & _). cbn [Links.lod1 set_lod1] in Hc3, Hg3.
  unfold ArchetypeMass.calculate_archetype_mass_inertia in H4. cbv zeta in H4.
  destruct (mapM _ _) as [cgs|]; [|done]. cbn [mbind option_bind] in H4.
  rewrite ArchetypeMass.guarded_inverse in H4. cbn [mbind option_bind] in H4.
  simplify_eq. cbn [children groups archetype mass].
  assert (qsum (pristine_mass <$> children (Links.lod1 frag3))
          == qsum (pristine_mass <$> children (Links.lod1 frag)))%Q as Hsum.
  { apply qsum_Permutation. rewrite Hc3, Hc2, Hc1. done. }
  split_and!.
  - by rewrite Hc3, Hc2, Hc1.
  - by rewrite Hg3, Hg2.
  - by rewrite Hg3, Hg2.
  - exact Hsum.
  - rewrite Hg3, Hg2, Hm1, Hsum. reflexivity.
Qed.

End tail.

Lemma finish_physics_masses_agree_witness :
  ∃ frag' limits,
    finish_physics (λ _ _ _ _, zero) (λ v, v) (λ _, Some tt) Links.two_child_frag
    = Some (frag', limits) ∧
    (mass (archetype (Links.lod1 frag')) == 2)%Q ∧
    (qsum (group_mass <$> groups (Links.lod1 frag')) == 2)%Q.
Proof.
  destruct (finish_physics (λ _ _ _ _, zero) (λ v, v) (λ _, Some tt) Links.two_child_frag)
    as [[frag' limits]|] eqn:Hrun; [|by vm_compute in Hrun].
  exists frag', limits. split; [done|].
  destruct (finish_physics_masses_agree (λ _ _ _ _, zero) (λ v, v) (λ _, Some tt)
              Links.two_child_frag frag' limits) as (_ & _ & _ & Hmass & Hgroups).
  - cbn. lia.
  - exact Hrun.
  - rewrite Hgroups, Hmass. split; by vm_compute.
Defined.

End PhysicsTail.
